(** * The JIT slice of the repository: script parser, sugared values,
      ONNX export and tracer entry/exit

    A shallow embedding of
      - torch/csrc/jit/script/parser.h    (module [Script])
      - torch/csrc/jit/script/compiler.h  (module [Compiler])
      - torch/csrc/jit/export.cpp         (module [Exporter])
      - torch/csrc/jit/tracer.h           (module [Tracer])
    together with the properties the specification states about them. *)

From Stdlib Require Import ZArith String Ascii List Bool Lia.
From stdpp Require Import base option list strings gmap.

Local Open Scope string_scope.
Local Open Scope list_scope.

(* ===================================================================== *)
(** ** The script front end: parser.h                                     *)
(* ===================================================================== *)

Module Script.

(** Token and tree kinds.  In the source a kind is an [int]: a
    single-character token is its own character code, the named kinds
    [TK_*] are numbered above the character range. *)
Inductive Kind : Type :=
| TK_CHAR (c : ascii)
| TK_EOF | TK_NUMBER | TK_IDENT | TK_STRING
| TK_TRUE | TK_FALSE
| TK_FLOAT | TK_INT | TK_LONG | TK_DOUBLE
| TK_PLUS_EQ | TK_MINUS_EQ | TK_TIMES_EQ | TK_DIV_EQ
| TK_IF | TK_ELSE | TK_WHILE | TK_GLOBAL | TK_RETURN | TK_DEF
| TK_NEWLINE | TK_INDENT | TK_DEDENT
| TK_NOTHING
| TK_IF_EXPR | TK_CONST | TK_LIST | TK_OPTION
| TK_VAR | TK_APPLY | TK_ATTRIBUTE | TK_CAST | TK_GATHER | TK_SLICE
| TK_ASSIGN | TK_EXPR_STMT.

#[global] Instance Kind_eq_dec : EqDecision Kind.
Proof. solve_decision. Defined.

Definition kind_eqb (a b : Kind) : bool := bool_decide (a = b).
Arguments kind_eqb : simpl never.

Coercion TK_CHAR : ascii >-> Kind.

Record SourceRange : Type :=
  { range_start : nat; range_end : nat }.

Record Token : Type :=
  { kind : Kind; range : SourceRange; text : string }.

(** What a failed parse throws: [ErrorReport(tok) << msg] carries the
    place and the message; [Expected] is the lexer's own report from
    [expect]. *)
Inductive ErrorReport : Type :=
| Report (where_ : SourceRange) (what : string)
| Expected (wanted : Kind) (found : Token).

(** Results of the parsing functions: a value, a thrown [ErrorReport], or
    the recursion budget of the model ran out (never a parse error). *)
Inductive outcome (A : Type) : Type :=
| Ok (a : A)
| Throw (e : ErrorReport)
| OutOfFuel.
Arguments Ok {A} a.
Arguments Throw {A} e.
Arguments OutOfFuel {A}.

(** Modelled from the spec: the Lexer (lexer.h is not among the sources).
    It "tokenizes into an indentation-sensitive token stream"; the parser
    only uses [cur], [next], [nextIf], [expect] and [lookahead] on it.
    The stream is the list of tokens still to come; past its end the
    current token is the end-of-file token. *)
Record Lexer : Type :=
  { next_tokens : list Token; eof_range : SourceRange }.

Definition eof_token (L : Lexer) : Token :=
  {| kind := TK_EOF; range := eof_range L; text := "" |}.

Definition cur (L : Lexer) : Token :=
  match next_tokens L with
  | t :: _ => t
  | [] => eof_token L
  end.

Definition advance (L : Lexer) : Lexer :=
  {| next_tokens := tl (next_tokens L); eof_range := eof_range L |}.

Definition lookahead (L : Lexer) : Token := cur (advance L).

(** The parser monad: the lexer is the only state the parser mutates. *)
Definition M (A : Type) : Type := Lexer -> outcome (A * Lexer).

Definition ret {A} (a : A) : M A := fun L => Ok (a, L).

Definition bind {A B} (m : M A) (k : A -> M B) : M B :=
  fun L => match m L with
           | Ok (a, L') => k a L'
           | Throw e => Throw e
           | OutOfFuel => OutOfFuel
           end.

Definition throw {A} (e : ErrorReport) : M A := fun _ => Throw e.
Definition out_of_fuel {A} : M A := fun _ => OutOfFuel.

Notation "x <- m ;; k" := (bind m (fun x => k))
  (at level 100, m at next level, right associativity).
Notation "m ;;; k" := (bind m (fun _ => k))
  (at level 100, right associativity).

Definition L_cur : M Token := fun L => Ok (cur L, L).
Definition L_lookahead : M Token := fun L => Ok (lookahead L, L).
Definition L_next : M Token := fun L => Ok (cur L, advance L).

Definition L_nextIf (k : Kind) : M bool :=
  fun L => if kind_eqb (kind (cur L)) k then Ok (true, advance L)
           else Ok (false, L).

Definition L_expect (k : Kind) : M Token :=
  fun L => if kind_eqb (kind (cur L)) k then Ok (cur L, advance L)
           else Throw (Expected k (cur L)).

(** Modelled from the spec: the precedence table (SharedParserData lives
    in lexer.h): a "unary/binary operator precedence table drives
    parseExp".  [isUnary] and [isBinary] return the precedence through
    their out-parameter when they answer true. *)
Record SharedParserData : Type :=
  { isUnary : Kind -> option Z;
    isBinary : Kind -> option Z;
    isRightAssociative : Kind -> bool }.

Section Parser.

(** The C++ [double] and the two operations the parser performs on it:
    conversion of an integer constant ([d(1)], [1.0f]) and the product
    [mult * t.doubleValue()]; [doubleValue] reads a number token. *)
Variable double : Type.
Variable double_of_Z : Z -> double.
Variable double_mul : double -> double -> double.
Variable doubleValue : Token -> double.

(** tree.h: a tree is a compound node, a number or a string. *)
#[warnings="-register-all"]
Inductive Tree : Type :=
| Compound (k : Kind) (r : SourceRange) (trees : list Tree)
| Number (v : double)
| String_ (s : string).

Definition TreeList := list Tree.

Definition tree_kind (t : Tree) : Kind :=
  match t with
  | Compound k _ _ => k
  | Number _ => TK_NUMBER
  | String_ _ => TK_STRING
  end.

Definition tree_range (t : Tree) : SourceRange :=
  match t with
  | Compound _ r _ => r
  | _ => {| range_start := 0; range_end := 0 |}
  end.

Definition trees (t : Tree) : TreeList :=
  match t with
  | Compound _ _ ts => ts
  | _ => []
  end.

(* short helpers to create nodes *)
Definition d (v : double) : Tree := Number v.
Definition s (str : string) : Tree := String_ str.
Definition c (k : Kind) (r : SourceRange) (ts : TreeList) : Tree := Compound k r ts.
Definition makeList (r : SourceRange) (ts : TreeList) : Tree := c TK_LIST r ts.

(** Modelled from the spec: the tree views (tree_views.h is not among the
    sources).  Each view's [create] builds the compound node of the view's
    kind over its arguments, in argument order; a view wrapped around a
    tree ([Expr(t)], [Ident(t)], ...) is the tree. *)
Definition Ident_create (r : SourceRange) (name : string) : Tree :=
  Compound TK_IDENT r [String_ name].
Definition Ident_name (t : Tree) : string :=
  match trees t with String_ n :: _ => n | _ => "" end.
Definition Var_create (r : SourceRange) (name : Tree) : Tree :=
  Compound TK_VAR r [name].
Definition Var_name (t : Tree) : Tree :=
  match trees t with n :: _ => n | [] => t end.
Definition Apply_create (r : SourceRange) (callee inputs attributes : Tree) : Tree :=
  Compound TK_APPLY r [callee; inputs; attributes].
Definition Attribute_create (r : SourceRange) (name value : Tree) : Tree :=
  Compound TK_ATTRIBUTE r [name; value].
Definition Select_create (r : SourceRange) (value selector : Tree) : Tree :=
  Compound "."%char r [value; selector].
Definition Cast_create (r : SourceRange) (type input : Tree) : Tree :=
  Compound TK_CAST r [type; input].
Definition Gather_create (r : SourceRange) (value indices : Tree) : Tree :=
  Compound TK_GATHER r [value; indices].
Definition Slice_create (r : SourceRange) (value first second : Tree) : Tree :=
  Compound TK_SLICE r [value; first; second].
Definition ListLiteral_create (r : SourceRange) (inputs : Tree) : Tree :=
  Compound "["%char r [inputs].
Definition List_create (r : SourceRange) (elements : TreeList) : Tree :=
  Compound TK_LIST r elements.
Definition Assign_create (r : SourceRange) (lhs red rhs : Tree) : Tree :=
  Compound TK_ASSIGN r [lhs; red; rhs].
Definition ExprStmt_create (r : SourceRange) (e : Tree) : Tree :=
  Compound TK_EXPR_STMT r [e].
Definition Global_create (r : SourceRange) (names : Tree) : Tree :=
  Compound TK_GLOBAL r [names].
Definition Return_create (r : SourceRange) (values : Tree) : Tree :=
  Compound TK_RETURN r [values].
Definition If_create (r : SourceRange) (cond true_branch false_branch : Tree) : Tree :=
  Compound TK_IF r [cond; true_branch; false_branch].
Definition While_create (r : SourceRange) (cond body : Tree) : Tree :=
  Compound TK_WHILE r [cond; body].

(** The parser: the lexer it owns is threaded by [M]; [shared] is the
    precedence table it holds a reference to. *)
Variable shared : SharedParserData.

Definition parseIdent : M Tree :=
  t <- L_expect TK_IDENT ;;
  ret (Ident_create (range t) (text t)).

(** [std::string::find(char)]: the first position of the character, or
    [None] for [npos]. *)
Fixpoint find (ch : ascii) (str : string) : option nat :=
  match str with
  | EmptyString => None
  | String a rest =>
      if Ascii.eqb a ch then Some 0
      else match find ch rest with
           | Some i => Some (S i)
           | None => None
           end
  end.

(** [while (L.nextIf('-')) mult *= -1.0f;] one token is consumed per
    turn, so the loop is a recursion on the token stream. *)
Fixpoint minus_loop (mult : double) (toks : list Token) : double * list Token :=
  match toks with
  | t :: rest =>
      if kind_eqb (kind t) "-"%char
      then minus_loop (double_mul mult (double_of_Z (-1))) rest
      else (mult, toks)
  | [] => (mult, [])
  end.

Definition parseConst_minus (mult : double) : M double :=
  fun L =>
    let '(m, toks) := minus_loop mult (next_tokens L) in
    Ok (m, {| next_tokens := toks; eof_range := eof_range L |}).

Definition parseConst : M Tree :=
  t0 <- L_cur ;;
  let range0 := range t0 in
  is_true <- L_nextIf TK_TRUE ;;
  if is_true then ret (c TK_CONST range0 [d (double_of_Z 1); s "b"])
  else
    is_false <- L_nextIf TK_FALSE ;;
    if is_false then ret (c TK_CONST range0 [d (double_of_Z 0); s "b"])
    else
      mult <- parseConst_minus (double_of_Z 1) ;;
      t <- L_expect TK_NUMBER ;;
      let type_ident := match find "."%char (text t) with
                        | None => "i"
                        | Some _ => "f"
                        end in
      nxt <- L_cur ;;
      if kind_eqb (kind nxt) TK_IDENT then
        type_ident_tok <- L_expect TK_IDENT ;;
        let type_ident := text type_ident_tok in
        if negb (String.eqb type_ident "LL") && negb (String.eqb type_ident "f")
        then throw (Report (range type_ident_tok)
                      ("expected 'f' or 'LL' " +:+
                       "as numeric type identifier but found '" +:+ type_ident +:+ "'"))
        else ret (c TK_CONST (range t)
                    [d (double_mul mult (doubleValue t)); s type_ident])
      else ret (c TK_CONST (range t)
                  [d (double_mul mult (doubleValue t)); s type_ident]).


(** [parseList(begin, sep, end, parse)]: the do-while loop reads one
    element and goes on while a separator follows. *)
Fixpoint parseList_loop (fuel : nat) (sep : Kind) (parse : M Tree)
    (elements : TreeList) : M TreeList :=
  match fuel with
  | O => out_of_fuel
  | S fuel' =>
      e <- parse ;;
      let elements := elements ++ [e] in
      more <- L_nextIf sep ;;
      if more then parseList_loop fuel' sep parse elements
      else ret elements
  end.

Definition parseList (fuel : nat) (begin sep end_ : Kind) (parse : M Tree) : M Tree :=
  t0 <- L_cur ;;
  let r := range t0 in
  (if negb (kind_eqb begin TK_NOTHING)
   then (L_expect begin ;;; ret tt) else ret tt) ;;;
  t1 <- L_cur ;;
  elements <- (if negb (kind_eqb (kind t1) end_)
               then parseList_loop fuel sep parse []
               else ret []) ;;
  (if negb (kind_eqb end_ TK_NOTHING)
   then (L_expect end_ ;;; ret tt) else ret tt) ;;;
  ret (List_create r elements).

Definition parseAttributeValue (fuel : nat) : M Tree :=
  t <- L_cur ;;
  if kind_eqb (kind t) "["%char then
    list <- parseList fuel "["%char ","%char "]"%char parseConst ;;
    ret (ListLiteral_create (tree_range list) list)
  else parseConst.

(** The do-while loop of [parseOperatorArguments]; [parseExp0] is
    [parseExp()]. *)
Fixpoint parseOperatorArguments_loop (fuel : nat) (parseExp0 : M Tree)
    (inputs attributes : TreeList) : M (TreeList * TreeList) :=
  match fuel with
  | O => out_of_fuel
  | S fuel' =>
      t <- L_cur ;;
      la <- L_lookahead ;;
      args <-
        (if kind_eqb (kind t) TK_IDENT && kind_eqb (kind la) "="%char then
           ident <- parseIdent ;;
           L_expect "="%char ;;;
           v <- parseAttributeValue fuel' ;;
           ret (inputs, attributes ++ [Attribute_create (tree_range ident) ident v])
         else
           e <- parseExp0 ;;
           ret (inputs ++ [e], attributes)) ;;
      let '(inputs, attributes) := args in
      more <- L_nextIf ","%char ;;
      if more then parseOperatorArguments_loop fuel' parseExp0 inputs attributes
      else ret (inputs, attributes)
  end.

Definition parseOperatorArguments (fuel : nat) (parseExp0 : M Tree)
    (inputs attributes : TreeList) : M (TreeList * TreeList) :=
  L_expect "("%char ;;;
  t <- L_cur ;;
  args <-
    (if negb (kind_eqb (kind t) ")"%char)
     then parseOperatorArguments_loop fuel parseExp0 inputs attributes
     else ret (inputs, attributes)) ;;
  L_expect ")"%char ;;;
  ret args.

Definition createApply (fuel : nat) (parseExp0 : M Tree) (expr : Tree) : M Tree :=
  t <- L_cur ;;
  let range := range t in
  args <- parseOperatorArguments fuel parseExp0 [] [] ;;
  let '(inputs, attributes) := args in
  ret (Apply_create range expr (makeList range inputs) (makeList range attributes)).

(* OK: [a] (gather), [a:], [:a], [a:b], [:] (slice)
   Not OK: [] *)
Definition parseSliceOrGather (parseExp0 : M Tree) (value : Tree) : M Tree :=
  t <- L_cur ;;
  let range := range t in
  L_expect "["%char ;;;
  t1 <- L_cur ;;
  if negb (kind_eqb (kind t1) ":"%char) then
    first <- parseExp0 ;;
    closed <- L_nextIf "]"%char ;;
    if closed then ret (Gather_create range value first)
    else
      let first := c TK_OPTION range [first] in
      L_expect ":"%char ;;;
      t2 <- L_cur ;;
      second <- (if negb (kind_eqb (kind t2) "]"%char)
                 then (e <- parseExp0 ;; ret (c TK_OPTION range [e]))
                 else ret (c TK_OPTION range [])) ;;
      L_expect "]"%char ;;;
      ret (Slice_create range value first second)
  else
    let first := c TK_OPTION range [] in
    L_expect ":"%char ;;;
    t2 <- L_cur ;;
    second <- (if negb (kind_eqb (kind t2) "]"%char)
               then (e <- parseExp0 ;; ret (c TK_OPTION range [e]))
               else ret (c TK_OPTION range [])) ;;
    L_expect "]"%char ;;;
    ret (Slice_create range value first second).

(** The postfix loop of [parseBaseExp]: selects, calls and subscripts
    attach left to right. *)
Fixpoint parseBaseExp_loop (fuel : nat) (parseExp0 : M Tree) (prefix : Tree) : M Tree :=
  match fuel with
  | O => out_of_fuel
  | S fuel' =>
      dot <- L_nextIf "."%char ;;
      if dot then
        name <- parseIdent ;;
        parseBaseExp_loop fuel' parseExp0 (Select_create (tree_range name) prefix name)
      else
        t <- L_cur ;;
        if kind_eqb (kind t) "("%char then
          prefix <- createApply fuel' parseExp0 prefix ;;
          parseBaseExp_loop fuel' parseExp0 prefix
        else if kind_eqb (kind t) "["%char then
          prefix <- parseSliceOrGather parseExp0 prefix ;;
          parseBaseExp_loop fuel' parseExp0 prefix
        else ret prefix
  end.

(* things like a 1.0 or a(4) that are not unary/binary expressions
   and have higher precedence than all of them *)
Definition parseBaseExp (fuel : nat) (parseExp0 : M Tree) : M Tree :=
  t <- L_cur ;;
  prefix <-
    match kind t with
    | TK_NUMBER | TK_TRUE | TK_FALSE => parseConst
    | TK_CHAR "("%char =>
        L_next ;;;
        prefix <- parseExp0 ;;
        L_expect ")"%char ;;;
        ret prefix
    | TK_FLOAT | TK_INT | TK_LONG =>
        let r := range t in
        t' <- L_next ;;
        let type := c (kind t') r [] in
        L_expect "("%char ;;;
        exp <- parseExp0 ;;
        L_expect ")"%char ;;;
        ret (Cast_create r type exp)
    | _ =>
        name <- parseIdent ;;
        ret (Var_create (tree_range name) name)
    end ;;
  parseBaseExp_loop fuel parseExp0 prefix.

Definition parseTrinary (parseExp_ : Z -> M Tree) (true_branch : Tree)
    (range : SourceRange) (binary_prec : Z) : M Tree :=
  cond <- parseExp_ 0%Z ;;
  L_expect TK_ELSE ;;;
  false_branch <- parseExp_ binary_prec ;;
  ret (c TK_IF_EXPR range [cond; true_branch; false_branch]).

(** The binary-operator loop of [parseExp]. *)
Fixpoint parseExp_loop (fuel : nat) (parseExp_ : Z -> M Tree) (precedence : Z)
    (prefix : Tree) : M Tree :=
  match fuel with
  | O => out_of_fuel
  | S fuel' =>
      t <- L_cur ;;
      match isBinary shared (kind t) with
      | None => ret prefix
      | Some binary_prec =>
          if (binary_prec <=? precedence)%Z then ret prefix
          else
            let kind_ := kind t in
            let pos := range t in
            L_next ;;;
            let binary_prec :=
              if isRightAssociative shared kind_ then (binary_prec - 1)%Z
              else binary_prec in
            if kind_eqb kind_ TK_IF then
              prefix <- parseTrinary parseExp_ prefix pos binary_prec ;;
              parseExp_loop fuel' parseExp_ precedence prefix
            else
              rhs <- parseExp_ binary_prec ;;
              parseExp_loop fuel' parseExp_ precedence (c kind_ pos [prefix; rhs])
      end
  end.

(* parse the longest expression whose binary operators have
   precedence strictly greater than 'precedence'
   precedence == 0 will parse _all_ expressions
   this is the core loop of 'top-down precedence parsing' *)
Fixpoint parseExp (fuel : nat) (precedence : Z) {struct fuel} : M Tree :=
  match fuel with
  | O => out_of_fuel
  | S fuel' =>
      t <- L_cur ;;
      prefix <-
        match isUnary shared (kind t) with
        | Some unary_prec =>
            let kind_ := kind t in
            let pos := range t in
            L_next ;;;
            e <- parseExp fuel' unary_prec ;;
            ret (c kind_ pos [e])
        | None => parseBaseExp fuel' (parseExp fuel' 0%Z)
        end ;;
      parseExp_loop fuel' (parseExp fuel') precedence prefix
  end.

Definition parseOptionalReduction : M Tree :=
  t <- L_cur ;;
  let r := range t in
  match kind t with
  | TK_PLUS_EQ | TK_MINUS_EQ | TK_TIMES_EQ | TK_DIV_EQ =>
      t' <- L_next ;;
      let modifier := match text t' with
                      | String a _ => a
                      | EmptyString => Ascii.zero
                      end in
      ret (c (TK_CHAR modifier) r [])
  | _ =>
      L_expect "="%char ;;;
      ret (c "="%char r []) (* no reduction *)
  end.

(* TODO: these functions should be unnecessary, but we currently do not
   emit a TK_NEWLINE before a series of TK_DEDENT tokens
   so if we see a TK_DEDENT then we know a newline must have happened and
   ignore it. *)
Definition expectEndOfLine : M unit :=
  t <- L_cur ;;
  if negb (kind_eqb (kind t) TK_DEDENT)
  then (L_expect TK_NEWLINE ;;; ret tt)
  else ret tt.

Definition isEndOfLine : M bool :=
  t <- L_cur ;;
  ret (kind_eqb (kind t) TK_NEWLINE || kind_eqb (kind t) TK_DEDENT).

(* 'first' has already been parsed, add the rest
   if they exist
   first[, the, rest] *)
Fixpoint parseOneOrMoreIdents_loop (fuel : nat) (idents : TreeList) : M TreeList :=
  match fuel with
  | O => out_of_fuel
  | S fuel' =>
      more <- L_nextIf ","%char ;;
      if more then
        i <- parseIdent ;;
        parseOneOrMoreIdents_loop fuel' (idents ++ [i])
      else ret idents
  end.

Definition parseOneOrMoreIdents (fuel : nat) (first : Tree) : M Tree :=
  idents <- parseOneOrMoreIdents_loop fuel [first] ;;
  ret (List_create (tree_range (List.last idents first)) idents).

(* 'first' has already been parsed since expressions can exist
   alone on a line:
   first[,other,lhs] = rhs *)
Definition parseAssign (fuel : nat) (first : Tree) : M Tree :=
  list <- parseOneOrMoreIdents fuel first ;;
  red <- parseOptionalReduction ;;
  rhs <- parseExp fuel 0%Z ;;
  expectEndOfLine ;;;
  ret (Assign_create (tree_range list) list red rhs).

(** The loop of [parseStatements]: statements up to the closing dedent. *)
Fixpoint parseStatements_loop (fuel : nat) (parseStmt_ : M Tree) (stmts : TreeList)
    : M TreeList :=
  match fuel with
  | O => out_of_fuel
  | S fuel' =>
      st <- parseStmt_ ;;
      let stmts := stmts ++ [st] in
      closed <- L_nextIf TK_DEDENT ;;
      if closed then ret stmts
      else parseStatements_loop fuel' parseStmt_ stmts
  end.

Definition parseStatements (fuel : nat) (parseStmt_ : M Tree) : M Tree :=
  t <- L_cur ;;
  let r := range t in
  L_expect TK_INDENT ;;;
  stmts <- parseStatements_loop fuel parseStmt_ [] ;;
  ret (c TK_LIST r stmts).

Definition parseIf (fuel : nat) (parseStmt_ : M Tree) : M Tree :=
  t <- L_cur ;;
  let r := range t in
  L_expect TK_IF ;;;
  cond <- parseExp fuel 0%Z ;;
  L_expect ":"%char ;;;
  true_branch <- parseStatements fuel parseStmt_ ;;
  t' <- L_cur ;;
  let false_branch := makeList (range t') [] in
  has_else <- L_nextIf TK_ELSE ;;
  false_branch <- (if has_else
                   then (L_expect ":"%char ;;; parseStatements fuel parseStmt_)
                   else ret false_branch) ;;
  ret (If_create r cond true_branch false_branch).

Definition parseWhile (fuel : nat) (parseStmt_ : M Tree) : M Tree :=
  t <- L_cur ;;
  let r := range t in
  L_expect TK_WHILE ;;;
  cond <- parseExp fuel 0%Z ;;
  L_expect ":"%char ;;;
  body <- parseStatements fuel parseStmt_ ;;
  ret (While_create r cond body).

Fixpoint parseStmt (fuel : nat) : M Tree :=
  match fuel with
  | O => out_of_fuel
  | S fuel' =>
      t <- L_cur ;;
      match kind t with
      | TK_IF => parseIf fuel' (parseStmt fuel')
      | TK_WHILE => parseWhile fuel' (parseStmt fuel')
      | TK_GLOBAL =>
          t' <- L_next ;;
          let range := range t' in
          idents <- parseList fuel' TK_NOTHING ","%char TK_NOTHING parseIdent ;;
          ret (Global_create range idents)
      | TK_RETURN =>
          t' <- L_next ;;
          let range := range t' in
          values <- parseList fuel' TK_NOTHING ","%char TK_NOTHING (parseExp fuel' 0%Z) ;;
          ret (Return_create range values)
      | _ =>
          r <- parseExp fuel' 0%Z ;;
          eol <- isEndOfLine ;;
          if kind_eqb (tree_kind r) TK_VAR && negb eol
          then parseAssign fuel' (Var_name r)
          else (expectEndOfLine ;;; ret (ExprStmt_create (tree_range r) r))
      end
  end.

(** The two helpers of the parser that nothing in parser.h calls yet. *)
Definition parseScalarType : M Tree :=
  t <- L_cur ;;
  match kind t with
  | TK_INT | TK_FLOAT | TK_LONG | TK_DOUBLE =>
      t <- L_next ;;
      ret (c (kind t) (range t) [])
  | _ => parseIdent
  end.

Definition parseOptionalIdentList (fuel : nat) : M Tree :=
  t <- L_cur ;;
  if kind_eqb (kind t) "("%char
  then parseList fuel "("%char ","%char ")"%char parseIdent
  else ret (c TK_LIST (range t) []).

(** *** Literals *)

Lemma kind_eqb_eq (a b : Kind) : a = b -> kind_eqb a b = true.
Proof. intros H. unfold kind_eqb. apply bool_decide_eq_true_2, H. Qed.

Lemma kind_eqb_neq (a b : Kind) : a <> b -> kind_eqb a b = false.
Proof. intros H. unfold kind_eqb. apply bool_decide_eq_false_2, H. Qed.

(** The type tag a number token gets from its own text. *)
Definition default_type_ident (t : Token) : string :=
  match find "."%char (text t) with
  | None => "i"
  | Some _ => "f"
  end.

(** The value of [mult] after the leading minus signs. *)
Definition mult_after (minuses : list Token) : double :=
  fold_left (fun m _ => double_mul m (double_of_Z (-1))) minuses (double_of_Z 1).

Definition with_tokens (L : Lexer) (toks : list Token) : Lexer :=
  {| next_tokens := toks; eof_range := eof_range L |}.

Lemma minus_loop_spec (minuses : list Token) (rest : list Token) (m : double) :
  Forall (fun t => kind t = TK_CHAR "-") minuses ->
  kind (hd {| kind := TK_EOF; range := {| range_start := 0; range_end := 0 |}; text := "" |} rest)
    <> TK_CHAR "-" ->
  minus_loop m (minuses ++ rest)
  = (fold_left (fun m _ => double_mul m (double_of_Z (-1))) minuses m, rest).
Proof.
  intros Hm Hrest. revert m.
  induction Hm as [|t ts Ht _ IH]; intros m; cbn [app minus_loop fold_left].
  - destruct rest as [|t rest]; [reflexivity|].
    cbn [hd] in Hrest. cbn [minus_loop].
    rewrite kind_eqb_neq by assumption. reflexivity.
  - rewrite kind_eqb_eq by assumption. apply IH.
Qed.

Lemma parseConst_number (L : Lexer) (minuses : list Token) (num : Token) (rest : list Token) :
  next_tokens L = minuses ++ num :: rest ->
  Forall (fun t => kind t = TK_CHAR "-") minuses ->
  kind num = TK_NUMBER ->
  parseConst L =
    let L' := with_tokens L rest in
    if kind_eqb (kind (cur L')) TK_IDENT then
      let type_ident := text (cur L') in
      if negb (String.eqb type_ident "LL") && negb (String.eqb type_ident "f")
      then Throw (Report (range (cur L'))
                    ("expected 'f' or 'LL' as numeric type identifier but found '"
                     +:+ type_ident +:+ "'"))
      else Ok (c TK_CONST (range num)
                 [d (double_mul (mult_after minuses) (doubleValue num)); s type_ident],
               advance L')
    else Ok (c TK_CONST (range num)
               [d (double_mul (mult_after minuses) (doubleValue num));
                s (default_type_ident num)], L').
Proof.
  intros Htoks Hminus Hnum.
  assert (Hcur : kind (cur L) = TK_CHAR "-" \/ kind (cur L) = TK_NUMBER).
  { unfold cur. rewrite Htoks. destruct Hminus; simpl; auto. }
  unfold parseConst, bind, L_cur, L_nextIf, parseConst_minus, L_expect, ret, throw.
  assert (Ht : kind_eqb (kind (cur L)) TK_TRUE = false).
  { apply kind_eqb_neq. destruct Hcur as [-> | ->]; discriminate. }
  assert (Hf : kind_eqb (kind (cur L)) TK_FALSE = false).
  { apply kind_eqb_neq. destruct Hcur as [-> | ->]; discriminate. }
  rewrite Ht, Hf, Htoks.
  rewrite (minus_loop_spec minuses (num :: rest));
    [| assumption | cbn [hd]; rewrite Hnum; discriminate].
  fold (mult_after minuses).
  unfold cur at 1; cbn [next_tokens].
  rewrite (kind_eqb_eq (kind num)) by assumption.
  unfold cur at 1; cbn [next_tokens].
  unfold advance, with_tokens, cur; cbn [next_tokens tl eof_range].
  destruct rest as [|suffix rest]; cbn [kind eof_token].
  - rewrite kind_eqb_neq by discriminate. reflexivity.
  - destruct (kind_eqb (kind suffix) TK_IDENT) eqn:Hid; [| reflexivity].
    cbn [next_tokens tl eof_range]. rewrite Hid.
    destruct (negb _ && negb _); reflexivity.
Qed.


(** *** The recursion budget

    [extends p q]: wherever [p] gives an answer (a tree or an error), [q]
    gives the same one.  Every parsing function only gains answers when
    its budget grows. *)
Definition extends {A : Type} (p q : M A) : Prop :=
  forall L, p L <> OutOfFuel -> q L = p L.

Lemma extends_refl {A} (p : M A) : extends p p.
Proof. intros L _. reflexivity. Qed.

Lemma extends_out_of_fuel {A} (q : M A) : extends out_of_fuel q.
Proof. intros L H. exfalso. apply H. reflexivity. Qed.

Lemma extends_bind {A B} (m m' : M A) (k k' : A -> M B) :
  extends m m' -> (forall a, extends (k a) (k' a)) ->
  extends (bind m k) (bind m' k').
Proof.
  intros Hm Hk L H. unfold bind in *.
  destruct (m L) as [[a L1]| e |] eqn:E.
  - rewrite (Hm L) by (rewrite E; discriminate). rewrite E. apply Hk, H.
  - rewrite (Hm L) by (rewrite E; discriminate). rewrite E. reflexivity.
  - contradiction.
Qed.

Ltac extends_step :=
  match goal with
  | |- extends out_of_fuel _ => apply extends_out_of_fuel
  | |- extends ?p ?p => apply extends_refl
  | |- extends _ _ => assumption
  | |- extends (bind _ _) (bind _ _) => apply extends_bind; [| intros ? ]
  | |- extends (if ?b then _ else _) (if ?b then _ else _) => destruct b
  | |- extends (match ?x with _ => _ end) (match ?x with _ => _ end) => destruct x
  end.

Ltac extends_auto := repeat extends_step.

Lemma parseList_loop_mono (f f' : nat) (sep : Kind) (p p' : M Tree) :
  f <= f' -> extends p p' ->
  forall elements, extends (parseList_loop f sep p elements)
                           (parseList_loop f' sep p' elements).
Proof.
  intros Hle Hp. revert f' Hle.
  induction f as [|f IH]; intros f' Hle elements; [apply extends_out_of_fuel|].
  destruct f' as [|f']; [lia|]. cbn [parseList_loop].
  extends_auto. apply IH. lia.
Qed.

Lemma parseList_mono (f f' : nat) (b sep e : Kind) (p p' : M Tree) :
  f <= f' -> extends p p' ->
  extends (parseList f b sep e p) (parseList f' b sep e p').
Proof.
  intros Hle Hp. unfold parseList. extends_auto.
  apply parseList_loop_mono; assumption.
Qed.

Lemma parseAttributeValue_mono (f f' : nat) :
  f <= f' -> extends (parseAttributeValue f) (parseAttributeValue f').
Proof.
  intros Hle. unfold parseAttributeValue. extends_auto.
  apply parseList_mono; [assumption | apply extends_refl].
Qed.

Lemma parseOperatorArguments_loop_mono (f f' : nat) (p p' : M Tree) :
  f <= f' -> extends p p' ->
  forall inputs attributes,
    extends (parseOperatorArguments_loop f p inputs attributes)
            (parseOperatorArguments_loop f' p' inputs attributes).
Proof.
  intros Hle Hp. revert f' Hle.
  induction f as [|f IH]; intros f' Hle inputs attributes; [apply extends_out_of_fuel|].
  destruct f' as [|f']; [lia|]. cbn [parseOperatorArguments_loop].
  extends_auto; try (apply parseAttributeValue_mono; lia); apply IH; lia.
Qed.

Lemma parseOperatorArguments_mono (f f' : nat) (p p' : M Tree) inputs attributes :
  f <= f' -> extends p p' ->
  extends (parseOperatorArguments f p inputs attributes)
          (parseOperatorArguments f' p' inputs attributes).
Proof.
  intros Hle Hp. unfold parseOperatorArguments. extends_auto.
  apply parseOperatorArguments_loop_mono; assumption.
Qed.

Lemma createApply_mono (f f' : nat) (p p' : M Tree) (expr : Tree) :
  f <= f' -> extends p p' ->
  extends (createApply f p expr) (createApply f' p' expr).
Proof.
  intros Hle Hp. unfold createApply. extends_auto.
  apply parseOperatorArguments_mono; assumption.
Qed.

Lemma parseSliceOrGather_mono (p p' : M Tree) (value : Tree) :
  extends p p' ->
  extends (parseSliceOrGather p value) (parseSliceOrGather p' value).
Proof. intros Hp. unfold parseSliceOrGather. extends_auto. Qed.

Lemma parseBaseExp_loop_mono (f f' : nat) (p p' : M Tree) :
  f <= f' -> extends p p' ->
  forall prefix, extends (parseBaseExp_loop f p prefix) (parseBaseExp_loop f' p' prefix).
Proof.
  intros Hle Hp. revert f' Hle.
  induction f as [|f IH]; intros f' Hle prefix; [apply extends_out_of_fuel|].
  destruct f' as [|f']; [lia|]. cbn [parseBaseExp_loop].
  extends_auto;
    try (apply createApply_mono; [lia | assumption]);
    try (apply parseSliceOrGather_mono; assumption);
    apply IH; lia.
Qed.

Lemma parseBaseExp_mono (f f' : nat) (p p' : M Tree) :
  f <= f' -> extends p p' ->
  extends (parseBaseExp f p) (parseBaseExp f' p').
Proof.
  intros Hle Hp. unfold parseBaseExp.
  extends_auto; apply parseBaseExp_loop_mono; assumption.
Qed.

Lemma parseTrinary_mono (p p' : Z -> M Tree) tb r prec :
  (forall z, extends (p z) (p' z)) ->
  extends (parseTrinary p tb r prec) (parseTrinary p' tb r prec).
Proof.
  intros Hp. unfold parseTrinary. extends_auto; apply Hp.
Qed.

Lemma parseExp_loop_mono (f f' : nat) (p p' : Z -> M Tree) :
  f <= f' -> (forall z, extends (p z) (p' z)) ->
  forall precedence prefix,
    extends (parseExp_loop f p precedence prefix) (parseExp_loop f' p' precedence prefix).
Proof.
  intros Hle Hp. revert f' Hle.
  induction f as [|f IH]; intros f' Hle precedence prefix; [apply extends_out_of_fuel|].
  destruct f' as [|f']; [lia|]. cbn [parseExp_loop].
  extends_auto;
    try (apply parseTrinary_mono; assumption);
    try apply Hp;
    apply IH; lia.
Qed.

(** More budget never changes an answer of [parseExp]. *)
Lemma parseExp_mono (f f' : nat) :
  f <= f' -> forall precedence, extends (parseExp f precedence) (parseExp f' precedence).
Proof.
  revert f'.
  induction f as [|f IH]; intros f' Hle precedence; [apply extends_out_of_fuel|].
  destruct f' as [|f']; [lia|]. cbn [parseExp].
  assert (Hrec : forall z, extends (parseExp f z) (parseExp f' z))
    by (intros z; apply IH; lia).
  extends_auto;
    first [ apply Hrec
          | apply parseBaseExp_mono; [lia | apply Hrec]
          | apply parseExp_loop_mono; [lia | assumption] ].
Qed.

(** *** Precedence and the conditional expression *)

Definition number_token (r : SourceRange) (txt : string) : Token :=
  {| kind := TK_NUMBER; range := r; text := txt |}.
Definition ident_token (r : SourceRange) (txt : string) : Token :=
  {| kind := TK_IDENT; range := r; text := txt |}.
Definition op_token (k : Kind) (r : SourceRange) (txt : string) : Token :=
  {| kind := k; range := r; text := txt |}.

(** The tree of a number literal without sign and suffix. *)
Definition const_of (t : Token) : Tree :=
  c TK_CONST (range t)
    [d (double_mul (double_of_Z 1) (doubleValue t)); s (default_type_ident t)].

(** The tree of a variable. *)
Definition var_of (t : Token) : Tree :=
  Var_create (range t) (Ident_create (range t) (text t)).

Definition lexer_of (toks : list Token) (er : SourceRange) : Lexer :=
  {| next_tokens := toks; eof_range := er |}.

(** A token that starts no postfix (select, call, subscript). *)
Definition no_postfix (t : Token) : Prop :=
  kind t <> TK_CHAR "." /\ kind t <> TK_CHAR "(" /\ kind t <> TK_CHAR "[".

Lemma parseBaseExp_loop_done (f : nat) (pe : M Tree) (prefix : Tree) (L : Lexer) :
  no_postfix (cur L) ->
  parseBaseExp_loop (S f) pe prefix L = Ok (prefix, L).
Proof.
  intros (Hdot & Hpar & Hbr).
  cbn [parseBaseExp_loop]. unfold bind, L_nextIf, L_cur, ret.
  rewrite (kind_eqb_neq _ _ Hdot), (kind_eqb_neq _ _ Hpar), (kind_eqb_neq _ _ Hbr).
  reflexivity.
Qed.

Lemma parseBaseExp_number (f : nat) (pe : M Tree) (num : Token) rest er :
  kind num = TK_NUMBER ->
  kind (cur (lexer_of rest er)) <> TK_IDENT ->
  no_postfix (cur (lexer_of rest er)) ->
  parseBaseExp (S f) pe (lexer_of (num :: rest) er)
  = Ok (const_of num, lexer_of rest er).
Proof.
  intros Hnum Hid Hpost.
  unfold parseBaseExp, bind at 1 2, L_cur at 1.
  replace (kind (cur (lexer_of (num :: rest) er))) with TK_NUMBER by (symmetry; exact Hnum).
  rewrite (parseConst_number (lexer_of (num :: rest) er) [] num rest);
    [| reflexivity | constructor | assumption].
  cbv zeta. change (with_tokens (lexer_of (num :: rest) er) rest) with (lexer_of rest er).
  rewrite (kind_eqb_neq _ _ Hid).
  apply parseBaseExp_loop_done, Hpost.
Qed.

Lemma parseBaseExp_ident (f : nat) (pe : M Tree) (id : Token) rest er :
  kind id = TK_IDENT ->
  no_postfix (cur (lexer_of rest er)) ->
  parseBaseExp (S f) pe (lexer_of (id :: rest) er)
  = Ok (var_of id, lexer_of rest er).
Proof.
  intros Hid Hpost.
  unfold parseBaseExp, bind at 1 2, L_cur at 1.
  replace (kind (cur (lexer_of (id :: rest) er))) with TK_IDENT by (symmetry; exact Hid).
  unfold bind at 1, parseIdent, bind at 1, L_expect.
  change (cur (lexer_of (id :: rest) er)) with id.
  rewrite (kind_eqb_eq _ _ Hid).
  apply parseBaseExp_loop_done, Hpost.
Qed.

Lemma parseExp_loop_stop (f : nat) (pe : Z -> M Tree) prec prefix (L : Lexer) :
  isBinary shared (kind (cur L)) = None ->
  parseExp_loop (S f) pe prec prefix L = Ok (prefix, L).
Proof.
  intros Hb. cbn [parseExp_loop]. unfold bind, L_cur. rewrite Hb. reflexivity.
Qed.

Lemma parseExp_loop_binary (f : nat) (pe : Z -> M Tree) prec prefix (L : Lexer) bp :
  isBinary shared (kind (cur L)) = Some bp ->
  (prec < bp)%Z ->
  kind (cur L) <> TK_IF ->
  parseExp_loop (S f) pe prec prefix L
  = (rhs <- pe (if isRightAssociative shared (kind (cur L)) then bp - 1 else bp)%Z ;;
     parseExp_loop f pe prec (c (kind (cur L)) (range (cur L)) [prefix; rhs]))
      (advance L).
Proof.
  intros Hb Hlt Hk. cbn [parseExp_loop]. unfold bind at 1, L_cur at 1. rewrite Hb.
  rewrite (proj2 (Z.leb_gt bp prec)) by exact Hlt.
  unfold bind at 1, L_next. rewrite (kind_eqb_neq _ _ Hk). reflexivity.
Qed.

Lemma parseExp_loop_trinary (f : nat) (pe : Z -> M Tree) prec prefix (L : Lexer) bp :
  kind (cur L) = TK_IF ->
  isBinary shared TK_IF = Some bp ->
  (prec < bp)%Z ->
  parseExp_loop (S f) pe prec prefix L
  = (prefix' <- parseTrinary pe prefix (range (cur L))
                  (if isRightAssociative shared TK_IF then bp - 1 else bp)%Z ;;
     parseExp_loop f pe prec prefix') (advance L).
Proof.
  intros Hk Hb Hlt. cbn [parseExp_loop]. unfold bind at 1, L_cur at 1.
  rewrite Hk, Hb.
  rewrite (proj2 (Z.leb_gt bp prec)) by exact Hlt.
  unfold bind at 1, L_next. rewrite (kind_eqb_eq TK_IF TK_IF) by reflexivity.
  reflexivity.
Qed.

Lemma parseExp_not_unary (f : nat) prec (L : Lexer) :
  isUnary shared (kind (cur L)) = None ->
  parseExp (S f) prec L
  = (prefix <- parseBaseExp f (parseExp f 0%Z) ;;
     parseExp_loop f (parseExp f) prec prefix) L.
Proof.
  intros Hu. cbn [parseExp]. unfold bind at 1 2, L_cur at 1. rewrite Hu. reflexivity.
Qed.

(** An atom (number or identifier) in front of a token that is no
    operator above [prec], no postfix and no suffix. *)
Lemma parseExp_number (f : nat) prec (num : Token) rest er :
  kind num = TK_NUMBER ->
  isUnary shared TK_NUMBER = None ->
  kind (cur (lexer_of rest er)) <> TK_IDENT ->
  no_postfix (cur (lexer_of rest er)) ->
  parseExp (S (S f)) prec (lexer_of (num :: rest) er)
  = parseExp_loop (S f) (parseExp (S f)) prec (const_of num) (lexer_of rest er).
Proof.
  intros Hnum Hu Hid Hpost.
  rewrite parseExp_not_unary
    by (change (cur (lexer_of (num :: rest) er)) with num; rewrite Hnum; exact Hu).
  unfold bind at 1. rewrite parseBaseExp_number by assumption. reflexivity.
Qed.

Lemma parseExp_ident (f : nat) prec (id : Token) rest er :
  kind id = TK_IDENT ->
  isUnary shared TK_IDENT = None ->
  no_postfix (cur (lexer_of rest er)) ->
  parseExp (S (S f)) prec (lexer_of (id :: rest) er)
  = parseExp_loop (S f) (parseExp (S f)) prec (var_of id) (lexer_of rest er).
Proof.
  intros Hid Hu Hpost.
  rewrite parseExp_not_unary
    by (change (cur (lexer_of (id :: rest) er)) with id; rewrite Hid; exact Hu).
  unfold bind at 1. rewrite parseBaseExp_ident by assumption. reflexivity.
Qed.

Ltac no_postfix_tac := repeat split; discriminate.

(** C3 (parseExp, parseTrinary): with a table in which [*] binds tighter
    than [+], "2 + 3 * 4" parses to the [+] node whose right child is the
    [*] node over 3 and 4; with [if] a binary-level operator,
    "a if b else c" parses to the conditional node over the condition b,
    the true branch a and the false branch c.  Any budget from 4 on
    gives these answers. *)
Theorem parseExp_precedence_and_conditional :
  forall p_add p_mul p_if : Z,
    isUnary shared TK_NUMBER = None ->
    isUnary shared TK_IDENT = None ->
    isBinary shared TK_EOF = None ->
    isBinary shared TK_ELSE = None ->
    isBinary shared (TK_CHAR "+") = Some p_add ->
    isBinary shared (TK_CHAR "*") = Some p_mul ->
    isBinary shared TK_IF = Some p_if ->
    (0 < p_add)%Z -> (p_add < p_mul)%Z -> (0 < p_if)%Z ->
    (forall fuel r1 r2 r3 r4 r5 er,
        4 <= fuel ->
        parseExp fuel 0%Z
          (lexer_of [number_token r1 "2"; op_token "+"%char r2 "+";
                     number_token r3 "3"; op_token "*"%char r4 "*";
                     number_token r5 "4"] er)
        = Ok (c "+"%char r2
                [const_of (number_token r1 "2");
                 c "*"%char r4 [const_of (number_token r3 "3");
                                const_of (number_token r5 "4")]],
              lexer_of [] er)) /\
    (forall fuel r1 r2 r3 r4 r5 er,
        4 <= fuel ->
        parseExp fuel 0%Z
          (lexer_of [ident_token r1 "a"; op_token TK_IF r2 "if";
                     ident_token r3 "b"; op_token TK_ELSE r4 "else";
                     ident_token r5 "c"] er)
        = Ok (c TK_IF_EXPR r2
                [var_of (ident_token r3 "b");
                 var_of (ident_token r1 "a");
                 var_of (ident_token r5 "c")],
              lexer_of [] er)).
Proof.
  intros p_add p_mul p_if HuN HuI HbE HbEl Hadd Hmul Hif H0 H1 H2.
  split; intros fuel r1 r2 r3 r4 r5 er Hfuel;
    do 4 (destruct fuel as [|fuel]; [lia|]); clear Hfuel.
  - (* 2 *)
    rewrite parseExp_number; [| reflexivity | assumption | discriminate | no_postfix_tac].
    (* + *)
    rewrite (parseExp_loop_binary _ _ _ _ _ p_add); [| exact Hadd | assumption | discriminate].
    unfold bind at 1.
    change (advance (lexer_of ?l er)) with (lexer_of (tl l) er). cbn [tl].
    change (kind (cur (lexer_of (op_token "+"%char r2 "+" :: _) er))) with (TK_CHAR "+").
    set (p_add' := if isRightAssociative shared "+"%char then (p_add - 1)%Z else p_add).
    assert (Hp_add' : (p_add' < p_mul)%Z)
      by (subst p_add'; destruct (isRightAssociative shared _); lia).
    (* 3 *)
    rewrite parseExp_number; [| reflexivity | assumption | discriminate | no_postfix_tac].
    (* * *)
    rewrite (parseExp_loop_binary _ _ _ _ _ p_mul); [| exact Hmul | assumption | discriminate].
    unfold bind at 1.
    change (advance (lexer_of ?l er)) with (lexer_of (tl l) er). cbn [tl].
    (* 4 *)
    rewrite parseExp_number; [| reflexivity | assumption | discriminate | no_postfix_tac].
    rewrite parseExp_loop_stop by exact HbE.
    rewrite parseExp_loop_stop by exact HbE.
    rewrite parseExp_loop_stop by exact HbE.
    reflexivity.
  - (* a *)
    rewrite parseExp_ident; [| reflexivity | assumption | no_postfix_tac].
    (* if *)
    rewrite (parseExp_loop_trinary _ _ _ _ _ p_if); [| reflexivity | exact Hif | assumption].
    unfold bind at 1, parseTrinary, bind at 1.
    change (advance (lexer_of ?l er)) with (lexer_of (tl l) er). cbn [tl].
    (* b, up to else *)
    rewrite parseExp_ident; [| reflexivity | assumption | no_postfix_tac].
    rewrite parseExp_loop_stop by exact HbEl.
    unfold bind at 1, L_expect.
    rewrite kind_eqb_eq by reflexivity.
    change (advance (lexer_of ?l er)) with (lexer_of (tl l) er). cbn [tl].
    (* c *)
    unfold bind at 1.
    rewrite parseExp_ident; [| reflexivity | assumption | no_postfix_tac].
    rewrite parseExp_loop_stop by exact HbE.
    unfold ret.
    rewrite parseExp_loop_stop by exact HbE.
    reflexivity.
Qed.

(** *** End of line *)

(** The statement kinds [parseStmt] dispatches on before it tries an
    expression. *)
Definition starts_expression (t : Token) : Prop :=
  kind t <> TK_IF /\ kind t <> TK_WHILE /\ kind t <> TK_GLOBAL /\ kind t <> TK_RETURN.

(** C8 (expectEndOfLine): at a dedent the end-of-line check succeeds and
    leaves the lexer where it is; at a newline it consumes the newline;
    at any other token it fails.  Hence an expression statement or an
    assignment whose last token is followed directly by a dedent parses,
    and the dedent is still the current token afterwards. *)
Theorem expectEndOfLine_tolerates_dedent :
  (forall L : Lexer,
      kind (cur L) = TK_DEDENT -> expectEndOfLine L = Ok (tt, L)) /\
  (forall L : Lexer,
      kind (cur L) = TK_NEWLINE -> expectEndOfLine L = Ok (tt, advance L)) /\
  (forall L : Lexer,
      kind (cur L) <> TK_DEDENT -> kind (cur L) <> TK_NEWLINE ->
      expectEndOfLine L = Throw (Expected TK_NEWLINE (cur L))) /\
  (forall fuel (L L' : Lexer) (e : Tree),
      starts_expression (cur L) ->
      parseExp fuel 0%Z L = Ok (e, L') ->
      kind (cur L') = TK_DEDENT ->
      parseStmt (S fuel) L = Ok (ExprStmt_create (tree_range e) e, L')) /\
  (forall fuel (L L1 L2 L3 : Lexer) (first list red rhs : Tree),
      parseOneOrMoreIdents fuel first L = Ok (list, L1) ->
      parseOptionalReduction L1 = Ok (red, L2) ->
      parseExp fuel 0%Z L2 = Ok (rhs, L3) ->
      kind (cur L3) = TK_DEDENT ->
      parseAssign fuel first L
      = Ok (Assign_create (tree_range list) list red rhs, L3)).
Proof.
  assert (Hdedent : forall L : Lexer,
             kind (cur L) = TK_DEDENT -> expectEndOfLine L = Ok (tt, L)).
  { intros L Hk. unfold expectEndOfLine, bind, L_cur, ret.
    rewrite (kind_eqb_eq _ _ Hk). reflexivity. }
  repeat split.
  - exact Hdedent.
  - intros L Hk. unfold expectEndOfLine, bind, L_cur, L_expect, ret.
    rewrite kind_eqb_neq by (rewrite Hk; discriminate). cbn [negb]. cbv beta.
    rewrite (kind_eqb_eq _ _ Hk). reflexivity.
  - intros L Hd Hn. unfold expectEndOfLine, bind, L_cur, L_expect, ret.
    rewrite (kind_eqb_neq _ _ Hd). cbn [negb]. cbv beta.
    rewrite (kind_eqb_neq _ _ Hn). reflexivity.
  - intros fuel L L' e (Hif & Hwhile & Hglobal & Hreturn) He Hk.
    cbn [parseStmt]. unfold bind at 1, L_cur at 1.
    assert (Hdefault :
      forall k : Kind, k <> TK_IF -> k <> TK_WHILE -> k <> TK_GLOBAL -> k <> TK_RETURN ->
      forall (A : Type) (a b c0 d0 e0 : A),
        match k with
        | TK_IF => a | TK_WHILE => b | TK_GLOBAL => c0 | TK_RETURN => d0 | _ => e0
        end = e0).
    { intros k ? ? ? ? A a b c0 d0 e0. destruct k; congruence. }
    rewrite Hdefault by assumption. clear Hdefault.
    unfold bind at 1. rewrite He.
    unfold bind at 1, isEndOfLine, bind at 1, L_cur at 1, ret at 1.
    rewrite (kind_eqb_eq _ _ Hk). rewrite orb_true_r, andb_false_r.
    unfold bind. rewrite (Hdedent _ Hk). reflexivity.
  - intros fuel L L1 L2 L3 first list red rhs Hl Hr He Hk.
    unfold parseAssign, bind. rewrite Hl, Hr, He, (Hdedent _ Hk). reflexivity.
Qed.

(** Statements, too, only gain answers when the budget grows. *)
Lemma parseOneOrMoreIdents_mono (f f' : nat) (first : Tree) :
  f <= f' -> extends (parseOneOrMoreIdents f first) (parseOneOrMoreIdents f' first).
Proof.
  intros Hle. unfold parseOneOrMoreIdents.
  apply extends_bind; [| intros ?; apply extends_refl].
  generalize (@cons Tree first nil). revert f' Hle.
  induction f as [|f IH]; intros f' Hle idents; [apply extends_out_of_fuel|].
  destruct f' as [|f']; [lia|]. cbn [parseOneOrMoreIdents_loop].
  extends_auto. apply IH. lia.
Qed.

Lemma parseAssign_mono (f f' : nat) (first : Tree) :
  f <= f' -> extends (parseAssign f first) (parseAssign f' first).
Proof.
  intros Hle. unfold parseAssign.
  extends_auto; first [apply parseOneOrMoreIdents_mono | apply parseExp_mono]; assumption.
Qed.

Lemma parseStatements_mono (f f' : nat) (p p' : M Tree) :
  f <= f' -> extends p p' ->
  extends (parseStatements f p) (parseStatements f' p').
Proof.
  intros Hle Hp. unfold parseStatements. extends_auto.
  generalize (@nil Tree). revert f' Hle.
  induction f as [|f IH]; intros f' Hle stmts; [apply extends_out_of_fuel|].
  destruct f' as [|f']; [lia|]. cbn [parseStatements_loop].
  extends_auto. apply IH. lia.
Qed.

Lemma parseStmt_mono (f f' : nat) :
  f <= f' -> extends (parseStmt f) (parseStmt f').
Proof.
  revert f'.
  induction f as [|f IH]; intros f' Hle; [apply extends_out_of_fuel|].
  destruct f' as [|f']; [lia|]. cbn [parseStmt].
  assert (Hle' : f <= f') by lia.
  assert (Hrec : extends (parseStmt f) (parseStmt f')) by (apply IH; lia).
  apply extends_bind; [apply extends_refl | intros t].
  destruct (kind t); unfold parseIf, parseWhile;
    extends_auto;
    first [ apply parseExp_mono; assumption
          | apply parseStatements_mono; assumption
          | apply parseAssign_mono; assumption
          | apply parseList_mono; [assumption | first [apply extends_refl | apply parseExp_mono; assumption]] ].
Qed.


(** *** Termination

    Every loop turn and every recursive call of the parser comes after a
    token was taken from the lexer, so a budget a little above the number
    of tokens left is never used up. *)

(** The number of tokens the lexer has not handed out yet. *)
Definition remaining (L : Lexer) : nat := length (next_tokens L).

(** [wp p L Q]: on [L] the parser [p] answers within its budget, and a
    successful answer satisfies [Q]. *)
Definition wp {A : Type} (p : M A) (L : Lexer) (Q : A -> Lexer -> Prop) : Prop :=
  match p L with
  | Ok (a, L') => Q a L'
  | Throw _ => True
  | OutOfFuel => False
  end.

(** [within k L]: the lexer is [k] or more tokens further than [L]. *)
Definition within {A : Type} (k : nat) (L : Lexer) : A -> Lexer -> Prop :=
  fun _ L' => remaining L' + k <= remaining L.

Lemma wp_bind {A B} (m : M A) (k : A -> M B) (L : Lexer) (Q : B -> Lexer -> Prop) :
  wp m L (fun a L' => wp (k a) L' Q) -> wp (bind m k) L Q.
Proof. unfold wp, bind. destruct (m L) as [[a L']|e|]; auto. Qed.

Lemma wp_mono {A} (p : M A) (L : Lexer) (Q Q' : A -> Lexer -> Prop) :
  wp p L Q -> (forall a L', Q a L' -> Q' a L') -> wp p L Q'.
Proof. unfold wp. destruct (p L) as [[a L']|e|]; auto. Qed.

Lemma wp_ret {A} (a : A) (L : Lexer) (Q : A -> Lexer -> Prop) :
  Q a L -> wp (ret a) L Q.
Proof. exact (fun H => H). Qed.

Lemma wp_throw {A} (e : ErrorReport) (L : Lexer) (Q : A -> Lexer -> Prop) :
  wp (throw e) L Q.
Proof. exact I. Qed.

Lemma wp_cur (L : Lexer) (Q : Token -> Lexer -> Prop) :
  Q (cur L) L -> wp L_cur L Q.
Proof. exact (fun H => H). Qed.

Lemma wp_lookahead (L : Lexer) (Q : Token -> Lexer -> Prop) :
  Q (lookahead L) L -> wp L_lookahead L Q.
Proof. exact (fun H => H). Qed.

Lemma remaining_advance (L : Lexer) :
  kind (cur L) <> TK_EOF -> remaining (advance L) + 1 = remaining L.
Proof.
  unfold cur, advance, remaining. destruct (next_tokens L) as [|t rest]; cbn.
  - intros H. contradiction H. reflexivity.
  - intros _. lia.
Qed.

Lemma wp_next (L : Lexer) (Q : Token -> Lexer -> Prop) :
  kind (cur L) <> TK_EOF ->
  (forall L', remaining L' + 1 = remaining L -> Q (cur L) L') ->
  wp L_next L Q.
Proof. intros Hk H. apply H, remaining_advance, Hk. Qed.

Lemma wp_nextIf (k : Kind) (L : Lexer) (Q : bool -> Lexer -> Prop) :
  k <> TK_EOF ->
  (forall L', remaining L' + 1 = remaining L -> Q true L') ->
  Q false L ->
  wp (L_nextIf k) L Q.
Proof.
  intros Hk Ht Hf. unfold wp, L_nextIf.
  destruct (kind_eqb (kind (cur L)) k) eqn:E; [| exact Hf].
  apply Ht, remaining_advance. apply bool_decide_eq_true in E. congruence.
Qed.

Lemma wp_expect (k : Kind) (L : Lexer) (Q : Token -> Lexer -> Prop) :
  k <> TK_EOF ->
  (forall L', remaining L' + 1 = remaining L -> Q (cur L) L') ->
  wp (L_expect k) L Q.
Proof.
  intros Hk Ht. unfold wp, L_expect.
  destruct (kind_eqb (kind (cur L)) k) eqn:E; [| exact I].
  apply Ht, remaining_advance. apply bool_decide_eq_true in E. congruence.
Qed.

(** One step of a termination proof: the head of the parser is undone,
    what is left is the continuation, or a fact about token counts. *)
Ltac wp_step :=
  lazymatch goal with
  | |- wp (bind _ _) _ _ => apply wp_bind
  | |- wp (ret _) _ _ => apply wp_ret
  | |- wp (throw _) _ _ => apply wp_throw
  | |- wp L_cur _ _ => apply wp_cur
  | |- wp L_lookahead _ _ => apply wp_lookahead
  | |- wp (L_nextIf _) _ _ =>
      apply wp_nextIf; [first [discriminate | assumption] | intros ? ? |]
  | |- wp (L_expect _) _ _ =>
      apply wp_expect; [first [discriminate | assumption] | intros ? ?]
  | |- wp (if ?b then _ else _) _ _ => destruct b eqn:?
  | |- wp (let '(_, _) := ?x in _) _ _ => destruct x eqn:?
  | |- within _ _ _ _ => unfold within in *; lia
  end.

Ltac wp_auto := repeat (cbv beta; wp_step).

Lemma minus_loop_length (mult : double) (toks : list Token) :
  length (minus_loop mult toks).2 <= length toks.
Proof.
  revert mult. induction toks as [|t rest IH]; intros mult; cbn [minus_loop]; [cbn; lia|].
  destruct (kind_eqb (kind t) "-"%char); [| cbn; lia].
  specialize (IH (double_mul mult (double_of_Z (-1)))). cbn [length]. lia.
Qed.

Lemma parseConst_minus_terminates (mult : double) (L : Lexer) :
  wp (parseConst_minus mult) L (within 0 L).
Proof.
  unfold wp, parseConst_minus, within, remaining.
  pose proof (minus_loop_length mult (next_tokens L)) as H.
  destruct (minus_loop mult (next_tokens L)) as [m toks]. cbn in *. lia.
Qed.

Lemma parseConst_terminates (L : Lexer) : wp parseConst L (within 1 L).
Proof.
  unfold parseConst. wp_auto.
  eapply wp_mono; [apply parseConst_minus_terminates|].
  intros mult L1 H1. wp_auto.
Qed.

Lemma parseIdent_terminates (L : Lexer) : wp parseIdent L (within 1 L).
Proof. unfold parseIdent. wp_auto. Qed.

(** A parser that is called on a lexer no further back than [L] and
    takes a token or more when it succeeds. *)
Definition takes_a_token {A : Type} (p : M A) (L : Lexer) : Prop :=
  forall L', remaining L' <= remaining L -> wp p L' (within 1 L').

Lemma parseList_loop_terminates (sep : Kind) (parse : M Tree) :
  sep <> TK_EOF ->
  forall (fuel : nat) (elements : TreeList) (L : Lexer),
    takes_a_token parse L ->
    remaining L < fuel ->
    wp (parseList_loop fuel sep parse elements) L (within 1 L).
Proof.
  intros Hsep. induction fuel as [|fuel IH]; intros elements L Hparse Hfuel; [lia|].
  cbn [parseList_loop]. wp_auto.
  eapply wp_mono; [apply Hparse; lia|]. intros e L1 H1. unfold within in H1.
  wp_auto.
  eapply wp_mono; [apply IH|].
  - intros L4 HL4. apply Hparse. lia.
  - lia.
  - intros a L3 H3. wp_auto.
Qed.

Lemma parseList_terminates (fuel : nat) (begin sep end_ : Kind) (parse : M Tree)
    (L : Lexer) :
  begin <> TK_EOF -> sep <> TK_EOF -> end_ <> TK_EOF ->
  takes_a_token parse L ->
  remaining L < fuel ->
  wp (parseList fuel begin sep end_ parse) L
     (within (if kind_eqb begin TK_NOTHING then 0 else 1) L).
Proof.
  intros Hb Hs He Hparse Hfuel. unfold parseList.
  destruct (kind_eqb begin TK_NOTHING); cbn [negb]; wp_auto.
  all: eapply wp_mono;
    [ apply parseList_loop_terminates;
      [assumption | intros L4 HL4; apply Hparse; lia | lia]
    | intros es L2 H2; unfold within in H2; wp_auto ].
Qed.

Lemma parseAttributeValue_terminates (fuel : nat) (L : Lexer) :
  remaining L < fuel -> wp (parseAttributeValue fuel) L (within 1 L).
Proof.
  intros Hfuel. unfold parseAttributeValue. wp_auto; [| apply parseConst_terminates].
  eapply wp_mono.
  - apply (parseList_terminates fuel "["%char ","%char "]"%char parseConst L);
      try discriminate; [| exact Hfuel].
    intros L' _. apply parseConst_terminates.
  - intros list L1 H1. rewrite kind_eqb_neq in H1 by discriminate. wp_auto.
Qed.

(** A parser that is only called after a token was taken from [L]. *)
Definition below {A : Type} (p : M A) (L : Lexer) : Prop :=
  forall L', remaining L' < remaining L -> wp p L' (within 1 L').

Lemma parseOperatorArguments_loop_terminates (parseExp0 : M Tree) :
  forall (fuel : nat) (inputs attributes : TreeList) (L : Lexer),
    takes_a_token parseExp0 L ->
    remaining L < fuel ->
    wp (parseOperatorArguments_loop fuel parseExp0 inputs attributes) L (within 1 L).
Proof.
  induction fuel as [|fuel IH]; intros inputs attributes L Hpe Hfuel; [lia|].
  cbn [parseOperatorArguments_loop]. wp_auto.
  - (* name = value *)
    eapply wp_mono; [apply parseIdent_terminates|]. intros ident L1 H1.
    unfold within in H1. wp_auto.
    eapply wp_mono; [apply parseAttributeValue_terminates; lia|]. intros v L3 H3.
    unfold within in H3. wp_auto.
    eapply wp_mono; [apply IH; [intros L5 HL5; apply Hpe; lia | lia]|].
    intros args L5 H5. wp_auto.
  - (* an input *)
    eapply wp_mono; [apply Hpe; lia|]. intros e L1 H1.
    unfold within in H1. wp_auto.
    eapply wp_mono; [apply IH; [intros L5 HL5; apply Hpe; lia | lia]|].
    intros args L5 H5. wp_auto.
Qed.

Lemma parseOperatorArguments_terminates (fuel : nat) (parseExp0 : M Tree)
    (inputs attributes : TreeList) (L : Lexer) :
  below parseExp0 L ->
  remaining L <= fuel ->
  wp (parseOperatorArguments fuel parseExp0 inputs attributes) L (within 1 L).
Proof.
  intros Hpe Hfuel. unfold parseOperatorArguments. wp_auto.
  eapply wp_mono;
    [apply parseOperatorArguments_loop_terminates;
     [intros L5 HL5; apply Hpe; lia | lia]|].
  intros args L2 H2. unfold within in H2. wp_auto.
Qed.

Lemma createApply_terminates (fuel : nat) (parseExp0 : M Tree) (expr : Tree) (L : Lexer) :
  below parseExp0 L ->
  remaining L <= fuel ->
  wp (createApply fuel parseExp0 expr) L (within 1 L).
Proof.
  intros Hpe Hfuel. unfold createApply. wp_auto.
  eapply wp_mono; [apply parseOperatorArguments_terminates; assumption|].
  intros [inputs attributes] L1 H1. wp_auto.
Qed.

Lemma parseSliceOrGather_terminates (parseExp0 : M Tree) (value : Tree) (L : Lexer) :
  below parseExp0 L ->
  wp (parseSliceOrGather parseExp0 value) L (within 1 L).
Proof.
  intros Hpe. unfold parseSliceOrGather. wp_auto.
  all: try (eapply wp_mono; [apply Hpe; lia|]; intros first L2 H2; unfold within in H2;
            wp_auto).
  all: try (eapply wp_mono; [apply Hpe; lia|]; intros e L5 H5; unfold within in H5;
            wp_auto).
Qed.

Lemma parseBaseExp_loop_terminates (parseExp0 : M Tree) :
  forall (fuel : nat) (prefix : Tree) (L : Lexer),
    below parseExp0 L ->
    remaining L < fuel ->
    wp (parseBaseExp_loop fuel parseExp0 prefix) L (within 0 L).
Proof.
  induction fuel as [|fuel IH]; intros prefix L Hpe Hfuel; [lia|].
  cbn [parseBaseExp_loop]. wp_auto.
  - (* .name *)
    eapply wp_mono; [apply parseIdent_terminates|]. intros name L1 H1.
    unfold within in H1.
    eapply wp_mono; [apply IH; [intros L5 HL5; apply Hpe; lia | lia]|].
    intros p L5 H5. wp_auto.
  - (* a call *)
    eapply wp_mono; [apply createApply_terminates; [assumption | lia]|].
    intros p L1 H1. unfold within in H1.
    eapply wp_mono; [apply IH; [intros L5 HL5; apply Hpe; lia | lia]|].
    intros p' L5 H5. wp_auto.
  - (* a subscript *)
    eapply wp_mono; [apply parseSliceOrGather_terminates; assumption|].
    intros p L1 H1. unfold within in H1.
    eapply wp_mono; [apply IH; [intros L5 HL5; apply Hpe; lia | lia]|].
    intros p' L5 H5. wp_auto.
Qed.

(** The four ways [parseBaseExp] starts. *)
Lemma parseBaseExp_dispatch {T : Type} (P : T -> Prop) (k : Kind) (a b c_ d_ : T) :
  (k = TK_NUMBER \/ k = TK_TRUE \/ k = TK_FALSE -> P a) ->
  (k = TK_CHAR "(" -> P b) ->
  (k = TK_FLOAT \/ k = TK_INT \/ k = TK_LONG -> P c_) ->
  P d_ ->
  P (match k with
     | TK_NUMBER | TK_TRUE | TK_FALSE => a
     | TK_CHAR "("%char => b
     | TK_FLOAT | TK_INT | TK_LONG => c_
     | _ => d_
     end).
Proof.
  intros Ha Hb Hc Hd.
  destruct k; try exact Hd; try (apply Ha; auto; fail); try (apply Hc; auto; fail).
  match goal with
  | ch : ascii |- _ =>
      destruct ch as [[] [] [] [] [] [] [] []]; first [exact Hd | apply Hb; reflexivity]
  end.
Qed.

Lemma parseBaseExp_terminates (fuel : nat) (parseExp0 : M Tree) (L : Lexer) :
  below parseExp0 L ->
  remaining L <= fuel ->
  wp (parseBaseExp fuel parseExp0) L (within 1 L).
Proof.
  intros Hpe Hfuel. unfold parseBaseExp. apply wp_bind, wp_cur. cbv beta. apply wp_bind.
  assert (Hloop : forall (prefix : Tree) (L1 : Lexer),
             remaining L1 + 1 <= remaining L ->
             wp (parseBaseExp_loop fuel parseExp0 prefix) L1 (within 1 L)).
  { intros prefix L1 H1.
    eapply wp_mono;
      [apply parseBaseExp_loop_terminates; [intros L5 HL5; apply Hpe; lia | lia]|].
    intros p L5 H5. wp_auto. }
  match goal with
  | |- wp (match ?k with _ => _ end) ?L0 ?Q =>
      apply (parseBaseExp_dispatch (fun m => wp m L0 Q))
  end.
  - intros _. eapply wp_mono; [apply parseConst_terminates|].
    intros prefix L1 H1. apply Hloop, H1.
  - intros Hk. apply wp_bind, wp_next; [rewrite Hk; discriminate|]. intros L1 H1.
    wp_auto. eapply wp_mono; [apply Hpe; lia|]. intros prefix L2 H2.
    unfold within in H2. wp_auto. apply Hloop. lia.
  - intros Hk. apply wp_bind, wp_next; [destruct Hk as [Hk|[Hk|Hk]]; rewrite Hk; discriminate|].
    intros L1 H1. wp_auto. eapply wp_mono; [apply Hpe; lia|]. intros e L3 H3.
    unfold within in H3. wp_auto. apply Hloop. lia.
  - wp_auto. eapply wp_mono; [apply parseIdent_terminates|].
    intros name L1 H1. wp_auto. apply Hloop, H1.
Qed.

Section Termination.

(** The end of the token stream is no operator. *)
Hypothesis eof_not_unary : isUnary shared TK_EOF = None.
Hypothesis eof_not_binary : isBinary shared TK_EOF = None.

Lemma parseExp_loop_terminates (parseExp_ : Z -> M Tree) :
  forall (fuel : nat) (precedence : Z) (prefix : Tree) (L : Lexer),
    (forall z, below (parseExp_ z) L) ->
    remaining L < fuel ->
    wp (parseExp_loop fuel parseExp_ precedence prefix) L (within 0 L).
Proof.
  induction fuel as [|fuel IH]; intros precedence prefix L Hpe Hfuel; [lia|].
  cbn [parseExp_loop]. wp_auto.
  destruct (isBinary shared (kind (cur L))) as [binary_prec|] eqn:Hbin; [| wp_auto].
  wp_auto. apply wp_next; [congruence|]. intros L1 H1. wp_auto.
  - (* the conditional expression *)
    unfold parseTrinary. wp_auto.
    eapply wp_mono; [apply Hpe; lia|]. intros cond L2 H2. unfold within in H2. wp_auto.
    eapply wp_mono; [apply Hpe; lia|]. intros false_branch L4 H4. unfold within in H4.
    wp_auto.
    eapply wp_mono; [apply IH; [intros z L5 HL5; apply Hpe; lia | lia]|].
    intros p L5 H5. wp_auto.
  - eapply wp_mono; [apply Hpe; lia|]. intros rhs L2 H2. unfold within in H2.
    eapply wp_mono; [apply IH; [intros z L5 HL5; apply Hpe; lia | lia]|].
    intros p L5 H5. wp_auto.
Qed.

Lemma parseExp_takes_a_token :
  forall (n fuel : nat) (precedence : Z) (L : Lexer),
    remaining L = n ->
    remaining L < fuel ->
    wp (parseExp fuel precedence) L (within 1 L).
Proof.
  induction n as [n IH] using lt_wf_ind. intros fuel precedence L Hn Hfuel.
  destruct fuel as [|fuel]; [lia|]. cbn [parseExp].
  assert (Hrec : forall z, below (parseExp fuel z) L).
  { intros z L' HL'. apply (IH (remaining L')); [lia | reflexivity | lia]. }
  apply wp_bind, wp_cur. cbv beta. apply wp_bind.
  assert (Hloop : forall (prefix : Tree) (L1 : Lexer),
             remaining L1 + 1 <= remaining L ->
             wp (parseExp_loop fuel (parseExp fuel) precedence prefix) L1 (within 1 L)).
  { intros prefix L1 H1.
    eapply wp_mono;
      [apply parseExp_loop_terminates; [intros z L5 HL5; apply Hrec; lia | lia]|].
    intros p L5 H5. wp_auto. }
  destruct (isUnary shared (kind (cur L))) as [unary_prec|] eqn:Hun.
  - apply wp_bind, wp_next; [congruence|]. intros L1 H1. wp_auto.
    eapply wp_mono; [apply Hrec; lia|]. intros e L2 H2. unfold within in H2.
    wp_auto. apply Hloop. lia.
  - eapply wp_mono; [apply parseBaseExp_terminates; [apply Hrec | lia]|].
    intros prefix L1 H1. apply Hloop, H1.
Qed.

(** X1 (parseExp and the functions below it): the expression parser
    terminates.  When the end of the token stream is no operator, a
    budget above the number of tokens left is never used up: the answer
    is a tree or an error, it is the answer for every larger budget, and
    a successful parse has taken one token or more. *)
Theorem parseExp_terminates :
  forall (fuel : nat) (precedence : Z) (L : Lexer),
    remaining L < fuel ->
    parseExp fuel precedence L <> OutOfFuel /\
    parseExp fuel precedence L = parseExp (S (remaining L)) precedence L /\
    forall e L', parseExp fuel precedence L = Ok (e, L') -> remaining L' < remaining L.
Proof.
  intros fuel precedence L Hfuel.
  pose proof (parseExp_takes_a_token (remaining L) (S (remaining L)) precedence L
                eq_refl ltac:(lia)) as Hwp.
  assert (Hanswer : parseExp (S (remaining L)) precedence L <> OutOfFuel).
  { unfold wp in Hwp. destruct (parseExp (S (remaining L)) precedence L) as [[e L']|e|];
      [discriminate | discriminate | contradiction]. }
  assert (Heq : parseExp fuel precedence L = parseExp (S (remaining L)) precedence L).
  { apply (parseExp_mono (S (remaining L)) fuel); [lia | exact Hanswer]. }
  rewrite Heq. split; [exact Hanswer|]. split; [reflexivity|].
  intros e L' He. unfold wp, within in Hwp. rewrite He in Hwp. lia.
Qed.

Lemma parseOptionalReduction_terminates (L : Lexer) :
  wp parseOptionalReduction L (within 1 L).
Proof.
  unfold parseOptionalReduction. apply wp_bind, wp_cur. cbv beta.
  destruct (kind (cur L)) eqn:Hk;
    try (wp_auto; fail);
    (apply wp_bind, wp_next; [congruence|]; intros L1 H1; wp_auto).
Qed.

Lemma expectEndOfLine_terminates (L : Lexer) : wp expectEndOfLine L (within 0 L).
Proof. unfold expectEndOfLine. wp_auto. Qed.

Lemma parseOneOrMoreIdents_terminates (first : Tree) :
  forall (fuel : nat) (L : Lexer),
    remaining L < fuel ->
    wp (parseOneOrMoreIdents fuel first) L (within 0 L).
Proof.
  intros fuel L Hfuel. unfold parseOneOrMoreIdents. apply wp_bind.
  eapply wp_mono with (Q := within 0 L); [| intros idents L1 H1; wp_auto].
  generalize (@cons Tree first nil). revert L Hfuel.
  induction fuel as [|fuel IH]; intros L Hfuel idents; [lia|].
  cbn [parseOneOrMoreIdents_loop]. wp_auto.
  eapply wp_mono; [apply parseIdent_terminates|]. intros i L1 H1. unfold within in H1.
  eapply wp_mono; [apply IH; lia|]. intros l L2 H2. wp_auto.
Qed.

Lemma parseAssign_terminates (fuel : nat) (first : Tree) (L : Lexer) :
  remaining L < fuel ->
  wp (parseAssign fuel first) L (within 1 L).
Proof.
  intros Hfuel. unfold parseAssign. wp_auto.
  eapply wp_mono; [apply parseOneOrMoreIdents_terminates; lia|].
  intros list L1 H1. unfold within in H1. wp_auto.
  eapply wp_mono; [apply parseOptionalReduction_terminates|].
  intros red L2 H2. unfold within in H2. wp_auto.
  eapply wp_mono;
    [apply (parseExp_takes_a_token (remaining L2) fuel 0%Z L2 eq_refl); lia|].
  intros rhs L3 H3. unfold within in H3. wp_auto.
  eapply wp_mono; [apply expectEndOfLine_terminates|].
  intros u L4 H4. wp_auto.
Qed.

Lemma parseStatements_terminates (fuel : nat) (parseStmt_ : M Tree) (L : Lexer) :
  below parseStmt_ L ->
  remaining L <= fuel ->
  wp (parseStatements fuel parseStmt_) L (within 1 L).
Proof.
  intros Hstmt Hfuel. unfold parseStatements. wp_auto.
  match goal with
  | H : remaining ?L1 + 1 = remaining L |- _ =>
      assert (Hloop : forall (f : nat) (stmts : TreeList) (L2 : Lexer),
                 remaining L2 <= remaining L1 -> remaining L2 < f ->
                 wp (parseStatements_loop f parseStmt_ stmts) L2 (within 1 L2))
  end.
  { induction f as [|f IH]; intros stmts L2 H2 Hf; [lia|].
    cbn [parseStatements_loop]. wp_auto.
    eapply wp_mono; [apply Hstmt; lia|]. intros st L3 H3. unfold within in H3.
    wp_auto.
    eapply wp_mono; [apply IH; lia|]. intros l L5 H5. wp_auto. }
  eapply wp_mono; [apply Hloop; [reflexivity | lia]|].
  intros stmts L2 H2. wp_auto.
Qed.

Lemma parseIf_terminates (fuel : nat) (parseStmt_ : M Tree) (L : Lexer) :
  below parseStmt_ L ->
  remaining L <= fuel ->
  wp (parseIf fuel parseStmt_) L (within 1 L).
Proof.
  intros Hstmt Hfuel. unfold parseIf. wp_auto.
  eapply wp_mono;
    [apply (parseExp_takes_a_token (remaining L') fuel 0%Z L' eq_refl); lia|].
  intros cond L2 H2. unfold within in H2. wp_auto.
  eapply wp_mono;
    [apply parseStatements_terminates; [intros L5 HL5; apply Hstmt; lia | lia]|].
  intros true_branch L4 H4. unfold within in H4. wp_auto.
  all: try (eapply wp_mono;
    [apply parseStatements_terminates; [intros L7 HL7; apply Hstmt; lia | lia]|];
    intros false_branch L7 H7; wp_auto).
Qed.

Lemma parseWhile_terminates (fuel : nat) (parseStmt_ : M Tree) (L : Lexer) :
  below parseStmt_ L ->
  remaining L <= fuel ->
  wp (parseWhile fuel parseStmt_) L (within 1 L).
Proof.
  intros Hstmt Hfuel. unfold parseWhile. wp_auto.
  eapply wp_mono;
    [apply (parseExp_takes_a_token (remaining L') fuel 0%Z L' eq_refl); lia|].
  intros cond L2 H2. unfold within in H2. wp_auto.
  eapply wp_mono;
    [apply parseStatements_terminates; [intros L5 HL5; apply Hstmt; lia | lia]|].
  intros body L4 H4. wp_auto.
Qed.

(** The five ways [parseStmt] starts. *)
Lemma parseStmt_dispatch {T : Type} (P : T -> Prop) (k : Kind) (a b c_ d_ e_ : T) :
  (k = TK_IF -> P a) ->
  (k = TK_WHILE -> P b) ->
  (k = TK_GLOBAL -> P c_) ->
  (k = TK_RETURN -> P d_) ->
  (k <> TK_IF -> k <> TK_WHILE -> k <> TK_GLOBAL -> k <> TK_RETURN -> P e_) ->
  P (match k with
     | TK_IF => a
     | TK_WHILE => b
     | TK_GLOBAL => c_
     | TK_RETURN => d_
     | _ => e_
     end).
Proof.
  intros Ha Hb Hc Hd He.
  destruct k; try (apply He; discriminate);
    [apply Ha | apply Hb | apply Hc | apply Hd]; reflexivity.
Qed.

Lemma parseStmt_takes_a_token :
  forall (n fuel : nat) (L : Lexer),
    remaining L = n ->
    remaining L + 1 < fuel ->
    wp (parseStmt fuel) L (within 1 L).
Proof.
  induction n as [n IH] using lt_wf_ind. intros fuel L Hn Hfuel.
  destruct fuel as [|fuel]; [lia|]. cbn [parseStmt].
  assert (Hrec : below (parseStmt fuel) L).
  { intros L' HL'. apply (IH (remaining L')); [lia | reflexivity | lia]. }
  assert (Hexp : forall L', remaining L' <= remaining L ->
                            wp (parseExp fuel 0%Z) L' (within 1 L')).
  { intros L' HL'. apply (parseExp_takes_a_token (remaining L')); [reflexivity | lia]. }
  apply wp_bind, wp_cur. cbv beta.
  match goal with
  | |- wp (match ?k with _ => _ end) ?L0 ?Q =>
      apply (parseStmt_dispatch (fun m => wp m L0 Q))
  end.
  - intros _. apply parseIf_terminates; [exact Hrec | lia].
  - intros _. apply parseWhile_terminates; [exact Hrec | lia].
  - intros Hk. apply wp_bind, wp_next; [congruence|]. intros L1 H1. wp_auto.
    eapply wp_mono.
    + apply (parseList_terminates fuel TK_NOTHING ","%char TK_NOTHING parseIdent L1);
        try discriminate; [| lia].
      intros L' _. apply parseIdent_terminates.
    + intros idents L2 H2. unfold within in H2. wp_auto.
  - intros Hk. apply wp_bind, wp_next; [congruence|]. intros L1 H1. wp_auto.
    eapply wp_mono.
    + apply (parseList_terminates fuel TK_NOTHING ","%char TK_NOTHING (parseExp fuel 0%Z) L1);
        try discriminate; [| lia].
      intros L' HL'. apply Hexp. lia.
    + intros values L2 H2. unfold within in H2. wp_auto.
  - intros _ _ _ _. wp_auto.
    eapply wp_mono; [apply Hexp; lia|]. intros r L1 H1. unfold within in H1.
    unfold isEndOfLine. wp_auto.
    + eapply wp_mono; [apply parseAssign_terminates; lia|].
      intros a L2 H2. wp_auto.
    + eapply wp_mono; [apply expectEndOfLine_terminates|].
      intros u L2 H2. wp_auto.
Qed.

(** X2 (parseStmt and the statement parsers below it): the statement
    parser terminates.  When the end of the token stream is no operator,
    a budget of two or more above the number of tokens left is never used
    up: the answer is a tree or an error, it is the answer for every
    larger budget, and a successful parse has taken one token or more. *)
Theorem parseStmt_terminates :
  forall (fuel : nat) (L : Lexer),
    remaining L + 1 < fuel ->
    parseStmt fuel L <> OutOfFuel /\
    parseStmt fuel L = parseStmt (remaining L + 2) L /\
    forall stmt L', parseStmt fuel L = Ok (stmt, L') -> remaining L' < remaining L.
Proof.
  intros fuel L Hfuel.
  pose proof (parseStmt_takes_a_token (remaining L) (remaining L + 2) L
                eq_refl ltac:(lia)) as Hwp.
  assert (Hanswer : parseStmt (remaining L + 2) L <> OutOfFuel).
  { unfold wp in Hwp. destruct (parseStmt (remaining L + 2) L) as [[e L']|e|];
      [discriminate | discriminate | contradiction]. }
  assert (Heq : parseStmt fuel L = parseStmt (remaining L + 2) L).
  { apply (parseStmt_mono (remaining L + 2) fuel); [lia | exact Hanswer]. }
  rewrite Heq. split; [exact Hanswer|]. split; [reflexivity|].
  intros e L' He. unfold wp, within in Hwp. rewrite He in Hwp. lia.
Qed.

End Termination.

(** *** Running the parser on a token stream

    The equations of the parsing functions at a lexer, and the tactic
    that follows the parser token by token. *)

Lemma parseExp_eq (f : nat) (precedence : Z) (L : Lexer) :
  parseExp (S f) precedence L
  = match isUnary shared (kind (cur L)) with
    | Some unary_prec =>
        (e <- parseExp f unary_prec ;;
         parseExp_loop f (parseExp f) precedence (c (kind (cur L)) (range (cur L)) [e]))
          (advance L)
    | None =>
        (prefix <- parseBaseExp f (parseExp f 0%Z) ;;
         parseExp_loop f (parseExp f) precedence prefix) L
    end.
Proof.
  cbn [parseExp]. unfold bind at 1 2, L_cur at 1.
  destruct (isUnary shared (kind (cur L))) as [unary_prec|]; [| reflexivity].
  unfold bind, L_next, ret.
  destruct (parseExp f unary_prec (advance L)) as [[e L']|e|]; reflexivity.
Qed.

Lemma parseExp_loop_eq (f : nat) (pe : Z -> M Tree) (precedence : Z) (prefix : Tree)
    (L : Lexer) :
  parseExp_loop (S f) pe precedence prefix L
  = match isBinary shared (kind (cur L)) with
    | None => Ok (prefix, L)
    | Some binary_prec =>
        if (binary_prec <=? precedence)%Z then Ok (prefix, L)
        else
          let binary_prec :=
            if isRightAssociative shared (kind (cur L)) then (binary_prec - 1)%Z
            else binary_prec in
          if kind_eqb (kind (cur L)) TK_IF then
            (prefix <- parseTrinary pe prefix (range (cur L)) binary_prec ;;
             parseExp_loop f pe precedence prefix) (advance L)
          else
            (rhs <- pe binary_prec ;;
             parseExp_loop f pe precedence (c (kind (cur L)) (range (cur L)) [prefix; rhs]))
              (advance L)
    end.
Proof.
  cbn [parseExp_loop]. unfold bind at 1, L_cur at 1.
  destruct (isBinary shared (kind (cur L))) as [bp|]; [| reflexivity].
  destruct (bp <=? precedence)%Z; [reflexivity|].
  unfold bind at 1, L_next. cbv zeta.
  destruct (kind_eqb (kind (cur L)) TK_IF); reflexivity.
Qed.

Lemma parseBaseExp_eq (f : nat) (pe : M Tree) (L : Lexer) :
  parseBaseExp f pe L
  = (prefix <-
       match kind (cur L) with
       | TK_NUMBER | TK_TRUE | TK_FALSE => parseConst
       | TK_CHAR "("%char =>
           L_next ;;;
           prefix <- pe ;;
           L_expect ")"%char ;;;
           ret prefix
       | TK_FLOAT | TK_INT | TK_LONG =>
           let r := range (cur L) in
           t' <- L_next ;;
           let type := c (kind t') r [] in
           L_expect "("%char ;;;
           exp <- pe ;;
           L_expect ")"%char ;;;
           ret (Cast_create r type exp)
       | _ =>
           name <- parseIdent ;;
           ret (Var_create (tree_range name) name)
       end ;;
     parseBaseExp_loop f pe prefix) L.
Proof. reflexivity. Qed.

Lemma parseBaseExp_loop_eq (f : nat) (pe : M Tree) (prefix : Tree) (L : Lexer) :
  parseBaseExp_loop (S f) pe prefix L
  = (dot <- L_nextIf "."%char ;;
     if dot then
       name <- parseIdent ;;
       parseBaseExp_loop f pe (Select_create (tree_range name) prefix name)
     else
       t <- L_cur ;;
       if kind_eqb (kind t) "("%char then
         prefix <- createApply f pe prefix ;;
         parseBaseExp_loop f pe prefix
       else if kind_eqb (kind t) "["%char then
         prefix <- parseSliceOrGather pe prefix ;;
         parseBaseExp_loop f pe prefix
       else ret prefix) L.
Proof. reflexivity. Qed.

Lemma parseOperatorArguments_loop_eq (f : nat) (pe : M Tree) (inputs attributes : TreeList)
    (L : Lexer) :
  parseOperatorArguments_loop (S f) pe inputs attributes L
  = (t <- L_cur ;;
     la <- L_lookahead ;;
     args <-
       (if kind_eqb (kind t) TK_IDENT && kind_eqb (kind la) "="%char then
          ident <- parseIdent ;;
          L_expect "="%char ;;;
          v <- parseAttributeValue f ;;
          ret (inputs, attributes ++ [Attribute_create (tree_range ident) ident v])
        else
          e <- pe ;;
          ret (inputs ++ [e], attributes)) ;;
     let '(inputs, attributes) := args in
     more <- L_nextIf ","%char ;;
     if more then parseOperatorArguments_loop f pe inputs attributes
     else ret (inputs, attributes)) L.
Proof. reflexivity. Qed.

Lemma parseList_loop_eq (f : nat) (sep : Kind) (parse : M Tree) (elements : TreeList)
    (L : Lexer) :
  parseList_loop (S f) sep parse elements L
  = (e <- parse ;;
     let elements := elements ++ [e] in
     more <- L_nextIf sep ;;
     if more then parseList_loop f sep parse elements
     else ret elements) L.
Proof. reflexivity. Qed.

Lemma parseStatements_loop_eq (f : nat) (parseStmt_ : M Tree) (stmts : TreeList)
    (L : Lexer) :
  parseStatements_loop (S f) parseStmt_ stmts L
  = (st <- parseStmt_ ;;
     let stmts := stmts ++ [st] in
     closed <- L_nextIf TK_DEDENT ;;
     if closed then ret stmts
     else parseStatements_loop f parseStmt_ stmts) L.
Proof. reflexivity. Qed.

Lemma parseOneOrMoreIdents_loop_eq (f : nat) (idents : TreeList) (L : Lexer) :
  parseOneOrMoreIdents_loop (S f) idents L
  = (more <- L_nextIf ","%char ;;
     if more then
       i <- parseIdent ;;
       parseOneOrMoreIdents_loop f (idents ++ [i])
     else ret idents) L.
Proof. reflexivity. Qed.

Lemma parseStmt_eq (f : nat) (L : Lexer) :
  parseStmt (S f) L
  = match kind (cur L) with
    | TK_IF => parseIf f (parseStmt f) L
    | TK_WHILE => parseWhile f (parseStmt f) L
    | TK_GLOBAL =>
        (idents <- parseList f TK_NOTHING ","%char TK_NOTHING parseIdent ;;
         ret (Global_create (range (cur L)) idents)) (advance L)
    | TK_RETURN =>
        (values <- parseList f TK_NOTHING ","%char TK_NOTHING (parseExp f 0%Z) ;;
         ret (Return_create (range (cur L)) values)) (advance L)
    | _ =>
        (r <- parseExp f 0%Z ;;
         eol <- isEndOfLine ;;
         if kind_eqb (tree_kind r) TK_VAR && negb eol
         then parseAssign f (Var_name r)
         else (expectEndOfLine ;;; ret (ExprStmt_create (tree_range r) r))) L
    end.
Proof.
  cbn [parseStmt]. unfold bind at 1, L_cur at 1.
  destruct (kind (cur L)); reflexivity.
Qed.

Lemma bind_apply {A B} (m : M A) (k : A -> M B) (L : Lexer) :
  bind m k L
  = match m L with
    | Ok (a, L') => k a L'
    | Throw e => Throw e
    | OutOfFuel => OutOfFuel
    end.
Proof. reflexivity. Qed.

Lemma L_expect_apply (k : Kind) (L : Lexer) :
  L_expect k L
  = if kind_eqb (kind (cur L)) k then Ok (cur L, advance L)
    else Throw (Expected k (cur L)).
Proof. reflexivity. Qed.

Lemma L_nextIf_apply (k : Kind) (L : Lexer) :
  L_nextIf k L
  = if kind_eqb (kind (cur L)) k then Ok (true, advance L) else Ok (false, L).
Proof. reflexivity. Qed.

Lemma parseConst_minus_apply (mult : double) (L : Lexer) :
  parseConst_minus mult L
  = (let '(m, toks) := minus_loop mult (next_tokens L) in
     Ok (m, {| next_tokens := toks; eof_range := eof_range L |})).
Proof. reflexivity. Qed.

Lemma kind_eqb_refl (k : Kind) : kind_eqb k k = true.
Proof. apply kind_eqb_eq. reflexivity. Qed.

(** A test of a token kind whose answer is known. *)
Ltac kind_eqb_tac :=
  match goal with
  | |- context [kind_eqb ?a ?a] => rewrite (kind_eqb_refl a)
  | |- context [kind_eqb ?a ?b] =>
      first [ rewrite (kind_eqb_eq a b) by (first [reflexivity | assumption | congruence])
            | rewrite (kind_eqb_neq a b) by (first [discriminate | assumption | congruence]) ]
  end.

(** An entry of the precedence table that is known. *)
Ltac table_tac :=
  match goal with
  | H : isUnary shared ?k = _ |- context [isUnary shared ?k] => rewrite H
  | H : isBinary shared ?k = _ |- context [isBinary shared ?k] => rewrite H
  | H : isRightAssociative shared ?k = _ |- context [isRightAssociative shared ?k] =>
      rewrite H
  | |- context [(?a <=? ?b)%Z] =>
      first [ rewrite (proj2 (Z.leb_le a b)) by lia
            | rewrite (proj2 (Z.leb_gt a b)) by lia ]
  end.

(** The lexer and the monad, computed; the parsing functions stay folded. *)
Ltac lexer_tac :=
  progress cbn [bind ret throw out_of_fuel
                L_cur L_next L_nextIf L_expect L_lookahead
                cur advance lookahead eof_token next_tokens eof_range tl
                kind range text lexer_of with_tokens
                ident_token op_token number_token
                parseConst_minus minus_loop
                negb andb orb app fst snd].

(** One call of a parsing function at the lexer, unfolded. *)
Ltac unfold_tac :=
  first
    [ rewrite bind_apply
    | rewrite L_expect_apply
    | rewrite L_nextIf_apply
    | rewrite parseConst_minus_apply
    | rewrite parseExp_eq
    | rewrite parseExp_loop_eq
    | rewrite parseBaseExp_eq
    | rewrite parseBaseExp_loop_eq
    | rewrite parseOperatorArguments_loop_eq
    | rewrite parseList_loop_eq
    | rewrite parseStatements_loop_eq
    | rewrite parseOneOrMoreIdents_loop_eq
    | rewrite parseStmt_eq
    | progress unfold parseIdent, parseTrinary, createApply, parseOperatorArguments,
        parseAttributeValue, parseList, parseSliceOrGather, parseOptionalReduction,
        expectEndOfLine, isEndOfLine, parseOneOrMoreIdents, parseAssign,
        parseStatements, parseIf, parseWhile ].

(** A token whose kind is known. *)
Ltac token_tac :=
  match goal with
  | H : kind ?t = _ |- context [kind ?t] => rewrite H
  end.

Ltac run := repeat first [lexer_tac | token_tac | kind_eqb_tac | table_tac | unfold_tac].

(** The same on a lexer that is not given token by token: what the
    parser reads is known from the hypotheses. *)
Ltac go :=
  repeat first
    [ rewrite bind_apply
    | rewrite L_expect_apply
    | rewrite L_nextIf_apply
    | progress cbn [L_cur L_next L_lookahead ret throw negb andb orb fst snd]
    | token_tac
    | kind_eqb_tac
    | table_tac
    | match goal with
      | H : ?m ?L = Ok _ |- context [?m ?L] => rewrite H
      | H : ?m ?L = Throw _ |- context [?m ?L] => rewrite H
      end
    | rewrite parseExp_eq
    | rewrite parseBaseExp_eq
    | rewrite parseStmt_eq ].

(** An answer within the budget is the answer for every larger budget. *)
Lemma parseExp_enough (f : nat) (precedence : Z) (L : Lexer) :
  parseExp f precedence L <> OutOfFuel ->
  forall fuel, f <= fuel -> parseExp fuel precedence L = parseExp f precedence L.
Proof. intros H fuel Hle. apply (parseExp_mono f fuel Hle precedence L H). Qed.

Lemma parseStmt_enough (f : nat) (L : Lexer) :
  parseStmt f L <> OutOfFuel ->
  forall fuel, f <= fuel -> parseStmt fuel L = parseStmt f L.
Proof. intros H fuel Hle. apply (parseStmt_mono f fuel Hle L H). Qed.

(** *** Associativity *)

(** A token kind that starts no postfix. *)
Definition plain (k : Kind) : Prop :=
  k <> TK_CHAR "." /\ k <> TK_CHAR "(" /\ k <> TK_CHAR "[".

(** X3 (parseExp): operators of one precedence group to the left, unless
    the table marks the operator right-associative, and then to the
    right.  For every binary operator [k] of positive precedence (the
    conditional aside), "a k b k c" parses to (a k b) k c, or to
    a k (b k c) when [k] is right-associative. *)
Theorem parseExp_associativity :
  forall (k : Kind) (p : Z) (a b x : Token) (op1 op2 : Token) (er : SourceRange)
         (fuel : nat),
    isUnary shared TK_IDENT = None ->
    isBinary shared TK_EOF = None ->
    isBinary shared k = Some p ->
    (0 < p)%Z ->
    k <> TK_IF -> plain k ->
    kind a = TK_IDENT -> kind b = TK_IDENT -> kind x = TK_IDENT ->
    kind op1 = k -> kind op2 = k ->
    5 <= fuel ->
    parseExp fuel 0%Z (lexer_of [a; op1; b; op2; x] er)
    = Ok (if isRightAssociative shared k
          then c k (range op1) [var_of a; c k (range op2) [var_of b; var_of x]]
          else c k (range op2) [c k (range op1) [var_of a; var_of b]; var_of x],
          lexer_of [] er).
Proof.
  intros k p a b x op1 op2 er fuel HuI HbE Hk Hp Hif (Hdot & Hpar & Hbr)
         Ha Hb Hx Hop1 Hop2 Hfuel.
  assert (H5 : parseExp 5 0%Z (lexer_of [a; op1; b; op2; x] er)
               = Ok (if isRightAssociative shared k
                     then c k (range op1) [var_of a; c k (range op2) [var_of b; var_of x]]
                     else c k (range op2) [c k (range op1) [var_of a; var_of b]; var_of x],
                     lexer_of [] er)).
  { destruct (isRightAssociative shared k) eqn:Hright.
    - run. reflexivity.
    - run. reflexivity. }
  rewrite (parseExp_enough 5) by (rewrite ?H5; first [discriminate | lia]).
  exact H5.
Qed.

(** *** Unary operators and parentheses *)

(** X4 (parseExp): a unary operator takes the longest operand whose
    binary operators bind tighter than it.  For a unary operator [u] of
    precedence [up] and a binary operator [k] of precedence [p], "u a k b"
    parses to (u a) k b when [p <= up] and to u (a k b) when [up < p]. *)
Theorem parseExp_unary_operand :
  forall (u k : Kind) (up p : Z) (tu a top b : Token) (er : SourceRange) (fuel : nat),
    isUnary shared u = Some up ->
    isUnary shared TK_IDENT = None ->
    isBinary shared TK_EOF = None ->
    isBinary shared k = Some p ->
    (0 < p)%Z ->
    k <> TK_IF -> plain k ->
    kind tu = u -> kind a = TK_IDENT -> kind top = k -> kind b = TK_IDENT ->
    5 <= fuel ->
    parseExp fuel 0%Z (lexer_of [tu; a; top; b] er)
    = Ok (if (p <=? up)%Z
          then c k (range top) [c u (range tu) [var_of a]; var_of b]
          else c u (range tu) [c k (range top) [var_of a; var_of b]],
          lexer_of [] er).
Proof.
  intros u k up p tu a top b er fuel Hu HuI HbE Hk Hp Hif (Hdot & Hpar & Hbr)
         Htu Ha Htop Hb Hfuel.
  assert (H5 : parseExp 5 0%Z (lexer_of [tu; a; top; b] er)
               = Ok (if (p <=? up)%Z
                     then c k (range top) [c u (range tu) [var_of a]; var_of b]
                     else c u (range tu) [c k (range top) [var_of a; var_of b]],
                     lexer_of [] er)).
  { destruct (isRightAssociative shared k) eqn:Hright;
      destruct (Z.leb_spec p up) as [Hle|Hgt]; run; reflexivity. }
  rewrite (parseExp_enough 5) by (rewrite ?H5; first [discriminate | lia]).
  exact H5.
Qed.

(** X5 (parseBaseExp, parseExp): a parenthesised expression is a base
    expression.  "( a k1 b ) k2 x" parses to (a k1 b) k2 x whatever the
    precedences of [k1] and [k2] are, and the parentheses leave no node
    of their own; without them, and with [k2] binding tighter than [k1],
    "a k1 b k2 x" parses to a k1 (b k2 x). *)
Theorem parseExp_parentheses :
  forall (k1 k2 : Kind) (p1 p2 : Z) (lp a op1 b rp op2 x : Token) (er : SourceRange)
         (fuel : nat),
    isUnary shared TK_IDENT = None ->
    isUnary shared (TK_CHAR "(") = None ->
    isBinary shared TK_EOF = None ->
    isBinary shared (TK_CHAR ")") = None ->
    isBinary shared k1 = Some p1 ->
    isBinary shared k2 = Some p2 ->
    (0 < p1)%Z -> (0 < p2)%Z ->
    k1 <> TK_IF -> k2 <> TK_IF -> plain k1 -> plain k2 ->
    kind lp = TK_CHAR "(" -> kind rp = TK_CHAR ")" ->
    kind a = TK_IDENT -> kind b = TK_IDENT -> kind x = TK_IDENT ->
    kind op1 = k1 -> kind op2 = k2 ->
    6 <= fuel ->
    parseExp fuel 0%Z (lexer_of [lp; a; op1; b; rp; op2; x] er)
    = Ok (c k2 (range op2) [c k1 (range op1) [var_of a; var_of b]; var_of x],
          lexer_of [] er) /\
    ((p1 < p2)%Z ->
     parseExp fuel 0%Z (lexer_of [a; op1; b; op2; x] er)
     = Ok (c k1 (range op1) [var_of a; c k2 (range op2) [var_of b; var_of x]],
           lexer_of [] er)).
Proof.
  intros k1 k2 p1 p2 lp a op1 b rp op2 x er fuel HuI HuP HbE HbP Hk1 Hk2 Hp1 Hp2
         Hif1 Hif2 (Hdot1 & Hpar1 & Hbr1) (Hdot2 & Hpar2 & Hbr2)
         Hlp Hrp Ha Hb Hx Hop1 Hop2 Hfuel.
  split; [| intros Hlt].
  - assert (H6 : parseExp 6 0%Z (lexer_of [lp; a; op1; b; rp; op2; x] er)
                 = Ok (c k2 (range op2) [c k1 (range op1) [var_of a; var_of b]; var_of x],
                       lexer_of [] er)).
    { destruct (isRightAssociative shared k1) eqn:Hright1;
        destruct (isRightAssociative shared k2) eqn:Hright2; run; reflexivity. }
    rewrite (parseExp_enough 6) by (rewrite ?H6; first [discriminate | lia]).
    exact H6.
  - assert (H6 : parseExp 6 0%Z (lexer_of [a; op1; b; op2; x] er)
                 = Ok (c k1 (range op1) [var_of a; c k2 (range op2) [var_of b; var_of x]],
                       lexer_of [] er)).
    { destruct (isRightAssociative shared k1) eqn:Hright1;
        destruct (isRightAssociative shared k2) eqn:Hright2; run; reflexivity. }
    rewrite (parseExp_enough 6) by (rewrite ?H6; first [discriminate | lia]).
    exact H6.
Qed.

(** *** Subscripts and calls *)

(** X6 (parseSliceOrGather): the forms of a subscript.  After the
    opening bracket, an index expression closed at once is a gather,
    "[i:j]", "[i:]", "[:j]" and "[:]" are slices whose missing bounds are
    empty options, and "[]" is an error: the parser asks for the
    identifier that would start an expression. *)
Theorem parseSliceOrGather_forms :
  forall (pe : M Tree) (value : Tree) (L : Lexer),
    kind (cur L) = TK_CHAR "[" ->
    let r := range (cur L) in
    let L1 := advance L in
    (forall i L2,
        kind (cur L1) <> TK_CHAR ":" ->
        pe L1 = Ok (i, L2) ->
        kind (cur L2) = TK_CHAR "]" ->
        parseSliceOrGather pe value L = Ok (Gather_create r value i, advance L2)) /\
    (forall i j L2 L3,
        kind (cur L1) <> TK_CHAR ":" ->
        pe L1 = Ok (i, L2) ->
        kind (cur L2) = TK_CHAR ":" ->
        kind (cur (advance L2)) <> TK_CHAR "]" ->
        pe (advance L2) = Ok (j, L3) ->
        kind (cur L3) = TK_CHAR "]" ->
        parseSliceOrGather pe value L
        = Ok (Slice_create r value (c TK_OPTION r [i]) (c TK_OPTION r [j]), advance L3)) /\
    (forall i L2,
        kind (cur L1) <> TK_CHAR ":" ->
        pe L1 = Ok (i, L2) ->
        kind (cur L2) = TK_CHAR ":" ->
        kind (cur (advance L2)) = TK_CHAR "]" ->
        parseSliceOrGather pe value L
        = Ok (Slice_create r value (c TK_OPTION r [i]) (c TK_OPTION r []),
              advance (advance L2))) /\
    (forall j L3,
        kind (cur L1) = TK_CHAR ":" ->
        kind (cur (advance L1)) <> TK_CHAR "]" ->
        pe (advance L1) = Ok (j, L3) ->
        kind (cur L3) = TK_CHAR "]" ->
        parseSliceOrGather pe value L
        = Ok (Slice_create r value (c TK_OPTION r []) (c TK_OPTION r [j]), advance L3)) /\
    (kind (cur L1) = TK_CHAR ":" ->
     kind (cur (advance L1)) = TK_CHAR "]" ->
     parseSliceOrGather pe value L
     = Ok (Slice_create r value (c TK_OPTION r []) (c TK_OPTION r []),
           advance (advance L1))) /\
    (forall fuel,
        isUnary shared (TK_CHAR "]") = None ->
        kind (cur L1) = TK_CHAR "]" ->
        parseSliceOrGather (parseExp (S (S fuel)) 0%Z) value L
        = Throw (Expected TK_IDENT (cur L1))).
Proof.
  intros pe value L Hopen r L1. subst r L1.
  unfold parseSliceOrGather.
  repeat split; intros.
  all: try (go; reflexivity).
  go. unfold parseIdent. go. reflexivity.
Qed.

(** The tree of an identifier. *)
Definition ident_of (t : Token) : Tree := Ident_create (range t) (text t).

(** X7 (createApply, parseOperatorArguments, parseAttributeValue): the
    arguments of a call.  An identifier followed by [=] starts a keyword
    argument, anything else is an input; inputs and keyword arguments are
    collected in two lists, each in source order, wherever they stand
    among the arguments.  The value of a keyword argument is a literal:
    an identifier in its place is rejected where the number is asked
    for. *)
Theorem createApply_arguments :
  forall (f lp a comma k eq n rp b : Token) (er : SourceRange) (fuel : nat),
    isUnary shared TK_IDENT = None ->
    isBinary shared TK_EOF = None ->
    isBinary shared (TK_CHAR ",") = None ->
    isBinary shared (TK_CHAR ")") = None ->
    kind f = TK_IDENT -> kind lp = TK_CHAR "(" -> kind a = TK_IDENT ->
    kind comma = TK_CHAR "," -> kind k = TK_IDENT -> kind eq = TK_CHAR "=" ->
    kind n = TK_NUMBER -> kind rp = TK_CHAR ")" -> kind b = TK_IDENT ->
    6 <= fuel ->
    let call :=
      Apply_create (range lp) (var_of f)
        (makeList (range lp) [var_of a])
        (makeList (range lp) [Attribute_create (range k) (ident_of k) (const_of n)]) in
    parseExp fuel 0%Z (lexer_of [f; lp; a; comma; k; eq; n; rp] er)
    = Ok (call, lexer_of [] er) /\
    parseExp fuel 0%Z (lexer_of [f; lp; k; eq; n; comma; a; rp] er)
    = Ok (call, lexer_of [] er) /\
    parseExp fuel 0%Z (lexer_of [f; lp; k; eq; b; rp] er)
    = Throw (Expected TK_NUMBER b).
Proof.
  intros f lp a comma k eq n rp b er fuel HuI HbE HbC HbP
         Hf Hlp Ha Hcomma Hk Heq Hn Hrp Hb Hfuel call.
  assert (H1 : parseExp 6 0%Z (lexer_of [f; lp; a; comma; k; eq; n; rp] er)
               = Ok (call, lexer_of [] er)).
  { run. rewrite (parseConst_number _ [] n [rp]) by (first [reflexivity | constructor | assumption]).
    run. reflexivity. }
  assert (H2 : parseExp 6 0%Z (lexer_of [f; lp; k; eq; n; comma; a; rp] er)
               = Ok (call, lexer_of [] er)).
  { run. rewrite (parseConst_number _ [] n [comma; a; rp])
      by (first [reflexivity | constructor | assumption]).
    run. reflexivity. }
  assert (H3 : parseExp 6 0%Z (lexer_of [f; lp; k; eq; b; rp] er)
               = Throw (Expected TK_NUMBER b)).
  { run. unfold parseConst. run. reflexivity. }
  repeat split.
  - rewrite (parseExp_enough 6) by (rewrite ?H1; first [discriminate | lia]). exact H1.
  - rewrite (parseExp_enough 6) by (rewrite ?H2; first [discriminate | lia]). exact H2.
  - rewrite (parseExp_enough 6) by (rewrite ?H3; first [discriminate | lia]). exact H3.
Qed.

(** *** Statements *)

(** X8 (parseStmt, parseStatements): a return statement is not checked
    for an end of line.  [parseStmt] answers with the statement as soon
    as the list of values is read, whatever follows; so when a newline
    token follows the values, the block the statement stands in fails:
    the next turn of its loop asks for the identifier that would start a
    statement.  A return without a value is an error of the same kind. *)
Theorem return_statement_keeps_end_of_line :
  forall (f : nat) (L : Lexer),
    kind (cur L) = TK_RETURN ->
    (forall (values : Tree) (L' : Lexer),
        parseList (S f) TK_NOTHING ","%char TK_NOTHING (parseExp (S f) 0%Z) (advance L)
        = Ok (values, L') ->
        parseStmt (S (S f)) L = Ok (Return_create (range (cur L)) values, L') /\
        (isUnary shared TK_NEWLINE = None ->
         kind (cur L') = TK_NEWLINE ->
         forall (n : nat) (stmts : TreeList),
           parseStatements_loop (S (S n)) (parseStmt (S (S f))) stmts L
           = Throw (Expected TK_IDENT (cur L')))) /\
    (kind (cur (advance L)) = TK_NEWLINE \/ kind (cur (advance L)) = TK_DEDENT ->
     isUnary shared (kind (cur (advance L))) = None ->
     parseStmt (S (S (S f))) L = Throw (Expected TK_IDENT (cur (advance L)))).
Proof.
  intros f L Hret. split.
  - intros values L' Hvalues.
    assert (Hstmt : parseStmt (S (S f)) L = Ok (Return_create (range (cur L)) values, L')).
    { rewrite parseStmt_eq, Hret, bind_apply, Hvalues. reflexivity. }
    split; [exact Hstmt|].
    intros Hun Hnl n stmts.
    rewrite parseStatements_loop_eq, bind_apply, Hstmt.
    go. rewrite parseStatements_loop_eq. go. unfold parseIdent. go. reflexivity.
  - intros Hnext Hun.
    rewrite parseStmt_eq, Hret. unfold parseList.
    destruct Hnext as [Hnext|Hnext]; rewrite Hnext in Hun;
      go; rewrite parseList_loop_eq; go; unfold parseIdent; go; reflexivity.
Qed.

(** X9 (parseStmt): only a plain name can be assigned.  When the
    expression that starts a statement is not a variable and no end of
    line follows it, the statement is an error at the token that
    follows; so "a . b = n" fails at the [=]. *)
Theorem assignment_needs_a_name :
  (forall (f : nat) (L L' : Lexer) (e : Tree),
      starts_expression (cur L) ->
      parseExp f 0%Z L = Ok (e, L') ->
      tree_kind e <> TK_VAR ->
      kind (cur L') <> TK_NEWLINE -> kind (cur L') <> TK_DEDENT ->
      parseStmt (S f) L = Throw (Expected TK_NEWLINE (cur L'))) /\
  (forall (a dot b eq n : Token) (er : SourceRange) (fuel : nat),
      isUnary shared TK_IDENT = None ->
      isBinary shared (TK_CHAR "=") = None ->
      kind a = TK_IDENT -> kind dot = TK_CHAR "." -> kind b = TK_IDENT ->
      kind eq = TK_CHAR "=" -> kind n = TK_NUMBER ->
      5 <= fuel ->
      parseStmt fuel (lexer_of [a; dot; b; eq; n] er) = Throw (Expected TK_NEWLINE eq)).
Proof.
  assert (Hgeneral : forall (f : nat) (L L' : Lexer) (e : Tree),
      starts_expression (cur L) ->
      parseExp f 0%Z L = Ok (e, L') ->
      tree_kind e <> TK_VAR ->
      kind (cur L') <> TK_NEWLINE -> kind (cur L') <> TK_DEDENT ->
      parseStmt (S f) L = Throw (Expected TK_NEWLINE (cur L'))).
  { intros f L L' e (Hif & Hwhile & Hglobal & Hreturn) He Hvar Hnl Hdedent.
    rewrite parseStmt_eq.
    match goal with
    | |- match ?k with _ => _ end = ?R =>
        apply (parseStmt_dispatch (fun m => m = R)); try (intros; contradiction)
    end.
    intros _ _ _ _. rewrite bind_apply, He. unfold isEndOfLine, expectEndOfLine.
    go. reflexivity. }
  split; [exact Hgeneral|].
  intros a dot b eq n er fuel HuI HbEq Ha Hdot Hb Heq Hn Hfuel.
  assert (H5 : parseStmt 5 (lexer_of [a; dot; b; eq; n] er)
               = Throw (Expected TK_NEWLINE eq)).
  { apply (Hgeneral 4 _ (lexer_of [eq; n] er)
             (Select_create (range b) (var_of a) (ident_of b))).
    - unfold starts_expression. cbn [cur lexer_of next_tokens]. rewrite Ha.
      repeat split; discriminate.
    - run. reflexivity.
    - discriminate.
    - cbn [cur lexer_of next_tokens]. rewrite Heq. discriminate.
    - cbn [cur lexer_of next_tokens]. rewrite Heq. discriminate. }
  rewrite (parseStmt_enough 5) by (rewrite ?H5; first [discriminate | lia]).
  exact H5.
Qed.

(** X10 (parseStatements, parseWhile): a block has a statement.  The
    loop of [parseStatements] parses a statement before it looks for the
    dedent, so a block that closes right after it opens is an error at
    the dedent, where the identifier that would start a statement is
    asked for; a [while] statement with such a body fails in the same
    way. *)
Theorem empty_block_is_rejected :
  forall (n f : nat) (L : Lexer),
    isUnary shared TK_DEDENT = None ->
    kind (cur L) = TK_INDENT ->
    kind (cur (advance L)) = TK_DEDENT ->
    parseStatements (S n) (parseStmt (S (S (S f)))) L
    = Throw (Expected TK_IDENT (cur (advance L))) /\
    (forall (cond : Tree) (L0 L1 : Lexer),
        kind (cur L0) = TK_WHILE ->
        parseExp (S (S (S f))) 0%Z (advance L0) = Ok (cond, L1) ->
        kind (cur L1) = TK_CHAR ":" ->
        advance L1 = L ->
        parseStmt (S (S (S (S f)))) L0 = Throw (Expected TK_IDENT (cur (advance L)))).
Proof.
  intros n f L Hun Hindent Hdedent.
  assert (Hblock : forall m, parseStatements (S m) (parseStmt (S (S (S f)))) L
                             = Throw (Expected TK_IDENT (cur (advance L)))).
  { intros m. unfold parseStatements. go. rewrite parseStatements_loop_eq. go.
    unfold parseIdent. go. reflexivity. }
  split; [apply Hblock|].
  intros cond L0 L1 Hwhile Hcond Hcolon <-.
  rewrite parseStmt_eq, Hwhile. unfold parseWhile. go.
  rewrite Hblock. reflexivity.
Qed.

(** A list in the source: a first element, and the elements that follow,
    each behind its separator. *)
Definition separated (first : Token) (more : list (Token * Token)) : list Token :=
  first :: flat_map (fun p => [p.1; p.2]) more.

Definition follows (sep : Kind) (p : Token * Token) : Prop :=
  kind p.1 = sep /\ kind p.2 = TK_IDENT.

Lemma parseList_loop_idents (sep : Kind) (rest : list Token) (er : SourceRange) :
  kind (cur (lexer_of rest er)) <> sep ->
  forall (more : list (Token * Token)) (first : Token) (elements : TreeList) (fuel : nat),
    kind first = TK_IDENT ->
    Forall (follows sep) more ->
    length more < fuel ->
    parseList_loop fuel sep parseIdent elements
      (lexer_of (separated first more ++ rest) er)
    = Ok (elements ++ map ident_of (first :: map snd more), lexer_of rest er).
Proof.
  intros Hrest.
  induction more as [|[comma next] more IH];
    intros first elements fuel Hfirst Hmore Hfuel;
    (destruct fuel as [|fuel]; [cbn [length] in Hfuel; lia|]).
  - unfold separated. cbn [flat_map app]. run. reflexivity.
  - inversion Hmore as [|? ? [Hcomma Hnext] Hmore']; subst. cbn [fst snd] in *.
    unfold separated. cbn [flat_map app fst snd]. run.
    change (advance (advance (lexer_of (first :: comma :: next
              :: flat_map (fun p => [p.1; p.2]) more ++ rest) er)))
      with (lexer_of (separated next more ++ rest) er).
    rewrite IH by (first [assumption | cbn [length] in Hfuel; lia]).
    cbn [map snd]. rewrite <- app_assoc. reflexivity.
Qed.

(** X11 (parseStmt, parseList, parseIdent): the global statement.
    [global] and a list of one or more identifiers separated by commas
    parse to the Global node over the identifiers, in order, however
    many there are; the list carries the range of its first identifier,
    and the lexer is left at the token after the last identifier: the
    end of the line is not taken. *)
Theorem global_statement :
  forall (g first : Token) (more : list (Token * Token)) (rest : list Token)
         (er : SourceRange) (fuel : nat),
    kind g = TK_GLOBAL ->
    kind first = TK_IDENT ->
    Forall (follows (TK_CHAR ",")) more ->
    kind (cur (lexer_of rest er)) <> TK_CHAR "," ->
    length more + 2 <= fuel ->
    parseStmt fuel (lexer_of (g :: separated first more ++ rest) er)
    = Ok (Global_create (range g)
            (List_create (range first) (map ident_of (first :: map snd more))),
          lexer_of rest er).
Proof.
  intros g first more rest er fuel Hg Hfirst Hmore Hrest Hfuel.
  destruct fuel as [|fuel]; [lia|].
  rewrite parseStmt_eq. cbn [cur lexer_of next_tokens]. rewrite Hg.
  unfold parseList. go.
  change (advance (lexer_of (g :: separated first more ++ rest) er))
    with (lexer_of (separated first more ++ rest) er).
  cbn [cur lexer_of next_tokens separated app]. rewrite Hfirst.
  rewrite (kind_eqb_neq TK_IDENT TK_NOTHING) by discriminate. cbn [negb].
  change (first :: flat_map (fun p => [p.1; p.2]) more ++ rest)
    with (separated first more ++ rest).
  rewrite (parseList_loop_idents (TK_CHAR ",") rest er Hrest more first [] fuel)
    by (first [assumption | lia]).
  reflexivity.
Qed.








(** A scalar type is one of the four type keywords, read as a leaf of
    its kind, or else an identifier. *)
Lemma parseScalarType_keyword (L : Lexer) :
  kind (cur L) = TK_INT \/ kind (cur L) = TK_FLOAT \/
  kind (cur L) = TK_LONG \/ kind (cur L) = TK_DOUBLE ->
  parseScalarType L = Ok (c (kind (cur L)) (range (cur L)) [], advance L).
Proof.
  intros H. unfold parseScalarType. rewrite bind_apply. cbn [L_cur].
  destruct H as [H|[H|[H|H]]]; rewrite H; unfold bind, L_next, ret; rewrite H;
    reflexivity.
Qed.

Lemma parseScalarType_other (L : Lexer) :
  kind (cur L) <> TK_INT -> kind (cur L) <> TK_FLOAT ->
  kind (cur L) <> TK_LONG -> kind (cur L) <> TK_DOUBLE ->
  parseScalarType L = parseIdent L.
Proof.
  intros H1 H2 H3 H4. unfold parseScalarType. rewrite bind_apply. cbn [L_cur].
  destruct (kind (cur L)); try reflexivity; contradiction.
Qed.

(** X27 (parseOptionalIdentList, parseList, parseIdent): the optional
    list of names.  Where the next token is no opening parenthesis the
    list is empty, carries the range of that token, and nothing is read.
    Behind an opening parenthesis come identifiers separated by commas,
    or nothing, and the closing parenthesis, which is read as well; the
    list carries the range of the opening parenthesis.  A list that is
    not closed where the identifiers end is rejected there. *)
Theorem parseOptionalIdentList_forms :
  forall (opening closing first : Token) (more : list (Token * Token))
         (rest : list Token) (er : SourceRange) (fuel : nat),
    kind opening = TK_CHAR "(" ->
    kind closing = TK_CHAR ")" ->
    kind first = TK_IDENT ->
    Forall (follows (TK_CHAR ",")) more ->
    length more < fuel ->
    parseOptionalIdentList fuel
      (lexer_of (opening :: separated first more ++ closing :: rest) er)
    = Ok (List_create (range opening) (map ident_of (first :: map snd more)),
          lexer_of rest er) /\
    parseOptionalIdentList fuel (lexer_of (opening :: closing :: rest) er)
    = Ok (List_create (range opening) [], lexer_of rest er) /\
    (forall L, kind (cur L) <> TK_CHAR "(" ->
               parseOptionalIdentList fuel L = Ok (List_create (range (cur L)) [], L)) /\
    (kind (cur (lexer_of rest er)) <> TK_CHAR "," ->
     kind (cur (lexer_of rest er)) <> TK_CHAR ")" ->
     parseOptionalIdentList fuel (lexer_of (opening :: separated first more ++ rest) er)
     = Throw (Expected (TK_CHAR ")") (cur (lexer_of rest er)))).
Proof.
  intros opening closing first more rest er fuel Hopen Hclose Hfirst Hmore Hfuel.
  assert (Hstart : forall tail,
    kind (cur (lexer_of tail er)) <> TK_CHAR "," ->
    parseOptionalIdentList fuel (lexer_of (opening :: separated first more ++ tail) er)
    = (L_expect (TK_CHAR ")") ;;;
       ret (List_create (range opening) (map ident_of (first :: map snd more))))
        (lexer_of tail er)).
  { intros tail Htail. unfold parseOptionalIdentList, parseList.
    rewrite bind_apply. cbn [L_cur cur lexer_of next_tokens]. rewrite Hopen. go.
    change (advance (lexer_of (opening :: separated first more ++ tail) er))
      with (lexer_of (separated first more ++ tail) er).
    cbn [cur lexer_of next_tokens separated app]. rewrite Hfirst.
    rewrite (kind_eqb_neq TK_IDENT (TK_CHAR ")")) by discriminate. cbn [negb].
    change (first :: flat_map (fun p => [p.1; p.2]) more ++ tail)
      with (separated first more ++ tail).
    rewrite (parseList_loop_idents (TK_CHAR ",") tail er Htail more first [] fuel)
      by (first [assumption | lia]).
    cbn [app]. go. unfold bind, L_expect, ret.
    destruct (kind_eqb (kind (cur (lexer_of tail er))) (TK_CHAR ")")); reflexivity. }
  split; [| split; [| split]].
  - rewrite (Hstart (closing :: rest))
      by (cbn [cur lexer_of next_tokens]; rewrite Hclose; discriminate).
    run. reflexivity.
  - unfold parseOptionalIdentList, parseList. run. reflexivity.
  - intros L HL. unfold parseOptionalIdentList. go. reflexivity.
  - intros Hcomma Hparen. rewrite (Hstart rest Hcomma). go. reflexivity.
Qed.
End Parser.

Arguments Compound {double} k r trees.
Arguments Number {double} v.
Arguments String_ {double} s.

(** *** A concrete parser to run the statements on *)

(** Modelled from the spec: the content of the precedence table (lexer.h
    is not among the sources).  The conditional is "a special-cased
    binary-level production" and "multiplication binds tighter" than
    addition; the unary minus binds tightest.  Precedences start at 1. *)
Definition sharedParserData : SharedParserData :=
  {| isUnary := fun k =>
       match k with
       | TK_CHAR "-"%char => Some 4%Z
       | _ => None
       end;
     isBinary := fun k =>
       match k with
       | TK_IF => Some 1%Z
       | TK_CHAR "+"%char | TK_CHAR "-"%char => Some 2%Z
       | TK_CHAR "*"%char | TK_CHAR "/"%char => Some 3%Z
       | _ => None
       end;
     isRightAssociative := fun _ => false |}.

(** Integers stand for the doubles here: the value of a number token is
    the integer its leading digits spell. *)
Fixpoint digits_value (acc : Z) (str : string) : Z :=
  match str with
  | String a rest =>
      let n := Z.of_nat (nat_of_ascii a) in
      if ((48 <=? n) && (n <=? 57))%Z then digits_value (10 * acc + (n - 48))%Z rest
      else acc
  | EmptyString => acc
  end.

Definition integer_value (t : Token) : Z := digits_value 0%Z (text t).

Definition r0 : SourceRange := {| range_start := 0; range_end := 0 |}.
Definition at_ (i : nat) : SourceRange := {| range_start := i; range_end := S i |}.


Lemma parseExp_precedence_and_conditional_witness :
  parseExp Z id Z.mul integer_value sharedParserData 4 0%Z
    (lexer_of [number_token (at_ 0) "2"; op_token "+"%char (at_ 2) "+";
               number_token (at_ 4) "3"; op_token "*"%char (at_ 6) "*";
               number_token (at_ 8) "4"] r0)
  = Ok (Compound "+"%char (at_ 2)
          [Compound TK_CONST (at_ 0) [Number 2%Z; String_ "i"];
           Compound "*"%char (at_ 6)
             [Compound TK_CONST (at_ 4) [Number 3%Z; String_ "i"];
              Compound TK_CONST (at_ 8) [Number 4%Z; String_ "i"]]],
        lexer_of [] r0)
  /\ parseExp Z id Z.mul integer_value sharedParserData 4 0%Z
       (lexer_of [ident_token (at_ 0) "a"; op_token TK_IF (at_ 2) "if";
                  ident_token (at_ 5) "b"; op_token TK_ELSE (at_ 7) "else";
                  ident_token (at_ 12) "c"] r0)
     = Ok (Compound TK_IF_EXPR (at_ 2)
             [Compound TK_VAR (at_ 5) [Compound TK_IDENT (at_ 5) [String_ "b"]];
              Compound TK_VAR (at_ 0) [Compound TK_IDENT (at_ 0) [String_ "a"]];
              Compound TK_VAR (at_ 12) [Compound TK_IDENT (at_ 12) [String_ "c"]]],
           lexer_of [] r0).
Proof.
  destruct (parseExp_precedence_and_conditional Z id Z.mul integer_value
              sharedParserData 2%Z 3%Z 1%Z) as (Harith & Hcond);
    try reflexivity.
  split.
  - apply (Harith 4 (at_ 0) (at_ 2) (at_ 4) (at_ 6) (at_ 8) r0). lia.
  - apply (Hcond 4 (at_ 0) (at_ 2) (at_ 5) (at_ 7) (at_ 12) r0). lia.
Defined.

Lemma expectEndOfLine_tolerates_dedent_witness :
  (* "x = 1" directly before a dedent *)
  parseStmt Z id Z.mul integer_value sharedParserData 5
    (lexer_of [ident_token (at_ 0) "x"; op_token "="%char (at_ 2) "=";
               number_token (at_ 4) "1"; op_token TK_DEDENT (at_ 5) ""] r0)
  = Ok (Compound TK_ASSIGN (at_ 0)
          [Compound TK_LIST (at_ 0) [Compound TK_IDENT (at_ 0) [String_ "x"]];
           Compound "="%char (at_ 2) [];
           Compound TK_CONST (at_ 4) [Number 1%Z; String_ "i"]],
        lexer_of [op_token TK_DEDENT (at_ 5) ""] r0)
  (* "x" directly before a dedent *)
  /\ parseStmt Z id Z.mul integer_value sharedParserData 5
       (lexer_of [ident_token (at_ 0) "x"; op_token TK_DEDENT (at_ 1) ""] r0)
     = Ok (Compound TK_EXPR_STMT (at_ 0)
             [Compound TK_VAR (at_ 0) [Compound TK_IDENT (at_ 0) [String_ "x"]]],
           lexer_of [op_token TK_DEDENT (at_ 1) ""] r0)
  /\ expectEndOfLine (lexer_of [op_token TK_NEWLINE (at_ 0) ""; ident_token (at_ 1) "y"] r0)
     = Ok (tt, lexer_of [ident_token (at_ 1) "y"] r0)
  /\ expectEndOfLine (lexer_of [ident_token (at_ 1) "y"] r0)
     = Throw (Expected TK_NEWLINE (ident_token (at_ 1) "y")).
Proof.
  destruct (expectEndOfLine_tolerates_dedent Z id Z.mul integer_value sharedParserData)
    as (Hdedent & Hnewline & Hother & Hexpr & Hassign).
  split; [| split; [| split]].
  - change (parseStmt Z id Z.mul integer_value sharedParserData 5 ?L)
      with (parseAssign Z id Z.mul integer_value sharedParserData 4
              (Compound TK_IDENT (at_ 0) [String_ "x"])
              (lexer_of [op_token "="%char (at_ 2) "=";
                         number_token (at_ 4) "1"; op_token TK_DEDENT (at_ 5) ""] r0)).
    apply (Hassign 4 _
             (lexer_of [op_token "="%char (at_ 2) "=";
                        number_token (at_ 4) "1"; op_token TK_DEDENT (at_ 5) ""] r0)
             (lexer_of [number_token (at_ 4) "1"; op_token TK_DEDENT (at_ 5) ""] r0)
             (lexer_of [op_token TK_DEDENT (at_ 5) ""] r0)
             (Compound TK_IDENT (at_ 0) [String_ "x"])
             (Compound TK_LIST (at_ 0) [Compound TK_IDENT (at_ 0) [String_ "x"]])
             (Compound "="%char (at_ 2) [])
             (Compound TK_CONST (at_ 4) [Number 1%Z; String_ "i"]));
      reflexivity.
  - apply (Hexpr 4 _ (lexer_of [op_token TK_DEDENT (at_ 1) ""] r0)
             (Compound TK_VAR (at_ 0) [Compound TK_IDENT (at_ 0) [String_ "x"]])).
    + repeat split; discriminate.
    + reflexivity.
    + reflexivity.
  - apply (Hnewline (lexer_of [op_token TK_NEWLINE (at_ 0) ""; ident_token (at_ 1) "y"] r0)).
    reflexivity.
  - apply (Hother (lexer_of [ident_token (at_ 1) "y"] r0)); discriminate.
Defined.

(** *** The further properties, run on the concrete parser *)

(** A table with one operator, the right-associative power. *)
Definition power_table : SharedParserData :=
  {| isUnary := fun _ => None;
     isBinary := fun k =>
       match k with
       | TK_CHAR "^"%char => Some 5%Z
       | _ => None
       end;
     isRightAssociative := fun k => bool_decide (k = TK_CHAR "^"%char) |}.

(** "2 + 3 * 4" *)
Definition sum_of_product : Lexer :=
  lexer_of [number_token (at_ 0) "2"; op_token "+"%char (at_ 2) "+";
            number_token (at_ 4) "3"; op_token "*"%char (at_ 6) "*";
            number_token (at_ 8) "4"] r0.

Lemma parseExp_terminates_witness :
  remaining sum_of_product < 9 /\
  parseExp Z id Z.mul integer_value sharedParserData 9 0%Z sum_of_product <> OutOfFuel /\
  parseExp Z id Z.mul integer_value sharedParserData 9 0%Z sum_of_product
  = parseExp Z id Z.mul integer_value sharedParserData 6 0%Z sum_of_product /\
  (forall e L',
      parseExp Z id Z.mul integer_value sharedParserData 9 0%Z sum_of_product = Ok (e, L') ->
      remaining L' < remaining sum_of_product).
Proof.
  split; [cbn; lia|].
  apply (parseExp_terminates Z id Z.mul integer_value sharedParserData
           eq_refl eq_refl 9 0%Z sum_of_product).
  cbn. lia.
Defined.

(** "x = 1" and the dedent that closes its block *)
Definition assignment_before_dedent : Lexer :=
  lexer_of [ident_token (at_ 0) "x"; op_token "="%char (at_ 2) "=";
            number_token (at_ 4) "1"; op_token TK_DEDENT (at_ 5) ""] r0.

Lemma parseStmt_terminates_witness :
  remaining assignment_before_dedent + 1 < 9 /\
  parseStmt Z id Z.mul integer_value sharedParserData 9 assignment_before_dedent
  <> OutOfFuel /\
  parseStmt Z id Z.mul integer_value sharedParserData 9 assignment_before_dedent
  = parseStmt Z id Z.mul integer_value sharedParserData 6 assignment_before_dedent /\
  (forall stmt L',
      parseStmt Z id Z.mul integer_value sharedParserData 9 assignment_before_dedent
      = Ok (stmt, L') ->
      remaining L' < remaining assignment_before_dedent).
Proof.
  split; [cbn; lia|].
  apply (parseStmt_terminates Z id Z.mul integer_value sharedParserData
           eq_refl eq_refl 9 assignment_before_dedent).
  cbn. lia.
Defined.

Definition var_at (i : nat) (n : string) : Tree Z :=
  Compound TK_VAR (at_ i) [Compound TK_IDENT (at_ i) [String_ n]].

Lemma parseExp_associativity_witness :
  (* "a - b - c" *)
  parseExp Z id Z.mul integer_value sharedParserData 5 0%Z
    (lexer_of [ident_token (at_ 0) "a"; op_token "-"%char (at_ 2) "-";
               ident_token (at_ 4) "b"; op_token "-"%char (at_ 6) "-";
               ident_token (at_ 8) "c"] r0)
  = Ok (Compound "-"%char (at_ 6)
          [Compound "-"%char (at_ 2) [var_at 0 "a"; var_at 4 "b"]; var_at 8 "c"],
        lexer_of [] r0) /\
  (* "a ^ b ^ c" *)
  parseExp Z id Z.mul integer_value power_table 5 0%Z
    (lexer_of [ident_token (at_ 0) "a"; op_token "^"%char (at_ 2) "^";
               ident_token (at_ 4) "b"; op_token "^"%char (at_ 6) "^";
               ident_token (at_ 8) "c"] r0)
  = Ok (Compound "^"%char (at_ 2)
          [var_at 0 "a"; Compound "^"%char (at_ 6) [var_at 4 "b"; var_at 8 "c"]],
        lexer_of [] r0).
Proof.
  split.
  - apply (parseExp_associativity Z id Z.mul integer_value sharedParserData
             "-"%char 2%Z (ident_token (at_ 0) "a") (ident_token (at_ 4) "b")
             (ident_token (at_ 8) "c") (op_token "-"%char (at_ 2) "-")
             (op_token "-"%char (at_ 6) "-") r0 5);
      first [reflexivity | lia | discriminate | (repeat split; discriminate)].
  - apply (parseExp_associativity Z id Z.mul integer_value power_table
             "^"%char 5%Z (ident_token (at_ 0) "a") (ident_token (at_ 4) "b")
             (ident_token (at_ 8) "c") (op_token "^"%char (at_ 2) "^")
             (op_token "^"%char (at_ 6) "^") r0 5);
      first [reflexivity | lia | discriminate | (repeat split; discriminate)].
Defined.

Lemma parseExp_unary_operand_witness :
  (* "- a + b" *)
  parseExp Z id Z.mul integer_value sharedParserData 5 0%Z
    (lexer_of [op_token "-"%char (at_ 0) "-"; ident_token (at_ 1) "a";
               op_token "+"%char (at_ 3) "+"; ident_token (at_ 5) "b"] r0)
  = Ok (Compound "+"%char (at_ 3)
          [Compound "-"%char (at_ 0) [var_at 1 "a"]; var_at 5 "b"],
        lexer_of [] r0).
Proof.
  apply (parseExp_unary_operand Z id Z.mul integer_value sharedParserData
           "-"%char "+"%char 4%Z 2%Z
           (op_token "-"%char (at_ 0) "-") (ident_token (at_ 1) "a")
           (op_token "+"%char (at_ 3) "+") (ident_token (at_ 5) "b") r0 5);
    first [reflexivity | lia | discriminate | (repeat split; discriminate)].
Defined.

Lemma parseExp_parentheses_witness :
  (* "( a + b ) * c" *)
  parseExp Z id Z.mul integer_value sharedParserData 6 0%Z
    (lexer_of [op_token "("%char (at_ 0) "("; ident_token (at_ 1) "a";
               op_token "+"%char (at_ 3) "+"; ident_token (at_ 5) "b";
               op_token ")"%char (at_ 6) ")"; op_token "*"%char (at_ 8) "*";
               ident_token (at_ 10) "c"] r0)
  = Ok (Compound "*"%char (at_ 8)
          [Compound "+"%char (at_ 3) [var_at 1 "a"; var_at 5 "b"]; var_at 10 "c"],
        lexer_of [] r0) /\
  (* "a + b * c" *)
  parseExp Z id Z.mul integer_value sharedParserData 6 0%Z
    (lexer_of [ident_token (at_ 1) "a"; op_token "+"%char (at_ 3) "+";
               ident_token (at_ 5) "b"; op_token "*"%char (at_ 8) "*";
               ident_token (at_ 10) "c"] r0)
  = Ok (Compound "+"%char (at_ 3)
          [var_at 1 "a"; Compound "*"%char (at_ 8) [var_at 5 "b"; var_at 10 "c"]],
        lexer_of [] r0).
Proof.
  destruct (parseExp_parentheses Z id Z.mul integer_value sharedParserData
              "+"%char "*"%char 2%Z 3%Z
              (op_token "("%char (at_ 0) "(") (ident_token (at_ 1) "a")
              (op_token "+"%char (at_ 3) "+") (ident_token (at_ 5) "b")
              (op_token ")"%char (at_ 6) ")") (op_token "*"%char (at_ 8) "*")
              (ident_token (at_ 10) "c") r0 6
              eq_refl eq_refl eq_refl eq_refl eq_refl eq_refl
              ltac:(lia) ltac:(lia) ltac:(discriminate) ltac:(discriminate)
              ltac:(repeat split; discriminate) ltac:(repeat split; discriminate)
              eq_refl eq_refl eq_refl eq_refl eq_refl eq_refl eq_refl ltac:(lia))
    as [Hgroup Hplain].
  split; [exact Hgroup | apply Hplain; lia].
Defined.

Definition bracket (i : nat) : Token := op_token "["%char (at_ i) "[".
Definition unbracket (i : nat) : Token := op_token "]"%char (at_ i) "]".
Definition colon (i : nat) : Token := op_token ":"%char (at_ i) ":".

Lemma parseSliceOrGather_forms_witness :
  (* "[i]" *)
  parseSliceOrGather Z (parseExp Z id Z.mul integer_value sharedParserData 3 0%Z)
    (var_at 0 "x") (lexer_of [bracket 1; ident_token (at_ 2) "i"; unbracket 3] r0)
  = Ok (Compound TK_GATHER (at_ 1) [var_at 0 "x"; var_at 2 "i"], lexer_of [] r0) /\
  (* "[i:j]" *)
  parseSliceOrGather Z (parseExp Z id Z.mul integer_value sharedParserData 3 0%Z)
    (var_at 0 "x")
    (lexer_of [bracket 1; ident_token (at_ 2) "i"; colon 3; ident_token (at_ 4) "j";
               unbracket 5] r0)
  = Ok (Compound TK_SLICE (at_ 1)
          [var_at 0 "x"; Compound TK_OPTION (at_ 1) [var_at 2 "i"];
           Compound TK_OPTION (at_ 1) [var_at 4 "j"]],
        lexer_of [] r0) /\
  (* "[:]" *)
  parseSliceOrGather Z (parseExp Z id Z.mul integer_value sharedParserData 3 0%Z)
    (var_at 0 "x") (lexer_of [bracket 1; colon 2; unbracket 3] r0)
  = Ok (Compound TK_SLICE (at_ 1)
          [var_at 0 "x"; Compound TK_OPTION (at_ 1) []; Compound TK_OPTION (at_ 1) []],
        lexer_of [] r0) /\
  (* "[]" *)
  parseSliceOrGather Z (parseExp Z id Z.mul integer_value sharedParserData 3 0%Z)
    (var_at 0 "x") (lexer_of [bracket 1; unbracket 2] r0)
  = Throw (Expected TK_IDENT (unbracket 2)).
Proof.
  split; [| split; [| split]].
  - destruct (parseSliceOrGather_forms Z id Z.mul integer_value sharedParserData
                (parseExp Z id Z.mul integer_value sharedParserData 3 0%Z) (var_at 0 "x")
                (lexer_of [bracket 1; ident_token (at_ 2) "i"; unbracket 3] r0) eq_refl)
      as (Hgather & _).
    apply (Hgather (var_at 2 "i") (lexer_of [unbracket 3] r0));
      first [reflexivity | discriminate].
  - destruct (parseSliceOrGather_forms Z id Z.mul integer_value sharedParserData
                (parseExp Z id Z.mul integer_value sharedParserData 3 0%Z) (var_at 0 "x")
                (lexer_of [bracket 1; ident_token (at_ 2) "i"; colon 3;
                           ident_token (at_ 4) "j"; unbracket 5] r0) eq_refl)
      as (_ & Hslice & _).
    apply (Hslice (var_at 2 "i") (var_at 4 "j")
             (lexer_of [colon 3; ident_token (at_ 4) "j"; unbracket 5] r0)
             (lexer_of [unbracket 5] r0));
      first [reflexivity | discriminate].
  - destruct (parseSliceOrGather_forms Z id Z.mul integer_value sharedParserData
                (parseExp Z id Z.mul integer_value sharedParserData 3 0%Z) (var_at 0 "x")
                (lexer_of [bracket 1; colon 2; unbracket 3] r0) eq_refl)
      as (_ & _ & _ & _ & Hall & _).
    apply Hall; reflexivity.
  - destruct (parseSliceOrGather_forms Z id Z.mul integer_value sharedParserData
                (parseExp Z id Z.mul integer_value sharedParserData 3 0%Z) (var_at 0 "x")
                (lexer_of [bracket 1; unbracket 2] r0) eq_refl)
      as (_ & _ & _ & _ & _ & Hempty).
    apply (Hempty 1); reflexivity.
Defined.

Lemma createApply_arguments_witness :
  (* "f ( a , k = 1 )" *)
  parseExp Z id Z.mul integer_value sharedParserData 6 0%Z
    (lexer_of [ident_token (at_ 0) "f"; op_token "("%char (at_ 1) "(";
               ident_token (at_ 2) "a"; op_token ","%char (at_ 3) ",";
               ident_token (at_ 4) "k"; op_token "="%char (at_ 5) "=";
               number_token (at_ 6) "1"; op_token ")"%char (at_ 7) ")"] r0)
  = Ok (Compound TK_APPLY (at_ 1)
          [var_at 0 "f";
           Compound TK_LIST (at_ 1) [var_at 2 "a"];
           Compound TK_LIST (at_ 1)
             [Compound TK_ATTRIBUTE (at_ 4)
                [Compound TK_IDENT (at_ 4) [String_ "k"];
                 Compound TK_CONST (at_ 6) [Number 1%Z; String_ "i"]]]],
        lexer_of [] r0) /\
  (* "f ( k = b )" *)
  parseExp Z id Z.mul integer_value sharedParserData 6 0%Z
    (lexer_of [ident_token (at_ 0) "f"; op_token "("%char (at_ 1) "(";
               ident_token (at_ 4) "k"; op_token "="%char (at_ 5) "=";
               ident_token (at_ 8) "b"; op_token ")"%char (at_ 7) ")"] r0)
  = Throw (Expected TK_NUMBER (ident_token (at_ 8) "b")).
Proof.
  destruct (createApply_arguments Z id Z.mul integer_value sharedParserData
              (ident_token (at_ 0) "f") (op_token "("%char (at_ 1) "(")
              (ident_token (at_ 2) "a") (op_token ","%char (at_ 3) ",")
              (ident_token (at_ 4) "k") (op_token "="%char (at_ 5) "=")
              (number_token (at_ 6) "1") (op_token ")"%char (at_ 7) ")")
              (ident_token (at_ 8) "b") r0 6
              eq_refl eq_refl eq_refl eq_refl
              eq_refl eq_refl eq_refl eq_refl eq_refl eq_refl eq_refl eq_refl eq_refl
              ltac:(lia)) as (Hcall & _ & Hliteral).
  split; [exact Hcall | exact Hliteral].
Defined.

(** "return a" and a newline *)
Definition return_then_newline : Lexer :=
  lexer_of [op_token TK_RETURN (at_ 0) "return"; ident_token (at_ 7) "a";
            op_token TK_NEWLINE (at_ 8) ""; ident_token (at_ 9) "b";
            op_token TK_DEDENT (at_ 10) ""] r0.

Lemma return_statement_keeps_end_of_line_witness :
  parseStmt Z id Z.mul integer_value sharedParserData 4 return_then_newline
  = Ok (Compound TK_RETURN (at_ 0) [Compound TK_LIST (at_ 7) [var_at 7 "a"]],
        lexer_of [op_token TK_NEWLINE (at_ 8) ""; ident_token (at_ 9) "b";
                  op_token TK_DEDENT (at_ 10) ""] r0) /\
  parseStatements_loop Z 2 (parseStmt Z id Z.mul integer_value sharedParserData 4) []
    return_then_newline
  = Throw (Expected TK_IDENT (op_token TK_NEWLINE (at_ 8) "")) /\
  (* "return" and a newline *)
  parseStmt Z id Z.mul integer_value sharedParserData 3
    (lexer_of [op_token TK_RETURN (at_ 0) "return"; op_token TK_NEWLINE (at_ 6) ""] r0)
  = Throw (Expected TK_IDENT (op_token TK_NEWLINE (at_ 6) "")).
Proof.
  destruct (return_statement_keeps_end_of_line Z id Z.mul integer_value sharedParserData
              2 return_then_newline eq_refl) as [Hvalues _].
  destruct (Hvalues (Compound TK_LIST (at_ 7) [var_at 7 "a"])
              (lexer_of [op_token TK_NEWLINE (at_ 8) ""; ident_token (at_ 9) "b";
                         op_token TK_DEDENT (at_ 10) ""] r0) eq_refl)
    as [Hstmt Hblock].
  split; [exact Hstmt|]. split; [apply (Hblock eq_refl eq_refl 0 [])|].
  destruct (return_statement_keeps_end_of_line Z id Z.mul integer_value sharedParserData
              0 (lexer_of [op_token TK_RETURN (at_ 0) "return";
                           op_token TK_NEWLINE (at_ 6) ""] r0) eq_refl) as [_ Hbare].
  apply Hbare; [left; reflexivity | reflexivity].
Defined.

Lemma assignment_needs_a_name_witness :
  (* "a . b = 1" *)
  parseStmt Z id Z.mul integer_value sharedParserData 5
    (lexer_of [ident_token (at_ 0) "a"; op_token "."%char (at_ 1) ".";
               ident_token (at_ 2) "b"; op_token "="%char (at_ 4) "=";
               number_token (at_ 6) "1"] r0)
  = Throw (Expected TK_NEWLINE (op_token "="%char (at_ 4) "=")).
Proof.
  destruct (assignment_needs_a_name Z id Z.mul integer_value sharedParserData)
    as [_ Hselect].
  apply (Hselect (ident_token (at_ 0) "a") (op_token "."%char (at_ 1) ".")
           (ident_token (at_ 2) "b") (op_token "="%char (at_ 4) "=")
           (number_token (at_ 6) "1") r0 5);
    first [reflexivity | lia].
Defined.

Lemma empty_block_is_rejected_witness :
  parseStatements Z 1 (parseStmt Z id Z.mul integer_value sharedParserData 3)
    (lexer_of [op_token TK_INDENT (at_ 0) ""; op_token TK_DEDENT (at_ 0) ""] r0)
  = Throw (Expected TK_IDENT (op_token TK_DEDENT (at_ 0) "")).
Proof.
  apply (empty_block_is_rejected Z id Z.mul integer_value sharedParserData 0 0
           (lexer_of [op_token TK_INDENT (at_ 0) ""; op_token TK_DEDENT (at_ 0) ""] r0));
    reflexivity.
Defined.

Definition comma (i : nat) : Token := op_token ","%char (at_ i) ",".

Lemma global_statement_witness :
  (* "global a , b , c" and a newline *)
  parseStmt Z id Z.mul integer_value sharedParserData 4
    (lexer_of [op_token TK_GLOBAL (at_ 0) "global"; ident_token (at_ 7) "a";
               comma 8; ident_token (at_ 10) "b"; comma 11; ident_token (at_ 13) "c";
               op_token TK_NEWLINE (at_ 14) ""] r0)
  = Ok (Compound TK_GLOBAL (at_ 0)
          [Compound TK_LIST (at_ 7)
             [Compound TK_IDENT (at_ 7) [String_ "a"];
              Compound TK_IDENT (at_ 10) [String_ "b"];
              Compound TK_IDENT (at_ 13) [String_ "c"]]],
        lexer_of [op_token TK_NEWLINE (at_ 14) ""] r0).
Proof.
  apply (global_statement Z id Z.mul integer_value sharedParserData
           (op_token TK_GLOBAL (at_ 0) "global") (ident_token (at_ 7) "a")
           [(comma 8, ident_token (at_ 10) "b"); (comma 11, ident_token (at_ 13) "c")]
           [op_token TK_NEWLINE (at_ 14) ""] r0 4 eq_refl eq_refl).
  - repeat constructor.
  - discriminate.
  - cbn. lia.
Defined.



Definition paren (i : nat) : Token := op_token "("%char (at_ i) "(".
Definition unparen (i : nat) : Token := op_token ")"%char (at_ i) ")".

Lemma parseOptionalIdentList_forms_witness :
  (* "( a , b ) :" and ":" *)
  parseOptionalIdentList Z 2
    (lexer_of [paren 0; ident_token (at_ 2) "a"; comma 3; ident_token (at_ 5) "b";
               unparen 7; colon 9] r0)
  = Ok (Compound TK_LIST (at_ 0)
          [Compound TK_IDENT (at_ 2) [String_ "a"];
           Compound TK_IDENT (at_ 5) [String_ "b"]],
        lexer_of [colon 9] r0) /\
  parseOptionalIdentList Z 2 (lexer_of [colon 9] r0)
  = Ok (Compound TK_LIST (at_ 9) [], lexer_of [colon 9] r0).
Proof.
  destruct (parseOptionalIdentList_forms Z (paren 0) (unparen 7) (ident_token (at_ 2) "a")
              [(comma 3, ident_token (at_ 5) "b")] [colon 9] r0 2
              eq_refl eq_refl eq_refl
              ltac:(repeat constructor) ltac:(cbn; lia))
    as (Hlist & _ & Hnone & _).
  split; [exact Hlist|]. apply Hnone. discriminate.
Defined.
End Script.

(* ===================================================================== *)
(** ** Sugared values: compiler.h                                         *)
(* ===================================================================== *)

Module Compiler.

Import Script.

(** [ErrorReport(loc) << a << b]: the place and the text streamed in. *)
Record ErrorReport : Type :=
  { loc : SourceRange; what : string }.

Inductive result (A : Type) : Type :=
| Ok (a : A)
| Throw (e : ErrorReport).
Arguments Ok {A} a.
Arguments Throw {A} e.

Section SugaredValue.

(** ir.h's [Value], module.h's [Method] and the tree view
    [List<Attribute>] are used opaquely here. *)
Variable Value : Type.
Variable Method : Type.
Variable Attributes : Type.

(** A [SugaredValue] object: [kind] is pure virtual; each of [asValue],
    [attr] and [call] is either overridden by the concrete class
    ([Some]) or inherited from the base class ([None]).  A method gets
    the [Method &] it may emit into and hands it back. *)
#[warnings="-register-all"]
Inductive SugaredValue : Type :=
  mkSugaredValue
    (kind_ : string)
    (asValue_override :
       option (SourceRange -> Method -> result (Value * Method)))
    (attr_override :
       option (SourceRange -> Method -> string -> result (SugaredValue * Method)))
    (call_override :
       option (SourceRange -> Method -> list Value -> Attributes -> nat ->
               result (list Value * Method))).

(* what is this node? for error report (e.g. Module, python function) *)
Definition kind (sv : SugaredValue) : string :=
  match sv with mkSugaredValue k _ _ _ => k end.

Definition asValue_override (sv : SugaredValue) :=
  match sv with mkSugaredValue _ o _ _ => o end.
Definition attr_override (sv : SugaredValue) :=
  match sv with mkSugaredValue _ _ o _ => o end.
Definition call_override (sv : SugaredValue) :=
  match sv with mkSugaredValue _ _ _ o => o end.

(* use it as a value e.g.  `this + 4` *)
Definition asValue (sv : SugaredValue) (loc : SourceRange) (m : Method)
    : result (Value * Method) :=
  match asValue_override sv with
  | Some f => f loc m
  | None => Throw {| loc := loc; what := kind sv +:+ " cannot be used as a value" |}
  end.

(* select an attribute on it, e.g. `this.field` *)
Definition attr (sv : SugaredValue) (loc : SourceRange) (m : Method) (field : string)
    : result (SugaredValue * Method) :=
  match attr_override sv with
  | Some f => f loc m field
  | None => Throw {| loc := loc; what := "attribute lookup is not defined on " +:+ kind sv |}
  end.

(* call it like a function, e.g. `outputs = this(inputs)` *)
Definition call (sv : SugaredValue) (loc : SourceRange) (m : Method)
    (inputs : list Value) (attributes : Attributes) (n_outputs : nat)
    : result (list Value * Method) :=
  match call_override sv with
  | Some f => f loc m inputs attributes n_outputs
  | None => Throw {| loc := loc; what := "cannot call a " +:+ kind sv |}
  end.

(** [SimpleValue::attr] is declared here and defined in compiler.cpp. *)
Variable SimpleValue_attr :
  Value -> SourceRange -> Method -> string -> result (SugaredValue * Method).

(* most things in the environment are just simple value types
   and not special python syntax sugar types *)
Definition SimpleValue (value : Value) : SugaredValue :=
  mkSugaredValue "value"
    (Some (fun range m => Ok (value, m)))
    (Some (SimpleValue_attr value))
    None.

(** C7 (SugaredValue, SimpleValue): a capability the concrete class does
    not override fails with the base class's diagnostic, which names
    [kind()]: "<kind> cannot be used as a value", "attribute lookup is
    not defined on <kind>", "cannot call a <kind>"; a [SimpleValue] used
    as a value is the plain value it wraps, and nothing is emitted. *)
Theorem unsupported_capability_names_kind :
  (forall sv loc m,
      asValue_override sv = None ->
      asValue sv loc m
      = Throw {| loc := loc; what := kind sv +:+ " cannot be used as a value" |}) /\
  (forall sv loc m field,
      attr_override sv = None ->
      attr sv loc m field
      = Throw {| loc := loc; what := "attribute lookup is not defined on " +:+ kind sv |}) /\
  (forall sv loc m inputs attributes n_outputs,
      call_override sv = None ->
      call sv loc m inputs attributes n_outputs
      = Throw {| loc := loc; what := "cannot call a " +:+ kind sv |}) /\
  (forall value range m, asValue (SimpleValue value) range m = Ok (value, m)) /\
  (forall value loc m inputs attributes n_outputs,
      call (SimpleValue value) loc m inputs attributes n_outputs
      = Throw {| loc := loc; what := "cannot call a value" |}).
Proof.
  repeat split.
  - intros sv l m H. unfold asValue. rewrite H. reflexivity.
  - intros sv l m field H. unfold attr. rewrite H. reflexivity.
  - intros sv l m inputs attributes n H. unfold call. rewrite H. reflexivity.
Qed.

End SugaredValue.

(** A class that overrides nothing, as a module or function value whose
    use as an operand is not defined would. *)
Definition bare (Value Method Attributes : Type) (k : string)
    : SugaredValue Value Method Attributes :=
  mkSugaredValue Value Method Attributes k None None None.

Lemma unsupported_capability_names_kind_witness :
  asValue nat unit unit (bare nat unit unit "module") r0 tt
  = Throw {| loc := r0; what := "module cannot be used as a value" |}
  /\ attr nat unit unit (bare nat unit unit "module") r0 tt "weight"
     = Throw {| loc := r0; what := "attribute lookup is not defined on module" |}
  /\ call nat unit unit (bare nat unit unit "module") r0 tt [1; 2] tt 1
     = Throw {| loc := r0; what := "cannot call a module" |}.
Proof.
  destruct (unsupported_capability_names_kind nat unit unit
              (fun _ _ _ _ => Throw {| loc := r0; what := "" |}))
    as (Hvalue & Hattr & Hcall & _).
  split; [| split].
  - apply (Hvalue (bare nat unit unit "module") r0 tt). reflexivity.
  - apply (Hattr (bare nat unit unit "module") r0 tt "weight"). reflexivity.
  - apply (Hcall (bare nat unit unit "module") r0 tt [1; 2] tt 1). reflexivity.
Defined.

End Compiler.

(* ===================================================================== *)
(** ** The graph IR as the exporter reads it                              *)
(* ===================================================================== *)

Module IR.

(** Modelled from the spec: the IR (ir.h and the ATen tensor are not
    among the sources).  A Node has "a kind (namespaced operator tag), an
    ordered list of input Values, an owned list of output Values, a
    mapping from attribute-name to a typed attribute value", and
    "optional source-location metadata"; a Value has "a process-unique
    identifier", a name, "a type descriptor" and "a back-reference to its
    producing Node"; a Graph owns its nodes, inputs and outputs in order.
    The exporter only reads a graph, so a reference to a Value is the
    Value's own data together with the node that produces it, and a node
    holds the data of the outputs it owns. *)

(** A kind is an interned string; [toString] is the string. *)
Definition Symbol : Type := string.
Definition toString (k : Symbol) : string := k.
Definition kUndefined : Symbol := "Undefined".
Definition kExpand : Symbol := "Expand".
Definition kCppOp : Symbol := "CppOp".
Definition kPythonOp : Symbol := "PythonOp".
Definition kParam : Symbol := "Param".

Inductive ScalarType : Type :=
| kByte | kChar | kDouble | kFloat | kInt | kLong | kShort | kHalf
| NumOptions.

(** The tensor value contract: sizes, element kind, and the elements
    as the contiguous CPU copy holds them. *)
Record Tensor : Type :=
  { sizes : list Z; strides : list Z; scalarType : ScalarType; data : list Z }.

Inductive Type_ : Type :=
| DynamicType
| TensorType (elem : ScalarType) (sizes_ : list Z) (strides_ : list Z).

(** The Python stack trace recorded for a node; [highlight] prints it. *)
Record SourceLocation : Type :=
  { python_traceback : string }.

Record ValueData : Type :=
  { unique : nat; uniqueName : string; type : Type_ }.

Section Graphs.

(** The C++ [double] of float attributes; the exporter only copies it. *)
Variable double : Type.

#[warnings="-register-all"]
Inductive Node : Type :=
  mkNode (kind_ : Symbol) (inputs_ : list Value) (outputs_ : list ValueData)
         (attributes_ : list (Symbol * AttributeValue))
         (source_location_ : option SourceLocation)
         (name_ : string)
with Value : Type :=
  mkValue (data_ : ValueData) (node_ : Node)
with AttributeValue : Type :=
| A_f (v : double) | A_fs (vs : list double)
| A_i (v : Z) | A_is (vs : list Z)
| A_s (v : string) | A_ss (vs : list string)
| A_t (v : Tensor) | A_ts (vs : list Tensor)
| A_g (v : Graph) | A_gs (vs : list Graph)
with Graph : Type :=
  mkGraph (inputs_ : list Value) (outputs_ : list Value) (nodes_ : list Node).

Definition kind (n : Node) : Symbol :=
  match n with mkNode k _ _ _ _ _ => k end.
Definition inputs (n : Node) : list Value :=
  match n with mkNode _ i _ _ _ _ => i end.
Definition node_outputs (n : Node) : list ValueData :=
  match n with mkNode _ _ o _ _ _ => o end.
Definition attributes (n : Node) : list (Symbol * AttributeValue) :=
  match n with mkNode _ _ _ a _ _ => a end.
Definition getSourceLocation (n : Node) : option SourceLocation :=
  match n with mkNode _ _ _ _ l _ => l end.
(** [name()] of a [CppOp] or [PythonOp] node. *)
Definition name (n : Node) : string :=
  match n with mkNode _ _ _ _ _ nm => nm end.

Definition value_data (v : Value) : ValueData :=
  match v with mkValue d _ => d end.
Definition node (v : Value) : Node :=
  match v with mkValue _ n => n end.

(** [node->outputs()]: the values the node owns, each pointing back at it. *)
Definition outputs (n : Node) : list Value :=
  map (fun d => mkValue d n) (node_outputs n).

Definition graph_inputs (g : Graph) : list Value :=
  match g with mkGraph i _ _ => i end.
Definition graph_outputs (g : Graph) : list Value :=
  match g with mkGraph _ o _ => o end.
Definition nodes (g : Graph) : list Node :=
  match g with mkGraph _ _ n => n end.

End Graphs.

Arguments mkNode {double} _ _ _ _ _ _.
Arguments mkValue {double} _ _.
Arguments mkGraph {double} _ _ _.
Arguments A_f {double} _.
Arguments A_fs {double} _.
Arguments A_i {double} _.
Arguments A_is {double} _.
Arguments A_s {double} _.
Arguments A_ss {double} _.
Arguments A_t {double} _.
Arguments A_ts {double} _.
Arguments A_g {double} _.
Arguments A_gs {double} _.
Arguments kind {double} _.
Arguments inputs {double} _.
Arguments node_outputs {double} _.
Arguments attributes {double} _.
Arguments getSourceLocation {double} _.
Arguments name {double} _.
Arguments value_data {double} _.
Arguments node {double} _.
Arguments outputs {double} _.
Arguments graph_inputs {double} _.
Arguments graph_outputs {double} _.
Arguments nodes {double} _.

End IR.

(* ===================================================================== *)
(** ** The exporter: export.cpp                                           *)
(* ===================================================================== *)

Module Exporter.

Import IR.

(** *** The interchange format *)

(** Modelled from the spec: the format's messages (onnx.h is not among
    the sources): "a graph (named/typed inputs, named outputs, ordered
    node list, named initializer constants), each node carrying an
    operator-type string, ordered input/output name references, and a
    typed attribute list; numeric element kinds are encoded via a fixed
    enumeration".  An attribute's type tag and the field that goes with
    it are one constructor of [AttributeData]. *)
Inductive DataType : Type :=
| kDOUBLE | kFLOAT | kFLOAT16 | kINT8 | kINT16 | kINT32 | kINT64.

Record TensorProto : Type :=
  { tensor_name : option string;
    dims : list Z;
    data_type : option DataType;
    raw_data : option Tensor }.

Record TypeProtoTensorTypeProto : Type :=
  { shape : list Z; elem_type : option DataType }.

Record ValueInfoProto : Type :=
  { value_info_name : string; tensor_type : TypeProtoTensorTypeProto }.

Section Protos.

Variable double : Type.

#[warnings="-register-all"]
Inductive AttributeData : Type :=
| aFLOAT (f : double) | aFLOATS (floats : list double)
| aINT (i : Z) | aINTS (ints : list Z)
| aSTRING (s : string) | aSTRINGS (strings : list string)
| aTENSOR (t : TensorProto) | aTENSORS (tensors : list TensorProto)
| aGRAPH (g : GraphProto) | aGRAPHS (graphs : list GraphProto)
with AttributeProto : Type :=
  mkAttributeProto (attribute_name : string) (attribute_data : AttributeData)
with NodeProto : Type :=
  mkNodeProto (doc_string : option string) (input : list string) (output : list string)
              (op_type : string) (attribute : list AttributeProto)
with GraphProto : Type :=
  mkGraphProto (graph_name : string) (input : list ValueInfoProto)
               (output : list ValueInfoProto) (node : list NodeProto)
               (initializer : list TensorProto).

Definition node_proto_input (n : NodeProto) : list string :=
  match n with mkNodeProto _ i _ _ _ => i end.
Definition node_proto_output (n : NodeProto) : list string :=
  match n with mkNodeProto _ _ o _ _ => o end.
Definition node_proto_op_type (n : NodeProto) : string :=
  match n with mkNodeProto _ _ _ t _ => t end.
Definition node_proto_attribute (n : NodeProto) : list AttributeProto :=
  match n with mkNodeProto _ _ _ _ a => a end.
Definition node_proto_doc_string (n : NodeProto) : option string :=
  match n with mkNodeProto d _ _ _ _ => d end.

Definition graph_proto_name (p : GraphProto) : string :=
  match p with mkGraphProto n _ _ _ _ => n end.
Definition graph_proto_input (p : GraphProto) : list ValueInfoProto :=
  match p with mkGraphProto _ i _ _ _ => i end.
Definition graph_proto_output (p : GraphProto) : list ValueInfoProto :=
  match p with mkGraphProto _ _ o _ _ => o end.
Definition graph_proto_node (p : GraphProto) : list NodeProto :=
  match p with mkGraphProto _ _ _ n _ => n end.
Definition graph_proto_initializer (p : GraphProto) : list TensorProto :=
  match p with mkGraphProto _ _ _ _ t => t end.

(** A fresh message, as [mutable_graph()], [add_node()], ... hand out. *)
Definition GraphProto_new : GraphProto := mkGraphProto "" [] [] [] [].
Definition NodeProto_new : NodeProto := mkNodeProto None [] [] "" [].
Definition TensorProto_new : TensorProto :=
  {| tensor_name := None; dims := []; data_type := None; raw_data := None |}.

Definition set_name (p : GraphProto) (n : string) : GraphProto :=
  match p with mkGraphProto _ i o nd t => mkGraphProto n i o nd t end.
Definition add_input (p : GraphProto) (v : ValueInfoProto) : GraphProto :=
  match p with mkGraphProto n i o nd t => mkGraphProto n (i ++ [v]) o nd t end.
Definition add_output (p : GraphProto) (v : ValueInfoProto) : GraphProto :=
  match p with mkGraphProto n i o nd t => mkGraphProto n i (o ++ [v]) nd t end.
Definition add_node (p : GraphProto) (x : NodeProto) : GraphProto :=
  match p with mkGraphProto n i o nd t => mkGraphProto n i o (nd ++ [x]) t end.
Definition add_initializer (p : GraphProto) (x : TensorProto) : GraphProto :=
  match p with mkGraphProto n i o nd t => mkGraphProto n i o nd (t ++ [x]) end.

Definition node_set_doc_string (p : NodeProto) (d : string) : NodeProto :=
  match p with mkNodeProto _ i o t a => mkNodeProto (Some d) i o t a end.
Definition node_add_input (p : NodeProto) (x : string) : NodeProto :=
  match p with mkNodeProto d i o t a => mkNodeProto d (i ++ [x]) o t a end.
Definition node_add_output (p : NodeProto) (x : string) : NodeProto :=
  match p with mkNodeProto d i o t a => mkNodeProto d i (o ++ [x]) t a end.
Definition node_set_op_type (p : NodeProto) (x : string) : NodeProto :=
  match p with mkNodeProto d i o _ a => mkNodeProto d i o x a end.
Definition node_add_attribute (p : NodeProto) (x : AttributeProto) : NodeProto :=
  match p with mkNodeProto d i o t a => mkNodeProto d i o t (a ++ [x]) end.

Record OpsetImport : Type := { version : Z }.

Record ModelProto : Type :=
  { producer_name : string;
    producer_version : string;
    opset_import : list OpsetImport;
    graph : GraphProto }.

(** *** Failures *)

(** The operands of the [+] chain that builds an error message, in
    order: string literals, an operator name, the highlighted source
    location of a node, the text [graph->toString()]. *)
Inductive piece : Type :=
| Lit (s : string)
| OpName (s : string)
| Loc (l : SourceLocation)
| GraphText (g : Graph double).

Inductive failure : Type :=
| runtime_error (what : list piece)     (* thrown std::runtime_error *)
| assertion_failed                      (* a JIT_ASSERT that does not hold *)
| out_of_range                          (* an index past the end *)
| null_dereference.                     (* [->] on a null pointer *)

Inductive result (A : Type) : Type :=
| Ok (a : A)
| Fail (f : failure).
Arguments Ok {A} a.
Arguments Fail {A} f.

Definition bind {A B} (m : result A) (k : A -> result B) : result B :=
  match m with
  | Ok a => k a
  | Fail f => Fail f
  end.

Notation "x <- m ;; k" := (bind m (fun x => k))
  (at level 100, m at next level, right associativity).

(** [for (x : xs) state = body(state, x)], stopping at the first failure. *)
Definition for_each {A S : Type} (body : S -> A -> result S)
    : list A -> S -> result S :=
  fix loop (xs : list A) (st : S) : result S :=
    match xs with
    | [] => Ok st
    | x :: rest => st' <- body st x ;; loop rest st'
    end.

Definition barf {A} (msg : string) : result A := Fail (runtime_error [Lit msg]).

(** *** Encoding *)

Definition value_name (n : Value double) : string := uniqueName (value_data n).

Definition onnx_type_of (st : ScalarType) : result DataType :=
  match st with
  | kDouble => Ok kDOUBLE
  | kFloat => Ok kFLOAT
  | kHalf => Ok kFLOAT16
  | kByte | kChar => Ok kINT8
  | kShort => Ok kINT16
  | kInt => Ok kINT32
  | kLong => Ok kINT64
  | _ => barf "unexpected tensor scalar type"
  end.

Definition encodeTensor (p : TensorProto) (tensor : Tensor) : result TensorProto :=
  let p := {| tensor_name := tensor_name p; dims := dims p ++ sizes tensor;
              data_type := data_type p; raw_data := raw_data p |} in
  onnx_type <- onnx_type_of (scalarType tensor) ;;
  (* CPU's HalfTensor doesn't have contiguous(), so first calling contiguous() *)
  Ok {| tensor_name := tensor_name p; dims := dims p;
        data_type := Some onnx_type; raw_data := Some tensor |}.

Definition encodeTypeProtoTensorType (tt : TypeProtoTensorTypeProto) (n : Value double)
    : result TypeProtoTensorTypeProto :=
  match type (value_data n) with
  | TensorType elem sizes_ _ =>
      let tt := {| shape := shape tt ++ sizes_; elem_type := elem_type tt |} in
      onnx_type <- onnx_type_of elem ;;
      Ok {| shape := shape tt; elem_type := Some onnx_type |}
  | DynamicType => Fail assertion_failed
  end.

Definition encodeValueInfo (n : Value double) : result ValueInfoProto :=
  tt <- encodeTypeProtoTensorType {| shape := []; elem_type := None |} n ;;
  Ok {| value_info_name := value_name n; tensor_type := tt |}.

(** [p_g->get_input_name(i)] with [i] a [size_t]. *)
Definition get_input_name (p : GraphProto) (i : Z) : result string :=
  match nth_error (graph_proto_input p) (Z.to_nat i) with
  | Some v => Ok (value_info_name v)
  | None => Fail out_of_range
  end.

(** Conversions between the integer types of the initializer loop. *)
Definition to_size_t (z : Z) : Z := z mod 2 ^ 64.
Definition to_int (z : Z) : Z := (z + 2 ^ 31) mod 2 ^ 32 - 2 ^ 31.

Definition encode_initializer (st : GraphProto * Z) (tensor : Tensor)
    : result (GraphProto * Z) :=
  let '(p_g, inputs_count) := st in
  (* TODO: stop using positions to determine which initializers
     match to which inputs *)
  name <- get_input_name p_g (to_size_t inputs_count) ;;
  let inputs_count := to_int (inputs_count + 1) in
  let p := {| tensor_name := Some name; dims := []; data_type := None; raw_data := None |} in
  p <- encodeTensor p tensor ;;
  Ok (add_initializer p_g p, inputs_count).

Definition node_input_name (input : Value double) : string :=
  if String.eqb (kind (node input)) kUndefined then ""
  else value_name input.

Fixpoint encodeGraph (p_g : GraphProto) (g : Graph double) (initializers : list Tensor)
    {struct g} : result GraphProto :=
  match g with
  | mkGraph g_inputs g_outputs g_nodes =>
      let p_g := set_name p_g "torch-jit-export" in
      p_g <- for_each (fun p_g input =>
                         v <- encodeValueInfo input ;; Ok (add_input p_g v))
                      g_inputs p_g ;;
      p_g <- for_each (fun p_g output =>
                         v <- encodeValueInfo output ;; Ok (add_output p_g v))
                      g_outputs p_g ;;
      p_g <- for_each (fun p_g node => encodeNode p_g node) g_nodes p_g ;;
      let num_initializers := Z.of_nat (length initializers) in
      let inputs_count :=
        to_int (to_size_t (Z.of_nat (length g_inputs) - num_initializers)) in
      st <- for_each encode_initializer initializers (p_g, inputs_count) ;;
      Ok (fst st)
  end
with encodeNode (p_g : GraphProto) (n : Node double) {struct n} : result GraphProto :=
  match n with
  | mkNode k n_inputs n_outputs n_attributes location _ =>
      if String.eqb k kUndefined then
        (* Undefined nodes are used to implement optional inputs. One
           way to "not provide" an optional input is to create an
           Undefined node, and pass its output as that input. *)
        Ok p_g
      else
        let p_n := NodeProto_new in
        let p_n := match location with
                   | Some l => node_set_doc_string p_n (python_traceback l)
                   | None => p_n
                   end in
        let p_n := fold_left (fun p_n input => node_add_input p_n (node_input_name input))
                             n_inputs p_n in
        let p_n := fold_left (fun p_n output => node_add_output p_n (uniqueName output))
                             n_outputs p_n in
        let p_n := node_set_op_type p_n (toString k) in
        p_n <- for_each (fun p_n attr => addAttribute p_n (fst attr) (snd attr))
                        n_attributes p_n ;;
        Ok (add_node p_g p_n)
  end
with addAttribute (n_p : NodeProto) (name : Symbol) (a : AttributeValue double)
    {struct a} : result NodeProto :=
  let add d := node_add_attribute n_p (mkAttributeProto (toString name) d) in
  match a with
  | A_f v => Ok (add (aFLOAT v))
  | A_fs vs => Ok (add (aFLOATS vs))
  | A_i v => Ok (add (aINT v))
  | A_is vs => Ok (add (aINTS vs))
  | A_s v => Ok (add (aSTRING v))
  | A_ss vs => Ok (add (aSTRINGS vs))
  | A_t v =>
      t <- encodeTensor TensorProto_new v ;;
      Ok (add (aTENSOR t))
  | A_ts vs =>
      ts <- for_each (fun ts v => t <- encodeTensor TensorProto_new v ;; Ok (ts ++ [t]))
                     vs [] ;;
      Ok (add (aTENSORS ts))
  | A_g v =>
      g <- encodeGraph GraphProto_new v [] ;;
      Ok (add (aGRAPH g))
  | A_gs vs =>
      gs <- for_each (fun gs v => g <- encodeGraph GraphProto_new v [] ;; Ok (gs ++ [g]))
                     vs [] ;;
      Ok (add (aGRAPHS gs))
  end.

Definition encodeModel (p_m : ModelProto) (g : Graph double) (initializers : list Tensor)
    : result ModelProto :=
  p_g <- encodeGraph (graph p_m) g initializers ;;
  Ok {| producer_name := producer_name p_m;
        producer_version := producer_version p_m;
        opset_import := opset_import p_m;
        graph := p_g |}.

(** *** Validation *)

Definition nl : string := String (ascii_of_nat 10) EmptyString.

Definition getNodeStackTraceString (n : Node double) : result piece :=
  match getSourceLocation n with
  | Some l => Ok (Loc l)
  | None => Fail null_dereference
  end.

(* Macro'ed so we get a marginally better line number on failed export *)
Definition FAIL_EXPORT {A} (graph : Graph double) (name : list piece) : result A :=
  Fail (runtime_error
          ([Lit "ONNX export failed: "] ++ name ++
           [Lit (nl +:+ nl +:+ "Graph we tried to export:" +:+ nl); GraphText graph])).

(** [isupper] in the C locale. *)
Definition isupper (ch : ascii) : bool :=
  Nat.leb 65 (nat_of_ascii ch) && Nat.leb (nat_of_ascii ch) 90.

Definition expand_text : string :=
  "Couldn't export operator expand; this usually means you used a form of broadcasting that ONNX does not currently support. Node defined at:" +:+ nl.

(** The body of the loop of [validateGraph]. *)
Definition validateNode (graph : Graph double) (node : Node double) : result unit :=
  if String.eqb (kind node) kCppOp then
    l <- getNodeStackTraceString node ;;
    FAIL_EXPORT graph
      [Lit "Couldn't export C++ operator "; OpName (name node);
       Lit (" Defined at:" +:+ nl); l]
  else if String.eqb (kind node) kPythonOp then
    l <- getNodeStackTraceString node ;;
    FAIL_EXPORT graph
      [Lit "Couldn't export Python operator "; OpName (name node);
       Lit (" Defined at:" +:+ nl); l]
  else
    (* Expand is not a real ONNX operator yet, reject it *)
    _ <- (if String.eqb (kind node) kExpand then
            l <- getNodeStackTraceString node ;;
            FAIL_EXPORT graph [Lit expand_text; l]
          else Ok tt) ;;
    let n := toString (kind node) in
    match n with
    | EmptyString =>
        FAIL_EXPORT graph [Lit "Operator to export had empty name (please file an issue)"]
    | String n0 _ =>
        (* NB: Upper-case is ONNX, lower-case is ATen.  If we want to be more
           robust, need to explicitly flag operators as ONNX or ATen *)
        if negb (isupper n0) then
          l <- getNodeStackTraceString node ;;
          FAIL_EXPORT graph
            [Lit "Couldn't export operator "; OpName n; Lit (" Defined at:" +:+ nl); l]
        else Ok tt
    end.

Definition validateGraph (graph : Graph double) : result unit :=
  for_each (fun _ node => validateNode graph node) (nodes graph) tt.

(** *** Export *)

(** nanopb's encoder, which turns the finished message into bytes. *)
Variable pb_encode : ModelProto -> list Byte.byte.

Definition ExportGraph (graph : Graph double) (initializers : list Tensor)
    (onnx_opset_version : Z) : result (list Byte.byte) :=
  _ <- validateGraph graph ;;
  let model_proto :=
    {| producer_name := "pytorch";
       producer_version := "0.3";
       (* This is the version of ONNX operator set we are targeting *)
       opset_import := [{| version := onnx_opset_version |}];
       graph := GraphProto_new |} in
  model_proto <- encodeModel model_proto graph initializers ;;
  Ok (pb_encode model_proto).

(** *** Properties of validation *)

Lemma bind_Ok {A B} (m : result A) (k : A -> result B) (b : B) :
  bind m k = Ok b -> exists a, m = Ok a /\ k a = Ok b.
Proof. destruct m as [a|f]; cbn; [eauto | discriminate]. Qed.

(** A loop that only checks stops at the first element that fails. *)
Lemma for_each_check {A} (check : A -> result unit) (xs : list A) :
  (for_each (fun _ x => check x) xs tt = Ok tt /\
   Forall (fun x => check x = Ok tt) xs)
  \/ (exists pre m post f,
        xs = pre ++ m :: post /\
        Forall (fun x => check x = Ok tt) pre /\
        check m = Fail f /\
        for_each (fun _ x => check x) xs tt = Fail f).
Proof.
  induction xs as [|x xs IH]; [left; split; [reflexivity | constructor]|].
  cbn [for_each]. destruct (check x) as [[]|f] eqn:Hx; cbn [bind].
  - destruct IH as [[Hok Hall] | (pre & m & post & f & -> & Hpre & Hm & Hfail)].
    + left. split; [assumption | constructor; assumption].
    + right. exists (x :: pre), m, post, f. repeat split; try assumption.
      constructor; assumption.
  - right. exists [], x, xs, f. repeat split; try assumption. constructor.
Qed.



(** The tail every message of [FAIL_EXPORT] ends with. *)
Definition graph_tail (graph : Graph double) : list piece :=
  [Lit (nl +:+ nl +:+ "Graph we tried to export:" +:+ nl); GraphText graph].



(** A node of the lower-case (ATen) namespace that has a source location
    is rejected with the operator's name and that location. *)
Lemma validateNode_lowercase (graph : Graph double) (n : Node double)
    (n0 : ascii) (rest : string) (l : SourceLocation) :
  toString (kind n) = String n0 rest ->
  isupper n0 = false ->
  getSourceLocation n = Some l ->
  validateNode graph n
  = Fail (runtime_error
            ([Lit "ONNX export failed: "] ++
             [Lit "Couldn't export operator "; OpName (toString (kind n));
              Lit (" Defined at:" +:+ nl); Loc l] ++ graph_tail graph)).
Proof.
  intros Hname Hlow Hl. unfold validateNode, getNodeStackTraceString, toString in *.
  rewrite Hl, Hname.
  assert (Hne : forall c rest', isupper c = true ->
                 String.eqb (String n0 rest) (String c rest') = false).
  { intros c rest' Hc. cbn [String.eqb].
    destruct (Ascii.eqb_spec n0 c) as [-> |]; [congruence | reflexivity]. }
  unfold kCppOp, kPythonOp, kExpand.
  rewrite !Hne by reflexivity. cbn [bind]. rewrite Hlow. reflexivity.
Qed.

(** Without a source location the same rejection dereferences the null
    location while it builds its message. *)
Lemma validateNode_lowercase_no_location (graph : Graph double) (n : Node double)
    (n0 : ascii) (rest : string) :
  toString (kind n) = String n0 rest ->
  isupper n0 = false ->
  getSourceLocation n = None ->
  validateNode graph n = Fail null_dereference.
Proof.
  intros Hname Hlow Hl. unfold validateNode, getNodeStackTraceString, toString in *.
  rewrite Hl, Hname.
  assert (Hne : forall c rest', isupper c = true ->
                 String.eqb (String n0 rest) (String c rest') = false).
  { intros c rest' Hc. cbn [String.eqb].
    destruct (Ascii.eqb_spec n0 c) as [-> |]; [congruence | reflexivity]. }
  unfold kCppOp, kPythonOp, kExpand.
  rewrite !Hne by reflexivity. cbn [bind]. rewrite Hlow. reflexivity.
Qed.

(** *** Properties of encoding *)

Lemma for_each_cons {A S} (body : S -> A -> result S) (x : A) (xs : list A) (st : S) :
  for_each body (x :: xs) st = (st' <- body st x ;; for_each body xs st').
Proof. reflexivity. Qed.

(** A property every turn of a loop keeps holds after the loop. *)
Lemma for_each_invariant {A S} (body : S -> A -> result S) (P : S -> Prop)
    (xs : list A) :
  (forall st x st', In x xs -> body st x = Ok st' -> P st -> P st') ->
  forall st st', for_each body xs st = Ok st' -> P st -> P st'.
Proof.
  induction xs as [|x xs IH]; intros Hstep st st' Hrun HP.
  - injection Hrun as <-. exact HP.
  - rewrite for_each_cons in Hrun. apply bind_Ok in Hrun as (st1 & Hx & Hrest).
    apply (IH (fun st x st' Hin => Hstep st x st' (or_intror Hin)) st1 st' Hrest).
    apply (Hstep st x st1 (or_introl eq_refl) Hx HP).
Qed.

Lemma addAttribute_appends (n_p n_p' : NodeProto) (name : Symbol)
    (a : AttributeValue double) :
  addAttribute n_p name a = Ok n_p' ->
  exists d, n_p' = node_add_attribute n_p (mkAttributeProto (toString name) d).
Proof.
  destruct a; cbn [addAttribute]; intros H;
    try (injection H as <-; eexists; reflexivity);
    apply bind_Ok in H as (x & _ & H); injection H as <-; eexists; reflexivity.
Qed.

(** The name a node input is exported under. *)
Definition exported_input_name (input : Value double) : string :=
  if decide (kind (node input) = kUndefined) then ""
  else uniqueName (value_data input).

(** What the exported record of a node carries. *)
Definition encodes (n : Node double) (p_n : NodeProto) : Prop :=
  node_proto_op_type p_n = toString (kind n) /\
  node_proto_input p_n = map exported_input_name (inputs n) /\
  node_proto_output p_n = map value_name (outputs n).

Lemma node_input_name_spec (input : Value double) :
  node_input_name input = exported_input_name input.
Proof.
  unfold node_input_name, exported_input_name.
  destruct (String.eqb_spec (kind (node input)) kUndefined) as [H|H];
    destruct (decide _); first [reflexivity | contradiction].
Qed.

Lemma fold_left_add_input (f : Value double -> string) (xs : list (Value double))
    (p_n : NodeProto) :
  fold_left (fun p x => node_add_input p (f x)) xs p_n
  = match p_n with
    | mkNodeProto d i o t a => mkNodeProto d (i ++ map f xs) o t a
    end.
Proof.
  revert p_n. induction xs as [|x xs IH]; intros [d i o t a]; cbn [fold_left map].
  - rewrite app_nil_r. reflexivity.
  - rewrite IH. cbn [node_add_input]. rewrite <- app_assoc. reflexivity.
Qed.

Lemma fold_left_add_output (f : ValueData -> string) (xs : list ValueData)
    (p_n : NodeProto) :
  fold_left (fun p x => node_add_output p (f x)) xs p_n
  = match p_n with
    | mkNodeProto d i o t a => mkNodeProto d i (o ++ map f xs) t a
    end.
Proof.
  revert p_n. induction xs as [|x xs IH]; intros [d i o t a]; cbn [fold_left map].
  - rewrite app_nil_r. reflexivity.
  - rewrite IH. cbn [node_add_output]. rewrite <- app_assoc. reflexivity.
Qed.

(** One turn of the node loop: an Undefined node leaves the graph record
    as it is, any other node appends one record that carries its kind,
    its input names and its output names. *)
Lemma encodeNode_spec (p_g p_g' : GraphProto) (n : Node double) :
  encodeNode p_g n = Ok p_g' ->
  (kind n = kUndefined /\ p_g' = p_g) \/
  (kind n <> kUndefined /\ exists p_n, p_g' = add_node p_g p_n /\ encodes n p_n).
Proof.
  destruct n as [k ins outs attrs l nm]. cbn [encodeNode kind].
  destruct (String.eqb_spec k kUndefined) as [Hk|Hk]; intros H.
  - left. injection H as <-. auto.
  - right. split; [assumption|].
    apply bind_Ok in H as (p_n & Hattrs & H). injection H as <-.
    exists p_n. split; [reflexivity|].
    refine (for_each_invariant _ (encodes (mkNode k ins outs attrs l nm)) attrs
              _ _ _ Hattrs _).
    + intros st [name a] st' _ Hadd (Hop & Hin & Hout).
      apply addAttribute_appends in Hadd as (dd & ->).
      destruct st; exact (conj Hop (conj Hin Hout)).
    + rewrite fold_left_add_output, fold_left_add_input.
      destruct l; cbn; (split; [reflexivity|]); (split; [| unfold outputs; cbn; rewrite map_map; reflexivity]);
        apply map_ext; intros; apply node_input_name_spec.
Qed.

(** The nodes that get a record. *)
Definition is_exported (n : Node double) : bool :=
  negb (String.eqb (kind n) kUndefined).

Lemma encodeNodes_spec (ns : list (Node double)) (p_g p_g' : GraphProto) :
  for_each (fun p_g node => encodeNode p_g node) ns p_g = Ok p_g' ->
  exists records,
    p_g' = mkGraphProto (graph_proto_name p_g) (graph_proto_input p_g)
             (graph_proto_output p_g) (graph_proto_node p_g ++ records)
             (graph_proto_initializer p_g) /\
    Forall2 encodes (List.filter is_exported ns) records.
Proof.
  revert p_g. induction ns as [|n ns IH]; intros p_g H.
  - injection H as <-. exists []. rewrite app_nil_r. destruct p_g. split; [reflexivity | constructor].
  - rewrite for_each_cons in H. apply bind_Ok in H as (p1 & Hn & Hrest).
    apply IH in Hrest as (records & -> & Hrec).
    apply encodeNode_spec in Hn as [[Hk ->] | [Hk (p_n & -> & Hp_n)]].
    + exists records. split; [reflexivity|].
      cbn [List.filter]. unfold is_exported at 1. rewrite Hk. exact Hrec.
    + exists (p_n :: records). split.
      * destruct p_g. cbn. rewrite <- app_assoc. reflexivity.
      * cbn [List.filter]. unfold is_exported at 1.
        apply String.eqb_neq in Hk. rewrite Hk. constructor; assumption.
Qed.

Lemma encodeGraph_eq (p_g : GraphProto) (g : Graph double) (initializers : list Tensor) :
  encodeGraph p_g g initializers
  = (let p_g := set_name p_g "torch-jit-export" in
     p_g <- for_each (fun p_g input =>
                        v <- encodeValueInfo input ;; Ok (add_input p_g v))
                     (graph_inputs g) p_g ;;
     p_g <- for_each (fun p_g output =>
                        v <- encodeValueInfo output ;; Ok (add_output p_g v))
                     (graph_outputs g) p_g ;;
     p_g <- for_each (fun p_g node => encodeNode p_g node) (nodes g) p_g ;;
     let num_initializers := Z.of_nat (length initializers) in
     let inputs_count :=
       to_int (to_size_t (Z.of_nat (length (graph_inputs g)) - num_initializers)) in
     st <- for_each encode_initializer initializers (p_g, inputs_count) ;;
     Ok (fst st)).
Proof. destruct g. reflexivity. Qed.

Definition names_value (v : Value double) (vi : ValueInfoProto) : Prop :=
  value_info_name vi = value_name v.

Lemma encode_inputs_spec (ins : list (Value double)) (p_g p_g' : GraphProto) :
  for_each (fun p_g input => v <- encodeValueInfo input ;; Ok (add_input p_g v))
           ins p_g = Ok p_g' ->
  exists vs,
    p_g' = mkGraphProto (graph_proto_name p_g) (graph_proto_input p_g ++ vs)
             (graph_proto_output p_g) (graph_proto_node p_g)
             (graph_proto_initializer p_g) /\
    Forall2 names_value ins vs.
Proof.
  revert p_g. induction ins as [|x ins IH]; intros p_g H.
  - injection H as <-. exists []. rewrite app_nil_r. destruct p_g.
    split; [reflexivity | constructor].
  - rewrite for_each_cons in H. apply bind_Ok in H as (p1 & Hx & Hrest).
    apply bind_Ok in Hx as (v & Hv & Hx). injection Hx as <-.
    apply IH in Hrest as (vs & -> & Hvs).
    exists (v :: vs). split.
    + destruct p_g. cbn. rewrite <- app_assoc. reflexivity.
    + constructor; [| assumption].
      unfold encodeValueInfo in Hv. apply bind_Ok in Hv as (tt & _ & Hv).
      injection Hv as <-. reflexivity.
Qed.

Lemma encode_outputs_spec (outs : list (Value double)) (p_g p_g' : GraphProto) :
  for_each (fun p_g output => v <- encodeValueInfo output ;; Ok (add_output p_g v))
           outs p_g = Ok p_g' ->
  graph_proto_input p_g' = graph_proto_input p_g /\
  graph_proto_node p_g' = graph_proto_node p_g /\
  graph_proto_initializer p_g' = graph_proto_initializer p_g.
Proof.
  intros H.
  refine (for_each_invariant _
            (fun p => graph_proto_input p = graph_proto_input p_g /\
                      graph_proto_node p = graph_proto_node p_g /\
                      graph_proto_initializer p = graph_proto_initializer p_g)
            outs _ _ _ H _); [| auto].
  intros st x st' _ Hx Hst. apply bind_Ok in Hx as (v & _ & Hx). injection Hx as <-.
  destruct st. exact Hst.
Qed.

Lemma encodeTensor_keeps_name (p p' : TensorProto) (tensor : Tensor) :
  encodeTensor p tensor = Ok p' -> tensor_name p' = tensor_name p.
Proof.
  unfold encodeTensor. intros H. apply bind_Ok in H as (ty & _ & H).
  injection H as <-. reflexivity.
Qed.

Lemma to_int_small (z : Z) : (0 <= z < 2 ^ 31)%Z -> to_int z = z.
Proof.
  intros Hz. unfold to_int. rewrite Z.mod_small by lia. lia.
Qed.

Lemma to_int_range (z : Z) : (- 2 ^ 31 <= to_int z < 2 ^ 31)%Z.
Proof.
  unfold to_int. pose proof (Z.mod_pos_bound (z + 2 ^ 31) (2 ^ 32)). lia.
Qed.

(** The initializer loop: as long as it succeeds, the counter stays a
    position inside the declared inputs, and the record appended at turn
    [i] is named after the input at the counter's start plus [i]. *)
Lemma encode_initializers_spec (initializers : list Tensor) :
  forall (p_g p_g' : GraphProto) (c c' : Z),
    (Z.of_nat (length (graph_proto_input p_g)) < 2 ^ 31)%Z ->
    (- 2 ^ 31 <= c < 2 ^ 31)%Z ->
    for_each encode_initializer initializers (p_g, c) = Ok (p_g', c') ->
    (initializers <> [] -> (0 <= c)%Z) /\
    (initializers <> [] ->
     (c + Z.of_nat (length initializers) <= Z.of_nat (length (graph_proto_input p_g)))%Z) /\
    graph_proto_node p_g' = graph_proto_node p_g /\
    exists records,
      graph_proto_initializer p_g' = graph_proto_initializer p_g ++ records /\
      length records = length initializers /\
      forall i, (i < length initializers)%nat ->
        exists t vi,
          nth_error records i = Some t /\
          nth_error (graph_proto_input p_g) (Z.to_nat c + i) = Some vi /\
          tensor_name t = Some (value_info_name vi).
Proof.
  induction initializers as [|tensor rest IH]; intros p_g p_g' c c' Hlen Hc H.
  - injection H as <- <-. repeat split; try congruence.
    exists []. rewrite app_nil_r. repeat split; try reflexivity.
    intros i Hi. cbn in Hi. lia.
  - rewrite for_each_cons in H. apply bind_Ok in H as ([p1 c1] & Hturn & Hrest).
    unfold encode_initializer in Hturn.
    apply bind_Ok in Hturn as (name & Hname & Hturn).
    apply bind_Ok in Hturn as (t & Ht & Hturn). injection Hturn as <- <-.
    unfold get_input_name in Hname.
    destruct (nth_error (graph_proto_input p_g) (Z.to_nat (to_size_t c)))
      as [vi|] eqn:Hvi; [| discriminate].
    injection Hname as <-.
    assert (Hidx : (Z.to_nat (to_size_t c) < length (graph_proto_input p_g))%nat)
      by (apply nth_error_Some; congruence).
    assert (Hc0 : (0 <= c)%Z).
    { destruct (Z.neg_nonneg_cases c) as [Hneg|]; [exfalso | assumption].
      unfold to_size_t in Hidx.
      assert (Hmod : (c mod 2 ^ 64 = c + 2 ^ 64)%Z).
      { symmetry. apply (Z.mod_unique_pos c (2 ^ 64) (-1) (c + 2 ^ 64)); lia. }
      rewrite Hmod in Hidx. lia. }
    assert (Hsz : to_size_t c = c).
    { unfold to_size_t. apply Z.mod_small. lia. }
    rewrite Hsz in Hidx, Hvi.
    assert (Hc1 : to_int (c + 1) = (c + 1)%Z) by (apply to_int_small; lia).
    rewrite Hc1 in Hrest.
    assert (Hin1 : graph_proto_input (add_initializer p_g t) = graph_proto_input p_g)
      by (destruct p_g; reflexivity).
    apply IH in Hrest; [| rewrite Hin1; assumption | lia].
    destruct Hrest as (Hnon & Hbound & Hnode & records & Hrecords & Hrlen & Hnames).
    rewrite Hin1 in *.
    split; [intros _; assumption|].
    split.
    { intros _. destruct rest as [|t2 rest].
      - cbn [length]. lia.
      - specialize (Hbound ltac:(discriminate)). cbn [length] in *. lia. }
    split; [rewrite Hnode; destruct p_g; reflexivity|].
    exists (t :: records). split; [| split].
    + rewrite Hrecords. destruct p_g. cbn. rewrite <- app_assoc. reflexivity.
    + cbn [length]. rewrite Hrlen. reflexivity.
    + intros [|i] Hi.
      * exists t, vi. rewrite Nat.add_0_r. repeat split; try assumption.
        apply encodeTensor_keeps_name in Ht. rewrite Ht. reflexivity.
      * cbn [length] in Hi. destruct (Hnames i ltac:(lia)) as (t' & vi' & Hr & Hv & Hn).
        exists t', vi'. repeat split; try assumption.
        replace (Z.to_nat c + S i)%nat with (Z.to_nat (c + 1) + i)%nat by lia.
        assumption.
Qed.

Lemma Forall2_nth_error_r {A B} (R : A -> B -> Prop) (xs : list A) (ys : list B)
    (i : nat) (y : B) :
  Forall2 R xs ys -> nth_error ys i = Some y ->
  exists x, nth_error xs i = Some x /\ R x y.
Proof.
  intros H. revert i. induction H as [|x0 y0 xs ys HR _ IH]; intros [|i] Hy;
    try discriminate.
  - injection Hy as <-. exists x0. split; [reflexivity | assumption].
  - apply IH, Hy.
Qed.

(** The four loops of [encodeGraph] on a fresh record, one after the other. *)
Lemma encodeGraph_stages (g : Graph double) (initializers : list Tensor) (p : GraphProto) :
  encodeGraph GraphProto_new g initializers = Ok p ->
  exists vs p3 c',
    Forall2 names_value (graph_inputs g) vs /\
    graph_proto_input p3 = vs /\
    graph_proto_initializer p3 = [] /\
    Forall2 encodes (List.filter is_exported (nodes g)) (graph_proto_node p3) /\
    for_each encode_initializer initializers
      (p3, to_int (to_size_t (Z.of_nat (length (graph_inputs g))
                              - Z.of_nat (length initializers))))
    = Ok (p, c').
Proof.
  rewrite encodeGraph_eq. cbv zeta. intros H.
  apply bind_Ok in H as (p1 & Hins & H).
  apply bind_Ok in H as (p2 & Houts & H).
  apply bind_Ok in H as (p3 & Hnodes & H).
  apply bind_Ok in H as ([p4 c'] & Hinits & H). injection H as <-.
  apply encode_inputs_spec in Hins as (vs & -> & Hvs).
  apply encode_outputs_spec in Houts as (Hin2 & Hnode2 & Hinit2).
  apply encodeNodes_spec in Hnodes as (records & -> & Hrecords).
  exists vs, (mkGraphProto (graph_proto_name p2) (graph_proto_input p2)
                (graph_proto_output p2) (graph_proto_node p2 ++ records)
                (graph_proto_initializer p2)), c'.
  cbn in Hin2, Hnode2, Hinit2.
  rewrite Hin2, Hnode2, Hinit2 in Hinits |- *.
  cbn [graph_proto_input graph_proto_initializer graph_proto_node app].
  repeat split; assumption.
Qed.

(** C9 (encodeGraph): the exported node list has one record for each
    node whose kind is not Undefined, in graph order, and none for an
    Undefined node; a record carries the node's kind, the unique names of
    its outputs, and for each input its unique name, or the empty string
    when the input is produced by an Undefined node. *)
Theorem encodeGraph_skips_undefined :
  forall (g : Graph double) (initializers : list Tensor) (p : GraphProto),
    encodeGraph GraphProto_new g initializers = Ok p ->
    Forall2
      (fun n p_n =>
         node_proto_op_type p_n = toString (kind n) /\
         node_proto_input p_n
         = map (fun input => if decide (kind (node input) = kUndefined) then ""
                             else uniqueName (value_data input)) (inputs n) /\
         node_proto_output p_n
         = map (fun output => uniqueName (value_data output)) (outputs n))
      (List.filter (fun n => negb (String.eqb (kind n) kUndefined)) (nodes g))
      (graph_proto_node p).
Proof.
  intros g initializers p H.
  apply encodeGraph_stages in H as (vs & p3 & c' & _ & Hin & _ & Hnodes & Hloop).
  assert (Hnode : graph_proto_node (fst (p, c')) = graph_proto_node p3).
  { refine (for_each_invariant _
              (fun st => graph_proto_node (fst st) = graph_proto_node p3)
              initializers _ _ _ Hloop eq_refl).
    intros [q c] t [q' c''] _ Hturn Hst. unfold encode_initializer in Hturn.
    apply bind_Ok in Hturn as (nm & _ & Hturn).
    apply bind_Ok in Hturn as (tp & _ & Hturn). injection Hturn as <- <-.
    cbn [fst] in *. rewrite <- Hst. destruct q. reflexivity. }
  cbn [fst] in Hnode.
  rewrite Hnode. exact Hnodes.
Qed.

(** C4 (encodeGraph): with [k] initializers on a graph of [n] declared
    inputs (fewer than 2^31, so that the [int] counter holds their
    number), a successful export has [k <= n], makes [k] initializer
    records, and names record [i] after the graph input at position
    [n - k + i]. *)
Theorem initializers_named_by_position :
  forall (g : Graph double) (initializers : list Tensor) (p : GraphProto),
    (Z.of_nat (length (graph_inputs g)) < 2 ^ 31)%Z ->
    encodeGraph GraphProto_new g initializers = Ok p ->
    let n := length (graph_inputs g) in
    let k := length initializers in
    k <= n /\
    length (graph_proto_initializer p) = k /\
    forall i, i < k ->
      exists t input,
        nth_error (graph_proto_initializer p) i = Some t /\
        nth_error (graph_inputs g) (n - k + i) = Some input /\
        tensor_name t = Some (value_name input).
Proof.
  intros g initializers p Hn H n k.
  apply encodeGraph_stages in H as (vs & p3 & c' & Hvs & Hin & Hinit & _ & Hloop).
  assert (Hlen : length vs = n) by (symmetry; apply (Forall2_length _ _ _ Hvs)).
  apply encode_initializers_spec in Hloop;
    [| rewrite Hin, Hlen; exact Hn | apply to_int_range].
  destruct Hloop as (Hc0 & Hbound & _ & records & Hrecords & Hrlen & Hnames).
  rewrite Hinit in Hrecords. cbn [app] in Hrecords. rewrite Hin, Hlen in *.
  fold n k in Hc0, Hbound, Hnames, Hrlen.
  destruct (Nat.eq_dec k 0) as [Hk0 | Hk0].
  - split; [lia|]. split; [rewrite Hrecords; assumption|].
    intros i Hi. lia.
  - assert (Hne : initializers <> []) by (intros ->; apply Hk0; reflexivity).
    specialize (Hc0 Hne). specialize (Hbound Hne).
    set (c0 := to_int (to_size_t (Z.of_nat n - Z.of_nat k))) in *.
    assert (Hkn : k <= n) by lia.
    assert (Hc0_eq : c0 = (Z.of_nat n - Z.of_nat k)%Z).
    { subst c0. unfold to_size_t. rewrite Z.mod_small by lia.
      apply to_int_small. lia. }
    split; [assumption|]. split; [rewrite Hrecords; assumption|].
    intros i Hi. destruct (Hnames i Hi) as (t & vi & Ht & Hvi & Hname).
    rewrite Hc0_eq in Hvi.
    replace (Z.to_nat (Z.of_nat n - Z.of_nat k) + i) with (n - k + i) in Hvi by lia.
    destruct (Forall2_nth_error_r _ _ _ _ _ Hvs Hvi) as (input & Hinput & Hnm).
    exists t, input. rewrite Hrecords.
    split; [assumption|]. split; [exact Hinput|].
    rewrite Hname. unfold names_value in Hnm. rewrite Hnm. reflexivity.
Qed.


(** *** What validation accepts *)

(** A kind the exporter has a record for: not a C++ or Python operator,
    not Expand, and a name that starts with an upper-case letter. *)
Definition exportable (k : Symbol) : Prop :=
  k <> kCppOp /\ k <> kPythonOp /\ k <> kExpand /\
  exists n0 rest, toString k = String n0 rest /\ isupper n0 = true.

Lemma validateNode_accepts (graph : Graph double) (n : Node double) :
  validateNode graph n = Ok tt <-> exportable (kind n).
Proof.
  unfold validateNode, exportable, toString.
  destruct (String.eqb_spec (kind n) kCppOp) as [Hcpp|Hcpp].
  { split; [| intros (H & _); contradiction].
    destruct (getNodeStackTraceString n); discriminate. }
  destruct (String.eqb_spec (kind n) kPythonOp) as [Hpy|Hpy].
  { split; [| intros (_ & H & _); contradiction].
    destruct (getNodeStackTraceString n); discriminate. }
  destruct (String.eqb_spec (kind n) kExpand) as [Hex|Hex].
  { split; [| intros (_ & _ & H & _); contradiction].
    destruct (getNodeStackTraceString n); discriminate. }
  cbn [bind]. destruct (kind n) as [|n0 rest] eqn:Hk.
  { split; [discriminate | intros (_ & _ & _ & n0 & rest & H & _); discriminate]. }
  destruct (isupper n0) eqn:Hup; cbn [negb].
  - split; [| reflexivity]. intros _. repeat split; try assumption.
    exists n0, rest. split; [reflexivity | assumption].
  - split; [destruct (getNodeStackTraceString n); discriminate|].
    intros (_ & _ & _ & n1 & rest1 & Heq & Hup1). injection Heq as <- <-. congruence.
Qed.

(** X13 (validateGraph): what validation accepts.  A graph passes
    exactly when every node has a kind that is no C++ operator, no Python
    operator and not Expand, and whose name starts with an upper-case
    letter; whether the nodes have source locations plays no part. *)
Theorem validateGraph_accepts :
  forall graph : Graph double,
    validateGraph graph = Ok tt <->
    (forall n, In n (nodes graph) -> exportable (kind n)).
Proof.
  intros graph. unfold validateGraph.
  destruct (for_each_check (validateNode graph) (nodes graph))
    as [[Hok Hall] | (pre & m & post & f & Hsplit & Hpre & Hm & Hfail)].
  - split; [| intros _; exact Hok]. intros _ n Hin.
    apply (validateNode_accepts graph). rewrite Forall_forall in Hall.
    apply Hall. apply list_elem_of_In. exact Hin.
  - rewrite Hfail. split; [discriminate|]. intros Hall. exfalso.
    assert (Hin : In m (nodes graph)).
    { rewrite Hsplit. apply in_or_app. right. left. reflexivity. }
    apply Hall, (validateNode_accepts graph) in Hin. congruence.
Qed.

(** *** What the exported graph declares *)

(** A loop that makes one record per element and appends it. *)
Lemma for_each_collect {A B S : Type} (f : A -> result B) (add : S -> B -> S)
    (xs : list A) :
  forall st st' : S,
    for_each (fun st x => v <- f x ;; Ok (add st v)) xs st = Ok st' ->
    exists vs, Forall2 (fun x v => f x = Ok v) xs vs /\ st' = fold_left add vs st.
Proof.
  induction xs as [|x xs IH]; intros st st' H.
  - injection H as <-. exists []. split; [constructor | reflexivity].
  - rewrite for_each_cons in H. apply bind_Ok in H as (st1 & Hx & Hrest).
    apply bind_Ok in Hx as (v & Hv & Hx). injection Hx as <-.
    apply IH in Hrest as (vs & Hvs & ->).
    exists (v :: vs). split; [constructor; assumption | reflexivity].
Qed.

Lemma fold_left_add_input_proto (vs : list ValueInfoProto) (p : GraphProto) :
  fold_left add_input vs p
  = mkGraphProto (graph_proto_name p) (graph_proto_input p ++ vs)
      (graph_proto_output p) (graph_proto_node p) (graph_proto_initializer p).
Proof.
  revert p. induction vs as [|v vs IH]; intros [n i o nd t]; cbn [fold_left].
  - cbn. rewrite app_nil_r. reflexivity.
  - rewrite IH. cbn. rewrite <- app_assoc. reflexivity.
Qed.

Lemma fold_left_add_output_proto (vs : list ValueInfoProto) (p : GraphProto) :
  fold_left add_output vs p
  = mkGraphProto (graph_proto_name p) (graph_proto_input p)
      (graph_proto_output p ++ vs) (graph_proto_node p) (graph_proto_initializer p).
Proof.
  revert p. induction vs as [|v vs IH]; intros [n i o nd t]; cbn [fold_left].
  - cbn. rewrite app_nil_r. reflexivity.
  - rewrite IH. cbn. rewrite <- app_assoc. reflexivity.
Qed.

(** The record of a tensor that was encoded into a new message. *)
Definition tensor_record (tensor : Tensor) (t : TensorProto) : Prop :=
  exists code,
    onnx_type_of (scalarType tensor) = Ok code /\
    t = {| tensor_name := None; dims := sizes tensor;
           data_type := Some code; raw_data := Some tensor |}.

Lemma encodeTensor_spec (p p' : TensorProto) (tensor : Tensor) :
  encodeTensor p tensor = Ok p' ->
  exists code,
    onnx_type_of (scalarType tensor) = Ok code /\
    p' = {| tensor_name := tensor_name p; dims := dims p ++ sizes tensor;
            data_type := Some code; raw_data := Some tensor |}.
Proof.
  unfold encodeTensor. intros H. apply bind_Ok in H as (code & Hcode & H).
  injection H as <-. exists code. split; [assumption | reflexivity].
Qed.

(** The declaration of a value: its unique name, and the sizes and the
    element code of its tensor type. *)
Definition declares (v : Value double) (vi : ValueInfoProto) : Prop :=
  exists elem sizes_ strides_ code,
    type (value_data v) = TensorType elem sizes_ strides_ /\
    onnx_type_of elem = Ok code /\
    vi = {| value_info_name := uniqueName (value_data v);
            tensor_type := {| shape := sizes_; elem_type := Some code |} |}.

Lemma encodeValueInfo_spec (v : Value double) (vi : ValueInfoProto) :
  encodeValueInfo v = Ok vi -> declares v vi.
Proof.
  unfold encodeValueInfo, encodeTypeProtoTensorType, declares, value_name.
  intros H. apply bind_Ok in H as (tt & Htt & H). injection H as <-.
  destruct (type (value_data v)) as [|elem sizes_ strides_]; [discriminate|].
  apply bind_Ok in Htt as (code & Hcode & Htt). injection Htt as <-.
  exists elem, sizes_, strides_, code. repeat split. exact Hcode.
Qed.

(** One turn of the initializer loop: the record that is appended. *)
Lemma encode_initializer_spec (p_g p_g' : GraphProto) (c c' : Z) (tensor : Tensor) :
  encode_initializer (p_g, c) tensor = Ok (p_g', c') ->
  exists name code,
    onnx_type_of (scalarType tensor) = Ok code /\
    p_g' = add_initializer p_g
             {| tensor_name := Some name; dims := sizes tensor;
                data_type := Some code; raw_data := Some tensor |}.
Proof.
  unfold encode_initializer. intros H.
  apply bind_Ok in H as (name & _ & H).
  apply bind_Ok in H as (t & Ht & H). injection H as <- <-.
  apply encodeTensor_spec in Ht as (code & Hcode & ->).
  exists name, code. split; [assumption | reflexivity].
Qed.

(** The initializer loop appends one record per tensor and leaves the
    rest of the graph record alone. *)
Lemma encode_initializers_records (initializers : list Tensor) :
  forall (p_g p_g' : GraphProto) (c c' : Z),
    for_each encode_initializer initializers (p_g, c) = Ok (p_g', c') ->
    exists records,
      p_g' = mkGraphProto (graph_proto_name p_g) (graph_proto_input p_g)
               (graph_proto_output p_g) (graph_proto_node p_g)
               (graph_proto_initializer p_g ++ records) /\
      Forall2 (fun tensor t =>
                 dims t = sizes tensor /\ raw_data t = Some tensor /\
                 exists code, onnx_type_of (scalarType tensor) = Ok code /\
                              data_type t = Some code)
              initializers records.
Proof.
  induction initializers as [|tensor rest IH]; intros p_g p_g' c c' H.
  - injection H as <- <-. exists []. rewrite app_nil_r. destruct p_g.
    split; [reflexivity | constructor].
  - rewrite for_each_cons in H. apply bind_Ok in H as ([p1 c1] & Hturn & Hrest).
    apply encode_initializer_spec in Hturn as (name & code & Hcode & ->).
    apply IH in Hrest as (records & -> & Hrecords).
    eexists (_ :: records). split.
    + destruct p_g. cbn. rewrite <- app_assoc. reflexivity.
    + constructor; [| exact Hrecords].
      cbn. split; [reflexivity|]. split; [reflexivity|]. exists code. auto.
Qed.

(** The loops of [encodeGraph] on a new record, with what each of them
    appends. *)
Lemma encodeGraph_parts (g : Graph double) (initializers : list Tensor) (p : GraphProto) :
  encodeGraph GraphProto_new g initializers = Ok p ->
  exists ins outs records tensors p3,
    p = mkGraphProto "torch-jit-export" ins outs records tensors /\
    Forall2 (fun x v => encodeValueInfo x = Ok v) (graph_inputs g) ins /\
    Forall2 (fun x v => encodeValueInfo x = Ok v) (graph_outputs g) outs /\
    for_each (fun p_g node => encodeNode p_g node) (nodes g)
      (mkGraphProto "torch-jit-export" ins outs [] []) = Ok p3 /\
    graph_proto_node p3 = records /\
    Forall2 (fun tensor t =>
               dims t = sizes tensor /\ raw_data t = Some tensor /\
               exists code, onnx_type_of (scalarType tensor) = Ok code /\
                            data_type t = Some code)
            initializers tensors.
Proof.
  rewrite encodeGraph_eq. cbv zeta. intros H.
  apply bind_Ok in H as (p1 & Hins & H).
  apply bind_Ok in H as (p2 & Houts & H).
  apply bind_Ok in H as (p3 & Hnodes & H).
  apply bind_Ok in H as ([p4 c'] & Hinits & H). injection H as <-.
  apply for_each_collect in Hins as (ins & Hins & ->).
  apply for_each_collect in Houts as (outs & Houts & ->).
  rewrite fold_left_add_input_proto in *. rewrite fold_left_add_output_proto in *.
  cbn [set_name GraphProto_new graph_proto_name graph_proto_input graph_proto_output
       graph_proto_node graph_proto_initializer app] in *.
  pose proof (encodeNodes_spec _ _ _ Hnodes) as (records & Hp3 & _).
  cbn [graph_proto_name graph_proto_input graph_proto_output
       graph_proto_node graph_proto_initializer app] in Hp3.
  apply encode_initializers_records in Hinits as (tensors & -> & Htensors).
  exists ins, outs, records, tensors, p3.
  rewrite Hp3 in *.
  cbn [fst graph_proto_name graph_proto_input graph_proto_output
       graph_proto_node graph_proto_initializer app].
  repeat split; try assumption.
Qed.

(** X14 (encodeGraph, encodeValueInfo, encodeTypeProtoTensorType): the
    declarations of the exported graph.  The graph record is named
    "torch-jit-export"; it declares the graph's inputs and its outputs,
    each list in graph order, every value by its unique name with the
    sizes and the element code of its tensor type.  So an export that
    succeeds has a tensor type of a supported element kind on every input
    and output. *)
Theorem encodeGraph_declares_values :
  forall (g : Graph double) (initializers : list Tensor) (p : GraphProto),
    encodeGraph GraphProto_new g initializers = Ok p ->
    graph_proto_name p = "torch-jit-export" /\
    Forall2 declares (graph_inputs g) (graph_proto_input p) /\
    Forall2 declares (graph_outputs g) (graph_proto_output p).
Proof.
  intros g initializers p H.
  apply encodeGraph_parts in H
    as (ins & outs & records & tensors & p3 & -> & Hins & Houts & _).
  cbn [graph_proto_name graph_proto_input graph_proto_output].
  split; [reflexivity|].
  split; (eapply Forall2_impl; [eassumption|]);
    intros v vi Hv; apply encodeValueInfo_spec, Hv.
Qed.

(** *** Attributes *)

(** The payload an attribute value is exported with: the value itself
    for numbers, strings and their lists, the record of the tensor for a
    tensor, and for a graph the graph encoded on its own, without
    initializers. *)
Inductive payload : AttributeValue double -> AttributeData -> Prop :=
| payload_f v : payload (A_f v) (aFLOAT v)
| payload_fs vs : payload (A_fs vs) (aFLOATS vs)
| payload_i v : payload (A_i v) (aINT v)
| payload_is vs : payload (A_is vs) (aINTS vs)
| payload_s v : payload (A_s v) (aSTRING v)
| payload_ss vs : payload (A_ss vs) (aSTRINGS vs)
| payload_t v t : tensor_record v t -> payload (A_t v) (aTENSOR t)
| payload_ts vs ts : Forall2 tensor_record vs ts -> payload (A_ts vs) (aTENSORS ts)
| payload_g v g' :
    encodeGraph GraphProto_new v [] = Ok g' -> payload (A_g v) (aGRAPH g')
| payload_gs vs gs :
    Forall2 (fun v g' => encodeGraph GraphProto_new v [] = Ok g') vs gs ->
    payload (A_gs vs) (aGRAPHS gs).

Definition exported_attribute (a : Symbol * AttributeValue double) (ap : AttributeProto)
    : Prop :=
  match ap with
  | mkAttributeProto nm d => nm = toString (fst a) /\ payload (snd a) d
  end.

Lemma for_each_snoc {A B : Type} (f : A -> result B) (xs : list A) :
  forall acc acc' : list B,
    for_each (fun acc x => v <- f x ;; Ok (acc ++ [v])) xs acc = Ok acc' ->
    exists vs, Forall2 (fun x v => f x = Ok v) xs vs /\ acc' = acc ++ vs.
Proof.
  intros acc acc' H.
  apply (for_each_collect f (fun acc v => acc ++ [v])) in H as (vs & Hvs & ->).
  exists vs. split; [exact Hvs|]. clear Hvs. revert acc.
  induction vs as [|v vs IH]; intros acc; cbn [fold_left].
  - rewrite app_nil_r. reflexivity.
  - rewrite IH, <- app_assoc. reflexivity.
Qed.

Lemma tensor_record_new (v : Tensor) (t : TensorProto) :
  encodeTensor TensorProto_new v = Ok t -> tensor_record v t.
Proof.
  intros H. apply encodeTensor_spec in H as (code & Hcode & ->).
  exists code. split; [assumption | reflexivity].
Qed.

Lemma addAttribute_spec (n_p n_p' : NodeProto) (name : Symbol) (a : AttributeValue double) :
  addAttribute n_p name a = Ok n_p' ->
  exists ap, n_p' = node_add_attribute n_p ap /\ exported_attribute (name, a) ap.
Proof.
  destruct a; cbn [addAttribute]; intros H.
  1-6: injection H as <-; eexists; split; [reflexivity|]; split; [reflexivity | constructor].
  - apply bind_Ok in H as (t & Ht & H). injection H as <-.
    eexists. split; [reflexivity|]. split; [reflexivity|].
    constructor. apply tensor_record_new, Ht.
  - apply bind_Ok in H as (ts & Hts & H). injection H as <-.
    apply for_each_snoc in Hts as (ts' & Hts' & ->).
    eexists. split; [reflexivity|]. split; [reflexivity|].
    constructor. cbn [app].
    eapply Forall2_impl; [exact Hts'|]. intros x t. apply tensor_record_new.
  - apply bind_Ok in H as (g' & Hg & H). injection H as <-.
    eexists. split; [reflexivity|]. split; [reflexivity|].
    constructor. exact Hg.
  - apply bind_Ok in H as (gs & Hgs & H). injection H as <-.
    apply for_each_snoc in Hgs as (gs' & Hgs' & ->).
    eexists. split; [reflexivity|]. split; [reflexivity|].
    constructor. exact Hgs'.
Qed.

(** What the record of a node carries besides its names. *)
Definition annotates (n : Node double) (p_n : NodeProto) : Prop :=
  node_proto_doc_string p_n = python_traceback <$> getSourceLocation n /\
  Forall2 exported_attribute (attributes n) (node_proto_attribute p_n).

Lemma encodeNode_annotates (p_g p_g' : GraphProto) (n : Node double) :
  encodeNode p_g n = Ok p_g' ->
  kind n <> kUndefined ->
  exists p_n, p_g' = add_node p_g p_n /\ annotates n p_n.
Proof.
  destruct n as [k ins outs attrs l nm]. cbn [encodeNode kind].
  destruct (String.eqb_spec k kUndefined) as [Hk|Hk]; intros H Hne; [contradiction|].
  apply bind_Ok in H as (p_n & Hattrs & H). injection H as <-.
  exists p_n. split; [reflexivity|].
  unfold annotates. cbn [getSourceLocation attributes].
  rewrite fold_left_add_output, fold_left_add_input in Hattrs.
  set (p0 := node_set_op_type _ _) in Hattrs.
  assert (Hp0 : node_proto_doc_string p0 = python_traceback <$> l /\
                node_proto_attribute p0 = []).
  { subst p0. destruct l; split; reflexivity. }
  destruct Hp0 as [Hdoc Hnone].
  assert (Hgen : forall attrs p0 p_n,
             for_each (fun p_n attr => addAttribute p_n (fst attr) (snd attr)) attrs p0
             = Ok p_n ->
             node_proto_doc_string p_n = node_proto_doc_string p0 /\
             exists aps, node_proto_attribute p_n = node_proto_attribute p0 ++ aps /\
                         Forall2 exported_attribute attrs aps).
  { clear. induction attrs as [|[name a] attrs IH]; intros p0 p_n H.
    - injection H as <-. split; [reflexivity|]. exists []. rewrite app_nil_r.
      split; [reflexivity | constructor].
    - rewrite for_each_cons in H. apply bind_Ok in H as (p1 & Ha & Hrest).
      cbn [fst snd] in Ha. apply addAttribute_spec in Ha as (ap & -> & Hap).
      apply IH in Hrest as (Hdoc & aps & Haps & Hall).
      split; [rewrite Hdoc; destruct p0; reflexivity|].
      exists (ap :: aps). split; [| constructor; assumption].
      rewrite Haps. destruct p0. cbn. rewrite <- app_assoc. reflexivity. }
  apply Hgen in Hattrs as (Hdoc' & aps & Haps & Hall).
  rewrite Hdoc', Hdoc, Haps, Hnone. split; [reflexivity | exact Hall].
Qed.

Lemma encodeNodes_annotate (ns : list (Node double)) (p_g p_g' : GraphProto) :
  for_each (fun p_g node => encodeNode p_g node) ns p_g = Ok p_g' ->
  exists records,
    graph_proto_node p_g' = graph_proto_node p_g ++ records /\
    Forall2 annotates (List.filter is_exported ns) records.
Proof.
  revert p_g. induction ns as [|n ns IH]; intros p_g H.
  - injection H as <-. exists []. rewrite app_nil_r. split; [reflexivity | constructor].
  - rewrite for_each_cons in H. apply bind_Ok in H as (p1 & Hn & Hrest).
    apply IH in Hrest as (records & Hrecords & Hall).
    cbn [List.filter]. unfold is_exported at 1.
    destruct (String.eqb_spec (kind n) kUndefined) as [Hk|Hk]; cbn [negb].
    + apply encodeNode_spec in Hn as [[_ ->] | [Hne _]]; [| contradiction].
      exists records. split; assumption.
    + apply encodeNode_annotates in Hn as (p_n & -> & Hp_n); [| assumption].
      exists (p_n :: records). split; [| constructor; assumption].
      rewrite Hrecords. destruct p_g. cbn. rewrite <- app_assoc. reflexivity.
Qed.

(** X15 (encodeGraph, addAttribute, encodeTensor): the attributes of the
    exported nodes.  The record of a node that is exported carries the
    text of the node's source location as its doc string (none when the
    node has no location) and one attribute record for each attribute of
    the node, in order, under the attribute's name and with the payload
    of its kind: numbers, strings and their lists as they are, a tensor
    as its sizes, element code and data, a graph encoded on its own
    without initializers. *)
Theorem encodeGraph_exports_attributes :
  forall (g : Graph double) (initializers : list Tensor) (p : GraphProto),
    encodeGraph GraphProto_new g initializers = Ok p ->
    Forall2
      (fun n p_n =>
         node_proto_doc_string p_n = python_traceback <$> getSourceLocation n /\
         Forall2 exported_attribute (attributes n) (node_proto_attribute p_n))
      (List.filter (fun n => negb (String.eqb (kind n) kUndefined)) (nodes g))
      (graph_proto_node p).
Proof.
  intros g initializers p H.
  apply encodeGraph_parts in H
    as (ins & outs & records & tensors & p3 & -> & _ & _ & Hnodes & Hrec & _).
  apply encodeNodes_annotate in Hnodes as (records' & Hrecords & Hall).
  cbn [graph_proto_node app] in *. rewrite <- Hrec, Hrecords. exact Hall.
Qed.

(** X16 (encodeGraph, encodeTensor): the initializer records.  An export
    that succeeds has one initializer record for each initializer tensor,
    in order, with the tensor's sizes as its dimensions, the code of the
    tensor's element kind as its data type, and the tensor as its raw
    data; so every initializer tensor has an element kind the format has
    a code for. *)
Theorem encodeGraph_initializer_records :
  forall (g : Graph double) (initializers : list Tensor) (p : GraphProto),
    encodeGraph GraphProto_new g initializers = Ok p ->
    Forall2
      (fun tensor t =>
         dims t = sizes tensor /\ raw_data t = Some tensor /\
         exists code, onnx_type_of (scalarType tensor) = Ok code /\
                      data_type t = Some code)
      initializers (graph_proto_initializer p) /\
    Forall (fun tensor => scalarType tensor <> NumOptions) initializers.
Proof.
  intros g initializers p H.
  apply encodeGraph_parts in H
    as (ins & outs & records & tensors & p3 & -> & _ & _ & _ & _ & Htensors).
  cbn [graph_proto_initializer]. split; [exact Htensors|].
  clear - Htensors. induction Htensors as [|tensor t ts rs (_ & _ & code & Hcode & _) _ IH];
    constructor; [| exact IH].
  intros Hk. rewrite Hk in Hcode. discriminate.
Qed.

(** X17 (ExportGraph, encodeModel, validateGraph): export as a whole.
    [ExportGraph] gives bytes exactly when the graph passes validation
    and its encoding succeeds, and the bytes are then the wire form of
    the model with the producer "pytorch", the producer version "0.3",
    one operator-set entry with the version asked for, and the encoded
    graph; a graph that fails validation is not encoded at all. *)
Theorem ExportGraph_succeeds :
  forall (graph : Graph double) (initializers : list Tensor) (onnx_opset_version : Z),
    (forall bytes : list Byte.byte,
        ExportGraph graph initializers onnx_opset_version = Ok bytes <->
        validateGraph graph = Ok tt /\
        exists p,
          encodeGraph GraphProto_new graph initializers = Ok p /\
          bytes = pb_encode {| producer_name := "pytorch";
                               producer_version := "0.3";
                               opset_import := [{| version := onnx_opset_version |}];
                               graph := p |}) /\
    (forall f, validateGraph graph = Fail f ->
               ExportGraph graph initializers onnx_opset_version = Fail f) /\
    (forall f, validateGraph graph = Ok tt ->
               encodeGraph GraphProto_new graph initializers = Fail f ->
               ExportGraph graph initializers onnx_opset_version = Fail f).
Proof.
  intros graph initializers v. unfold ExportGraph, encodeModel. cbn.
  destruct (validateGraph graph) as [[]|f0]; cbn [bind].
  - destruct (encodeGraph GraphProto_new graph initializers) as [p|f0]; cbn [bind].
    + split; [| split; [discriminate | discriminate]].
      intros bytes. split.
      * intros [= <-]. split; [reflexivity|]. exists p. split; reflexivity.
      * intros (_ & p' & [= <-] & ->). reflexivity.
    + split; [| split; [discriminate | intros f _ [= <-]; reflexivity]].
      intros bytes. split; [discriminate | intros (_ & p' & Hp & _); discriminate].
  - split; [| split; [intros f [= <-]; reflexivity | discriminate]].
    intros bytes. split; [discriminate | intros (H & _); discriminate].
Qed.
End Protos.

Arguments Ok {double A} a.
Arguments Fail {double A} f.
Arguments Lit {double} s.
Arguments OpName {double} s.
Arguments Loc {double} l.
Arguments GraphText {double} g.
Arguments runtime_error {double} what.
Arguments null_dereference {double}.
Arguments mkNodeProto {double} _ _ _ _ _.
Arguments mkGraphProto {double} _ _ _ _ _.

(** *** A small graph to run the exporter on *)

Module Sample.

Definition float_2x3 : Type_ := TensorType kFloat [2; 3]%Z [3; 1]%Z.
Definition float_3 : Type_ := TensorType kFloat [3]%Z [1]%Z.

Definition here (line : string) : option SourceLocation :=
  Some {| python_traceback := line |}.

(** The node the graph inputs hang on. *)
Definition param : Node unit :=
  mkNode kParam []
    [ {| unique := 0; uniqueName := "0"; type := float_2x3 |};
      {| unique := 1; uniqueName := "1"; type := float_3 |} ] [] None "".

Definition x : Value unit :=
  mkValue {| unique := 0; uniqueName := "0"; type := float_2x3 |} param.
Definition w : Value unit :=
  mkValue {| unique := 1; uniqueName := "1"; type := float_3 |} param.

(** An optional input that is not provided. *)
Definition undefined : Node unit :=
  mkNode kUndefined [] [ {| unique := 2; uniqueName := "2"; type := DynamicType |} ]
    [] None "".
Definition no_bias : Value unit :=
  mkValue {| unique := 2; uniqueName := "2"; type := DynamicType |} undefined.

Definition gemm : Node unit :=
  mkNode "Gemm" [x; w; no_bias]
    [ {| unique := 3; uniqueName := "3"; type := float_2x3 |} ]
    [("alpha", A_f tt); ("broadcast", A_i 1%Z)] (here "model.py:7") "".
Definition y : Value unit :=
  mkValue {| unique := 3; uniqueName := "3"; type := float_2x3 |} gemm.

Definition linear : Graph unit := mkGraph [x; w] [y] [undefined; gemm].

Definition weight : Tensor :=
  {| sizes := [3]%Z; strides := [1]%Z; scalarType := kFloat; data := [1; 2; 3]%Z |}.

Definition aten_add : Node unit :=
  mkNode "add" [x; x] [ {| unique := 6; uniqueName := "6"; type := float_2x3 |} ]
    [] None "".
(** The same operator, recorded with the place it was called from. *)
Definition aten_add_located : Node unit :=
  mkNode "add" [x; x] [ {| unique := 6; uniqueName := "6"; type := float_2x3 |} ]
    [] (here "model.py:10") "".

Definition with_aten_add : Graph unit := mkGraph [x; w] [y] [aten_add].
Definition with_aten_add_located : Graph unit := mkGraph [x; w] [y] [aten_add_located].

(** A stand-in for the wire encoder: one byte per node record. *)
Definition count_nodes (m : ModelProto unit) : list Byte.byte :=
  map (fun _ => Byte.x00) (graph_proto_node unit (graph unit m)).

End Sample.

Import Sample.



(** C10 at a node of the ATen namespace.  With a source location the
    node is rejected with the "Couldn't export operator" error that names
    the operator and the location.  Without one, validation dereferences
    the null location while it builds that message, and no error is
    thrown. *)
Theorem lowercase_operator_without_location :
  validateGraph unit with_aten_add_located
  = Fail (runtime_error
            [Lit "ONNX export failed: ";
             Lit "Couldn't export operator "; OpName "add";
             Lit (" Defined at:" +:+ nl); Loc {| python_traceback := "model.py:10" |};
             Lit (nl +:+ nl +:+ "Graph we tried to export:" +:+ nl);
             GraphText with_aten_add_located]) /\
  getSourceLocation aten_add = None /\
  validateGraph unit with_aten_add = Fail null_dereference /\
  ExportGraph unit count_nodes with_aten_add [] 6%Z = Fail null_dereference.
Proof. repeat split. Qed.

(** What [linear] with [weight] as its initializer is exported as. *)
Definition linear_proto : GraphProto unit :=
  mkGraphProto "torch-jit-export"
    [ {| value_info_name := "0";
         tensor_type := {| shape := [2; 3]%Z; elem_type := Some kFLOAT |} |};
      {| value_info_name := "1";
         tensor_type := {| shape := [3]%Z; elem_type := Some kFLOAT |} |} ]
    [ {| value_info_name := "3";
         tensor_type := {| shape := [2; 3]%Z; elem_type := Some kFLOAT |} |} ]
    [ mkNodeProto (Some "model.py:7") ["0"; "1"; ""] ["3"] "Gemm"
        [ mkAttributeProto unit "alpha" (aFLOAT unit tt);
          mkAttributeProto unit "broadcast" (aINT unit 1%Z) ] ]
    [ {| tensor_name := Some "1"; dims := [3]%Z; data_type := Some kFLOAT;
         raw_data := Some weight |} ].

Lemma encodeGraph_skips_undefined_witness :
  encodeGraph unit (GraphProto_new unit) linear [weight] = Ok linear_proto /\
  nodes linear = [undefined; gemm] /\
  Forall2
    (fun n p_n =>
       node_proto_op_type unit p_n = toString (kind n) /\
       node_proto_input unit p_n
       = map (fun input => if decide (kind (node input) = kUndefined) then ""
                           else uniqueName (value_data input)) (inputs n) /\
       node_proto_output unit p_n
       = map (fun output => uniqueName (value_data output)) (outputs n))
    [gemm] (graph_proto_node unit linear_proto).
Proof.
  split; [reflexivity|]. split; [reflexivity|].
  exact (encodeGraph_skips_undefined unit linear [weight] linear_proto eq_refl).
Defined.

Lemma initializers_named_by_position_witness :
  encodeGraph unit (GraphProto_new unit) linear [weight] = Ok linear_proto /\
  exists t input,
    nth_error (graph_proto_initializer unit linear_proto) 0 = Some t /\
    nth_error (graph_inputs linear) (2 - 1 + 0) = Some input /\
    tensor_name t = Some (value_name unit input).
Proof.
  split; [reflexivity|].
  destruct (initializers_named_by_position unit linear [weight] linear_proto
              ltac:(vm_compute; reflexivity) eq_refl)
    as (Hkn & Hlen & Hnames).
  apply (Hnames 0). cbn. lia.
Defined.


(** A graph with a node that carries a tensor and a graph as attributes. *)
Definition constant : Node unit :=
  mkNode "Constant" []
    [ {| unique := 7; uniqueName := "7"; type := float_3 |} ]
    [("value", A_t weight); ("body", A_g linear)] None "".

Definition with_constant : Graph unit := mkGraph [x; w] [y] [constant; undefined; gemm].

Lemma encodeGraph_declares_values_witness :
  encodeGraph unit (GraphProto_new unit) linear [weight] = Ok linear_proto /\
  graph_proto_name unit linear_proto = "torch-jit-export" /\
  Forall2 (declares unit) [x; w] (graph_proto_input unit linear_proto) /\
  Forall2 (declares unit) [y] (graph_proto_output unit linear_proto).
Proof.
  split; [reflexivity|].
  exact (encodeGraph_declares_values unit linear [weight] linear_proto eq_refl).
Defined.

Lemma encodeGraph_exports_attributes_witness :
  exists p,
    encodeGraph unit (GraphProto_new unit) with_constant [weight] = Ok p /\
    Forall2
      (fun n p_n =>
         node_proto_doc_string unit p_n = python_traceback <$> getSourceLocation n /\
         Forall2 (exported_attribute unit) (attributes n) (node_proto_attribute unit p_n))
      [constant; gemm] (graph_proto_node unit p).
Proof.
  eexists. split; [reflexivity|].
  exact (encodeGraph_exports_attributes unit with_constant [weight] _ eq_refl).
Defined.

Lemma encodeGraph_initializer_records_witness :
  encodeGraph unit (GraphProto_new unit) linear [weight] = Ok linear_proto /\
  Forall2
    (fun tensor t =>
       dims t = sizes tensor /\ raw_data t = Some tensor /\
       exists code, onnx_type_of unit (scalarType tensor) = Ok code /\
                    data_type t = Some code)
    [weight] (graph_proto_initializer unit linear_proto) /\
  Forall (fun tensor => scalarType tensor <> NumOptions) [weight].
Proof.
  split; [reflexivity|].
  exact (encodeGraph_initializer_records unit linear [weight] linear_proto eq_refl).
Defined.

Lemma validateGraph_accepts_witness :
  validateGraph unit linear = Ok tt /\
  forall n, In n (nodes linear) -> exportable (kind n).
Proof.
  split; [reflexivity|].
  apply (proj1 (validateGraph_accepts unit linear)). reflexivity.
Defined.

Lemma ExportGraph_succeeds_witness :
  ExportGraph unit count_nodes linear [weight] 6%Z = Ok [Byte.x00] /\
  validateGraph unit linear = Ok tt /\
  exists p,
    encodeGraph unit (GraphProto_new unit) linear [weight] = Ok p /\
    [Byte.x00] = count_nodes {| producer_name := "pytorch";
                                producer_version := "0.3";
                                opset_import := [{| version := 6%Z |}];
                                graph := p |}.
Proof.
  split; [reflexivity|].
  apply (proj1 (proj1 (ExportGraph_succeeds unit count_nodes linear [weight] 6%Z)
                  [Byte.x00]) eq_refl).
Defined.

End Exporter.

(* ===================================================================== *)
(** ** The tracer: tracer.h                                               *)
(* ===================================================================== *)

Module Tracer.

Import IR.

(** *** The objects the tracer works on *)

(** A [Value*] is the unique identifier of the value in its graph. *)
Definition ValueRef : Type := nat.

Record Value : Type :=
  { value_unique : nat; value_name : string; value_type : Type_ }.

Record TracedNode : Type :=
  { node_kind : Symbol; node_output : Value }.

(** Modelled from the spec: the graph under construction (ir.h is not
    among the sources).  It "owns an ordered sequence of Nodes", "an
    ordered sequence of input Values, and an ordered sequence of output
    Values" and a stage counter; "addInput/addOutput ... append a new
    Value, O(1), never fails"; a created node is appended by
    [appendNode]. *)
Record Graph : Type :=
  { next_unique : nat;
    graph_inputs : list Value;
    graph_nodes : list TracedNode;
    graph_outputs : list ValueRef;
    stage : nat }.

Definition Graph_new : Graph :=
  {| next_unique := 0; graph_inputs := []; graph_nodes := [];
     graph_outputs := []; stage := 0 |}.

Definition addInput (g : Graph) (name : string) : Graph * ValueRef :=
  let v := {| value_unique := next_unique g; value_name := name;
              value_type := DynamicType |} in
  ({| next_unique := S (next_unique g);
      graph_inputs := graph_inputs g ++ [v];
      graph_nodes := graph_nodes g;
      graph_outputs := graph_outputs g;
      stage := stage g |}, value_unique v).

(** [appendNode(createUndefined())->output()] *)
Definition appendUndefined (g : Graph) : Graph * ValueRef :=
  let v := {| value_unique := next_unique g; value_name := "";
              value_type := DynamicType |} in
  ({| next_unique := S (next_unique g);
      graph_inputs := graph_inputs g;
      graph_nodes := graph_nodes g ++ [{| node_kind := kUndefined; node_output := v |}];
      graph_outputs := graph_outputs g;
      stage := stage g |}, value_unique v).

Definition registerOutput (g : Graph) (v : ValueRef) : Graph :=
  {| next_unique := next_unique g;
     graph_inputs := graph_inputs g;
     graph_nodes := graph_nodes g;
     graph_outputs := graph_outputs g ++ [v];
     stage := stage g |}.

Definition set_type (t : Tensor) (v : Value) : Value :=
  {| value_unique := value_unique v; value_name := value_name v;
     value_type := TensorType (scalarType t) (sizes t) (strides t) |}.

(** [v->inferTypeFrom(tensor)] on the value [v] points at. *)
Definition inferTypeFrom (g : Graph) (v : ValueRef) (t : Tensor) : Graph :=
  let infer x := if Nat.eqb (value_unique x) v then set_type t x else x in
  {| next_unique := next_unique g;
     graph_inputs := map infer (graph_inputs g);
     graph_nodes := map (fun n => {| node_kind := node_kind n;
                                     node_output := infer (node_output n) |})
                        (graph_nodes g);
     graph_outputs := graph_outputs g;
     stage := stage g |}.

(** Identities: a [shared_ptr<TracingState>] or a [weak_ptr] to one is
    the identifier of the state, a defined [Variable] is the identifier
    of the variable it shares, a buffer is the identifier of its
    storage. *)
Definition StateId : Type := nat.
Definition VarId : Type := nat.
Definition BufferId : Type := nat.

(** A [Variable] handle ([Variable_], the word being taken); [None] is the
    undefined variable. *)
Definition Variable_ : Type := option VarId.
Definition variable_list : Type := list Variable_.

Record ValueTracingStateElem : Type :=
  { elem_state : StateId;          (* weak_ptr<TracingState> *)
    trace : option ValueRef }.     (* Value*, possibly null *)

Record VariableImpl : Type :=
  { name : string;
    var_data : Tensor;
    requires_grad : bool;
    is_volatile : bool;
    tracing_state : list ValueTracingStateElem }.

Record VariableFlags : Type :=
  { flag_requires_grad : bool; flag_is_volatile : bool; was_null : bool }.

(** Modelled from the spec: the TracingState (tracer_state.h is not among
    the sources): it "owns a Graph under construction", the buffer map,
    "an active/inactive flag, and per-stage snapshots of input/output
    flag metadata". *)
Record TracingState : Type :=
  { graph : Graph;
    buffer_map : gmap BufferId ValueRef;
    active : bool;
    inputs : variable_list;
    var_flags : list (list VariableFlags * list VariableFlags) }.

Definition TracingState_new (num_stages : nat) : TracingState :=
  {| graph := Graph_new; buffer_map := ∅; active := false; inputs := [];
     var_flags := replicate num_stages ([], []) |}.

(** The heap: the variables and the tracing states that are alive.  A
    state that is not in [states] has expired: [lock()] on a weak
    pointer to it gives null. *)
Record World : Type :=
  { variables : gmap VarId VariableImpl;
    states : gmap StateId TracingState;
    next_variable : VarId;
    next_state : StateId }.

Definition blank : VariableImpl :=
  {| name := "";
     var_data := {| sizes := []; strides := []; scalarType := kFloat; data := [] |};
     requires_grad := false; is_volatile := false; tracing_state := [] |}.

Definition impl (w : World) (v : VarId) : VariableImpl :=
  default blank (variables w !! v).

Definition set_tracing_state (w : World) (v : VarId)
    (l : list ValueTracingStateElem) : World :=
  let i := impl w v in
  {| variables := <[v := {| name := name i; var_data := var_data i;
                            requires_grad := requires_grad i;
                            is_volatile := is_volatile i;
                            tracing_state := l |}]> (variables w);
     states := states w;
     next_variable := next_variable w;
     next_state := next_state w |}.

Definition set_state (w : World) (s : StateId) (st : TracingState) : World :=
  {| variables := variables w;
     states := <[s := st]> (states w);
     next_variable := next_variable w;
     next_state := next_state w |}.

Definition set_graph (st : TracingState) (g : Graph) : TracingState :=
  {| graph := g; buffer_map := buffer_map st; active := active st;
     inputs := inputs st; var_flags := var_flags st |}.

(** *** Failures *)

Inductive piece : Type :=
| Lit (s : string)
| Num (n : nat).

Inductive failure : Type :=
| runtime_error (what : list piece)   (* thrown std::runtime_error *)
| assertion_failed                    (* a JIT_ASSERT that does not hold *)
| undefined_behaviour.                (* null pointer or index past the end *)

Inductive result (A : Type) : Type :=
| Ok (a : A)
| Fail (f : failure).
Arguments Ok {A} a.
Arguments Fail {A} f.

Definition bind {A B} (m : result A) (k : A -> result B) : result B :=
  match m with
  | Ok a => k a
  | Fail f => Fail f
  end.

Notation "x <- m ;; k" := (bind m (fun x => k))
  (at level 100, m at next level, right associativity).

Definition JIT_ASSERT (cond : bool) : result unit :=
  if cond then Ok tt else Fail assertion_failed.

(** [state->...] on a state the caller holds a [shared_ptr] to. *)
Definition deref (w : World) (s : StateId) : result TracingState :=
  match states w !! s with
  | Some st => Ok st
  | None => Fail undefined_behaviour
  end.

(** *** detail::getValueState *)

(** The loop over [var.tracing_state()]: elements whose state has
    expired are erased on the way; the walk stops at the element of
    [state].  The answer is the list as the walk leaves it and the
    position of the element found. *)
Fixpoint scan (w : World) (state : StateId) (l : list ValueTracingStateElem)
    : list ValueTracingStateElem * option nat :=
  match l with
  | [] => ([], None)
  | e :: rest =>
      match states w !! elem_state e with
      | None => scan w state rest        (* GC of invalidated tracing states *)
      | Some _ =>
          if Nat.eqb (elem_state e) state then (e :: rest, Some 0)
          else let '(rest', found) := scan w state rest in
               (e :: rest', S <$> found)
      end
  end.

(** The pointer [getValueState] returns is the position of the element
    in the variable's list; [None] is [nullptr]. *)
Definition getValueState (w : World) (state : StateId) (var : VarId) (alloc : bool)
    : World * option nat :=
  let '(l, found) := scan w state (tracing_state (impl w var)) in
  match found with
  | Some i => (set_tracing_state w var l, Some i)
  | None =>
      if alloc then
        (set_tracing_state w var ({| elem_state := state; trace := None |} :: l), Some 0)
      else (set_tracing_state w var l, None)
  end.

(* Having finished adding a new 'node' to the graph IR owned by TracingState 'state',
   'setValueTrace' associates this node with an output variable, so that further operations
   involving this variable know which node in the IR to reference. *)
Definition setValueTrace (w : World) (state : StateId) (var : Variable_) (value : ValueRef)
    : result World :=
  match var with
  | None => Fail assertion_failed
  | Some v =>
      let '(w, vts) := getValueState w state v true in
      match vts with
      | None => Fail undefined_behaviour
      | Some i =>
          Ok (set_tracing_state w v
                (alter (fun e => {| elem_state := elem_state e; trace := Some value |})
                       i (tracing_state (impl w v))))
      end
  end.

(** *** getOutputTrace and detail::_exit *)

Definition no_dependence (output_no : nat) : list piece :=
  [Lit "output "; Num output_no;
   Lit " of traced region did not have observable ";
   Lit "data dependence with trace inputs; this probably indicates your program ";
   Lit "cannot be understood by the tracer."].

Definition getOutputTrace (w : World) (state : StateId) (var : Variable_)
    (output_no : nat) : result (World * option ValueRef) :=
  match var with
  | None =>
      st <- deref w state ;;
      let '(g, out) := appendUndefined (graph st) in
      Ok (set_state w state (set_graph st g), Some out)
  | Some v =>
      let '(w, vts) := getValueState w state v false in
      match vts with
      | None => Fail (runtime_error (no_dependence output_no))
      | Some i =>
          match tracing_state (impl w v) !! i with
          | Some e => Ok (w, trace e)
          | None => Fail undefined_behaviour
          end
      end
  end.

Definition VariableFlags_of (w : World) (var : Variable_) : VariableFlags :=
  match var with
  | None => {| flag_requires_grad := false; flag_is_volatile := false; was_null := true |}
  | Some v => {| flag_requires_grad := requires_grad (impl w v);
                 flag_is_volatile := is_volatile (impl w v);
                 was_null := false |}
  end.

Definition getVarFlags (w : World) (vars : variable_list) : list VariableFlags :=
  map (VariableFlags_of w) vars.

(** [state->graph->registerOutput(v)]; registering the null value
    dereferences it. *)
Definition state_registerOutput (w : World) (state : StateId) (v : option ValueRef) : result World :=
  st <- deref w state ;;
  match v with
  | None => Fail undefined_behaviour
  | Some v => Ok (set_state w state (set_graph st (registerOutput (graph st) v)))
  end.

(** The loop of [_exit]; [i] counts the outputs. *)
Fixpoint exit_loop (w : World) (state : StateId) (outputs : variable_list) (i : nat)
    : result World :=
  match outputs with
  | [] => Ok w
  | output :: rest =>
      r <- getOutputTrace w state output i ;;
      let '(w, v) := r in
      w <- state_registerOutput w state v ;;
      exit_loop w state rest (S i)
  end.

(* Exit code shared between exit and TraceExitHook::run *)
Definition _exit (w : World) (state : StateId) (outputs : variable_list) : result World :=
  w <- exit_loop w state outputs 0 ;;
  st <- deref w state ;;
  match var_flags st !! stage (graph st) with
  | None => Fail undefined_behaviour
  | Some flags =>
      Ok (set_state w state
            {| graph := graph st; buffer_map := buffer_map st;
               active := false;
               inputs := inputs st;
               var_flags := <[stage (graph st) := (fst flags, getVarFlags w outputs)]>
                              (var_flags st) |})
  end.

(** The inner loop of [getTracingState]: the states of one variable that
    are alive and active must all be the state found so far. *)
Fixpoint getTracingState_var (w : World) (l : list ValueTracingStateElem)
    (state : option StateId) : result (option StateId) :=
  match l with
  | [] => Ok state
  | vts :: rest =>
      match states w !! elem_state vts with
      | Some var_state =>
          if active var_state then
            let state := match state with
                         | None => Some (elem_state vts)
                         | Some s => Some s
                         end in
            _ <- JIT_ASSERT (bool_decide (state = Some (elem_state vts))) ;;
            getTracingState_var w rest state
          else getTracingState_var w rest state
      | None => getTracingState_var w rest state
      end
  end.

Fixpoint getTracingState_vars (w : World) (vars : variable_list)
    (state : option StateId) : result (option StateId) :=
  match vars with
  | [] => Ok state
  | None :: rest => getTracingState_vars w rest state
  | Some v :: rest =>
      state <- getTracingState_var w (tracing_state (impl w v)) state ;;
      getTracingState_vars w rest state
  end.

(* Retrieve the tracing state which a function applied with 'vars' should
   be recorded to.  Precondition: isTracing(vars) == true.  At the moment,
   we don't support mixing up variables from different traces; this code
   will need to be revisited if that ever becomes supported. *)
Definition getTracingState (w : World) (vars : variable_list) : result StateId :=
  state <- getTracingState_vars w vars None ;;
  match state with
  | Some s => Ok s
  | None => Fail assertion_failed
  end.

(** [detail::traceBackward] is the hook into the autograd library; it is
    an argument here. *)
Definition BackwardHook : Type :=
  World -> StateId -> variable_list -> variable_list -> result World.

(* Exit a trace, treating 'outputs' as the outputs of the trace.  These
   are the variables whose values will be computed upon subsequent
   invocations of the trace. *)
Definition exit (traceBackward : BackwardHook) (w : World) (outputs : variable_list)
    : result World :=
  state <- getTracingState w outputs ;;
  w <- _exit w state outputs ;;
  st <- deref w state ;;
  w <- traceBackward w state (inputs st) outputs ;;
  st <- deref w state ;;
  Ok (set_state w state
        {| graph := graph st; buffer_map := buffer_map st; active := active st;
           inputs := []; var_flags := var_flags st |}).

(** *** enter *)

Record Buffer : Type :=
  { buffer_id : BufferId;       (* buffer.unsafeGetTH(false) *)
    buffer_tensor : Tensor }.

(* Only one field may be non-null *)
Record TraceInput : Type :=
  { variable : Variable_; buffer : option Buffer }.

(** Modelled from the spec: [input.view(input.sizes())], the "no-op
    reshape" of the autograd library (an external collaborator): a new
    variable over the data of [input], of the sizes asked for.  The state being entered is not
    active yet, so the new variable carries no tracing state of it; what
    another, active trace would record on the way is left out. *)
Definition view (w : World) (input : VarId) (size : list Z) : World * VarId :=
  let fresh := next_variable w in
  let t := var_data (impl w input) in
  ({| variables :=
        <[fresh := {| name := "";
                      var_data := {| sizes := size; strides := strides t;
                                     scalarType := scalarType t; data := data t |};
                      requires_grad := requires_grad (impl w input);
                      is_volatile := is_volatile (impl w input);
                      tracing_state := [] |}]> (variables w);
      states := states w;
      next_variable := S fresh;
      next_state := next_state w |}, fresh).

(** [for (auto& x : xs)] with the state threaded through. *)
Definition for_each {A S : Type} (body : S -> A -> result S)
    : list A -> S -> result S :=
  fix loop (xs : list A) (st : S) : result S :=
    match xs with
    | [] => Ok st
    | x :: rest => st' <- body st x ;; loop rest st'
    end.

(** The body of the loop of [enter]. *)
Definition enter_input (state : StateId) (acc : World * variable_list)
    (trace_input : TraceInput) : result (World * variable_list) :=
  let '(w, input_list) := acc in
  match variable trace_input with
  | Some input =>
      _ <- JIT_ASSERT (negb (bool_decide (is_Some (buffer trace_input)))) ;;
      let '(w, value_state) := getValueState w state input false in
      let '(w, input) :=
        match value_state with
        | Some _ =>
            (* See Note [Repeated inputs] in tracer.cpp *)
            view w input (sizes (var_data (impl w input)))
        | None => (w, input)
        end in
      st <- deref w state ;;
      let '(g, input_node) := addInput (graph st) (name (impl w input)) in
      let w := set_state w state (set_graph st g) in
      w <- setValueTrace w state (Some input) input_node ;;
      st <- deref w state ;;
      let w := set_state w state
                 (set_graph st (inferTypeFrom (graph st) input_node
                                              (var_data (impl w input)))) in
      Ok (w, input_list ++ [Some input])
  | None =>
      match buffer trace_input with
      | None => Fail assertion_failed
      | Some b =>
          (* NON-owning reference.  Pointers may be dead! *)
          st <- deref w state ;;
          let '(g, n) := addInput (graph st) "" in
          let bm := match buffer_map st !! buffer_id b with
                    | Some _ => buffer_map st
                    | None => <[buffer_id b := n]> (buffer_map st)
                    end in
          let g := inferTypeFrom g n (buffer_tensor b) in
          Ok (set_state w state
                {| graph := g; buffer_map := bm; active := active st;
                   inputs := inputs st; var_flags := var_flags st |},
              input_list)
      end
  end.

(* Start tracing, treating 'inputs' as inputs to the trace, which can be
   varied on subsequent invocations of the trace.  Any other variables
   will be treated as constants. *)
Definition enter (w : World) (trace_inputs : list TraceInput) (num_stages : nat)
    : result (World * StateId * variable_list) :=
  let state := next_state w in
  let w := {| variables := variables w;
              states := <[state := TracingState_new num_stages]> (states w);
              next_variable := next_variable w;
              next_state := S state |} in
  r <- for_each (enter_input state) trace_inputs (w, []) ;;
  let '(w, input_list) := r in
  st <- deref w state ;;
  (* TODO: this might not work with the way we handle buffers *)
  match var_flags st with
  | [] => Fail undefined_behaviour
  | flags0 :: later =>
      Ok (set_state w state
            {| graph := graph st; buffer_map := buffer_map st;
               active := true;
               inputs := input_list;
               var_flags := (getVarFlags w input_list, snd flags0) :: later |},
          state, input_list)
  end.

(** *** isTracingVar *)

Definition isElemActive (w : World) (vts : ValueTracingStateElem) : bool :=
  match states w !! elem_state vts with
  | Some state => active state
  | None => false
  end.

(* Should a function which takes 'vars' as inputs be traced?
   It suffices for ONE variable to be tracing: any "untraced" variables
   are treated as constants. *)
(** A variable that has no tracing state yet has the empty list here. *)
Definition isTracingVar (w : World) (var : Variable_) : bool :=
  match var with
  | None => false
  | Some v => existsb (isElemActive w) (tracing_state (impl w v))
  end.

(** The overload on [at::ArrayRef<Variable>]. *)
Fixpoint isTracingVar_list (w : World) (vars : variable_list) : bool :=
  match vars with
  | [] => false
  | var :: rest => if isTracingVar w var then true else isTracingVar_list w rest
  end.

(** *** getValueTrace *)

(** [state->graph->appendNode(state->graph->createConstant(t))->output()]
    and [t.unsafeGetTH(false)] belong to the IR and to ATen; they are
    arguments here. *)
Definition ConstantHook : Type := Graph -> Tensor -> Graph * ValueRef.

(* Given a variable 'var', return the 'node' which represents the instruction
   which computes the value of this variable in the IR. *)
Definition getValueTrace (createConstant : ConstantHook) (unsafeGetTH : Tensor -> BufferId)
    (w : World) (state : StateId) (var : Variable_) : result (World * ValueRef) :=
  match var with
  | None =>
      st <- deref w state ;;
      let '(g, out) := appendUndefined (graph st) in
      Ok (set_state w state (set_graph st g), out)
  | Some v =>
      let '(w, vts) := getValueState w state v true in
      match vts with
      | None => Fail undefined_behaviour
      | Some i =>
          match tracing_state (impl w v) !! i with
          | None => Fail undefined_behaviour
          | Some e =>
              match trace e with
              | Some r => Ok (w, r)
              | None =>
                  (* To deal with this, we cheat a little and consult the buffer map to
                     see if the wrapped tensor corresponds to a buffer.  If it does, use
                     that instead of making a constant. *)
                  st <- deref w state ;;
                  match buffer_map st !! unsafeGetTH (var_data (impl w v)) with
                  | Some r => Ok (w, r)
                  | None =>
                      let '(g, constant) := createConstant (graph st) (var_data (impl w v)) in
                      let g := inferTypeFrom g constant (var_data (impl w v)) in
                      let w := set_state w state (set_graph st g) in
                      w <- setValueTrace w state (Some v) constant ;;
                      Ok (w, constant)
                  end
              end
          end
      end
  end.

(** *** Associations *)

(** The element of a variable's list that belongs to [state], if any:
    the first one, as the walk of [getValueState] meets it. *)
Definition find_state (state : StateId) (l : list ValueTracingStateElem)
    : option ValueTracingStateElem :=
  List.find (fun e => Nat.eqb (elem_state e) state) l.

(** What [state] has recorded for the variable: [None] when the variable
    was never associated with the state, else the element with the
    recorded [Value*]. *)
Definition association (w : World) (state : StateId) (v : VarId)
    : option ValueTracingStateElem :=
  find_state state (tracing_state (impl w v)).

Lemma scan_spec (w : World) (state : StateId) (l : list ValueTracingStateElem) :
  is_Some (states w !! state) ->
  find_state state (scan w state l).1 = find_state state l /\
  match (scan w state l).2 with
  | Some i => (scan w state l).1 !! i = find_state state l /\
              is_Some (find_state state l)
  | None => find_state state l = None
  end.
Proof.
  intros Halive. induction l as [|e l [IH1 IH2]]; [split; reflexivity|].
  cbn [scan find_state List.find].
  destruct (states w !! elem_state e) as [st|] eqn:He.
  - destruct (Nat.eqb_spec (elem_state e) state) as [Heq|Hne].
    + cbn. rewrite (proj2 (Nat.eqb_eq _ _) Heq). split; [reflexivity|].
      split; [reflexivity | eexists; reflexivity].
    + destruct (scan w state l) as [l' found] eqn:Hscan. cbn [fst snd] in *.
      cbn [find_state List.find]. rewrite (proj2 (Nat.eqb_neq _ _) Hne).
      split; [exact IH1|].
      destruct found as [i|]; cbn [fmap option_fmap option_map]; exact IH2.
  - assert (Hne : elem_state e <> state).
    { intros Heq. rewrite Heq in He. rewrite He in Halive. destruct Halive; discriminate. }
    rewrite (proj2 (Nat.eqb_neq _ _) Hne). split; [exact IH1 | exact IH2].
Qed.

Lemma impl_set_tracing_state (w : World) (v u : VarId) (l : list ValueTracingStateElem) :
  tracing_state (impl (set_tracing_state w v l) u)
  = if decide (u = v) then l else tracing_state (impl w u).
Proof.
  unfold impl, set_tracing_state. cbn [variables].
  destruct (decide (u = v)) as [->|Hne].
  - rewrite lookup_insert_eq. reflexivity.
  - rewrite lookup_insert_ne by congruence. reflexivity.
Qed.

Lemma association_set_state (w : World) (s s' : StateId) (st : TracingState) (v : VarId) :
  association (set_state w s' st) s v = association w s v.
Proof. reflexivity. Qed.

(** [getValueState(state, var, false)] finds exactly what is associated
    and changes no association of [state]. *)
Lemma getValueState_lookup (w : World) (state : StateId) (v : VarId) :
  is_Some (states w !! state) ->
  let w' := (getValueState w state v false).1 in
  let found := (getValueState w state v false).2 in
  states w' = states w /\
  next_variable w' = next_variable w /\
  (forall u, association w' state u = association w state u) /\
  (found = None <-> association w state v = None) /\
  (forall i, found = Some i ->
             tracing_state (impl w' v) !! i = association w state v).
Proof.
  intros Halive. unfold getValueState.
  destruct (scan_spec w state (tracing_state (impl w v)) Halive) as [Hfind Hfound].
  destruct (scan w state (tracing_state (impl w v))) as [l found] eqn:Hscan.
  cbn [fst snd] in *.
  assert (Hassoc : forall u, association (set_tracing_state w v l) state u
                             = association w state u).
  { intros u. unfold association. rewrite impl_set_tracing_state.
    destruct (decide (u = v)) as [->|]; [exact Hfind | reflexivity]. }
  destruct found as [i|]; cbn [fst snd].
  - destruct Hfound as [Hi Hsome]. repeat split; try reflexivity; try exact Hassoc.
    + discriminate.
    + intros H. unfold association in H. rewrite H in Hsome. destruct Hsome; discriminate.
    + intros j [= <-]. rewrite impl_set_tracing_state.
      destruct (decide (v = v)); [exact Hi | contradiction].
  - repeat split; try reflexivity; try exact Hassoc; try (intros; assumption).
    intros j Hj. discriminate.
Qed.

(** *** Trace exit *)

(** An output that resolves: the undefined variable, or a variable for
    which [state] has recorded a value. *)
Definition resolves (w : World) (state : StateId) (output : Variable_) : Prop :=
  match output with
  | None => True
  | Some u => exists e r, association w state u = Some e /\ trace e = Some r
  end.

Lemma getOutputTrace_resolves (w : World) (state : StateId) (output : Variable_)
    (i : nat) :
  is_Some (states w !! state) ->
  resolves w state output ->
  exists w' r,
    getOutputTrace w state output i = Ok (w', Some r) /\
    is_Some (states w' !! state) /\
    (forall u, association w' state u = association w state u).
Proof.
  intros Halive Hres. destruct output as [u|]; cbn [getOutputTrace].
  - destruct Hres as (e & r & He & Hr).
    destruct (getValueState_lookup w state u Halive) as (Hst & _ & Hassoc & Hnone & Hsome).
    destruct (getValueState w state u false) as [w' found]. cbn [fst snd] in *.
    destruct found as [k|].
    + rewrite (Hsome k eq_refl), He. exists w', r. rewrite Hr.
      split; [reflexivity|]. split; [rewrite Hst; assumption | assumption].
    + rewrite (proj1 Hnone eq_refl) in He. discriminate.
  - destruct Halive as [st Hst]. unfold deref. rewrite Hst. cbn [bind].
    eexists _, _. split; [reflexivity|]. split; [| intros u; reflexivity].
    cbn [set_state states]. rewrite lookup_insert_eq. eexists; reflexivity.
Qed.

Lemma getOutputTrace_unassociated (w : World) (state : StateId) (v : VarId) (i : nat) :
  is_Some (states w !! state) ->
  association w state v = None ->
  getOutputTrace w state (Some v) i = Fail (runtime_error (no_dependence i)).
Proof.
  intros Halive Hnone. cbn [getOutputTrace].
  destruct (getValueState_lookup w state v Halive) as (_ & _ & _ & Hfound & _).
  destruct (getValueState w state v false) as [w' found]. cbn [fst snd] in *.
  destruct found as [k|]; [| reflexivity].
  apply Hfound in Hnone. discriminate.
Qed.

Lemma exit_loop_first_unresolved (state : StateId) (outputs : variable_list) :
  forall (w : World) (i0 i : nat) (v : VarId),
    is_Some (states w !! state) ->
    outputs !! i = Some (Some v) ->
    association w state v = None ->
    (forall j output, j < i -> outputs !! j = Some output -> resolves w state output) ->
    exit_loop w state outputs i0 = Fail (runtime_error (no_dependence (i0 + i))).
Proof.
  induction outputs as [|o rest IH]; intros w i0 i v Halive Hi Hnone Hbefore;
    [discriminate|].
  cbn [exit_loop]. destruct i as [|i].
  - injection Hi as ->. rewrite Nat.add_0_r.
    rewrite getOutputTrace_unassociated by assumption. reflexivity.
  - destruct (getOutputTrace_resolves w state o i0 Halive) as (w1 & r & -> & Halive1 & Hassoc1).
    { apply (Hbefore 0); [lia | reflexivity]. }
    cbn [bind]. unfold state_registerOutput, deref.
    destruct Halive1 as [st1 Hst1]. rewrite Hst1. cbn [bind].
    replace (i0 + S i) with (S i0 + i) by lia.
    apply (IH _ (S i0) i v).
    + cbn [set_state states]. rewrite lookup_insert_eq. eexists; reflexivity.
    + exact Hi.
    + rewrite association_set_state, Hassoc1. exact Hnone.
    + intros j output Hj Hout.
      assert (Hres : resolves w state output) by (apply (Hbefore (S j)); [lia | exact Hout]).
      destruct output as [u|]; [| exact I].
      destruct Hres as (e & r' & He & Hr'). exists e, r'.
      rewrite association_set_state, Hassoc1. split; assumption.
Qed.

(** C2, as the code has it (getOutputTrace, _exit, exit): a defined
    output variable that was never associated with the state being exited
    makes trace exit fail with the "no observable data dependence"
    diagnostic that names the variable's index among the outputs,
    provided every output before it resolves (it is undefined, or the
    state has a recorded value for it).  [exit] fails the same way when
    the state is the one it finds for the outputs. *)
Theorem exit_names_unassociated_output :
  forall (w : World) (state : StateId) (outputs : variable_list) (i : nat) (v : VarId),
    is_Some (states w !! state) ->
    outputs !! i = Some (Some v) ->
    association w state v = None ->
    (forall j output, j < i -> outputs !! j = Some output -> resolves w state output) ->
    _exit w state outputs = Fail (runtime_error (no_dependence i)) /\
    (forall traceBackward,
        getTracingState w outputs = Ok state ->
        exit traceBackward w outputs = Fail (runtime_error (no_dependence i))).
Proof.
  intros w state outputs i v Halive Hi Hnone Hbefore.
  assert (Hexit : _exit w state outputs = Fail (runtime_error (no_dependence i))).
  { unfold _exit.
    rewrite (exit_loop_first_unresolved state outputs w 0 i v) by assumption.
    reflexivity. }
  split; [exact Hexit|].
  intros traceBackward Hstate. unfold exit. rewrite Hstate. cbn [bind].
  rewrite Hexit. reflexivity.
Qed.

(** *** Trace entry *)

(** Recording a value for a variable the state knows nothing about puts
    a new element in front of the variable's list and touches no other
    variable. *)
Lemma setValueTrace_fresh (w : World) (state : StateId) (v : VarId) (r : ValueRef) :
  is_Some (states w !! state) ->
  association w state v = None ->
  exists w',
    setValueTrace w state (Some v) r = Ok w' /\
    states w' = states w /\
    next_variable w' = next_variable w /\
    association w' state v = Some {| elem_state := state; trace := Some r |} /\
    (forall u, u <> v -> association w' state u = association w state u).
Proof.
  intros Halive Hnone. unfold setValueTrace, getValueState.
  destruct (scan_spec w state (tracing_state (impl w v)) Halive) as [Hfind Hfound].
  destruct (scan w state (tracing_state (impl w v))) as [l found]. cbn [fst snd] in *.
  unfold association in Hnone.
  destruct found as [i|].
  { destruct Hfound as [_ Hsome]. rewrite Hnone in Hsome. destruct Hsome; discriminate. }
  eexists. split; [reflexivity|]. split; [reflexivity|]. split; [reflexivity|].
  split.
  - unfold association. rewrite !impl_set_tracing_state.
    destruct (decide (v = v)); [| contradiction].
    cbn [alter list_alter find_state List.find elem_state].
    rewrite Nat.eqb_refl. reflexivity.
  - intros u Hu. unfold association. rewrite !impl_set_tracing_state.
    destruct (decide (u = v)); [contradiction | reflexivity].
Qed.

Lemma association_view (w : World) (state : StateId) (v : VarId) (size : list Z)
    (u : VarId) :
  association (view w v size).1 state u
  = if decide (u = next_variable w) then None else association w state u.
Proof.
  unfold association, view, impl. cbn [fst variables].
  destruct (decide (u = next_variable w)) as [->|Hne].
  - rewrite lookup_insert_eq. reflexivity.
  - rewrite lookup_insert_ne by congruence. reflexivity.
Qed.

Lemma inferTypeFrom_uniques (g : Graph) (v : ValueRef) (t : Tensor) :
  map value_unique (graph_inputs (inferTypeFrom g v t)) = map value_unique (graph_inputs g)
  /\ next_unique (inferTypeFrom g v t) = next_unique g.
Proof.
  split; [| reflexivity]. unfold inferTypeFrom. cbn [graph_inputs].
  rewrite map_map. apply map_ext. intros x.
  destruct (Nat.eqb (value_unique x) v); reflexivity.
Qed.

(** The returned input list, in the specification's words: a variable
    that occurred earlier in the list is replaced by a new variable (its
    view), any other variable is kept; buffers return nothing. *)
Fixpoint aliased (fresh : VarId) (earlier : list VarId) (trace_inputs : list TraceInput)
    : list VarId :=
  match trace_inputs with
  | [] => []
  | trace_input :: rest =>
      match variable trace_input with
      | Some v =>
          if bool_decide (v ∈ earlier)
          then fresh :: aliased (S fresh) earlier rest
          else v :: aliased fresh (v :: earlier) rest
      | None => aliased fresh earlier rest
      end
  end.

(** The graph inputs of the variables among the trace inputs: trace
    input number [k] becomes graph input number [k]. *)
Fixpoint input_refs (k : nat) (trace_inputs : list TraceInput) : list ValueRef :=
  match trace_inputs with
  | [] => []
  | trace_input :: rest =>
      match variable trace_input with
      | Some _ => k :: input_refs (S k) rest
      | None => input_refs (S k) rest
      end
  end.

(** [state] has recorded the value [r] for the variable. *)
Definition recorded (w : World) (state : StateId) (v : VarId) (r : ValueRef) : Prop :=
  exists e, association w state v = Some e /\ trace e = Some r.

(** A trace input as [enter] expects it: a variable that exists, or a
    buffer; "only one field may be non-null". *)
Definition well_formed_input (w : World) (trace_input : TraceInput) : Prop :=
  match variable trace_input, buffer trace_input with
  | Some v, None => v < next_variable w
  | None, Some _ => True
  | _, _ => False
  end.

(** What holds between two turns of the loop of [enter]: the state's
    graph has [k] inputs, numbered from 0; the variables the state is
    associated with are the kept variables and the views made so far. *)
Definition entering (state : StateId) (f0 : VarId) (num_stages : nat)
    (w : World) (earlier : list VarId) (k : nat) : Prop :=
  (exists st, states w !! state = Some st /\
              next_unique (graph st) = k /\
              map value_unique (graph_inputs (graph st)) = seq 0 k /\
              active st = false /\
              var_flags st = replicate num_stages ([], [])) /\
  f0 <= next_variable w /\
  (forall u, is_Some (association w state u)
             <-> (u ∈ earlier \/ f0 <= u < next_variable w)) /\
  (forall x, x ∈ earlier -> x < f0).

Lemma input_refs_bounds (trace_inputs : list TraceInput) :
  forall k r, r ∈ input_refs k trace_inputs -> k <= r < k + length trace_inputs.
Proof.
  induction trace_inputs as [|ti rest IH]; intros k r Hr; cbn [input_refs] in Hr.
  - apply elem_of_nil in Hr. contradiction.
  - cbn [length]. destruct (variable ti).
    + apply elem_of_cons in Hr as [-> | Hr]; [lia|]. apply IH in Hr. lia.
    + apply IH in Hr. lia.
Qed.

Lemma input_refs_NoDup (trace_inputs : list TraceInput) :
  forall k, NoDup (input_refs k trace_inputs).
Proof.
  induction trace_inputs as [|ti rest IH]; intros k; cbn [input_refs]; [constructor|].
  destruct (variable ti); [| apply IH].
  constructor; [| apply IH].
  intros Hin. apply input_refs_bounds in Hin. lia.
Qed.

Lemma aliased_bounds (trace_inputs : list TraceInput) :
  forall fresh earlier f0 y,
    f0 <= fresh ->
    (forall x, x ∈ earlier -> x < f0) ->
    Forall (fun ti => forall v, variable ti = Some v -> v < f0) trace_inputs ->
    y ∈ aliased fresh earlier trace_inputs ->
    (y < f0 /\ y ∉ earlier) \/ fresh <= y.
Proof.
  induction trace_inputs as [|ti rest IH]; intros fresh earlier f0 y Hf He Hall Hy;
    cbn [aliased] in Hy.
  - apply elem_of_nil in Hy. contradiction.
  - inversion Hall as [|? ? Hti Hrest]; subst.
    destruct (variable ti) as [v|] eqn:Hv.
    + destruct (bool_decide (v ∈ earlier)) eqn:Hmem.
      * apply elem_of_cons in Hy as [-> | Hy]; [right; lia|].
        apply (IH (S fresh) earlier f0) in Hy; [| lia | assumption | assumption].
        destruct Hy as [Hy | Hy]; [left; assumption | right; lia].
      * apply bool_decide_eq_false in Hmem.
        apply elem_of_cons in Hy as [-> | Hy]; [left; split; [apply Hti; reflexivity | assumption]|].
        apply (IH fresh (v :: earlier) f0) in Hy; [| lia | | assumption].
        -- destruct Hy as [[Hy1 Hy2] | Hy]; [left | right; assumption].
           split; [assumption|]. intros Hin. apply Hy2. apply elem_of_cons. right. exact Hin.
        -- intros x Hx. apply elem_of_cons in Hx as [-> | Hx]; [apply Hti; reflexivity | apply He, Hx].
    + apply (IH fresh earlier f0); assumption.
Qed.

(** The returned variables are pairwise different. *)
Lemma aliased_NoDup (trace_inputs : list TraceInput) :
  forall fresh earlier f0,
    f0 <= fresh ->
    (forall x, x ∈ earlier -> x < f0) ->
    Forall (fun ti => forall v, variable ti = Some v -> v < f0) trace_inputs ->
    NoDup (aliased fresh earlier trace_inputs).
Proof.
  induction trace_inputs as [|ti rest IH]; intros fresh earlier f0 Hf He Hall;
    cbn [aliased]; [constructor|].
  inversion Hall as [|? ? Hti Hrest]; subst.
  destruct (variable ti) as [v|] eqn:Hv; [| apply (IH fresh earlier f0); assumption].
  destruct (bool_decide (v ∈ earlier)) eqn:Hmem.
  - constructor; [| apply (IH (S fresh) earlier f0); [lia | assumption | assumption]].
    intros Hin. apply (aliased_bounds rest (S fresh) earlier f0) in Hin;
      [| lia | assumption | assumption].
    destruct Hin as [[Hlt _] | Hge]; lia.
  - apply bool_decide_eq_false in Hmem.
    assert (He' : forall x, x ∈ v :: earlier -> x < f0).
    { intros x Hx. apply elem_of_cons in Hx as [-> | Hx]; [apply Hti; reflexivity | apply He, Hx]. }
    constructor; [| apply (IH fresh (v :: earlier) f0); [lia | assumption | assumption]].
    intros Hin. apply (aliased_bounds rest fresh (v :: earlier) f0) in Hin;
      [| lia | assumption | assumption].
    destruct Hin as [[_ Hnot] | Hge].
    + apply Hnot. apply elem_of_cons. left. reflexivity.
    + specialize (Hti v eq_refl). lia.
Qed.

Lemma seq_snoc (k : nat) : seq 0 (S k) = seq 0 k ++ [k].
Proof. rewrite seq_S. reflexivity. Qed.

(** The second half of a turn for a variable: the graph input is added,
    recorded for [input], and typed. *)
Lemma enter_input_records (state : StateId) (w : World) (input : VarId)
    (input_list : variable_list) (st : TracingState) :
  states w !! state = Some st ->
  association w state input = None ->
  exists w' st',
    (st <- deref w state ;;
     let '(g, input_node) := addInput (graph st) (name (impl w input)) in
     let w := set_state w state (set_graph st g) in
     w <- setValueTrace w state (Some input) input_node ;;
     st <- deref w state ;;
     let w := set_state w state
                (set_graph st (inferTypeFrom (graph st) input_node
                                             (var_data (impl w input)))) in
     Ok (w, input_list ++ [Some input]))
    = Ok (w', input_list ++ [Some input]) /\
    states w' !! state = Some st' /\
    next_unique (graph st') = S (next_unique (graph st)) /\
    map value_unique (graph_inputs (graph st'))
    = map value_unique (graph_inputs (graph st)) ++ [next_unique (graph st)] /\
    active st' = active st /\
    var_flags st' = var_flags st /\
    next_variable w' = next_variable w /\
    association w' state input
    = Some {| elem_state := state; trace := Some (next_unique (graph st)) |} /\
    (forall u, u <> input -> association w' state u = association w state u).
Proof.
  intros Hst Hnone. unfold deref at 1. rewrite Hst. cbn [bind addInput value_unique].
  set (g1 := {| next_unique := S (next_unique (graph st)); graph_inputs := _;
                graph_nodes := _; graph_outputs := _; stage := _ |}).
  set (w1 := set_state w state (set_graph st g1)).
  assert (Halive1 : is_Some (states w1 !! state)).
  { subst w1. cbn [set_state states]. rewrite lookup_insert_eq. eexists; reflexivity. }
  assert (Hnone1 : association w1 state input = None) by exact Hnone.
  destruct (setValueTrace_fresh w1 state input (next_unique (graph st)) Halive1 Hnone1)
    as (w2 & Hset & Hstates2 & Hnext2 & Hassoc2 & Hother2).
  rewrite Hset.
  cbn [bind]. unfold deref. rewrite Hstates2. subst w1. cbn [set_state states].
  rewrite lookup_insert_eq. cbn [bind].
  eexists _, _. split; [reflexivity|].
  split; [cbn [set_state states]; rewrite lookup_insert_eq; reflexivity|].
  cbn [graph set_graph].
  destruct (inferTypeFrom_uniques g1 (next_unique (graph st)) (var_data (impl w2 input)))
    as [Huniq Hnu].
  split; [rewrite Hnu; reflexivity|].
  split; [rewrite Huniq; subst g1; cbn [graph_inputs]; rewrite map_app; reflexivity|].
  split; [reflexivity|]. split; [reflexivity|].
  split; [cbn [set_state next_variable]; exact Hnext2|].
  split; [rewrite association_set_state; exact Hassoc2|].
  intros u Hu. rewrite association_set_state, (Hother2 u Hu), association_set_state.
  reflexivity.
Qed.

(** One turn of the loop of [enter] on a variable. *)
Lemma enter_input_variable (state : StateId) (f0 : VarId) (num_stages : nat)
    (w : World) (earlier : list VarId) (k : nat) (input_list : variable_list)
    (trace_input : TraceInput) (v : VarId) :
  entering state f0 num_stages w earlier k ->
  variable trace_input = Some v ->
  buffer trace_input = None ->
  v < f0 ->
  let repeated := bool_decide (v ∈ earlier) in
  let input := if repeated then next_variable w else v in
  exists w',
    enter_input state (w, input_list) trace_input = Ok (w', input_list ++ [Some input]) /\
    entering state f0 num_stages w' (if repeated then earlier else v :: earlier) (S k) /\
    next_variable w' = (if repeated then S (next_variable w) else next_variable w) /\
    recorded w' state input k /\
    (forall u r, recorded w state u r -> recorded w' state u r).
Proof.
  intros ((st & Hst & Hnu & Huniq & Hact & Hflags) & Hf0 & Hassoc & Hearlier) Hvar Hbuf Hv.
  intros repeated input.
  assert (Halive : is_Some (states w !! state)) by (eexists; exact Hst).
  unfold enter_input. rewrite Hvar, Hbuf.
  rewrite bool_decide_eq_false_2 by (intros [? ?]; discriminate).
  cbn [negb JIT_ASSERT bind].
  destruct (getValueState_lookup w state v Halive)
    as (Hstates1 & Hnext1 & Hassoc1 & Hnone1 & _).
  destruct (getValueState w state v false) as [w1 found]. cbn [fst snd] in *.
  assert (Hrep : repeated = true <-> is_Some (association w state v)).
  { subst repeated. rewrite bool_decide_eq_true, Hassoc. split; [auto | intros [H|H]; [exact H | lia]]. }
  assert (Hst1 : states w1 !! state = Some st) by (rewrite Hstates1; exact Hst).
  destruct found as [i|].
  - (* the variable is already an input of this trace: alias it *)
    assert (Hr : repeated = true).
    { apply Hrep. destruct (association w state v) eqn:Ha; [eexists; reflexivity|].
      discriminate (proj2 Hnone1 eq_refl). }
    subst input. rewrite Hr.
    pose proof (association_view w1 state v (sizes (var_data (impl w1 v)))) as Hview.
    destruct (view w1 v (sizes (var_data (impl w1 v)))) as [w2 fresh] eqn:Hv2.
    assert (Hfresh : fresh = next_variable w /\ next_variable w2 = S (next_variable w) /\
                     states w2 = states w1).
    { unfold view in Hv2. injection Hv2 as <- <-. cbn. rewrite Hnext1. auto. }
    destruct Hfresh as (-> & Hnext2 & Hstates2). cbn [fst] in Hview.
    rewrite Hnext1 in Hview. cbv beta iota.
    destruct (enter_input_records state w2 (next_variable w) input_list st)
      as (w' & st' & Heq & Hst' & Hnu' & Huniq' & Hact' & Hflags' & Hnext' & Hrec & Hother).
    { rewrite Hstates2. exact Hst1. }
    { rewrite Hview. destruct (decide _); [reflexivity | contradiction]. }
    exists w'. split; [exact Heq|].
    assert (Hassoc' : forall u, u <> next_variable w ->
                                association w' state u = association w state u).
    { intros u Hu. rewrite (Hother u Hu), Hview.
      destruct (decide _); [contradiction | apply Hassoc1]. }
    split; [| split; [rewrite Hnext'; exact Hnext2 | split]].
    + split; [exists st'; rewrite Hnu', Huniq', Huniq, Hnu, Hact', Hflags', seq_snoc; auto|].
      split; [lia|]. split; [| exact Hearlier].
      intros u. destruct (decide (u = next_variable w)) as [->|Hu].
      * rewrite Hrec. split; [intros _; right; lia | intros _; eexists; reflexivity].
      * rewrite (Hassoc' u Hu), Hassoc, Hnext', Hnext2. split; intros [H|H]; auto; right; lia.
    + eexists. split; [exact Hrec | rewrite Hnu; reflexivity].
    + intros u r (e & He & Hr'). exists e. split; [| exact Hr'].
      rewrite Hassoc'; [exact He|].
      intros ->. assert (Hs : is_Some (association w state (next_variable w)))
        by (eexists; exact He).
      apply Hassoc in Hs as [Hs|Hs]; [apply Hearlier in Hs; lia | lia].
  - (* first occurrence: the variable itself *)
    assert (Hr : repeated = false).
    { destruct repeated eqn:Hb; [| reflexivity].
      destruct (proj1 Hrep eq_refl) as [e He]. rewrite (proj1 Hnone1 eq_refl) in He.
      discriminate. }
    subst input. rewrite Hr. cbv beta iota.
    destruct (enter_input_records state w1 v input_list st)
      as (w' & st' & Heq & Hst' & Hnu' & Huniq' & Hact' & Hflags' & Hnext' & Hrec & Hother).
    { exact Hst1. }
    { rewrite Hassoc1. apply Hnone1. reflexivity. }
    exists w'. split; [exact Heq|].
    assert (Hassoc' : forall u, u <> v -> association w' state u = association w state u).
    { intros u Hu. rewrite (Hother u Hu). apply Hassoc1. }
    split; [| split; [rewrite Hnext'; exact Hnext1 | split]].
    + split; [exists st'; rewrite Hnu', Huniq', Huniq, Hnu, Hact', Hflags', seq_snoc; auto|].
      split; [lia|]. split.
      * intros u. rewrite elem_of_cons. destruct (decide (u = v)) as [->|Hu].
        -- rewrite Hrec. split; [intros _; left; left; reflexivity | intros _; eexists; reflexivity].
        -- rewrite (Hassoc' u Hu), Hassoc, Hnext', Hnext1.
           split; [intros [H|H]; auto | intros [[H|H]|H]; [contradiction | auto | auto]].
      * intros x Hx. apply elem_of_cons in Hx as [-> | Hx]; [exact Hv | apply Hearlier, Hx].
    + eexists. split; [exact Hrec | rewrite Hnu; reflexivity].
    + intros u r (e & He & Hr'). exists e. split; [| exact Hr'].
      rewrite Hassoc'; [exact He|].
      intros ->. rewrite (proj1 Hnone1 eq_refl) in He. discriminate.
Qed.

(** One turn of the loop of [enter] on a buffer. *)
Lemma enter_input_buffer (state : StateId) (f0 : VarId) (num_stages : nat)
    (w : World) (earlier : list VarId) (k : nat) (input_list : variable_list)
    (trace_input : TraceInput) (b : Buffer) :
  entering state f0 num_stages w earlier k ->
  variable trace_input = None ->
  buffer trace_input = Some b ->
  exists w',
    enter_input state (w, input_list) trace_input = Ok (w', input_list) /\
    entering state f0 num_stages w' earlier (S k) /\
    next_variable w' = next_variable w /\
    (forall u r, recorded w state u r -> recorded w' state u r).
Proof.
  intros ((st & Hst & Hnu & Huniq & Hact & Hflags) & Hf0 & Hassoc & Hearlier) Hvar Hbuf.
  unfold enter_input. rewrite Hvar, Hbuf. unfold deref. rewrite Hst.
  cbn [bind addInput value_unique].
  eexists. split; [reflexivity|]. split; [| split; [reflexivity | intros u r H; exact H]].
  split; [| split; [exact Hf0 | split; [exact Hassoc | exact Hearlier]]].
  eexists. split; [cbn [set_state states]; rewrite lookup_insert_eq; reflexivity|].
  cbn [graph active var_flags].
  match goal with
  | |- context [inferTypeFrom ?g ?v ?t] =>
      destruct (inferTypeFrom_uniques g v t) as [Hu Hn]; rewrite Hu, Hn
  end.
  cbn [next_unique graph_inputs]. rewrite map_app, Huniq, Hnu, seq_snoc. auto.
Qed.

(** A trace input whose variable, if it has one, is older than [f0]. *)
Definition input_before (f0 : VarId) (trace_input : TraceInput) : Prop :=
  match variable trace_input, buffer trace_input with
  | Some v, None => v < f0
  | None, Some _ => True
  | _, _ => False
  end.

Lemma for_each_unfold {A S} (body : S -> A -> result S) (x : A) (xs : list A) (st : S) :
  for_each body (x :: xs) st = (st' <- body st x ;; for_each body xs st').
Proof. reflexivity. Qed.

(** The loop of [enter]. *)
Lemma enter_loop (state : StateId) (f0 : VarId) (num_stages : nat)
    (trace_inputs : list TraceInput) :
  forall (w : World) (earlier : list VarId) (k : nat) (input_list : variable_list),
    entering state f0 num_stages w earlier k ->
    Forall (input_before f0) trace_inputs ->
    exists w' earlier',
      for_each (enter_input state) trace_inputs (w, input_list)
      = Ok (w', input_list ++ map Some (aliased (next_variable w) earlier trace_inputs)) /\
      entering state f0 num_stages w' earlier' (k + length trace_inputs) /\
      Forall2 (recorded w' state)
              (aliased (next_variable w) earlier trace_inputs)
              (input_refs k trace_inputs) /\
      (forall u r, recorded w state u r -> recorded w' state u r).
Proof.
  induction trace_inputs as [|ti rest IH]; intros w earlier k input_list Hinv Hall.
  - exists w, earlier. cbn [for_each aliased input_refs map length].
    rewrite app_nil_r, Nat.add_0_r.
    split; [reflexivity|]. split; [exact Hinv|]. split; [constructor | auto].
  - inversion Hall as [|? ? Hti Hrest]; subst. unfold input_before in Hti.
    rewrite for_each_unfold. cbn [aliased input_refs length].
    destruct (variable ti) as [v|] eqn:Hvar; destruct (buffer ti) as [b|] eqn:Hbuf;
      try contradiction.
    + pose proof (enter_input_variable state f0 num_stages w earlier k input_list ti v
                    Hinv Hvar Hbuf Hti) as Hturn.
      cbv zeta in Hturn.
      destruct (bool_decide (v ∈ earlier)) eqn:Hrep;
        destruct Hturn as (w1 & Hturn & Hinv1 & Hnext1 & Hrec1 & Hkeep1);
        rewrite Hturn; cbn [bind].
      * destruct (IH w1 earlier (S k) (input_list ++ [Some (next_variable w)]) Hinv1 Hrest)
          as (w' & earlier' & Hloop & Hinv' & Hrec' & Hkeep').
        exists w', earlier'. rewrite Hnext1, <- app_assoc in Hloop.
        split; [exact Hloop|].
        split; [replace (k + S (length rest)) with (S k + length rest) by lia; exact Hinv'|].
        rewrite Hnext1 in Hrec'.
        split; [constructor; [apply Hkeep', Hrec1 | exact Hrec'] | auto].
      * destruct (IH w1 (v :: earlier) (S k) (input_list ++ [Some v]) Hinv1 Hrest)
          as (w' & earlier' & Hloop & Hinv' & Hrec' & Hkeep').
        exists w', earlier'. rewrite Hnext1, <- app_assoc in Hloop.
        split; [exact Hloop|].
        split; [replace (k + S (length rest)) with (S k + length rest) by lia; exact Hinv'|].
        rewrite Hnext1 in Hrec'.
        split; [constructor; [apply Hkeep', Hrec1 | exact Hrec'] | auto].
    + destruct (enter_input_buffer state f0 num_stages w earlier k input_list ti b
                  Hinv Hvar Hbuf) as (w1 & Hturn & Hinv1 & Hnext1 & Hkeep1).
      rewrite Hturn. cbn [bind].
      destruct (IH w1 earlier (S k) input_list Hinv1 Hrest)
        as (w' & earlier' & Hloop & Hinv' & Hrec' & Hkeep').
      exists w', earlier'. rewrite Hnext1 in Hloop.
      split; [exact Hloop|].
      split; [replace (k + S (length rest)) with (S k + length rest) by lia; exact Hinv'|].
      rewrite Hnext1 in Hrec'.
      split; [exact Hrec' | auto].
Qed.

(** *** The data of the variables during trace entry *)

Lemma bind_inv {A B} (m : result A) (k : A -> result B) (b : B) :
  bind m k = Ok b -> exists a, m = Ok a /\ k a = Ok b.
Proof. destruct m as [a|f]; cbn; [eauto | discriminate]. Qed.

Lemma data_set_tracing_state (w : World) (v : VarId) (l : list ValueTracingStateElem)
    (u : VarId) :
  var_data (impl (set_tracing_state w v l) u) = var_data (impl w u).
Proof.
  unfold impl at 1, set_tracing_state. cbn [variables].
  destruct (decide (u = v)) as [->|Hne].
  - rewrite lookup_insert_eq. reflexivity.
  - rewrite lookup_insert_ne by congruence. reflexivity.
Qed.

Lemma getValueState_data (w : World) (state : StateId) (v : VarId) (alloc : bool) :
  next_variable (getValueState w state v alloc).1 = next_variable w /\
  forall u, var_data (impl (getValueState w state v alloc).1 u) = var_data (impl w u).
Proof.
  unfold getValueState. destruct (scan w state (tracing_state (impl w v))) as [l found].
  destruct found as [i|]; [| destruct alloc]; cbn [fst];
    (split; [reflexivity | intros u; apply data_set_tracing_state]).
Qed.

Lemma setValueTrace_data (w w' : World) (state : StateId) (var : Variable_) (r : ValueRef) :
  setValueTrace w state var r = Ok w' ->
  next_variable w' = next_variable w /\
  forall u, var_data (impl w' u) = var_data (impl w u).
Proof.
  destruct var as [v|]; [| discriminate]. unfold setValueTrace.
  destruct (getValueState_data w state v true) as [Hnext Hdata].
  destruct (getValueState w state v true) as [w1 vts]. cbn [fst] in *.
  destruct vts as [i|]; [| discriminate]. intros [= <-].
  split; [exact Hnext|]. intros u. rewrite data_set_tracing_state. apply Hdata.
Qed.

(** A view to the variable's own sizes is a variable over the same
    tensor. *)
Lemma view_own_sizes (w : World) (v : VarId) :
  let w' := (view w v (sizes (var_data (impl w v)))).1 in
  (view w v (sizes (var_data (impl w v)))).2 = next_variable w /\
  next_variable w' = S (next_variable w) /\
  var_data (impl w' (next_variable w)) = var_data (impl w v) /\
  forall u, u <> next_variable w -> var_data (impl w' u) = var_data (impl w u).
Proof.
  cbn [view fst snd]. split; [reflexivity|]. split; [reflexivity|].
  set (t := var_data (impl w v)). split.
  - unfold impl at 1. cbn [variables]. rewrite lookup_insert_eq.
    cbn [var_data default]. destruct t. reflexivity.
  - intros u Hu. unfold impl at 1. cbn [variables].
    rewrite lookup_insert_ne by congruence. reflexivity.
Qed.

(** One turn of the loop of [enter] leaves the tensors of the variables
    alone, and what it returns for a variable is a variable over the same
    tensor. *)
Lemma enter_input_data (state : StateId) (w w' : World)
    (input_list input_list' : variable_list) (trace_input : TraceInput) :
  enter_input state (w, input_list) trace_input = Ok (w', input_list') ->
  next_variable w <= next_variable w' /\
  (forall u, u < next_variable w -> var_data (impl w' u) = var_data (impl w u)) /\
  match variable trace_input with
  | Some v =>
      v < next_variable w ->
      exists x, input_list' = input_list ++ [Some x] /\
                x < next_variable w' /\
                var_data (impl w' x) = var_data (impl w v)
  | None => input_list' = input_list
  end.
Proof.
  unfold enter_input. destruct (variable trace_input) as [v|].
  - intros H. apply bind_inv in H as ([] & _ & H).
    destruct (getValueState_data w state v false) as [Hnext1 Hdata1].
    destruct (getValueState w state v false) as [w1 value_state]. cbn [fst] in *.
    assert (Hturn : forall (w2 : World) (input : VarId),
      next_variable w1 <= next_variable w2 ->
      (v < next_variable w -> input < next_variable w2) ->
      (forall u, u < next_variable w1 -> var_data (impl w2 u) = var_data (impl w1 u)) ->
      var_data (impl w2 input) = var_data (impl w1 v) ->
      (st <- deref w2 state ;;
       let '(g, input_node) := addInput (graph st) (name (impl w2 input)) in
       let w := set_state w2 state (set_graph st g) in
       w <- setValueTrace w state (Some input) input_node ;;
       st <- deref w state ;;
       let w := set_state w state
                  (set_graph st (inferTypeFrom (graph st) input_node
                                               (var_data (impl w input)))) in
       Ok (w, input_list ++ [Some input])) = Ok (w', input_list') ->
      next_variable w <= next_variable w' /\
      (forall u, u < next_variable w -> var_data (impl w' u) = var_data (impl w u)) /\
      (v < next_variable w ->
       exists x, input_list' = input_list ++ [Some x] /\
                 x < next_variable w' /\
                 var_data (impl w' x) = var_data (impl w v))).
    { intros w2 input Hle Hin Hkeep Hsame Hrun.
      apply bind_inv in Hrun as (st & _ & Hrun). cbn [addInput] in Hrun.
      apply bind_inv in Hrun as (w3 & Hset & Hrun).
      apply setValueTrace_data in Hset as [Hnext3 Hdata3].
      apply bind_inv in Hrun as (st3 & _ & Hrun). injection Hrun as <- <-.
      cbn [set_state next_variable] in *.
      assert (Himpl : forall u, var_data (impl (set_state w3 state
                        (set_graph st3 (inferTypeFrom (graph st3) (next_unique (graph st))
                           (var_data (impl w3 input))))) u) = var_data (impl w2 u)).
      { intros u. change (var_data (impl w3 u) = var_data (impl w2 u)).
        rewrite Hdata3. reflexivity. }
      split; [lia|]. split.
      - intros u Hu. rewrite Himpl, Hkeep by lia. apply Hdata1.
      - intros Hv. specialize (Hin Hv). exists input.
        split; [reflexivity|]. split; [lia|].
        rewrite Himpl, Hsame. apply Hdata1. }
    destruct value_state as [i|].
    + destruct (view_own_sizes w1 v) as (Hfresh & Hnext2 & Hsame & Hother).
      destruct (view w1 v (sizes (var_data (impl w1 v)))) as [w2 fresh].
      cbn [fst snd] in *. subst fresh.
      apply (Hturn w2 (next_variable w1));
        [lia | lia | intros u Hu; apply Hother; lia | exact Hsame | exact H].
    + apply (Hturn w1 v); [lia | lia | auto | reflexivity | exact H].
  - destruct (buffer trace_input) as [b|]; [| discriminate].
    intros H. apply bind_inv in H as (st & _ & H). cbn [addInput] in H.
    injection H as <- <-. split; [reflexivity|]. split; [| reflexivity].
    intros u _. reflexivity.
Qed.

(** The variables among the trace inputs, in order. *)
Definition trace_variables (trace_inputs : list TraceInput) : list VarId :=
  omap variable trace_inputs.

(** The variable [x] of the world [w'] is a variable over the tensor of
    the variable [v] of the world [w]. *)
Definition same_tensor (w w' : World) (v x : VarId) : Prop :=
  var_data (impl w' x) = var_data (impl w v).

Lemma enter_loop_data (state : StateId) (trace_inputs : list TraceInput) :
  forall (w w' : World) (input_list input_list' : variable_list),
    for_each (enter_input state) trace_inputs (w, input_list) = Ok (w', input_list') ->
    Forall (fun ti => forall v, variable ti = Some v -> v < next_variable w) trace_inputs ->
    next_variable w <= next_variable w' /\
    (forall u, u < next_variable w -> var_data (impl w' u) = var_data (impl w u)) /\
    exists xs,
      input_list' = input_list ++ map Some xs /\
      Forall2 (same_tensor w w') (trace_variables trace_inputs) xs.
Proof.
  induction trace_inputs as [|ti rest IH]; intros w w' input_list input_list' Hrun Hall.
  - injection Hrun as <- <-. split; [lia|]. split; [reflexivity|].
    exists []. rewrite app_nil_r. split; [reflexivity | constructor].
  - rewrite for_each_unfold in Hrun. apply bind_inv in Hrun as ([w1 l1] & Hturn & Hrest).
    inversion Hall as [|? ? Hti Hrest_wf]; subst.
    apply enter_input_data in Hturn as (Hle1 & Hkeep1 & Hret1).
    apply IH in Hrest as (Hle & Hkeep & xs & -> & Hxs).
    2:{ eapply Forall_impl; [exact Hrest_wf|]. intros ti' H v Hv. specialize (H v Hv). lia. }
    split; [lia|].
    assert (Hkeep' : forall u, u < next_variable w ->
                               var_data (impl w' u) = var_data (impl w u)).
    { intros u Hu. rewrite Hkeep by lia. apply Hkeep1, Hu. }
    split; [exact Hkeep'|].
    assert (Hrest_same : Forall2 (same_tensor w w') (trace_variables rest) xs).
    { assert (Hvars : Forall (fun v => v < next_variable w) (omap variable rest)).
      { clear - Hrest_wf.
        induction Hrest_wf as [|ti' rest' H _ IH']; cbn [omap list_omap]; [constructor|].
        destruct (variable ti') as [v|] eqn:Hv; [constructor; auto | exact IH']. }
      clear - Hxs Hkeep1 Hvars. unfold trace_variables in *.
      revert Hvars. induction Hxs as [|v x vs xs' Hvx _ IH']; intros Hvars; constructor.
      - unfold same_tensor in *. rewrite Hvx. apply Hkeep1.
        inversion Hvars; assumption.
      - apply IH'. inversion Hvars; assumption. }
    unfold trace_variables. cbn [omap list_omap].
    destruct (variable ti) as [v|] eqn:Hv.
    + destruct (Hret1 (Hti v eq_refl)) as (x & -> & Hx & Hsame).
      exists (x :: xs). rewrite <- app_assoc. split; [reflexivity|].
      constructor; [| exact Hrest_same].
      unfold same_tensor. rewrite Hkeep by lia. exact Hsame.
    + subst l1. exists xs. split; [reflexivity | exact Hrest_same].
Qed.

(** C6 (enter, getValueState): trace entry returns, for each variable
    among the trace inputs, the variable itself when it did not occur
    earlier in the list and a new variable (its view, over the same
    tensor) when it did; the returned variables are pairwise different,
    each one is recorded in the new state with a graph input of its own
    (graph input number [k] for trace input number [k]), and the state,
    now active, keeps the returned list as its inputs. *)
Theorem enter_aliases_repeated_inputs :
  forall (w : World) (trace_inputs : list TraceInput) (num_stages : nat),
    0 < num_stages ->
    (forall u, association w (next_state w) u = None) ->
    Forall (well_formed_input w) trace_inputs ->
    let state := next_state w in
    let returned := aliased (next_variable w) [] trace_inputs in
    exists w' st,
      enter w trace_inputs num_stages = Ok (w', state, map Some returned) /\
      states w' !! state = Some st /\
      active st = true /\
      inputs st = map Some returned /\
      map value_unique (graph_inputs (graph st)) = seq 0 (length trace_inputs) /\
      NoDup returned /\
      Forall2 (same_tensor w w') (trace_variables trace_inputs) returned /\
      Forall2 (recorded w' state) returned (input_refs 0 trace_inputs) /\
      NoDup (input_refs 0 trace_inputs).
Proof.
  intros w trace_inputs num_stages Hstages Hfresh Hwf state returned.
  assert (Hold : Forall (fun ti => forall v, variable ti = Some v -> v < next_variable w)
                        trace_inputs).
  { eapply Forall_impl; [exact Hwf|]. intros ti Hti v Hv.
    unfold well_formed_input in Hti. rewrite Hv in Hti.
    destruct (buffer ti); [contradiction | exact Hti]. }
  unfold enter. fold state.
  set (w0 := {| variables := variables w;
                states := <[state := TracingState_new num_stages]> (states w);
                next_variable := next_variable w;
                next_state := S state |}).
  assert (Hinv0 : entering state (next_variable w) num_stages w0 [] 0).
  { split; [| split; [reflexivity | split]].
    - exists (TracingState_new num_stages). subst w0. cbn [states].
      rewrite lookup_insert_eq. repeat split.
    - intros u. change (association w0 state u) with (association w state u).
      rewrite Hfresh. split; [intros [? ?]; discriminate|].
      intros [H|H]; [apply elem_of_nil in H; contradiction | cbn in H; lia].
    - intros x Hx. apply elem_of_nil in Hx. contradiction. }
  destruct (enter_loop state (next_variable w) num_stages trace_inputs w0 [] 0 [] Hinv0)
    as (w1 & earlier & Hloop & Hinv1 & Hrec & _).
  { exact Hwf. }
  change (next_variable w0) with (next_variable w) in Hloop, Hrec.
  fold returned in Hloop, Hrec. cbn [app] in Hloop.
  match goal with
  | |- context [bind ?m _] =>
      replace m with (@Ok (World * variable_list) (w1, map Some returned))
        by (symmetry; exact Hloop)
  end.
  cbn [bind].
  destruct Hinv1 as ((st1 & Hst1 & Hnu1 & Huniq1 & Hact1 & Hflags1) & _).
  unfold deref. rewrite Hst1. cbn [bind]. rewrite Hflags1.
  destruct num_stages as [|n]; [lia|]. cbn [replicate].
  eexists _, _. split; [reflexivity|].
  split; [cbn [set_state states]; rewrite lookup_insert_eq; reflexivity|].
  cbn [active inputs graph].
  split; [reflexivity|]. split; [reflexivity|].
  split; [exact Huniq1|].
  split.
  { apply (aliased_NoDup trace_inputs (next_variable w) [] (next_variable w)).
    - lia.
    - intros x Hx. apply elem_of_nil in Hx. contradiction.
    - exact Hold. }
  split.
  { destruct (enter_loop_data state trace_inputs w0 w1 [] (map Some returned) Hloop Hold)
      as (_ & _ & xs & Hxs & Hsame).
    cbn [app] in Hxs.
    assert (Heq : xs = returned).
    { clear - Hxs. revert xs Hxs. induction returned as [|r rs IH]; intros [|x xs] H;
        try discriminate; [reflexivity|].
      cbn [map] in H. injection H as -> H. f_equal. apply IH. exact H. }
    subst xs. exact Hsame. }
  split; [| apply input_refs_NoDup].
  eapply Forall2_impl; [exact Hrec|].
  intros v r (e & He & Hr). exists e. rewrite association_set_state. auto.
Qed.

(** *** Which state a function is recorded to *)

(** The states of the elements that are alive and active, in the order
    the loops of [getTracingState] meet them. *)
Fixpoint active_states_var (w : World) (l : list ValueTracingStateElem) : list StateId :=
  match l with
  | [] => []
  | vts :: rest =>
      if isElemActive w vts then elem_state vts :: active_states_var w rest
      else active_states_var w rest
  end.

Fixpoint active_states (w : World) (vars : variable_list) : list StateId :=
  match vars with
  | [] => []
  | None :: rest => active_states w rest
  | Some v :: rest =>
      active_states_var w (tracing_state (impl w v)) ++ active_states w rest
  end.

(** What meeting these states one after the other does to the state
    found so far. *)
Fixpoint agree (met : list StateId) (state : option StateId) : result (option StateId) :=
  match met with
  | [] => Ok state
  | s :: rest =>
      match state with
      | None => agree rest (Some s)
      | Some s0 => if Nat.eqb s0 s then agree rest (Some s0) else Fail assertion_failed
      end
  end.

Lemma getTracingState_var_agree (w : World) (l : list ValueTracingStateElem) :
  forall state, getTracingState_var w l state = agree (active_states_var w l) state.
Proof.
  induction l as [|vts rest IH]; intros state; [reflexivity|].
  cbn [getTracingState_var active_states_var]. unfold isElemActive.
  destruct (states w !! elem_state vts) as [var_state|]; [| apply IH].
  destruct (active var_state); [| apply IH].
  cbn [agree]. destruct state as [s0|].
  - destruct (Nat.eqb_spec s0 (elem_state vts)) as [->|Hne].
    + rewrite bool_decide_eq_true_2 by reflexivity. cbn [JIT_ASSERT bind]. apply IH.
    + rewrite bool_decide_eq_false_2 by congruence. reflexivity.
  - rewrite bool_decide_eq_true_2 by reflexivity. cbn [JIT_ASSERT bind]. apply IH.
Qed.

Lemma agree_app (a b : list StateId) :
  forall state, agree (a ++ b) state = (state' <- agree a state ;; agree b state').
Proof.
  induction a as [|s a IH]; intros state; [reflexivity|].
  cbn [app agree]. destruct state as [s0|]; [| apply IH].
  destruct (Nat.eqb s0 s); [apply IH | reflexivity].
Qed.

Lemma getTracingState_vars_agree (w : World) (vars : variable_list) :
  forall state, getTracingState_vars w vars state = agree (active_states w vars) state.
Proof.
  induction vars as [|[v|] rest IH]; intros state; cbn [getTracingState_vars active_states].
  - reflexivity.
  - rewrite agree_app, getTracingState_var_agree.
    destruct (agree _ state); cbn [bind]; [apply IH | reflexivity].
  - apply IH.
Qed.

Lemma agree_Some (met : list StateId) (s0 : StateId) :
  (agree met (Some s0) = Ok (Some s0) /\ forall s, s ∈ met -> s = s0) \/
  (agree met (Some s0) = Fail assertion_failed /\ exists s, s ∈ met /\ s <> s0).
Proof.
  induction met as [|s met IH]; cbn [agree].
  - left. split; [reflexivity|]. intros s Hs. apply elem_of_nil in Hs. contradiction.
  - destruct (Nat.eqb_spec s0 s) as [<-|Hne].
    + destruct IH as [[Hok Hall] | [Hfail (s & Hs & Hne)]].
      * left. split; [exact Hok|]. intros s Hs.
        apply elem_of_cons in Hs as [-> | Hs]; [reflexivity | apply Hall, Hs].
      * right. split; [exact Hfail|]. exists s. split; [| exact Hne].
        apply elem_of_cons. right. exact Hs.
    + right. split; [reflexivity|]. exists s. split; [| congruence].
      apply elem_of_cons. left. reflexivity.
Qed.

Lemma active_states_var_elem (w : World) (l : list ValueTracingStateElem) (s : StateId) :
  s ∈ active_states_var w l <->
  exists vts, vts ∈ l /\ isElemActive w vts = true /\ elem_state vts = s.
Proof.
  induction l as [|e l IH]; cbn [active_states_var].
  - split; [intros H; apply elem_of_nil in H; contradiction|].
    intros (vts & H & _). apply elem_of_nil in H. contradiction.
  - destruct (isElemActive w e) eqn:He.
    + rewrite elem_of_cons, IH. split.
      * intros [-> | (vts & Hin & Hact & Hs)].
        -- exists e. split; [apply elem_of_cons; left; reflexivity | auto].
        -- exists vts. split; [apply elem_of_cons; right; exact Hin | auto].
      * intros (vts & Hin & Hact & Hs). apply elem_of_cons in Hin as [-> | Hin].
        -- left. symmetry. exact Hs.
        -- right. exists vts. auto.
    + rewrite IH. split.
      * intros (vts & Hin & Hact & Hs).
        exists vts. split; [apply elem_of_cons; right; exact Hin | auto].
      * intros (vts & Hin & Hact & Hs). apply elem_of_cons in Hin as [-> | Hin].
        -- congruence.
        -- exists vts. auto.
Qed.

Lemma active_states_elem (w : World) (vars : variable_list) (s : StateId) :
  s ∈ active_states w vars <->
  exists v vts, Some v ∈ vars /\ vts ∈ tracing_state (impl w v) /\
                isElemActive w vts = true /\ elem_state vts = s.
Proof.
  induction vars as [|[v|] rest IH]; cbn [active_states].
  - split; [intros H; apply elem_of_nil in H; contradiction|].
    intros (v & vts & H & _). apply elem_of_nil in H. contradiction.
  - rewrite elem_of_app, active_states_var_elem, IH. split.
    + intros [(vts & Hin & Hact & Hs) | (u & vts & Hu & Hin & Hact & Hs)].
      * exists v, vts. split; [apply elem_of_cons; left; reflexivity | auto].
      * exists u, vts. split; [apply elem_of_cons; right; exact Hu | auto].
    + intros (u & vts & Hu & Hin & Hact & Hs).
      apply elem_of_cons in Hu as [[= ->] | Hu].
      * left. exists vts. auto.
      * right. exists u, vts. auto.
  - rewrite IH. split.
    + intros (u & vts & Hu & Hrest).
      exists u, vts. split; [apply elem_of_cons; right; exact Hu | exact Hrest].
    + intros (u & vts & Hu & Hrest).
      apply elem_of_cons in Hu as [Hu | Hu]; [discriminate|].
      exists u, vts. split; assumption.
Qed.

Lemma isTracingVar_list_active (w : World) (vars : variable_list) :
  isTracingVar_list w vars = negb (bool_decide (active_states w vars = [])).
Proof.
  assert (Hvar : forall l, existsb (isElemActive w) l
                           = negb (bool_decide (active_states_var w l = []))).
  { induction l as [|e l IH]; [reflexivity|].
    cbn [existsb active_states_var]. destruct (isElemActive w e); [reflexivity | exact IH]. }
  induction vars as [|[v|] rest IH]; cbn [isTracingVar_list isTracingVar active_states].
  - reflexivity.
  - rewrite Hvar.
    destruct (active_states_var w (tracing_state (impl w v))) as [|s a]; [exact IH|].
    reflexivity.
  - exact IH.
Qed.

(** X18 (getTracingState, isTracingVar, isElemActive): the state a
    function applied to [vars] is recorded to.  [getTracingState] returns
    a state exactly when some variable is tracing and every element of the
    variables whose state is alive and active belongs to that one state.
    When no variable is tracing, and when two of them trace to different
    states, it stops on an assertion; it fails in no other way. *)
Theorem getTracingState_spec :
  forall (w : World) (vars : variable_list),
    (forall state,
        getTracingState w vars = Ok state <->
        isTracingVar_list w vars = true /\
        forall v vts, Some v ∈ vars -> vts ∈ tracing_state (impl w v) ->
                      isElemActive w vts = true -> elem_state vts = state) /\
    (isTracingVar_list w vars = false -> getTracingState w vars = Fail assertion_failed) /\
    (forall f, getTracingState w vars = Fail f -> f = assertion_failed).
Proof.
  intros w vars. unfold getTracingState.
  rewrite getTracingState_vars_agree, isTracingVar_list_active.
  pose proof (active_states_elem w vars) as Helem.
  destruct (active_states w vars) as [|s0 met]; cbn [agree bind].
  - rewrite bool_decide_eq_true_2 by reflexivity. cbn [negb].
    split; [| split; [reflexivity | intros f [= <-]; reflexivity]].
    intros state. split; [discriminate | intros [H _]; discriminate].
  - rewrite bool_decide_eq_false_2 by discriminate. cbn [negb].
    destruct (agree_Some met s0) as [[-> Hall] | [-> (s & Hs & Hne)]]; cbn [bind].
    + split; [| split; [discriminate | discriminate]].
      intros state. split.
      * intros [= <-]. split; [reflexivity|]. intros v vts Hv Hin Hact.
        assert (Hmem : elem_state vts ∈ s0 :: met) by (apply Helem; eauto 6).
        apply elem_of_cons in Hmem as [Heq | Hmem]; [exact Heq | apply Hall, Hmem].
      * intros [_ Hone]. f_equal.
        assert (Hmem : s0 ∈ s0 :: met) by (apply elem_of_cons; left; reflexivity).
        apply Helem in Hmem as (v & vts & Hv & Hin & Hact & <-).
        apply (Hone v vts Hv Hin Hact).
    + split; [| split; [discriminate | intros f [= <-]; reflexivity]].
      intros state. split; [discriminate|]. intros [_ Hone]. exfalso.
      assert (Hmem0 : s0 ∈ s0 :: met) by (apply elem_of_cons; left; reflexivity).
      assert (Hmem : s ∈ s0 :: met) by (apply elem_of_cons; right; exact Hs).
      apply Helem in Hmem0 as (v0 & vts0 & Hv0 & Hin0 & Hact0 & Heq0).
      apply Helem in Hmem as (v & vts & Hv & Hin & Hact & Heq).
      apply Hne. rewrite <- Heq, <- Heq0.
      rewrite (Hone v vts Hv Hin Hact), (Hone v0 vts0 Hv0 Hin0 Hact0). reflexivity.
Qed.

(** *** Recording a value and reading it back *)

(** The walk of [getValueState]: what it keeps, and where it stops. *)
Lemma scan_shape (w : World) (state : StateId) (l : list ValueTracingStateElem) :
  (forall s, is_Some (states w !! s) ->
             find_state s (scan w state l).1 = find_state s l) /\
  match (scan w state l).2 with
  | Some i => exists pre e post,
                (scan w state l).1 = pre ++ e :: post /\ length pre = i /\
                elem_state e = state /\
                Forall (fun x => elem_state x <> state) pre
  | None => Forall (fun x => elem_state x <> state) (scan w state l).1
  end.
Proof.
  induction l as [|e l [IH1 IH2]]; [split; [reflexivity | constructor]|].
  cbn [scan]. destruct (states w !! elem_state e) as [st|] eqn:He.
  - destruct (Nat.eqb_spec (elem_state e) state) as [Heq|Hne]; cbn [fst snd].
    + split; [reflexivity|]. exists [], e, l.
      split; [reflexivity|]. split; [reflexivity|]. split; [exact Heq | constructor].
    + destruct (scan w state l) as [l' found]. cbn [fst snd] in *. split.
      * intros s Hs. cbn [find_state List.find].
        destruct (Nat.eqb (elem_state e) s); [reflexivity | apply IH1, Hs].
      * destruct found as [i|]; cbn [fmap option_fmap option_map].
        -- destruct IH2 as (pre & x & post & -> & Hlen & Hx & Hpre).
           exists (e :: pre), x, post. cbn [length app].
           split; [reflexivity|]. split; [congruence|].
           split; [exact Hx | constructor; assumption].
        -- constructor; assumption.
  - split; [| exact IH2]. intros s Hs. rewrite IH1 by exact Hs.
    cbn [find_state List.find].
    destruct (Nat.eqb_spec (elem_state e) s) as [Heq|Hne]; [| reflexivity].
    rewrite Heq in He. rewrite He in Hs. destruct Hs; discriminate.
Qed.

Lemma find_state_skip (state : StateId) (pre l : list ValueTracingStateElem) :
  Forall (fun x => elem_state x <> state) pre ->
  find_state state (pre ++ l) = find_state state l.
Proof.
  induction 1 as [|x pre Hx _ IH]; [reflexivity|].
  cbn [app find_state List.find]. rewrite (proj2 (Nat.eqb_neq _ _) Hx). exact IH.
Qed.

Lemma find_state_none (state : StateId) (l : list ValueTracingStateElem) :
  Forall (fun x => elem_state x <> state) l -> find_state state l = None.
Proof.
  intros H. rewrite <- (app_nil_r l). rewrite find_state_skip by exact H. reflexivity.
Qed.

(** Writing the trace of the element at position [length pre]. *)
Lemma find_state_alter (s : StateId) (r : ValueRef)
    (pre post : list ValueTracingStateElem) (e : ValueTracingStateElem) :
  find_state s
    (alter (fun e => {| elem_state := elem_state e; trace := Some r |})
           (length pre) (pre ++ e :: post))
  = if Nat.eqb (elem_state e) s
    then match find_state s pre with
         | Some x => Some x
         | None => Some {| elem_state := elem_state e; trace := Some r |}
         end
    else find_state s (pre ++ e :: post).
Proof.
  induction pre as [|x pre IH]; cbn [length app alter list_alter find_state List.find].
  - cbn [elem_state]. destruct (Nat.eqb (elem_state e) s); reflexivity.
  - destruct (Nat.eqb (elem_state x) s) eqn:Hx.
    + destruct (Nat.eqb (elem_state e) s); reflexivity.
    + exact IH.
Qed.

(** [setValueTrace] on a defined variable always succeeds: afterwards
    [state] has [value] recorded for the variable; no other variable is
    touched, and what another live state has recorded stays. *)
Lemma setValueTrace_spec (w : World) (state : StateId) (v : VarId) (value : ValueRef) :
  exists w',
    setValueTrace w state (Some v) value = Ok w' /\
    states w' = states w /\
    next_variable w' = next_variable w /\
    next_state w' = next_state w /\
    association w' state v = Some {| elem_state := state; trace := Some value |} /\
    (forall u, u <> v -> impl w' u = impl w u) /\
    (forall u, var_data (impl w' u) = var_data (impl w u)) /\
    (forall s, s <> state -> is_Some (states w !! s) ->
               association w' s v = association w s v).
Proof.
  unfold setValueTrace, getValueState.
  destruct (scan_shape w state (tracing_state (impl w v))) as [Hkeep Hfound].
  destruct (scan w state (tracing_state (impl w v))) as [l found]. cbn [fst snd] in *.
  assert (Himpl : forall w0 l0 u, u <> v -> impl (set_tracing_state w0 v l0) u = impl w0 u).
  { intros w0 l0 u Hu. unfold impl, set_tracing_state. cbn [variables].
    rewrite lookup_insert_ne by congruence. reflexivity. }
  destruct found as [i|].
  - destruct Hfound as (pre & e & post & -> & <- & He & Hpre).
    eexists. split; [reflexivity|]. split; [reflexivity|]. split; [reflexivity|].
    split; [reflexivity|].
    split; [| split; [| split]].
    + unfold association. rewrite !impl_set_tracing_state.
      destruct (decide (v = v)); [| contradiction].
      rewrite find_state_alter, He, Nat.eqb_refl, (find_state_none state pre Hpre).
      reflexivity.
    + intros u Hu. rewrite !Himpl by exact Hu. reflexivity.
    + intros u. rewrite !data_set_tracing_state. reflexivity.
    + intros s Hs Halive. unfold association. rewrite !impl_set_tracing_state.
      destruct (decide (v = v)); [| contradiction].
      rewrite find_state_alter, He, (proj2 (Nat.eqb_neq _ _)) by congruence.
      apply Hkeep, Halive.
  - eexists. split; [reflexivity|]. split; [reflexivity|]. split; [reflexivity|].
    split; [reflexivity|].
    split; [| split; [| split]].
    + unfold association. rewrite !impl_set_tracing_state.
      destruct (decide (v = v)); [| contradiction].
      cbn [alter list_alter find_state List.find elem_state].
      rewrite Nat.eqb_refl. reflexivity.
    + intros u Hu. rewrite !Himpl by exact Hu. reflexivity.
    + intros u. rewrite !data_set_tracing_state. reflexivity.
    + intros s Hs Halive. unfold association. rewrite !impl_set_tracing_state.
      destruct (decide (v = v)); [| contradiction].
      cbn [alter list_alter find_state List.find elem_state].
      rewrite (proj2 (Nat.eqb_neq _ _)) by congruence.
      apply Hkeep, Halive.
Qed.

(** Looking a variable up without allocating changes nothing a live
    state has recorded. *)
Lemma getValueState_keeps (w : World) (state : StateId) (v : VarId) :
  let w' := (getValueState w state v false).1 in
  states w' = states w /\
  next_state w' = next_state w /\
  (forall u, var_data (impl w' u) = var_data (impl w u)) /\
  (forall s u, is_Some (states w !! s) -> association w' s u = association w s u).
Proof.
  unfold getValueState.
  destruct (scan_shape w state (tracing_state (impl w v))) as [Hkeep _].
  destruct (scan w state (tracing_state (impl w v))) as [l found]. cbn [fst snd] in *.
  assert (H : forall s u, is_Some (states w !! s) ->
                          association (set_tracing_state w v l) s u = association w s u).
  { intros s u Hs. unfold association. rewrite impl_set_tracing_state.
    destruct (decide (u = v)) as [->|]; [apply Hkeep, Hs | reflexivity]. }
  destruct found as [i|]; cbn [fst];
    (split; [reflexivity|]; split; [reflexivity|];
     split; [intros u; apply data_set_tracing_state | exact H]).
Qed.

(** [getOutputTrace] gives what the state has recorded. *)
Lemma getOutputTrace_recorded (w : World) (state : StateId) (v : VarId)
    (e : ValueTracingStateElem) (output_no : nat) :
  is_Some (states w !! state) ->
  association w state v = Some e ->
  exists w',
    getOutputTrace w state (Some v) output_no = Ok (w', trace e) /\
    states w' = states w /\
    next_state w' = next_state w /\
    (forall u, var_data (impl w' u) = var_data (impl w u)) /\
    (forall s u, is_Some (states w !! s) -> association w' s u = association w s u).
Proof.
  intros Halive He. cbn [getOutputTrace].
  destruct (getValueState_lookup w state v Halive) as (_ & _ & _ & Hnone & Hsome).
  destruct (getValueState_keeps w state v) as (Hstates & Hnext & Hdata & Hkeep).
  destruct (getValueState w state v false) as [w' found]. cbn [fst snd] in *.
  destruct found as [k|].
  - rewrite (Hsome k eq_refl), He. exists w'. repeat split; assumption.
  - rewrite (proj1 Hnone eq_refl) in He. discriminate.
Qed.

(** X19 (setValueTrace, getOutputTrace, getValueState): a recorded value
    is read back.  Recording [value] for a defined variable in a live
    state succeeds, and [getOutputTrace] then gives [value] for that
    variable, whatever was recorded before; what this state has recorded
    for other variables, and what other live states have recorded, is as
    it was.  Recording for the undefined variable stops on an
    assertion. *)
Theorem setValueTrace_then_getOutputTrace :
  forall (w : World) (state : StateId) (v : VarId) (value : ValueRef) (output_no : nat),
    is_Some (states w !! state) ->
    (exists w1 w2,
        setValueTrace w state (Some v) value = Ok w1 /\
        getOutputTrace w1 state (Some v) output_no = Ok (w2, Some value) /\
        states w2 = states w /\
        (forall s u, is_Some (states w !! s) -> (s, u) <> (state, v) ->
                     association w2 s u = association w s u)) /\
    setValueTrace w state None value = Fail assertion_failed.
Proof.
  intros w state v value output_no Halive. split; [| reflexivity].
  destruct (setValueTrace_spec w state v value)
    as (w1 & Hset & Hstates1 & _ & _ & Hrec & Hother & _ & Hstate).
  assert (Halive1 : is_Some (states w1 !! state)) by (rewrite Hstates1; exact Halive).
  destruct (getOutputTrace_recorded w1 state v _ output_no Halive1 Hrec)
    as (w2 & Hget & Hstates2 & _ & _ & Hkeep).
  cbn [trace] in Hget.
  exists w1, w2. split; [exact Hset|]. split; [exact Hget|].
  split; [congruence|].
  intros s u Hs Hne. rewrite Hkeep by (rewrite Hstates1; exact Hs).
  destruct (decide (u = v)) as [->|Hu].
  - apply Hstate; [congruence | exact Hs].
  - unfold association. rewrite (Hother u Hu). reflexivity.
Qed.

(** *** The value of an operand *)

(** Looking a variable up with allocation: the element of [state] is
    found, or made with no value in it. *)
Lemma getValueState_alloc (w : World) (state : StateId) (v : VarId) :
  is_Some (states w !! state) ->
  let w' := (getValueState w state v true).1 in
  exists i e,
    (getValueState w state v true).2 = Some i /\
    tracing_state (impl w' v) !! i = Some e /\
    association w' state v = Some e /\
    e = default {| elem_state := state; trace := None |} (association w state v) /\
    states w' = states w /\
    next_variable w' = next_variable w /\
    next_state w' = next_state w /\
    (forall u, var_data (impl w' u) = var_data (impl w u)) /\
    (forall s u, is_Some (states w !! s) -> (s, u) <> (state, v) ->
                 association w' s u = association w s u).
Proof.
  intros Halive. unfold getValueState.
  destruct (scan_shape w state (tracing_state (impl w v))) as [Hkeep Hfound].
  destruct (scan w state (tracing_state (impl w v))) as [l found]. cbn [fst snd] in *.
  pose proof (Hkeep state Halive) as Hown. fold (association w state v) in Hown.
  destruct found as [i|]; cbn [fst snd].
  - destruct Hfound as (pre & e & post & -> & <- & He & Hpre).
    rewrite find_state_skip in Hown by exact Hpre.
    cbn [find_state List.find] in Hown.
    rewrite (proj2 (Nat.eqb_eq _ _) He) in Hown.
    exists (length pre), e. split; [reflexivity|].
    rewrite impl_set_tracing_state. destruct (decide (v = v)); [| contradiction].
    split; [apply list_lookup_middle; reflexivity|].
    split.
    { unfold association. rewrite impl_set_tracing_state.
      destruct (decide (v = v)); [| contradiction].
      rewrite find_state_skip by exact Hpre. cbn [find_state List.find].
      rewrite (proj2 (Nat.eqb_eq _ _) He). reflexivity. }
    split; [rewrite <- Hown; reflexivity|].
    split; [reflexivity|]. split; [reflexivity|]. split; [reflexivity|].
    split; [intros u; apply data_set_tracing_state|].
    intros s u Hs Hne. unfold association. rewrite impl_set_tracing_state.
    destruct (decide (u = v)) as [->|]; [apply Hkeep, Hs | reflexivity].
  - rewrite (find_state_none state l Hfound) in Hown.
    exists 0, {| elem_state := state; trace := None |}. split; [reflexivity|].
    rewrite impl_set_tracing_state. destruct (decide (v = v)); [| contradiction].
    split; [reflexivity|].
    split.
    { unfold association. rewrite impl_set_tracing_state.
      destruct (decide (v = v)); [| contradiction].
      cbn [find_state List.find elem_state]. rewrite Nat.eqb_refl. reflexivity. }
    split; [rewrite <- Hown; reflexivity|].
    split; [reflexivity|]. split; [reflexivity|]. split; [reflexivity|].
    split; [intros u; apply data_set_tracing_state|].
    intros s u Hs Hne. unfold association. rewrite impl_set_tracing_state.
    destruct (decide (u = v)) as [->|]; [| reflexivity].
    cbn [find_state List.find elem_state].
    rewrite (proj2 (Nat.eqb_neq _ _)) by congruence. apply Hkeep, Hs.
Qed.

(** [getValueTrace] on a defined variable, by what the state has
    recorded for it and by what the buffer map holds. *)
Lemma getValueTrace_defined (createConstant : ConstantHook) (unsafeGetTH : Tensor -> BufferId)
    (w : World) (state : StateId) (v : VarId) (st : TracingState) :
  states w !! state = Some st ->
  let t := var_data (impl w v) in
  let e := default {| elem_state := state; trace := None |} (association w state v) in
  exists w',
    getValueTrace createConstant unsafeGetTH w state (Some v)
    = Ok (w', match trace e with
              | Some r => r
              | None => match buffer_map st !! unsafeGetTH t with
                        | Some r => r
                        | None => (createConstant (graph st) t).2
                        end
              end) /\
    (forall u, var_data (impl w' u) = var_data (impl w u)) /\
    match trace e, buffer_map st !! unsafeGetTH t with
    | None, None =>
        states w'
        = <[state := set_graph st (inferTypeFrom (createConstant (graph st) t).1
                                                 (createConstant (graph st) t).2 t)]>
            (states w) /\
        association w' state v
        = Some {| elem_state := state; trace := Some (createConstant (graph st) t).2 |}
    | _, _ => states w' = states w /\ association w' state v = Some e
    end.
Proof.
  intros Hst t e. cbn [getValueTrace].
  assert (Halive : is_Some (states w !! state)) by (eexists; exact Hst).
  destruct (getValueState_alloc w state v Halive)
    as (i & e' & Hfound & Hi & Hassoc & He' & Hstates & _ & _ & Hdata & _).
  fold e in He'. subst e'.
  destruct (getValueState w state v true) as [w1 found]. cbn [fst snd] in *.
  subst found. rewrite Hi.
  destruct (trace e) as [r|] eqn:Hr.
  { exists w1. split; [reflexivity|]. split; [exact Hdata|]. split; assumption. }
  unfold deref. rewrite Hstates, Hst. cbn [bind]. rewrite Hdata. fold t.
  destruct (buffer_map st !! unsafeGetTH t) as [r|].
  { exists w1. split; [reflexivity|]. split; [exact Hdata|]. split; assumption. }
  destruct (createConstant (graph st) t) as [g constant]. cbn [fst snd].
  destruct (setValueTrace_spec
              (set_state w1 state (set_graph st (inferTypeFrom g constant t)))
              state v constant)
    as (w2 & Hset & Hstates2 & _ & _ & Hrec & _ & Hdata2 & _).
  rewrite Hset. cbn [bind]. exists w2. split; [reflexivity|].
  split; [intros u; rewrite Hdata2; apply Hdata|].
  split; [| exact Hrec].
  rewrite Hstates2. cbn [set_state states]. rewrite Hstates. reflexivity.
Qed.

(** X20 (getValueTrace): what an operand resolves to.  In a live state, a
    variable the state has a value recorded for resolves to that value
    and nothing changes in any state.  A variable without one resolves to
    the graph input of the buffer its tensor is registered as, when it is
    registered: then the graph stays as it is and the variable still has
    no value recorded (only an empty element of the state).  Otherwise a
    constant node is made for the tensor, typed from it, and its output
    is recorded for the variable and returned. *)
Theorem getValueTrace_resolves :
  forall (createConstant : ConstantHook) (unsafeGetTH : Tensor -> BufferId)
         (w : World) (state : StateId) (v : VarId) (st : TracingState),
    states w !! state = Some st ->
    let t := var_data (impl w v) in
    (forall r, recorded w state v r ->
       exists w', getValueTrace createConstant unsafeGetTH w state (Some v) = Ok (w', r) /\
                  states w' = states w /\ recorded w' state v r) /\
    ((forall r, ~ recorded w state v r) ->
       match buffer_map st !! unsafeGetTH t with
       | Some r =>
           exists w', getValueTrace createConstant unsafeGetTH w state (Some v) = Ok (w', r) /\
                      states w' = states w /\
                      exists e, association w' state v = Some e /\ trace e = None
       | None =>
           let g := (createConstant (graph st) t).1 in
           let constant := (createConstant (graph st) t).2 in
           exists w', getValueTrace createConstant unsafeGetTH w state (Some v)
                      = Ok (w', constant) /\
                      states w' = <[state := set_graph st (inferTypeFrom g constant t)]>
                                    (states w) /\
                      recorded w' state v constant
       end).
Proof.
  intros createConstant unsafeGetTH w state v st Hst t.
  destruct (getValueTrace_defined createConstant unsafeGetTH w state v st Hst)
    as (w' & Hget & _ & Hafter).
  fold t in Hget, Hafter. split.
  - intros r (e & He & Hr). rewrite He in Hget, Hafter. cbn [from_option id] in Hget, Hafter.
    rewrite Hr in Hget, Hafter. exists w'. split; [exact Hget|].
    destruct Hafter as [Hstates Hassoc]. split; [exact Hstates|].
    exists e. split; assumption.
  - intros Hnone.
    assert (Htrace : trace (default {| elem_state := state; trace := None |}
                              (association w state v)) = None).
    { destruct (association w state v) as [e|] eqn:He; [| reflexivity].
      cbn [from_option id]. destruct (trace e) as [r|] eqn:Hr; [| reflexivity].
      exfalso. apply (Hnone r). exists e. split; assumption. }
    rewrite Htrace in Hget, Hafter.
    destruct (buffer_map st !! unsafeGetTH t) as [r|].
    + exists w'. split; [exact Hget|]. destruct Hafter as [Hstates Hassoc].
      split; [exact Hstates|]. eexists. split; [exact Hassoc | exact Htrace].
    + cbv zeta. exists w'. split; [exact Hget|]. destruct Hafter as [Hstates Hassoc].
      split; [exact Hstates|]. eexists. split; [exact Hassoc | reflexivity].
Qed.

(** X21 (getValueTrace): asking again gives the same value.  When
    [getValueTrace] has resolved a defined variable in a live state,
    resolving it again gives the same value and leaves every tracing
    state, the graph among them, as the first call left it: a constant is
    embedded once.  For the undefined variable every call appends a new
    Undefined node and returns its output. *)
Theorem getValueTrace_again :
  forall (createConstant : ConstantHook) (unsafeGetTH : Tensor -> BufferId)
         (w w1 : World) (state : StateId) (v : VarId) (r : ValueRef),
    is_Some (states w !! state) ->
    getValueTrace createConstant unsafeGetTH w state (Some v) = Ok (w1, r) ->
    (exists w2,
        getValueTrace createConstant unsafeGetTH w1 state (Some v) = Ok (w2, r) /\
        states w2 = states w1) /\
    (forall st, states w !! state = Some st ->
       getValueTrace createConstant unsafeGetTH w state None
       = Ok (set_state w state
               (set_graph st
                  {| next_unique := S (next_unique (graph st));
                     graph_inputs := graph_inputs (graph st);
                     graph_nodes :=
                       graph_nodes (graph st)
                       ++ [{| node_kind := kUndefined;
                              node_output := {| value_unique := next_unique (graph st);
                                                value_name := "";
                                                value_type := DynamicType |} |}];
                     graph_outputs := graph_outputs (graph st);
                     stage := stage (graph st) |}),
             next_unique (graph st))).
Proof.
  intros createConstant unsafeGetTH w w1 state v r [st Hst] Hfirst.
  split; [| intros st' Hst'; cbn [getValueTrace]; unfold deref; rewrite Hst'; reflexivity].
  destruct (getValueTrace_defined createConstant unsafeGetTH w state v st Hst)
    as (w' & Hget & Hdata & Hafter).
  rewrite Hfirst in Hget. injection Hget as <- Hr.
  set (e := default {| elem_state := state; trace := None |} (association w state v)) in *.
  set (t := var_data (impl w v)) in *.
  assert (Hcases :
    exists st1 e1, states w1 !! state = Some st1 /\ association w1 state v = Some e1 /\
      (trace e1 = Some r \/
       (trace e1 = None /\ buffer_map st1 !! unsafeGetTH t = Some r))).
  { destruct (trace e) as [r0|] eqn:Htrace.
    - destruct Hafter as [Hstates Hassoc]. exists st, e.
      rewrite Hstates. split; [exact Hst|]. split; [exact Hassoc|]. left. congruence.
    - destruct (buffer_map st !! unsafeGetTH t) as [r0|] eqn:Hbuf.
      + destruct Hafter as [Hstates Hassoc]. exists st, e.
        rewrite Hstates. split; [exact Hst|]. split; [exact Hassoc|]. right.
        split; [exact Htrace | congruence].
      + destruct Hafter as [Hstates Hassoc]. eexists _, _.
        rewrite Hstates, lookup_insert_eq. split; [reflexivity|].
        split; [exact Hassoc|]. left. cbn [trace]. congruence. }
  destruct Hcases as (st1 & e1 & Hst1 & Hassoc1 & Hcase).
  destruct (getValueTrace_defined createConstant unsafeGetTH w1 state v st1 Hst1)
    as (w2 & Hget2 & _ & Hafter2).
  rewrite Hassoc1 in Hget2, Hafter2. cbn [from_option id] in Hget2, Hafter2.
  rewrite Hdata in Hget2, Hafter2. fold t in Hget2, Hafter2.
  exists w2. destruct Hcase as [Hrec | [Hnone Hbuf]].
  - rewrite Hrec in Hget2, Hafter2. split; [exact Hget2 | apply Hafter2].
  - rewrite Hnone, Hbuf in Hget2, Hafter2. split; [exact Hget2 | apply Hafter2].
Qed.

(** *** What trace exit registers *)

(** The outputs of a trace: a defined variable is registered as the value
    the state has recorded for it, an undefined one as the output of a
    new Undefined node, whose value takes the next unique number [n]. *)
Inductive registers (w : World) (state : StateId)
    : nat -> variable_list -> list ValueRef -> list TracedNode -> Prop :=
| registers_nil n : registers w state n [] [] []
| registers_defined n v r rest refs new :
    recorded w state v r ->
    registers w state n rest refs new ->
    registers w state n (Some v :: rest) (r :: refs) new
| registers_undefined n rest refs new :
    registers w state (S n) rest refs new ->
    registers w state n (None :: rest) (n :: refs)
      ({| node_kind := kUndefined;
          node_output := {| value_unique := n; value_name := "";
                            value_type := DynamicType |} |} :: new).

Lemma registers_ext (w w' : World) (state : StateId) :
  (forall u, association w' state u = association w state u) ->
  forall n outputs refs new,
    registers w state n outputs refs new -> registers w' state n outputs refs new.
Proof.
  intros Hsame n outputs refs new H. induction H as [| n v r rest refs new (e & He & Hr) _ IH |].
  - constructor.
  - constructor; [| exact IH]. exists e. rewrite Hsame. split; assumption.
  - constructor. assumption.
Qed.

Lemma registers_functional (w : World) (state : StateId) :
  forall n outputs refs new refs' new',
    registers w state n outputs refs new ->
    registers w state n outputs refs' new' ->
    refs = refs' /\ new = new'.
Proof.
  intros n outputs refs new refs' new' H. revert refs' new'.
  induction H as [| n v r rest refs new (e & He & Hr) _ IH | n rest refs new _ IH];
    intros refs' new' H'; inversion H'; subst.
  - split; reflexivity.
  - match goal with
    | Hrec : recorded _ _ _ _, Hrest : registers _ _ _ rest _ _ |- _ =>
        destruct Hrec as (e' & He' & Hr'); destruct (IH _ _ Hrest) as [-> ->]
    end.
    split; [| reflexivity]. f_equal. congruence.
  - match goal with
    | Hrest : registers _ _ _ rest _ _ |- _ => destruct (IH _ _ Hrest) as [-> ->]
    end.
    split; reflexivity.
Qed.

Lemma flags_set_tracing_state (w : World) (v : VarId) (l : list ValueTracingStateElem)
    (var : Variable_) :
  VariableFlags_of (set_tracing_state w v l) var = VariableFlags_of w var.
Proof.
  destruct var as [u|]; [| reflexivity]. unfold VariableFlags_of, impl at 1 2.
  unfold set_tracing_state. cbn [variables].
  destruct (decide (u = v)) as [->|Hne].
  - rewrite lookup_insert_eq. reflexivity.
  - rewrite lookup_insert_ne by congruence. reflexivity.
Qed.

Lemma getValueState_flags (w : World) (state : StateId) (v : VarId) (alloc : bool)
    (var : Variable_) :
  VariableFlags_of (getValueState w state v alloc).1 var = VariableFlags_of w var.
Proof.
  unfold getValueState. destruct (scan w state (tracing_state (impl w v))) as [l found].
  destruct found as [i|]; [| destruct alloc]; cbn [fst]; apply flags_set_tracing_state.
Qed.

(** The graph of the state after the outputs [refs] were registered and
    the nodes [new] appended. *)
Definition exited_graph (g : Graph) (refs : list ValueRef) (new : list TracedNode) : Graph :=
  {| next_unique := next_unique g + length new;
     graph_inputs := graph_inputs g;
     graph_nodes := graph_nodes g ++ new;
     graph_outputs := graph_outputs g ++ refs;
     stage := stage g |}.

Lemma exit_loop_run (state : StateId) (outputs : variable_list) :
  forall (w : World) (i : nat) (refs : list ValueRef) (new : list TracedNode)
         (st : TracingState),
    states w !! state = Some st ->
    registers w state (next_unique (graph st)) outputs refs new ->
    exists w',
      exit_loop w state outputs i = Ok w' /\
      states w' = <[state := set_graph st (exited_graph (graph st) refs new)]> (states w) /\
      (forall var, VariableFlags_of w' var = VariableFlags_of w var) /\
      (forall s u, is_Some (states w !! s) -> association w' s u = association w s u).
Proof.
  induction outputs as [|output rest IH]; intros w i refs new st Hst Hreg;
    inversion Hreg; subst; cbn [exit_loop].
  - exists w. split; [reflexivity|]. split; [| split; [reflexivity | reflexivity]].
    unfold exited_graph. cbn [length]. rewrite Nat.add_0_r, !app_nil_r.
    destruct st as [[] ? ? ? ?]. cbn. rewrite insert_id by exact Hst. reflexivity.
  - match goal with Hrec : recorded _ _ _ _ |- _ => destruct Hrec as (e & He & Hr) end.
    assert (Halive : is_Some (states w !! state)) by (eexists; exact Hst).
    destruct (getOutputTrace_recorded w state v e i Halive He)
      as (w1 & Hget & Hstates1 & _ & _ & Hkeep1).
    rewrite Hget, Hr. cbn [bind]. unfold state_registerOutput, deref.
    rewrite Hstates1, Hst. cbn [bind].
    set (st2 := set_graph st (registerOutput (graph st) r)).
    destruct (IH (set_state w1 state st2) (S i) refs0 new st2) as (w' & Hloop & Hstates & Hflags & Hkeep).
    { cbn [set_state states]. rewrite lookup_insert_eq. reflexivity. }
    { apply (registers_ext w); [| assumption].
      intros u. rewrite association_set_state. apply Hkeep1, Halive. }
    exists w'. split; [exact Hloop|]. split; [| split].
    + rewrite Hstates. cbn [set_state states]. rewrite Hstates1, insert_insert_eq.
      subst st2. unfold exited_graph, set_graph, registerOutput. cbn.
      rewrite <- app_assoc. reflexivity.
    + intros var. rewrite Hflags.
      change (VariableFlags_of (set_state w1 state st2) var) with (VariableFlags_of w1 var).
      assert (Hw1 : w1 = (getValueState w state v false).1).
      { cbn [getOutputTrace] in Hget.
        destruct (getValueState w state v false) as [wx found]. cbn [fst].
        destruct found as [k|]; [| discriminate].
        destruct (tracing_state (impl wx v) !! k); [| discriminate].
        injection Hget as -> _. reflexivity. }
      rewrite Hw1. apply getValueState_flags.
    + intros s u Hs. rewrite Hkeep.
      * rewrite association_set_state. apply Hkeep1, Hs.
      * cbn [set_state states]. rewrite Hstates1.
        destruct (decide (s = state)) as [->|Hne];
          [rewrite lookup_insert_eq; eexists; reflexivity
          | rewrite lookup_insert_ne by congruence; exact Hs].
  - cbn [getOutputTrace]. unfold deref. rewrite Hst. cbn [bind appendUndefined value_unique].
    unfold state_registerOutput, deref. cbn [set_state states].
    rewrite lookup_insert_eq. cbn [bind].
    match goal with
    | |- context [exit_loop ?w2 state rest (S i)] => set (w2' := w2)
    end.
    match goal with
    | Hrest : registers _ _ _ rest ?refs' ?new' |- _ =>
        destruct (IH w2' (S i) refs' new'
                    (set_graph (set_graph st (appendUndefined (graph st)).1)
                       (registerOutput (graph (set_graph st (appendUndefined (graph st)).1))
                          (next_unique (graph st)))))
          as (w' & Hloop & Hstates & Hflags & Hkeep)
    end.
    { subst w2'. cbn [set_state states]. rewrite lookup_insert_eq. reflexivity. }
    { apply (registers_ext w); [intros u; reflexivity | assumption]. }
    exists w'. split; [exact Hloop|]. split; [| split].
    + rewrite Hstates. subst w2'. cbn [set_state states]. rewrite !insert_insert_eq.
      unfold exited_graph, set_graph, registerOutput. cbn.
      rewrite <- !app_assoc. cbn [app].
      replace (S (next_unique (graph st) + length new0))
        with (next_unique (graph st) + S (length new0)) by lia.
      reflexivity.
    + intros var. rewrite Hflags. reflexivity.
    + intros s u Hs. rewrite Hkeep; [reflexivity|].
      subst w2'. cbn [set_state states].
      destruct (decide (s = state)) as [->|Hne];
        [rewrite lookup_insert_eq; eexists; reflexivity
        | rewrite !lookup_insert_ne by congruence; exact Hs].
Qed.

Lemma exit_loop_inv (state : StateId) (outputs : variable_list) :
  forall (w w' : World) (i : nat) (st : TracingState),
    states w !! state = Some st ->
    exit_loop w state outputs i = Ok w' ->
    exists refs new, registers w state (next_unique (graph st)) outputs refs new.
Proof.
  induction outputs as [|[v|] rest IH]; intros w w' i st Hst Hrun.
  - exists [], []. constructor.
  - cbn [exit_loop] in Hrun. apply bind_inv in Hrun as ([w1 r] & Hget & Hrun).
    apply bind_inv in Hrun as (w2 & Hreg & Hrun).
    assert (Halive : is_Some (states w !! state)) by (eexists; exact Hst).
    destruct (association w state v) as [e|] eqn:He.
    2:{ rewrite (getOutputTrace_unassociated w state v i Halive He) in Hget. discriminate. }
    destruct (getOutputTrace_recorded w state v e i Halive He)
      as (w1' & Hget' & Hstates1 & _ & _ & Hkeep1).
    rewrite Hget in Hget'. injection Hget' as <- ->.
    unfold state_registerOutput, deref in Hreg. rewrite Hstates1, Hst in Hreg.
    cbn [bind] in Hreg. destruct (trace e) as [r|] eqn:Hr; [| discriminate].
    injection Hreg as <-.
    apply IH with (st := set_graph st (registerOutput (graph st) r)) in Hrun
      as (refs & new & Hrest).
    2:{ cbn [set_state states]. rewrite lookup_insert_eq. reflexivity. }
    exists (r :: refs), new. constructor; [exists e; split; assumption|].
    apply (registers_ext (set_state w1 state (set_graph st (registerOutput (graph st) r))));
      [| exact Hrest].
    intros u. rewrite association_set_state. symmetry. apply Hkeep1, Halive.
  - cbn [exit_loop getOutputTrace] in Hrun. unfold deref in Hrun. rewrite Hst in Hrun.
    cbn [bind appendUndefined value_unique] in Hrun.
    unfold state_registerOutput, deref in Hrun. cbn [set_state states] in Hrun.
    rewrite lookup_insert_eq in Hrun. cbn [bind] in Hrun.
    eapply IH in Hrun as (refs & new & Hrest).
    2:{ cbn [set_state states]. rewrite lookup_insert_eq. reflexivity. }
    cbn [graph set_graph registerOutput next_unique] in Hrest.
    eexists (_ :: refs), (_ :: new). constructor.
    apply (registers_ext _ w) in Hrest; [exact Hrest | intros u; reflexivity].
Qed.

(** [_exit] on outputs that all resolve. *)
Lemma exit_run (w : World) (state : StateId) (outputs : variable_list) (st : TracingState)
    (refs : list ValueRef) (new : list TracedNode)
    (flags : list VariableFlags * list VariableFlags) :
  states w !! state = Some st ->
  registers w state (next_unique (graph st)) outputs refs new ->
  var_flags st !! stage (graph st) = Some flags ->
  exists w', _exit w state outputs = Ok w' /\
    states w'
    = <[state := {| graph := exited_graph (graph st) refs new;
                    buffer_map := buffer_map st;
                    active := false;
                    inputs := inputs st;
                    var_flags := <[stage (graph st) := (flags.1, getVarFlags w outputs)]>
                                   (var_flags st) |}]> (states w).
Proof.
  intros Hst Hreg Hflags.
  destruct (exit_loop_run state outputs w 0 refs new st Hst Hreg)
    as (w1 & Hloop & Hstates1 & Hflags1 & _).
  unfold _exit. rewrite Hloop. cbn [bind]. unfold deref.
  rewrite Hstates1, lookup_insert_eq. cbn [bind set_graph var_flags graph exited_graph stage].
  rewrite Hflags. eexists. split; [reflexivity|].
  cbn [set_state states]. rewrite Hstates1, insert_insert_eq.
  unfold getVarFlags. rewrite (map_ext _ _ Hflags1). reflexivity.
Qed.

(** X22 (_exit, getOutputTrace): what trace exit does to the state.  In a
    live state [_exit] succeeds exactly when every defined output has a
    value recorded by the state and the state has a flags entry for the
    stage of its graph.  It then registers one graph output per output
    variable, in order: the recorded value of a defined variable, the
    output of a new Undefined node for an undefined one.  The graph
    inputs, the buffer map and the inputs of the state stay; the state
    becomes inactive, and the flags of the outputs are stored for the
    stage.  No other state is touched. *)
Theorem exit_registers_outputs :
  forall (w : World) (state : StateId) (outputs : variable_list) (st : TracingState),
    states w !! state = Some st ->
    ((exists w', _exit w state outputs = Ok w') <->
     (exists refs new, registers w state (next_unique (graph st)) outputs refs new) /\
     is_Some (var_flags st !! stage (graph st))) /\
    (forall w' refs new flags,
        _exit w state outputs = Ok w' ->
        registers w state (next_unique (graph st)) outputs refs new ->
        var_flags st !! stage (graph st) = Some flags ->
        states w'
        = <[state := {| graph := exited_graph (graph st) refs new;
                        buffer_map := buffer_map st;
                        active := false;
                        inputs := inputs st;
                        var_flags := <[stage (graph st) := (flags.1, getVarFlags w outputs)]>
                                       (var_flags st) |}]> (states w)).
Proof.
  intros w state outputs st Hst.
  split; [split|].
  - intros [w' Hexit]. unfold _exit in Hexit.
    apply bind_inv in Hexit as (w1 & Hloop & Hexit).
    destruct (exit_loop_inv state outputs w w1 0 st Hst Hloop) as (refs & new & Hreg).
    split; [exists refs, new; exact Hreg|].
    destruct (exit_loop_run state outputs w 0 refs new st Hst Hreg)
      as (w1' & Hloop' & Hstates1 & _).
    rewrite Hloop in Hloop'. injection Hloop' as <-.
    unfold deref in Hexit. rewrite Hstates1, lookup_insert_eq in Hexit.
    cbn [bind set_graph var_flags graph exited_graph stage] in Hexit.
    destruct (var_flags st !! stage (graph st)); [eexists; reflexivity | discriminate].
  - intros [(refs & new & Hreg) [flags Hflags]].
    destruct (exit_run w state outputs st refs new flags Hst Hreg Hflags) as (w' & Hexit & _).
    exists w'. exact Hexit.
  - intros w' refs new flags Hexit Hreg Hflags.
    destruct (exit_run w state outputs st refs new flags Hst Hreg Hflags) as (w'' & Hexit' & Hstates).
    rewrite Hexit in Hexit'. injection Hexit' as <-. exact Hstates.
Qed.

(** *** The graph trace entry builds *)

Definition type_of (t : Tensor) : Type_ :=
  TensorType (scalarType t) (sizes t) (strides t).

(** The tensor a trace input stands for. *)
Definition input_tensor (w : World) (trace_input : TraceInput) : option Tensor :=
  match variable trace_input with
  | Some v => Some (var_data (impl w v))
  | None => buffer_tensor <$> buffer trace_input
  end.

(** The graph input [val] has the type of the tensor of the trace input. *)
Definition typed (w : World) (trace_input : TraceInput) (val : Value) : Prop :=
  exists t, input_tensor w trace_input = Some t /\ value_type val = type_of t.

(** The position, counted from [k], of the first trace input that is the
    buffer [id]. *)
Fixpoint first_buffer (k : nat) (id : BufferId) (trace_inputs : list TraceInput)
    : option ValueRef :=
  match trace_inputs with
  | [] => None
  | trace_input :: rest =>
      match variable trace_input, buffer trace_input with
      | None, Some b =>
          if Nat.eqb (buffer_id b) id then Some k else first_buffer (S k) id rest
      | _, _ => first_buffer (S k) id rest
      end
  end.

Lemma infer_older_inputs (l : list Value) (k : nat) (t : Tensor) :
  map value_unique l = seq 0 k ->
  map (fun x => if Nat.eqb (value_unique x) k then set_type t x else x) l = l.
Proof.
  intros Hl. rewrite <- (map_id l) at 2. apply map_ext_in. intros x Hx.
  assert (Hin : In (value_unique x) (seq 0 k)) by (rewrite <- Hl; apply in_map, Hx).
  apply in_seq in Hin. rewrite (proj2 (Nat.eqb_neq _ _)) by lia. reflexivity.
Qed.

(** The graph after [addInput] and [inferTypeFrom] on the new input. *)
Lemma addInput_typed (g : Graph) (nm : string) (t : Tensor) :
  map value_unique (graph_inputs g) = seq 0 (next_unique g) ->
  let g' := inferTypeFrom (addInput g nm).1 (next_unique g) t in
  graph_inputs g'
  = graph_inputs g ++ [{| value_unique := next_unique g; value_name := nm;
                          value_type := type_of t |}] /\
  length (graph_nodes g') = length (graph_nodes g) /\
  graph_outputs g' = graph_outputs g /\
  stage g' = stage g.
Proof.
  intros Hl. cbn [addInput inferTypeFrom fst graph_inputs graph_nodes graph_outputs stage
                  value_unique].
  split; [| split; [apply length_map | split; reflexivity]].
  rewrite map_app, (infer_older_inputs _ _ t Hl). cbn [map value_unique].
  rewrite Nat.eqb_refl. reflexivity.
Qed.

(** One turn of the loop of [enter], seen from the graph. *)
Lemma enter_input_graph (state : StateId) (f0 : VarId) (num_stages : nat)
    (w w' : World) (earlier : list VarId) (k : nat) (l l' : variable_list)
    (trace_input : TraceInput) (st : TracingState) :
  entering state f0 num_stages w earlier k ->
  states w !! state = Some st ->
  enter_input state (w, l) trace_input = Ok (w', l') ->
  exists st' val,
    states w' !! state = Some st' /\
    typed w trace_input val /\
    graph_inputs (graph st') = graph_inputs (graph st) ++ [val] /\
    length (graph_nodes (graph st')) = length (graph_nodes (graph st)) /\
    graph_outputs (graph st') = graph_outputs (graph st) /\
    stage (graph st') = stage (graph st) /\
    (forall id, buffer_map st' !! id
                = match buffer_map st !! id with
                  | Some r => Some r
                  | None => first_buffer k id [trace_input]
                  end).
Proof.
  intros ((st0 & Hst0 & Hnu & Huniq & _) & _) Hst Hrun.
  rewrite Hst in Hst0. injection Hst0 as <-.
  unfold enter_input in Hrun. unfold typed, input_tensor. cbn [first_buffer].
  destruct (variable trace_input) as [v|].
  - apply bind_inv in Hrun as ([] & _ & Hrun).
    destruct (getValueState_keeps w state v) as (Hstates1 & _ & Hdata1 & _).
    destruct (getValueState w state v false) as [w1 value_state]. cbn [fst] in *.
    assert (Hturn : forall (w2 : World) (input : VarId),
      states w2 = states w ->
      var_data (impl w2 input) = var_data (impl w v) ->
      (st <- deref w2 state ;;
       let '(g, input_node) := addInput (graph st) (name (impl w2 input)) in
       let w := set_state w2 state (set_graph st g) in
       w <- setValueTrace w state (Some input) input_node ;;
       st <- deref w state ;;
       let w := set_state w state
                  (set_graph st (inferTypeFrom (graph st) input_node
                                               (var_data (impl w input)))) in
       Ok (w, l ++ [Some input])) = Ok (w', l') ->
      exists st' val,
        states w' !! state = Some st' /\
        (exists t, Some (var_data (impl w v)) = Some t /\ value_type val = type_of t) /\
        graph_inputs (graph st') = graph_inputs (graph st) ++ [val] /\
        length (graph_nodes (graph st')) = length (graph_nodes (graph st)) /\
        graph_outputs (graph st') = graph_outputs (graph st) /\
        stage (graph st') = stage (graph st) /\
        (forall id, buffer_map st' !! id
                    = match buffer_map st !! id with
                      | Some r => Some r
                      | None => match buffer trace_input with
                                | Some _ => None
                                | None => None
                                end
                      end)).
    { intros w2 input Hstates2 Hsame Hturn.
      unfold deref at 1 in Hturn. rewrite Hstates2, Hst in Hturn.
      cbn [bind] in Hturn.
      destruct (addInput (graph st) (name (impl w2 input))) as [g1 input_node] eqn:Hadd.
      assert (Hnode : input_node = next_unique (graph st))
        by (unfold addInput in Hadd; injection Hadd as _ <-; reflexivity).
      assert (Hg1 : g1 = (addInput (graph st) (name (impl w2 input))).1)
        by (rewrite Hadd; reflexivity).
      destruct (setValueTrace_spec (set_state w2 state (set_graph st g1)) state input
                  input_node)
        as (w4 & Hset & Hstates4 & _ & _ & _ & _ & Hdata4 & _).
      rewrite Hset in Hturn. cbn [bind] in Hturn.
      unfold deref in Hturn. rewrite Hstates4 in Hturn. cbn [set_state states] in Hturn.
      rewrite lookup_insert_eq in Hturn. cbn [bind graph set_graph] in Hturn.
      injection Hturn as <- <-.
      rewrite Hdata4.
      change (var_data (impl (set_state w2 state (set_graph st g1)) input))
        with (var_data (impl w2 input)).
      rewrite Hsame, Hnode, Hg1.
      assert (Huniq' : map value_unique (graph_inputs (graph st))
                       = seq 0 (next_unique (graph st))) by (rewrite Hnu; exact Huniq).
      destruct (addInput_typed (graph st) (name (impl w2 input)) (var_data (impl w v)) Huniq')
        as (Hin & Hnodes & Hout & Hstage).
      eexists _, _. split; [cbn [set_state states]; rewrite lookup_insert_eq; reflexivity|].
      cbn [graph buffer_map].
      refine (conj _ (conj Hin (conj Hnodes (conj Hout (conj Hstage _))))).
      - eexists. split; reflexivity.
      - intros id. cbn [set_graph buffer_map].
        destruct (buffer_map st !! id); destruct (buffer trace_input); reflexivity. }
    destruct value_state as [i|].
    + destruct (view_own_sizes w1 v) as (Hfresh & _ & Hsame & _).
      destruct (view w1 v (sizes (var_data (impl w1 v)))) as [w2 fresh] eqn:Hview.
      cbn [fst snd] in *. subst fresh.
      destruct (Hturn w2 (next_variable w1)) as (st' & val & H1 & H2 & H3 & H4 & H5 & H6 & H7).
      * unfold view in Hview. injection Hview as <-. cbn [states]. exact Hstates1.
      * rewrite Hsame. apply Hdata1.
      * exact Hrun.
      * exists st', val. repeat (split; [assumption|]).
        intros id. rewrite H7. destruct (buffer_map st !! id); [reflexivity|].
        destruct (buffer trace_input); reflexivity.
    + destruct (Hturn w1 v) as (st' & val & H1 & H2 & H3 & H4 & H5 & H6 & H7).
      * exact Hstates1.
      * apply Hdata1.
      * exact Hrun.
      * exists st', val. repeat (split; [assumption|]).
        intros id. rewrite H7. destruct (buffer_map st !! id); [reflexivity|].
        destruct (buffer trace_input); reflexivity.
  - destruct (buffer trace_input) as [b|]; [| discriminate].
    unfold deref in Hrun. rewrite Hst in Hrun. cbn [bind] in Hrun.
    destruct (addInput (graph st) "") as [g n] eqn:Hadd.
    assert (Hn : n = next_unique (graph st))
      by (unfold addInput in Hadd; injection Hadd as _ <-; reflexivity).
    assert (Hg : g = (addInput (graph st) "").1) by (rewrite Hadd; reflexivity).
    injection Hrun as <- <-.
    assert (Huniq' : map value_unique (graph_inputs (graph st))
                     = seq 0 (next_unique (graph st))) by (rewrite Hnu; exact Huniq).
    destruct (addInput_typed (graph st) "" (buffer_tensor b) Huniq')
      as (Hin & Hnodes & Hout & Hstage).
    rewrite Hn, Hg.
    eexists _, _. split; [cbn [set_state states]; rewrite lookup_insert_eq; reflexivity|].
    cbn [graph buffer_map].
    refine (conj _ (conj Hin (conj Hnodes (conj Hout (conj Hstage _)))));
      [eexists; split; reflexivity|].
    intros id. destruct (buffer_map st !! buffer_id b) as [r0|] eqn:Hb.
    + destruct (buffer_map st !! id) as [r|] eqn:Hid; [reflexivity|].
      destruct (Nat.eqb_spec (buffer_id b) id) as [Heq|Hne]; [congruence | reflexivity].
    + destruct (Nat.eqb_spec (buffer_id b) id) as [<-|Hne].
      * rewrite lookup_insert_eq, Hb, Hnu. reflexivity.
      * rewrite lookup_insert_ne by congruence.
        destruct (buffer_map st !! id); reflexivity.
Qed.

Lemma typed_older (w w1 : World) (f0 : VarId) (trace_inputs : list TraceInput) :
  (forall u, u < f0 -> var_data (impl w1 u) = var_data (impl w u)) ->
  Forall (input_before f0) trace_inputs ->
  forall vals, Forall2 (typed w1) trace_inputs vals -> Forall2 (typed w) trace_inputs vals.
Proof.
  intros Hdata Hall vals H. induction H as [|ti val tis vals (t & Ht & Hty) _ IH];
    constructor.
  - inversion Hall as [|? ? Hti _]; subst. exists t. split; [| exact Hty].
    unfold input_tensor, input_before in *.
    destruct (variable ti) as [v|]; [| exact Ht].
    destruct (buffer ti); [contradiction|]. rewrite <- Hdata by exact Hti. exact Ht.
  - apply IH. inversion Hall; assumption.
Qed.

(** The loop of [enter], seen from the graph. *)
Lemma enter_loop_graph (state : StateId) (f0 : VarId) (num_stages : nat)
    (trace_inputs : list TraceInput) :
  forall (w w' : World) (earlier : list VarId) (k : nat) (l l' : variable_list)
         (st : TracingState),
    entering state f0 num_stages w earlier k ->
    Forall (input_before f0) trace_inputs ->
    states w !! state = Some st ->
    for_each (enter_input state) trace_inputs (w, l) = Ok (w', l') ->
    exists st' vals,
      states w' !! state = Some st' /\
      graph_inputs (graph st') = graph_inputs (graph st) ++ vals /\
      Forall2 (typed w) trace_inputs vals /\
      length (graph_nodes (graph st')) = length (graph_nodes (graph st)) /\
      graph_outputs (graph st') = graph_outputs (graph st) /\
      stage (graph st') = stage (graph st) /\
      (forall id, buffer_map st' !! id
                  = match buffer_map st !! id with
                    | Some r => Some r
                    | None => first_buffer k id trace_inputs
                    end).
Proof.
  induction trace_inputs as [|ti rest IH]; intros w w' earlier k l l' st Hinv Hall Hst Hrun.
  - injection Hrun as <- <-. exists st, []. rewrite app_nil_r.
    split; [exact Hst|]. split; [reflexivity|]. split; [constructor|].
    repeat (split; [reflexivity|]). intros id. cbn [first_buffer].
    destruct (buffer_map st !! id); reflexivity.
  - rewrite for_each_unfold in Hrun. apply bind_inv in Hrun as ([w1 l1] & Hturn & Hrest).
    inversion Hall as [|? ? Hti Hrest_before]; subst.
    destruct (enter_input_graph state f0 num_stages w w1 earlier k l l1 ti st Hinv Hst Hturn)
      as (st1 & val & Hst1 & Hval & Hin1 & Hnodes1 & Hout1 & Hstage1 & Hbuf1).
    destruct (enter_input_data state w w1 l l1 ti Hturn) as (_ & Hdata1 & _).
    assert (Hf0 : f0 <= next_variable w) by (destruct Hinv as (_ & H & _); exact H).
    assert (Hinv1 : exists earlier1, entering state f0 num_stages w1 earlier1 (S k)).
    { unfold input_before in Hti.
      destruct (variable ti) as [v|] eqn:Hvar; destruct (buffer ti) as [b|] eqn:Hbuf;
        try contradiction.
      - pose proof (enter_input_variable state f0 num_stages w earlier k l ti v
                      Hinv Hvar Hbuf Hti) as Hstep.
        cbv zeta in Hstep. destruct Hstep as (w1' & Heq & Hinv1 & _).
        rewrite Hturn in Heq. injection Heq as <- _. eexists. exact Hinv1.
      - destruct (enter_input_buffer state f0 num_stages w earlier k l ti b Hinv Hvar Hbuf)
          as (w1' & Heq & Hinv1 & _).
        rewrite Hturn in Heq. injection Heq as <- _. eexists. exact Hinv1. }
    destruct Hinv1 as [earlier1 Hinv1].
    destruct (IH w1 w' earlier1 (S k) l1 l' st1 Hinv1 Hrest_before Hst1 Hrest)
      as (st' & vals & Hst' & Hin & Htyped & Hnodes & Hout & Hstage & Hbuf).
    exists st', (val :: vals). split; [exact Hst'|].
    split; [rewrite Hin, Hin1, <- app_assoc; reflexivity|].
    split.
    { constructor; [exact Hval|].
      apply (typed_older w w1 f0 rest); [| exact Hrest_before | exact Htyped].
      intros u Hu. apply Hdata1. lia. }
    split; [congruence|]. split; [congruence|]. split; [congruence|].
    intros id. rewrite Hbuf, Hbuf1. cbn [first_buffer].
    destruct (buffer_map st !! id) as [r|]; [reflexivity|].
    destruct (variable ti); [reflexivity|].
    destruct (buffer ti) as [b|]; [| reflexivity].
    destruct (Nat.eqb (buffer_id b) id); reflexivity.
Qed.

Lemma entering_new (w : World) (num_stages : nat) :
  (forall u, association w (next_state w) u = None) ->
  entering (next_state w) (next_variable w) num_stages
    {| variables := variables w;
       states := <[next_state w := TracingState_new num_stages]> (states w);
       next_variable := next_variable w;
       next_state := S (next_state w) |} [] 0.
Proof.
  intros Hfresh. split; [| split; [reflexivity | split]].
  - exists (TracingState_new num_stages). cbn [states].
    rewrite lookup_insert_eq. repeat split.
  - intros u.
    change (association _ (next_state w) u) with (association w (next_state w) u).
    rewrite Hfresh. split; [intros [? ?]; discriminate|].
    intros [H|H]; [apply elem_of_nil in H; contradiction | cbn in H; lia].
  - intros x Hx. apply elem_of_nil in Hx. contradiction.
Qed.

(** Everything trace entry leaves behind. *)
Lemma enter_result (w : World) (trace_inputs : list TraceInput) (num_stages : nat) :
  0 < num_stages ->
  (forall u, association w (next_state w) u = None) ->
  Forall (well_formed_input w) trace_inputs ->
  let state := next_state w in
  let returned := aliased (next_variable w) [] trace_inputs in
  exists w' st,
    enter w trace_inputs num_stages = Ok (w', state, map Some returned) /\
    states w' !! state = Some st /\
    active st = true /\
    inputs st = map Some returned /\
    var_flags st = (getVarFlags w' (map Some returned), [])
                   :: replicate (num_stages - 1) ([], []) /\
    next_unique (graph st) = length trace_inputs /\
    map value_unique (graph_inputs (graph st)) = seq 0 (length trace_inputs) /\
    Forall2 (typed w) trace_inputs (graph_inputs (graph st)) /\
    graph_nodes (graph st) = [] /\
    graph_outputs (graph st) = [] /\
    stage (graph st) = 0 /\
    (forall id, buffer_map st !! id = first_buffer 0 id trace_inputs) /\
    Forall2 (recorded w' state) returned (input_refs 0 trace_inputs).
Proof.
  intros Hstages Hfresh Hwf state returned.
  pose proof (entering_new w num_stages Hfresh) as Hinv0. fold state in Hinv0.
  unfold enter. fold state.
  set (w0 := {| variables := variables w;
                states := <[state := TracingState_new num_stages]> (states w);
                next_variable := next_variable w;
                next_state := S state |}) in *.
  destruct (enter_loop state (next_variable w) num_stages trace_inputs w0 [] 0 [] Hinv0)
    as (w1 & earlier & Hloop & Hinv1 & Hrec & _).
  { exact Hwf. }
  change (next_variable w0) with (next_variable w) in Hloop, Hrec.
  fold returned in Hloop, Hrec. cbn [app] in Hloop.
  destruct (enter_loop_graph state (next_variable w) num_stages trace_inputs w0 w1 [] 0 []
              (map Some returned) (TracingState_new num_stages) Hinv0)
    as (st1 & vals & Hst1 & Hin & Htyped & Hnodes & Hout & Hstage & Hbuf);
    [exact Hwf | subst w0; cbn [states]; apply lookup_insert_eq | exact Hloop |].
  match goal with
  | |- context [bind ?m _] =>
      replace m with (@Ok (World * variable_list) (w1, map Some returned))
        by (symmetry; exact Hloop)
  end.
  cbn [bind].
  destruct Hinv1 as ((st1' & Hst1' & Hnu1 & Huniq1 & Hact1 & Hflags1) & _).
  rewrite Hst1 in Hst1'. injection Hst1' as <-.
  unfold deref. rewrite Hst1. cbn [bind]. rewrite Hflags1.
  destruct num_stages as [|n]; [lia|]. cbn [replicate].
  eexists _, _. split; [reflexivity|].
  split; [cbn [set_state states]; rewrite lookup_insert_eq; reflexivity|].
  cbn [active inputs graph var_flags buffer_map snd].
  split; [reflexivity|]. split; [reflexivity|].
  split; [replace (S n - 1) with n by lia; reflexivity|].
  split; [rewrite Hnu1; lia|].
  split; [exact Huniq1|].
  cbn [TracingState_new graph Graph_new graph_inputs graph_nodes graph_outputs stage
       buffer_map app length] in Hin, Hnodes, Hout, Hstage, Hbuf.
  split.
  { rewrite Hin.
    apply (typed_older w w0 (next_variable w) trace_inputs);
      [intros u _; reflexivity | exact Hwf | exact Htyped]. }
  split; [destruct (graph_nodes (graph st1)); [reflexivity | discriminate]|].
  split; [exact Hout|]. split; [exact Hstage|].
  split; [intros id; rewrite Hbuf, lookup_empty; reflexivity|].
  eapply Forall2_impl; [exact Hrec|].
  intros v r (e & He & Hr). exists e. rewrite association_set_state. auto.
Qed.


(** X24 (enter, getValueTrace): buffers.  After trace entry the buffer
    map of the new state sends a buffer to the graph input made for the
    first trace input that is this buffer, and holds nothing else.  A
    variable the state has no value for, whose tensor is such a buffer,
    is then resolved to that graph input, and no tracing state, so no
    graph, changes. *)
Theorem enter_registers_buffers :
  forall (w : World) (trace_inputs : list TraceInput) (num_stages : nat),
    0 < num_stages ->
    (forall u, association w (next_state w) u = None) ->
    Forall (well_formed_input w) trace_inputs ->
    exists w' input_list st,
      enter w trace_inputs num_stages = Ok (w', next_state w, input_list) /\
      states w' !! next_state w = Some st /\
      (forall id, buffer_map st !! id = first_buffer 0 id trace_inputs) /\
      (forall (createConstant : ConstantHook) (unsafeGetTH : Tensor -> BufferId)
              (v : VarId) (k : ValueRef),
          (forall r, ~ recorded w' (next_state w) v r) ->
          first_buffer 0 (unsafeGetTH (var_data (impl w' v))) trace_inputs = Some k ->
          exists w'',
            getValueTrace createConstant unsafeGetTH w' (next_state w) (Some v)
            = Ok (w'', k) /\
            states w'' = states w').
Proof.
  intros w trace_inputs num_stages Hstages Hfresh Hwf.
  destruct (enter_result w trace_inputs num_stages Hstages Hfresh Hwf)
    as (w' & st & Henter & Hst & _ & _ & _ & _ & _ & _ & _ & _ & _ & Hbuf & _).
  eexists w', _, st. split; [exact Henter|]. split; [exact Hst|].
  split; [exact Hbuf|].
  intros createConstant unsafeGetTH v k Hnone Hk.
  destruct (getValueTrace_defined createConstant unsafeGetTH w' (next_state w) v st Hst)
    as (w'' & Hget & _ & Hafter).
  assert (Htrace : trace (default {| elem_state := next_state w; trace := None |}
                            (association w' (next_state w) v)) = None).
  { destruct (association w' (next_state w) v) as [e|] eqn:He; [| reflexivity].
    cbn [from_option id]. destruct (trace e) as [r|] eqn:Hr; [| reflexivity].
    exfalso. apply (Hnone r). exists e. split; assumption. }
  rewrite Htrace, Hbuf, Hk in Hget, Hafter.
  exists w''. split; [exact Hget | apply Hafter].
Qed.

Lemma registers_recorded (w : World) (state : StateId) (n : nat) (vs : list VarId)
    (refs : list ValueRef) :
  Forall2 (recorded w state) vs refs -> registers w state n (map Some vs) refs [].
Proof.
  induction 1 as [|v r vs refs Hv _ IH]; cbn [map]; constructor; assumption.
Qed.

(** X25 (enter, _exit): a trace that is exited at once.  Exiting a new
    trace with the variables trace entry returned as its outputs
    succeeds: the graph outputs are the graph inputs made for the
    variables among the trace inputs, in order (buffers are no outputs),
    no node is added, the state is inactive, and the flags of stage 0
    hold the flags of the returned variables as inputs and as outputs. *)
Theorem enter_then_exit :
  forall (w : World) (trace_inputs : list TraceInput) (num_stages : nat),
    0 < num_stages ->
    (forall u, association w (next_state w) u = None) ->
    Forall (well_formed_input w) trace_inputs ->
    exists w1 input_list w2 st,
      enter w trace_inputs num_stages = Ok (w1, next_state w, input_list) /\
      _exit w1 (next_state w) input_list = Ok w2 /\
      states w2 !! next_state w = Some st /\
      active st = false /\
      inputs st = input_list /\
      graph_outputs (graph st) = input_refs 0 trace_inputs /\
      map value_unique (graph_inputs (graph st)) = seq 0 (length trace_inputs) /\
      graph_nodes (graph st) = [] /\
      var_flags st !! 0 = Some (getVarFlags w1 input_list, getVarFlags w1 input_list).
Proof.
  intros w trace_inputs num_stages Hstages Hfresh Hwf.
  destruct (enter_result w trace_inputs num_stages Hstages Hfresh Hwf)
    as (w1 & st1 & Henter & Hst1 & _ & Hinputs & Hflags & Hnu & Huniq & _ & Hnodes & Hout
        & Hstage & _ & Hrec).
  cbv zeta in *.
  set (returned := aliased (next_variable w) [] trace_inputs) in *.
  pose proof (registers_recorded w1 (next_state w) (next_unique (graph st1)) returned _ Hrec)
    as Hreg.
  destruct (exit_run w1 (next_state w) (map Some returned) st1 _ []
              (getVarFlags w1 (map Some returned), []) Hst1 Hreg)
    as (w2 & Hexit & Hstates2).
  { rewrite Hflags, Hstage. reflexivity. }
  exists w1, (map Some returned), w2. eexists.
  split; [exact Henter|]. split; [exact Hexit|].
  split; [rewrite Hstates2; apply lookup_insert_eq|].
  cbn [active inputs graph exited_graph graph_outputs graph_inputs graph_nodes var_flags].
  split; [reflexivity|]. split; [exact Hinputs|].
  split; [rewrite Hout; reflexivity|]. split; [exact Huniq|].
  split; [rewrite Hnodes; reflexivity|].
  rewrite Hstage, Hflags. reflexivity.
Qed.

Lemma for_each_app {A S : Type} (body : S -> A -> result S) (xs ys : list A) :
  forall st, for_each body (xs ++ ys) st = (st' <- for_each body xs st ;; for_each body ys st').
Proof.
  induction xs as [|x xs IH]; intros st; [reflexivity|].
  cbn [app]. rewrite !for_each_unfold. destruct (body st x); cbn [bind]; [apply IH | reflexivity].
Qed.

(** X26 (enter, TraceInput): only one field may be non-null.  A trace
    input that has both a variable and a buffer, or neither, makes trace
    entry stop on an assertion when the inputs in front of it are well
    formed. *)
Theorem enter_rejects_malformed_input :
  forall (w : World) (front : list TraceInput) (trace_input : TraceInput)
         (rest : list TraceInput) (num_stages : nat),
    (forall u, association w (next_state w) u = None) ->
    Forall (well_formed_input w) front ->
    (is_Some (variable trace_input) <-> is_Some (buffer trace_input)) ->
    enter w (front ++ trace_input :: rest) num_stages = Fail assertion_failed.
Proof.
  intros w front ti rest num_stages Hfresh Hwf Hboth.
  pose proof (entering_new w num_stages Hfresh) as Hinv0.
  unfold enter. cbv zeta.
  set (w0 := {| variables := variables w;
                states := <[next_state w := TracingState_new num_stages]> (states w);
                next_variable := next_variable w;
                next_state := S (next_state w) |}) in *.
  destruct (enter_loop (next_state w) (next_variable w) num_stages front w0 [] 0 [] Hinv0)
    as (w1 & earlier & Hloop & _).
  { exact Hwf. }
  rewrite for_each_app.
  match goal with
  | |- context [bind (bind ?m _) _] =>
      replace m
        with (@Ok (World * variable_list)
                (w1, [] ++ map Some (aliased (next_variable w0) [] front)))
        by (symmetry; exact Hloop)
  end.
  cbn [bind]. rewrite for_each_unfold.
  unfold enter_input at 1.
  destruct (variable ti) as [v|]; destruct (buffer ti) as [b|].
  - rewrite bool_decide_eq_true_2 by (eexists; reflexivity). reflexivity.
  - exfalso. destruct (proj1 Hboth) as [? ?]; [eexists; reflexivity | discriminate].
  - exfalso. destruct (proj2 Hboth) as [? ?]; [eexists; reflexivity | discriminate].
  - reflexivity.
Qed.

(** *** Entering and exiting through [exit] *)

Lemma enter_input_other_states (state : StateId) (w w' : World) (l l' : variable_list)
    (trace_input : TraceInput) :
  enter_input state (w, l) trace_input = Ok (w', l') ->
  forall s, s <> state -> states w' !! s = states w !! s.
Proof.
  unfold enter_input. intros Hrun s Hs. destruct (variable trace_input) as [v|].
  - apply bind_inv in Hrun as ([] & _ & Hrun).
    destruct (getValueState_keeps w state v) as (Hstates1 & _).
    destruct (getValueState w state v false) as [w1 value_state]. cbn [fst] in *.
    assert (Hturn : forall (w2 : World) (input : VarId),
      states w2 = states w ->
      (st <- deref w2 state ;;
       let '(g, input_node) := addInput (graph st) (name (impl w2 input)) in
       let w := set_state w2 state (set_graph st g) in
       w <- setValueTrace w state (Some input) input_node ;;
       st <- deref w state ;;
       let w := set_state w state
                  (set_graph st (inferTypeFrom (graph st) input_node
                                               (var_data (impl w input)))) in
       Ok (w, l ++ [Some input])) = Ok (w', l') ->
      states w' !! s = states w !! s).
    { intros w2 input Hstates2 Hturn.
      apply bind_inv in Hturn as (st & _ & Hturn).
      destruct (addInput (graph st) (name (impl w2 input))) as [g1 input_node].
      apply bind_inv in Hturn as (w4 & Hset & Hturn).
      destruct (setValueTrace_spec (set_state w2 state (set_graph st g1)) state input
                  input_node) as (w4' & Hset' & Hstates4 & _).
      rewrite Hset in Hset'. injection Hset' as <-.
      apply bind_inv in Hturn as (st4 & _ & Hturn). injection Hturn as <- _.
      cbn [set_state states]. rewrite lookup_insert_ne by congruence.
      rewrite Hstates4. cbn [set_state states].
      rewrite lookup_insert_ne by congruence. rewrite Hstates2. reflexivity. }
    destruct value_state as [i|].
    + destruct (view w1 v (sizes (var_data (impl w1 v)))) as [w2 fresh] eqn:Hview.
      apply (Hturn w2 fresh); [| exact Hrun].
      unfold view in Hview. injection Hview as <- _. cbn [states]. exact Hstates1.
    + apply (Hturn w1 v); [exact Hstates1 | exact Hrun].
  - destruct (buffer trace_input) as [b|]; [| discriminate].
    apply bind_inv in Hrun as (st & _ & Hrun).
    destruct (addInput (graph st) "") as [g n]. injection Hrun as <- _.
    cbn [set_state states]. rewrite lookup_insert_ne by congruence. reflexivity.
Qed.

Lemma enter_loop_other_states (state : StateId) (trace_inputs : list TraceInput) :
  forall (w w' : World) (l l' : variable_list),
    for_each (enter_input state) trace_inputs (w, l) = Ok (w', l') ->
    forall s, s <> state -> states w' !! s = states w !! s.
Proof.
  induction trace_inputs as [|ti rest IH]; intros w w' l l' Hrun s Hs.
  - injection Hrun as <- _. reflexivity.
  - rewrite for_each_unfold in Hrun. apply bind_inv in Hrun as ([w1 l1] & Hturn & Hrest).
    rewrite (IH w1 w' l1 l' Hrest s Hs).
    apply (enter_input_other_states state w w1 l l1 ti Hturn s Hs).
Qed.

Lemma enter_other_states (w w' : World) (trace_inputs : list TraceInput) (num_stages : nat)
    (state : StateId) (input_list : variable_list) :
  enter w trace_inputs num_stages = Ok (w', state, input_list) ->
  state = next_state w /\
  forall s, s <> state -> states w' !! s = states w !! s.
Proof.
  unfold enter. intros Hrun. apply bind_inv in Hrun as ([w1 l1] & Hloop & Hrun).
  apply bind_inv in Hrun as (st & _ & Hrun).
  destruct (var_flags st) as [|flags0 later]; [discriminate|].
  injection Hrun as <- <- _. split; [reflexivity|]. intros s Hs.
  cbn [set_state states]. rewrite lookup_insert_ne by congruence.
  rewrite (enter_loop_other_states _ _ _ _ _ _ Hloop s Hs). cbn [states].
  rewrite lookup_insert_ne by congruence. reflexivity.
Qed.

Lemma find_state_elem (state : StateId) (l : list ValueTracingStateElem)
    (e : ValueTracingStateElem) :
  find_state state l = Some e -> e ∈ l /\ elem_state e = state.
Proof.
  intros H. apply List.find_some in H as [Hin Heq].
  split; [apply list_elem_of_In; exact Hin | apply Nat.eqb_eq; exact Heq].
Qed.

(** The state a function is recorded to when one state is active. *)
Lemma getTracingState_single (w : World) (vars : variable_list) (state : StateId)
    (st : TracingState) (v : VarId) (e : ValueTracingStateElem) :
  states w !! state = Some st ->
  active st = true ->
  (forall s st', states w !! s = Some st' -> active st' = true -> s = state) ->
  Some v ∈ vars ->
  association w state v = Some e ->
  getTracingState w vars = Ok state.
Proof.
  intros Hst Hactive Hone Hv He.
  apply find_state_elem in He as [Hin Hstate].
  assert (Hact : isElemActive w e = true).
  { unfold isElemActive. rewrite Hstate, Hst. exact Hactive. }
  assert (Hmem : state ∈ active_states w vars)
    by (apply active_states_elem; exists v, e; auto).
  assert (Hall : forall s, s ∈ active_states w vars -> s = state).
  { intros s Hs. apply active_states_elem in Hs as (u & vts & _ & _ & Hvts & <-).
    unfold isElemActive in Hvts.
    destruct (states w !! elem_state vts) as [st'|] eqn:Hst'; [| discriminate].
    apply (Hone _ st' Hst' Hvts). }
  unfold getTracingState. rewrite getTracingState_vars_agree.
  destruct (active_states w vars) as [|s0 met]; [apply elem_of_nil in Hmem; contradiction|].
  cbn [agree].
  assert (Hs0 : s0 = state) by (apply Hall, elem_of_cons; left; reflexivity).
  destruct (agree_Some met s0) as [[-> _] | [_ (s & Hs & Hne)]].
  - cbn [bind]. rewrite Hs0. reflexivity.
  - exfalso. apply Hne. rewrite Hs0. apply Hall, elem_of_cons. right. exact Hs.
Qed.

Lemma getTracingState_undefined (w : World) (outputs : variable_list) :
  Forall (fun output => output = None) outputs ->
  getTracingState w outputs = Fail assertion_failed.
Proof.
  intros H. unfold getTracingState.
  assert (Hnone : getTracingState_vars w outputs None = Ok None).
  { induction H as [|output rest -> _ IH]; [reflexivity | exact IH]. }
  rewrite Hnone. reflexivity.
Qed.

Lemma aliased_nonempty (fresh : VarId) (earlier : list VarId)
    (trace_inputs : list TraceInput) :
  Exists (fun trace_input => is_Some (variable trace_input)) trace_inputs ->
  aliased fresh earlier trace_inputs <> [].
Proof.
  intros H. revert fresh earlier.
  induction H as [ti rest [v Hv] | ti rest _ IH]; intros fresh earlier; cbn [aliased].
  - rewrite Hv. destruct (bool_decide (v ∈ earlier)); discriminate.
  - destruct (variable ti) as [v|]; [| apply IH].
    destruct (bool_decide (v ∈ earlier)); discriminate.
Qed.

(** X28 (exit, getTracingState, _exit, enter): a trace entered and exited
    through [exit].  In a world where no other trace is active, entering
    a trace on well-formed inputs with at least one variable among them
    and exiting it with the returned variables as outputs succeeds, for
    any backward hook that succeeds and leaves the tracing states alone:
    the state is then inactive, its inputs are cleared, and the graph
    outputs are the graph inputs of the variables.  [exit] on outputs
    none of which is defined stops on an assertion, as no state is found
    for them. *)
Theorem enter_then_public_exit :
  forall (traceBackward : BackwardHook) (w : World) (trace_inputs : list TraceInput)
         (num_stages : nat),
    0 < num_stages ->
    (forall u, association w (next_state w) u = None) ->
    Forall (well_formed_input w) trace_inputs ->
    Exists (fun trace_input => is_Some (variable trace_input)) trace_inputs ->
    (forall s st, states w !! s = Some st -> active st = false) ->
    (forall w0 s ins outs,
        exists w', traceBackward w0 s ins outs = Ok w' /\ states w' = states w0) ->
    (exists w1 input_list w3 st,
        enter w trace_inputs num_stages = Ok (w1, next_state w, input_list) /\
        exit traceBackward w1 input_list = Ok w3 /\
        states w3 !! next_state w = Some st /\
        active st = false /\
        inputs st = [] /\
        graph_outputs (graph st) = input_refs 0 trace_inputs) /\
    (forall w0 outputs,
        Forall (fun output => output = None) outputs ->
        exit traceBackward w0 outputs = Fail assertion_failed).
Proof.
  intros traceBackward w trace_inputs num_stages Hstages Hfresh Hwf Hvar Hquiet Hhook.
  split.
  - destruct (enter_result w trace_inputs num_stages Hstages Hfresh Hwf)
      as (w1 & st1 & Henter & Hst1 & Hactive & _ & Hflags & _ & _ & _ & _ & Hout
          & Hstage & _ & Hrec).
    cbv zeta in *.
    set (state := next_state w) in *.
    set (returned := aliased (next_variable w) [] trace_inputs) in *.
    destruct (enter_other_states w w1 trace_inputs num_stages state _ Henter)
      as [_ Hothers].
    assert (Hstate : getTracingState w1 (map Some returned) = Ok state).
    { pose proof (aliased_nonempty (next_variable w) [] trace_inputs Hvar) as Hne.
      fold returned in Hne.
      destruct Hrec as [|v r vs refs (e & He & _) _]; [contradiction|].
      apply (getTracingState_single w1 _ state st1 v e Hst1 Hactive); [| | exact He].
      - intros s st' Hst' Hact'. destruct (decide (s = state)) as [|Hs]; [assumption|].
        rewrite (Hothers s Hs) in Hst'. rewrite (Hquiet s st' Hst') in Hact'. discriminate.
      - cbn [map]. apply elem_of_cons. left. reflexivity. }
    pose proof (registers_recorded w1 state (next_unique (graph st1)) returned _ Hrec)
      as Hreg.
    destruct (exit_run w1 state (map Some returned) st1 _ []
                (getVarFlags w1 (map Some returned), []) Hst1 Hreg)
      as (w2 & Hexit & Hstates2).
    { rewrite Hflags, Hstage. reflexivity. }
    destruct (Hhook w2 state (inputs st1) (map Some returned)) as (w3 & Hback & Hstates3).
    exists w1, (map Some returned). eexists _, _. split; [exact Henter|].
    split.
    { unfold exit. rewrite Hstate. cbn [bind]. rewrite Hexit. cbn [bind].
      unfold deref at 1. rewrite Hstates2, lookup_insert_eq. cbn [bind inputs].
      rewrite Hback. cbn [bind]. unfold deref.
      rewrite Hstates3, Hstates2, lookup_insert_eq. cbn [bind]. reflexivity. }
    split; [cbn [set_state states]; apply lookup_insert_eq|].
    cbn [active inputs graph exited_graph graph_outputs].
    split; [reflexivity|]. split; [reflexivity|]. rewrite Hout. reflexivity.
  - intros w0 outputs Hnone. unfold exit.
    rewrite (getTracingState_undefined w0 outputs Hnone). reflexivity.
Qed.

(** *** A small world to run the tracer in *)

Module Sample.

Definition two_floats : Tensor :=
  {| sizes := [2]%Z; strides := [1]%Z; scalarType := kFloat; data := [1; 2]%Z |}.

Definition untraced (n : string) : VariableImpl :=
  {| name := n; var_data := two_floats; requires_grad := false;
     is_volatile := false; tracing_state := [] |}.

(** Two variables, [x] = 0 and [y] = 1, and no trace. *)
Definition before : World :=
  {| variables := <[0 := untraced "x"]> (<[1 := untraced "y"]> ∅);
     states := ∅; next_variable := 2; next_state := 0 |}.

Definition var (v : VarId) : TraceInput := {| variable := Some v; buffer := None |}.

(** The world while trace 0 runs with [x] as its only input; [y] has
    nothing to do with the trace. *)
Definition tracing : World :=
  {| variables :=
       <[0 := {| name := "x"; var_data := two_floats; requires_grad := false;
                 is_volatile := false;
                 tracing_state := [{| elem_state := 0; trace := Some 0 |}] |}]>
         (<[1 := untraced "y"]> ∅);
     states :=
       <[0 := {| graph := {| next_unique := 1;
                             graph_inputs :=
                               [{| value_unique := 0; value_name := "x";
                                   value_type := TensorType kFloat [2]%Z [1]%Z |}];
                             graph_nodes := []; graph_outputs := []; stage := 0 |};
                 buffer_map := ∅; active := true; inputs := [Some 0];
                 var_flags := [([{| flag_requires_grad := false;
                                    flag_is_volatile := false;
                                    was_null := false |}], [])] |}]> ∅;
     next_variable := 2; next_state := 1 |}.

End Sample.

Import Sample.

Lemma enter_aliases_repeated_inputs_witness :
  exists w' st,
    enter before [var 0; var 1; var 0] 1 = Ok (w', 0, [Some 0; Some 1; Some 2]) /\
    states w' !! 0 = Some st /\
    active st = true /\
    inputs st = [Some 0; Some 1; Some 2] /\
    map value_unique (graph_inputs (graph st)) = [0; 1; 2] /\
    NoDup [0; 1; 2] /\
    Forall2 (same_tensor before w') [0; 1; 0] [0; 1; 2] /\
    Forall2 (recorded w' 0) [0; 1; 2] [0; 1; 2] /\
    NoDup [0; 1; 2].
Proof.
  apply (enter_aliases_repeated_inputs before [var 0; var 1; var 0] 1).
  - lia.
  - intros u. unfold association, impl, before. cbn [variables].
    destruct (decide (u = 0)) as [->|H0]; [reflexivity|].
    destruct (decide (u = 1)) as [->|H1]; [reflexivity|].
    rewrite !lookup_insert_ne, lookup_empty by congruence. reflexivity.
  - repeat constructor.
Defined.

Lemma exit_names_unassociated_output_witness :
  _exit tracing 0 [Some 0; Some 1] = Fail (runtime_error (no_dependence 1)) /\
  exit (fun w _ _ _ => Ok w) tracing [Some 0; Some 1]
  = Fail (runtime_error (no_dependence 1)).
Proof.
  destruct (exit_names_unassociated_output tracing 0 [Some 0; Some 1] 1 1)
    as [Hexit Hpublic].
  - eexists. reflexivity.
  - reflexivity.
  - reflexivity.
  - intros j output Hj Hout. destruct j as [|j]; [| lia].
    injection Hout as <-. eexists _, _. split; reflexivity.
  - split; [exact Hexit|]. apply Hpublic. reflexivity.
Defined.

(** C2 as the specification states it fails on these exits.  In the
    first the second output is the undefined variable, for which no state
    has recorded anything, and exit succeeds: the output is registered as
    the output of a new Undefined node.  In the second both outputs are
    variables the trace never saw, and the diagnostic names index 0, not
    the index 1 of the second of them. *)
Lemma undefined_output_is_no_error :
  ([Some 0; None] !! 1 = Some (@None VarId) /\
   getTracingState tracing [Some 0; None] = Ok 0 /\
   exists w' st,
     _exit tracing 0 [Some 0; None] = Ok w' /\
     states w' !! 0 = Some st /\
     active st = false /\
     graph_outputs (graph st) = [0; 1] /\
     map node_kind (graph_nodes (graph st)) = [kUndefined]) /\
  (association tracing 0 1 = None /\
   association tracing 0 7 = None /\
   _exit tracing 0 [Some 1; Some 7] = Fail (runtime_error (no_dependence 0)) /\
   no_dependence 0 <> no_dependence 1).
Proof.
  split.
  - split; [reflexivity|]. split; [reflexivity|].
    eexists _, _. split; [reflexivity|].
    split; [reflexivity|]. repeat split.
  - repeat split. discriminate.
Qed.


(** A buffer, a way to make constants, and the storage of a tensor, to
    run [getValueTrace] and [enter] with. *)
Definition running_mean : Buffer :=
  {| buffer_id := 7;
     buffer_tensor := {| sizes := [3]%Z; strides := [1]%Z; scalarType := kDouble;
                         data := [0; 0; 0]%Z |} |}.

Definition buf (b : Buffer) : TraceInput := {| variable := None; buffer := Some b |}.

Definition append_constant : ConstantHook :=
  fun g _ =>
    let v := {| value_unique := next_unique g; value_name := "";
                value_type := DynamicType |} in
    ({| next_unique := S (next_unique g);
        graph_inputs := graph_inputs g;
        graph_nodes := graph_nodes g ++ [{| node_kind := "Constant"; node_output := v |}];
        graph_outputs := graph_outputs g;
        stage := stage g |}, value_unique v).

Definition storage_of (t : Tensor) : BufferId := length (data t).

Lemma before_untraced (s : StateId) (u : VarId) : association before s u = None.
Proof.
  unfold association, impl, before. cbn [variables].
  destruct (decide (u = 0)) as [->|H0]; [reflexivity|].
  destruct (decide (u = 1)) as [->|H1]; [reflexivity|].
  rewrite !lookup_insert_ne, lookup_empty by congruence. reflexivity.
Qed.

Lemma getTracingState_spec_witness :
  (getTracingState tracing [Some 0; Some 1; None] = Ok 0 /\
   isTracingVar_list tracing [Some 0; Some 1; None] = true) /\
  (isTracingVar_list before [Some 0; Some 1] = false /\
   getTracingState before [Some 0; Some 1] = Fail assertion_failed).
Proof.
  split; (split; [reflexivity|]).
  - apply (proj1 (proj1 (getTracingState_spec tracing [Some 0; Some 1; None]) 0)).
    reflexivity.
  - apply (proj1 (proj2 (getTracingState_spec before [Some 0; Some 1]))).
    reflexivity.
Defined.

Lemma setValueTrace_then_getOutputTrace_witness :
  is_Some (states tracing !! 0) /\
  exists w1 w2,
    setValueTrace tracing 0 (Some 1) 5 = Ok w1 /\
    getOutputTrace w1 0 (Some 1) 3 = Ok (w2, Some 5).
Proof.
  assert (H : is_Some (states tracing !! 0)) by (eexists; reflexivity).
  split; [exact H|].
  destruct (setValueTrace_then_getOutputTrace tracing 0 1 5 3 H)
    as [(w1 & w2 & H1 & H2 & _) _].
  exists w1, w2. split; assumption.
Defined.

Lemma getValueTrace_resolves_witness :
  exists st,
    states tracing !! 0 = Some st /\
    (exists w', getValueTrace append_constant storage_of tracing 0 (Some 0) = Ok (w', 0)) /\
    (exists w', getValueTrace append_constant storage_of tracing 0 (Some 1) = Ok (w', 1) /\
                recorded w' 0 1 1).
Proof.
  eexists. split; [reflexivity|].
  destruct (getValueTrace_resolves append_constant storage_of tracing 0 0 _ eq_refl)
    as [Hrec _].
  destruct (getValueTrace_resolves append_constant storage_of tracing 0 1 _ eq_refl)
    as [_ Hnone].
  split.
  - destruct (Hrec 0) as (w' & Hget & _).
    + eexists. split; reflexivity.
    + exists w'. exact Hget.
  - destruct Hnone as (w' & Hget & _ & Hrecorded).
    + intros r (e & He & _). discriminate He.
    + exists w'. split; [exact Hget | exact Hrecorded].
Defined.

Lemma getValueTrace_again_witness :
  exists w1 w2,
    getValueTrace append_constant storage_of tracing 0 (Some 1) = Ok (w1, 1) /\
    getValueTrace append_constant storage_of w1 0 (Some 1) = Ok (w2, 1) /\
    states w2 = states w1.
Proof.
  destruct (getValueTrace_again append_constant storage_of tracing _ 0 1 1
              ltac:(eexists; reflexivity) eq_refl) as [(w2 & Hagain & Hstates) _].
  eexists _, w2. split; [reflexivity|]. split; assumption.
Defined.

Lemma exit_registers_outputs_witness :
  exists st w',
    states tracing !! 0 = Some st /\
    registers tracing 0 1 [Some 0; None] [0; 1]
      [{| node_kind := kUndefined;
          node_output := {| value_unique := 1; value_name := "";
                            value_type := DynamicType |} |}] /\
    _exit tracing 0 [Some 0; None] = Ok w' /\
    states w'
    = <[0 := {| graph := exited_graph (graph st) [0; 1]
                           [{| node_kind := kUndefined;
                               node_output := {| value_unique := 1; value_name := "";
                                                 value_type := DynamicType |} |}];
                buffer_map := buffer_map st;
                active := false;
                inputs := inputs st;
                var_flags := <[0 := ([{| flag_requires_grad := false;
                                         flag_is_volatile := false;
                                         was_null := false |}],
                                     getVarFlags tracing [Some 0; None])]>
                               (var_flags st) |}]> (states tracing).
Proof.
  assert (Hreg : registers tracing 0 1 [Some 0; None] [0; 1]
            [{| node_kind := kUndefined;
                node_output := {| value_unique := 1; value_name := "";
                                  value_type := DynamicType |} |}]).
  { constructor; [eexists; split; reflexivity|]. constructor. constructor. }
  eexists _, _. split; [reflexivity|]. split; [exact Hreg|]. split; [reflexivity|].
  destruct (exit_registers_outputs tracing 0 [Some 0; None] _ eq_refl) as [_ Hstate].
  exact (Hstate _ _ _ _ eq_refl Hreg eq_refl).
Defined.


Lemma enter_registers_buffers_witness :
  exists w' input_list st,
    enter before [var 0; buf running_mean; buf running_mean] 1 = Ok (w', 0, input_list) /\
    states w' !! 0 = Some st /\
    (forall id, buffer_map st !! id
                = first_buffer 0 id [var 0; buf running_mean; buf running_mean]) /\
    first_buffer 0 7 [var 0; buf running_mean; buf running_mean] = Some 1.
Proof.
  destruct (enter_registers_buffers before [var 0; buf running_mean; buf running_mean] 1)
    as (w' & input_list & st & Henter & Hst & Hbuf & _).
  - lia.
  - apply before_untraced.
  - repeat constructor.
  - exists w', input_list, st. repeat split; assumption.
Defined.

Lemma enter_then_exit_witness :
  exists w1 input_list w2 st,
    enter before [var 0; buf running_mean; var 0] 2 = Ok (w1, 0, input_list) /\
    _exit w1 0 input_list = Ok w2 /\
    states w2 !! 0 = Some st /\
    active st = false /\
    inputs st = input_list /\
    graph_outputs (graph st) = [0; 2] /\
    map value_unique (graph_inputs (graph st)) = [0; 1; 2] /\
    graph_nodes (graph st) = [] /\
    var_flags st !! 0 = Some (getVarFlags w1 input_list, getVarFlags w1 input_list).
Proof.
  apply (enter_then_exit before [var 0; buf running_mean; var 0] 2).
  - lia.
  - apply before_untraced.
  - repeat constructor.
Defined.

Lemma enter_rejects_malformed_input_witness :
  enter before ([var 0] ++ {| variable := Some 1; buffer := Some running_mean |} :: [var 1]) 1
  = Fail assertion_failed /\
  enter before ([] ++ {| variable := None; buffer := None |} :: [var 1]) 1
  = Fail assertion_failed.
Proof.
  split.
  - apply (enter_rejects_malformed_input before [var 0]
             {| variable := Some 1; buffer := Some running_mean |} [var 1] 1).
    + apply before_untraced.
    + repeat constructor.
    + split; intros _; eexists; reflexivity.
  - apply (enter_rejects_malformed_input before []
             {| variable := None; buffer := None |} [var 1] 1).
    + apply before_untraced.
    + constructor.
    + split; intros [? H]; discriminate H.
Defined.

Lemma enter_then_public_exit_witness :
  exists w1 input_list w3 st,
    enter before [var 0; buf running_mean; var 0] 1 = Ok (w1, 0, input_list) /\
    exit (fun w _ _ _ => Ok w) w1 input_list = Ok w3 /\
    states w3 !! 0 = Some st /\
    active st = false /\
    inputs st = [] /\
    graph_outputs (graph st) = [0; 2].
Proof.
  refine (proj1 (enter_then_public_exit (fun w _ _ _ => Ok w) before
                   [var 0; buf running_mean; var 0] 1 _ _ _ _ _ _)).
  - lia.
  - apply before_untraced.
  - repeat constructor.
  - constructor. eexists. reflexivity.
  - intros s st H. cbn [before states] in H. rewrite lookup_empty in H. discriminate H.
  - intros w0 s ins outs. exists w0. split; reflexivity.
Defined.

End Tracer.
